(** * bluepysnap.query: resolution of node/edge queries into row masks

    Shallow embedding of [bluepysnap/query.py] (and of [ensure_list] from
    [bluepysnap/utils.py]).  Python dictionaries and lists are mutable
    objects living in a store; the query functions read and update that
    store exactly where the Python code reads and mutates its arguments. *)

From Stdlib Require Import ZArith Ascii String List Bool Lia.
From Stdlib Require Import Floats.
From stdpp Require Import base option list strings.

Set Warnings "-register-all".

Open Scope string_scope.
Open Scope list_scope.
Open Scope Z_scope.

(** ** Python scalars and outcomes *)

(** Immutable Python scalars that can occur in a query or in a table cell. *)
Inductive scalar :=
| SNone
| SBool (b : bool)
| SInt (z : Z)
| SFloat (f : float)
| SStr (s : string).

(** The ways a call can end without a value.  [QueryError] is
    [BluepySnapError] carrying its message; [PyError] stands for every
    other Python exception (TypeError, ValueError, KeyError,
    AttributeError, pandas' InvalidIndexError, re.error).  [OutOfFuel]
    marks a run cut short by the recursion bound of the model, and
    [Unmodelled] an input on which Python, numpy, pandas or re have a
    behaviour this development does not describe. *)
Inductive error :=
| QueryError (msg : string)
| PyError (what : string)
| OutOfFuel
| Unmodelled (what : string).

Inductive result (A : Type) :=
| Ok (a : A)
| Err (e : error).
Arguments Ok {A} a.
Arguments Err {A} e.

#[global] Instance result_ret : MRet result := fun _ a => Ok a.
#[global] Instance result_bind : MBind result := fun _ _ k r =>
  match r with
  | Ok a => k a
  | Err e => Err e
  end.

Fixpoint mapM {A B} (f : A -> result B) (l : list A) : result (list B) :=
  match l with
  | [] => Ok []
  | a :: l' => b ← f a; bs ← mapM f l'; Ok (b :: bs)
  end.

(** ** Mask algebra *)

(** A mask is the Python singleton [True] or [False], or a numpy boolean
    array. *)
Inductive mask :=
| MBool (b : bool)
| MVec (v : list bool).

(** numpy elementwise operator on two boolean arrays, with numpy's
    broadcasting of a one-element array. *)
Definition np_binop (op : bool -> bool -> bool) (a b : list bool)
  : result (list bool) :=
  if (length a =? length b)%nat then Ok (zip_with op a b)
  else match a, b with
       | [x], _ => Ok (map (op x) b)
       | _, [y] => Ok (map (fun x => op x y) a)
       | _, _ => Err (PyError "ValueError: operands could not be broadcast together")
       end.

(** [reduce(op, arrays)] for a non-empty sequence of arrays. *)
Fixpoint np_reduce (op : bool -> bool -> bool) (acc : list bool)
  (rest : list (list bool)) : result (list bool) :=
  match rest with
  | [] => Ok acc
  | v :: rest' => acc' ← np_binop op acc v; np_reduce op acc' rest'
  end.

(** The scanning loop of [_logical_and]: [filtered] is
    [filtered_masks]; [None] is the early [return False]. *)
Fixpoint and_scan (masks : list mask) (filtered : list (list bool))
  : option (list (list bool)) :=
  match masks with
  | [] => Some filtered
  | MBool false :: _ => None
  | MBool true :: rest => and_scan rest filtered
  | MVec v :: rest => and_scan rest (filtered ++ [v])
  end.

Definition _logical_and (masks : list mask) : result mask :=
  match and_scan masks [] with
  | None => Ok (MBool false)
  | Some [] => Ok (MBool true)
  | Some (v :: vs) => r ← np_reduce andb v vs; Ok (MVec r)
  end.

(** The scanning loop of [_logical_or]; [None] is the early
    [return True]. *)
Fixpoint or_scan (masks : list mask) (filtered : list (list bool))
  : option (list (list bool)) :=
  match masks with
  | [] => Some filtered
  | MBool true :: _ => None
  | MBool false :: rest => or_scan rest filtered
  | MVec v :: rest => or_scan rest (filtered ++ [v])
  end.

Definition _logical_or (masks : list mask) : result mask :=
  match or_scan masks [] with
  | None => Ok (MBool true)
  | Some [] => Ok (MBool false)
  | Some (v :: vs) => r ← np_reduce orb v vs; Ok (MVec r)
  end.

(** ** Regular expressions ([re.match] on a subset of the [re] syntax) *)

(** Parsed patterns.  [REnd] is the assertion [\Z] (only at the end of
    the string); [RFail] matches nothing and appears only in
    derivatives. *)
Inductive regex :=
| RFail
| REps
| RChar (c : ascii)
| RAny
| REnd
| RSeq (r1 r2 : regex)
| RAlt (r1 r2 : regex)
| RStar (r : regex).

Definition newline : ascii := ascii_of_nat 10.

Definition is_alnum (c : ascii) : bool :=
  let n := nat_of_ascii c in
  ((48 <=? n) && (n <=? 57) || (65 <=? n) && (n <=? 90)
   || (97 <=? n) && (n <=? 122))%nat.

(** An escape sequence [\c]. *)
Definition parse_escape (c : ascii) : result regex :=
  if Ascii.eqb c "Z" then Ok REnd
  else if Ascii.eqb c "n" then Ok (RChar newline)
  else if Ascii.eqb c "t" then Ok (RChar (ascii_of_nat 9))
  else if is_alnum c then Err (Unmodelled "re: escape class")
  else Ok (RChar c).

(** The repetition suffix that may follow an atom: [*], [+], [?], each
    optionally made lazy by a further [?] (same matched strings). *)
Definition parse_repeat (a : regex) (s : list ascii)
  : result (regex * list ascii) :=
  let lazy (r : regex) (s' : list ascii) : result (regex * list ascii) :=
    match s' with
    | c :: s'' =>
        if Ascii.eqb c "?" then Ok (r, s'')
        else if Ascii.eqb c "*" then Err (PyError "re.error: multiple repeat")
        else if Ascii.eqb c "+" then Err (Unmodelled "re: possessive repeat")
        else if Ascii.eqb c "{" then Err (Unmodelled "re: counted repeat")
        else Ok (r, s')
    | [] => Ok (r, s')
    end in
  match s with
  | c :: s' =>
      if Ascii.eqb c "*" || Ascii.eqb c "+" || Ascii.eqb c "?" then
        match a with
        | REnd => Err (PyError "re.error: nothing to repeat")
        | _ =>
            if Ascii.eqb c "*" then lazy (RStar a) s'
            else if Ascii.eqb c "+" then lazy (RSeq a (RStar a)) s'
            else lazy (RAlt a REps) s'
        end
      else if Ascii.eqb c "{" then Err (Unmodelled "re: counted repeat")
      else Ok (a, s)
  | [] => Ok (a, s)
  end.

Definition starts_with (c : ascii) (s : list ascii) : bool :=
  match s with
  | x :: _ => Ascii.eqb x c
  | [] => false
  end.

(** An atom that starts with the character [c], [s'] being what
    follows it: a group (read by [alt]), an escape, [.], or a literal
    character. *)
Definition parse_atom (alt : list ascii -> result (regex * list ascii))
  (c : ascii) (s' : list ascii) : result (regex * list ascii) :=
  if Ascii.eqb c "(" then
    if starts_with "?" s' then Err (Unmodelled "re: group extension")
    else
      '(r, s1) ← alt s';
      if starts_with ")" s1 then Ok (r, tl s1)
      else Err (PyError "re.error: missing ), unterminated subpattern")
  else if Ascii.eqb c "\" then
    match s' with
    | e :: s1 => r ← parse_escape e; Ok (r, s1)
    | [] => Err (PyError "re.error: bad escape (end of pattern)")
    end
  else if Ascii.eqb c "." then Ok (RAny, s')
  else if Ascii.eqb c "*" || Ascii.eqb c "+" || Ascii.eqb c "?"
  then Err (PyError "re.error: nothing to repeat")
  else if Ascii.eqb c "[" || Ascii.eqb c "{" || Ascii.eqb c "^" || Ascii.eqb c "$"
  then Err (Unmodelled "re: character class, counted repeat or anchor")
  else Ok (RChar c, s').

(** Recursive descent: [parse_alt] reads alternatives separated by [|],
    [parse_seq] a sequence of repeated atoms up to [|], [)] or the end
    of the pattern.  Alternation binds weakest, as in [re]. *)
Fixpoint parse_alt (n : nat) (s : list ascii) {struct n}
  : result (regex * list ascii) :=
  match n with
  | O => Err OutOfFuel
  | S n' =>
      '(r, s1) ← parse_seq n' s;
      if starts_with "|" s1 then
        '(r2, s3) ← parse_alt n' (tl s1); Ok (RAlt r r2, s3)
      else Ok (r, s1)
  end
with parse_seq (n : nat) (s : list ascii) {struct n}
  : result (regex * list ascii) :=
  match n with
  | O => Err OutOfFuel
  | S n' =>
      match s with
      | [] => Ok (REps, s)
      | c :: s' =>
          if Ascii.eqb c "|" || Ascii.eqb c ")" then Ok (REps, s)
          else
            '(a, s1) ← parse_atom (parse_alt n') c s';
            '(a', s2) ← parse_repeat a s1;
            '(r, s3) ← parse_seq n' s2;
            Ok (RSeq a' r, s3)
      end
  end.

(** [re.compile(pattern)]. *)
Definition re_compile (pattern : string) : result regex :=
  let s := list_ascii_of_string pattern in
  '(r, rest) ← parse_alt (2 * length s + 2) s;
  match rest with
  | [] => Ok r
  | _ => Err (PyError "re.error: unbalanced parenthesis")
  end.

(** Does [r] match the empty word at the current position?  [at_end]
    tells whether that position is the end of the string. *)
Fixpoint nullable (at_end : bool) (r : regex) : bool :=
  match r with
  | RFail => false
  | REps => true
  | RChar _ => false
  | RAny => false
  | REnd => at_end
  | RSeq r1 r2 => nullable at_end r1 && nullable at_end r2
  | RAlt r1 r2 => nullable at_end r1 || nullable at_end r2
  | RStar _ => true
  end.

(** What remains of [r] once the character [c] has been consumed. *)
Fixpoint deriv (c : ascii) (r : regex) : regex :=
  match r with
  | RFail => RFail
  | REps => RFail
  | RChar c' => if Ascii.eqb c c' then REps else RFail
  | RAny => if Ascii.eqb c newline then RFail else REps
  | REnd => RFail
  | RSeq r1 r2 =>
      if nullable false r1
      then RAlt (RSeq (deriv c r1) r2) (deriv c r2)
      else RSeq (deriv c r1) r2
  | RAlt r1 r2 => RAlt (deriv c r1) (deriv c r2)
  | RStar r1 => RSeq (deriv c r1) (RStar r1)
  end.

Definition is_nil {A} (l : list A) : bool :=
  match l with [] => true | _ => false end.

(** [re.match(r, s) is not None]: some prefix of [s] is matched by [r],
    starting at the first character. *)
Fixpoint re_match (r : regex) (s : list ascii) : bool :=
  nullable (is_nil s) r ||
  match s with
  | [] => false
  | c :: s' => re_match (deriv c r) s'
  end.

(** The words of a pattern without assertions: [lang r w] says that
    [r] matches the whole of [w], from its first to its last character. *)
Inductive lang : regex -> list ascii -> Prop :=
| lang_eps : lang REps []
| lang_char c : lang (RChar c) [c]
| lang_any c : c <> newline -> lang RAny [c]
| lang_seq r1 r2 w1 w2 : lang r1 w1 -> lang r2 w2 -> lang (RSeq r1 r2) (w1 ++ w2)
| lang_alt_l r1 r2 w : lang r1 w -> lang (RAlt r1 r2) w
| lang_alt_r r1 r2 w : lang r2 w -> lang (RAlt r1 r2) w
| lang_star_nil r : lang (RStar r) []
| lang_star_cons r w1 w2 :
    lang r w1 -> lang (RStar r) w2 -> lang (RStar r) (w1 ++ w2).

(** [prop.str.match(pat)] on the cells of a string column. *)
Definition str_match (pat : string) (cells : list string) : result (list bool) :=
  r ← re_compile pat;
  Ok (map (fun s => re_match r (list_ascii_of_string s)) cells).

(** ** Query values *)

(** A query as the caller writes it: a JSON-like tree of dictionaries
    (insertion-ordered), lists, tuples of scalars and scalars; numpy
    arrays of booleans (masks) and of IDs also occur as values. *)
Inductive value :=
| VScalar (a : scalar)
| VTuple (l : list scalar)
| VArr (v : list bool)
| VIds (ids : list Z)
| VList (l : list value)
| VDict (d : list (string * value)).

Definition NODE_ID_KEY := "node_id".
Definition EDGE_ID_KEY := "edge_id".
Definition POPULATION_KEY := "population".
Definition OR_KEY := "$or".
Definition AND_KEY := "$and".
Definition REGEX_KEY := "$regex".
Definition NODE_SET_KEY := "$node_set".
Definition VALUE_KEYS : list string := [REGEX_KEY].
Definition ALL_KEYS : list string :=
  [NODE_ID_KEY; EDGE_ID_KEY; POPULATION_KEY; OR_KEY; AND_KEY; NODE_SET_KEY]
  ++ VALUE_KEYS.

(** [k in keys] for a set or list of strings. *)
Definition mem (k : string) (keys : list string) : bool :=
  existsb (String.eqb k) keys.

(** Dictionaries keep insertion order; a key occurs once. *)
Section Dict.
Context {V : Type}.

Fixpoint dict_get (k : string) (d : list (string * V)) : option V :=
  match d with
  | [] => None
  | (k', v) :: d' => if String.eqb k k' then Some v else dict_get k d'
  end.

(** [d[k] = v]: in place when the key exists, appended otherwise. *)
Fixpoint dict_set (k : string) (v : V) (d : list (string * V))
  : list (string * V) :=
  match d with
  | [] => [(k, v)]
  | (k', v') :: d' =>
      if String.eqb k k' then (k', v) :: d' else (k', v') :: dict_set k v d'
  end.

Definition dict_del (k : string) (d : list (string * V)) : list (string * V) :=
  List.filter (fun kv => negb (String.eqb k (fst kv))) d.

(** [d.pop(k, default)]: the value and the dictionary without [k]. *)
Definition dict_pop (k : string) (default : V) (d : list (string * V))
  : V * list (string * V) :=
  match dict_get k d with
  | Some v => (v, dict_del k d)
  | None => (default, d)
  end.
End Dict.

(** ** Tables *)

Inductive column :=
| ColInt (cells : list Z)
| ColFloat (cells : list float)
| ColStr (cells : list string)
| ColCat (cells : list string).

(** A pandas DataFrame: the index holds the node or edge IDs, one per
    row; every column has one cell per row. *)
Record DataFrame := {
  df_index : list Z;
  df_columns : list (string * column)
}.

Definition len (data : DataFrame) : nat := length (df_index data).

Definition col_len (c : column) : nat :=
  match c with
  | ColInt l => length l
  | ColFloat l => length l
  | ColStr l => length l
  | ColCat l => length l
  end.

Definition wf_table (data : DataFrame) : Prop :=
  NoDup (df_index data) /\
  Forall (fun nc => col_len (snd nc) = len data) (df_columns data).

(** [np.issubdtype(prop.dtype.type, np.floating)] *)
Definition is_floating (c : column) : bool :=
  match c with ColFloat _ => true | _ => false end.

Definition float_of_Z (z : Z) : float :=
  if z <? 0 then PrimFloat.opp (PrimFloat.of_uint63 (Uint63.of_Z (- z)))
  else PrimFloat.of_uint63 (Uint63.of_Z z).

(** The number a scalar stands for in a comparison with a float. *)
Definition as_float (a : scalar) : option float :=
  match a with
  | SInt z => Some (float_of_Z z)
  | SFloat f => Some f
  | SBool b => Some (if b then 1%float else 0%float)
  | SNone | SStr _ => None
  end.

(** Python's [==] between a cell and a scalar. *)
Definition int_eq (z : Z) (a : scalar) : bool :=
  match a with
  | SInt z' => z =? z'
  | SBool b => z =? Z.b2z b
  | SFloat f => PrimFloat.eqb (float_of_Z z) f
  | SNone | SStr _ => false
  end.

Definition float_eq (f : float) (a : scalar) : bool :=
  match as_float a with
  | Some f' => PrimFloat.eqb f f'
  | None => false
  end.

Definition str_eq (s : string) (a : scalar) : bool :=
  match a with
  | SStr s' => String.eqb s s'
  | _ => false
  end.

(** [prop == a] for a scalar [a]: one boolean per row. *)
Definition col_eq (c : column) (a : scalar) : list bool :=
  match c with
  | ColInt l => map (fun z => int_eq z a) l
  | ColFloat l => map (fun f => float_eq f a) l
  | ColStr l => map (fun s => str_eq s a) l
  | ColCat l => map (fun s => str_eq s a) l
  end.

(** [prop == seq] for an array-like of scalars: elementwise, the
    lengths must agree. *)
Definition col_eq_seq (c : column) (l : list scalar) : result (list bool) :=
  if (col_len c =? length l)%nat then
    Ok (match c with
        | ColInt cells => zip_with int_eq cells l
        | ColFloat cells => zip_with float_eq cells l
        | ColStr cells => zip_with str_eq cells l
        | ColCat cells => zip_with str_eq cells l
        end)
  else Err (PyError "ValueError: Lengths must match to compare").

(** [prop.isin(values)] for a list of scalars. *)
Definition col_isin (c : column) (l : list scalar) : list bool :=
  match c with
  | ColInt cells => map (fun z => existsb (int_eq z) l) cells
  | ColFloat cells => map (fun f => existsb (float_eq f) l) cells
  | ColStr cells => map (fun s => existsb (str_eq s) l) cells
  | ColCat cells => map (fun s => existsb (str_eq s) l) cells
  end.

(** [np.logical_and(prop >= v1, prop <= v2)] on a float column. *)
Definition col_range (cells : list float) (v1 v2 : float) : list bool :=
  map (fun c => PrimFloat.leb v1 c && PrimFloat.leb c v2) cells.

(** [prop.str]: only string-like columns have the accessor. *)
Definition str_cells (c : column) : result (list string) :=
  match c with
  | ColStr l | ColCat l => Ok l
  | _ => Err (PyError "AttributeError: Can only use .str accessor with string values")
  end.

(** [data.index.get_indexer(ids)]: the row position of each ID, [-1]
    for an ID that is not in the index. *)
Fixpoint get_loc (index : list Z) (id : Z) : Z :=
  match index with
  | [] => -1
  | x :: rest =>
      if x =? id then 0
      else let p := get_loc rest id in if p <? 0 then -1 else p + 1
  end.

(** The ID an element of the requested collection denotes, if any. *)
Definition id_of_scalar (a : scalar) : result (option Z) :=
  match a with
  | SInt z => Ok (Some z)
  | SBool b => Ok (Some (Z.b2z b))
  | SNone | SStr _ => Ok None
  | SFloat _ => Err (Unmodelled "get_indexer: float target")
  end.

Definition get_indexer (index : list Z) (ids : list scalar) : result (list Z) :=
  if bool_decide (NoDup index) then
    mapM (fun a => o ← id_of_scalar a;
                   Ok (match o with Some z => get_loc index z | None => -1 end))
         ids
  else Err (PyError "InvalidIndexError: Reindexing only valid with uniquely valued Index objects").

(** [mask[positions] = True] *)
Definition set_true (mask : list bool) (positions : list Z) : list bool :=
  fold_left (fun m i => <[Z.to_nat i := true]> m) positions mask.

(** ** Leaf predicates: [_complex_query], [_positional_mask],
       [_circuit_mask], [_properties_mask]

    These functions only read the values they are given; the one
    dictionary they change ([queries.pop]) is the fresh single-node
    dictionary built by their caller, so it is passed and returned
    explicitly. *)

Definition unknown_modifier (key : string) : string :=
  ("Unknown query modifier: '" +:+ key +:+ "'")%string.

(** [for key, value in query.items(): ...] of [_complex_query], with
    [result_] as the loop variable [result]. *)
Fixpoint _complex_query_loop (prop : column) (query : list (string * value))
  (result_ : mask) : result mask :=
  match query with
  | [] => Ok result_
  | (key, value) :: rest =>
      if String.eqb key REGEX_KEY then
        cells ← str_cells prop;
        pat ← match value with
              | VScalar (SStr pat) => Ok pat
              | _ => Err (PyError "TypeError: unsupported operand type(s) for +")
              end;
        m ← str_match (pat +:+ "\Z") cells;
        result' ← _logical_and [result_; MVec m];
        _complex_query_loop prop rest result'
      else Err (QueryError (unknown_modifier key))
  end.

Definition _complex_query (prop : column) (query : list (string * value))
  : result mask :=
  _complex_query_loop prop query (MBool true).

(** The elements of a collection of requested IDs. *)
Definition ids_elements (ids : value) : result (list scalar) :=
  match ids with
  | VTuple l => Ok l
  | VIds zs => Ok (map SInt zs)
  | VArr bs => Ok (map SBool bs)
  | VList l =>
      mapM (fun v => match v with
                     | VScalar a => Ok a
                     | _ => Err (Unmodelled "get_indexer: nested target")
                     end) l
  | VDict _ => Err (Unmodelled "get_indexer: mapping target")
  | VScalar _ => Err (PyError "TypeError: Index(...) must be called with a collection of some kind")
  end.

(** [ids] is [None] for the absent restriction. *)
Definition _positional_mask (data : DataFrame) (ids : value) : result mask :=
  match ids with
  | VScalar SNone => Ok (MBool true)
  | _ =>
      elems ← match ids with
              | VScalar (SInt z) => Ok [SInt z]
              | VScalar (SBool b) => Ok [SBool b]
              | _ => ids_elements ids
              end;
      let mask_ := repeat false (len data) in
      indices ← get_indexer (df_index data) elems;
      Ok (MVec (set_true mask_ (List.filter (fun i => -1 <? i) indices)))
  end.

(** [utils.is_iterable] and [utils.ensure_list]: strings are scalars. *)
Definition is_iterable (v : value) : bool :=
  match v with
  | VScalar _ => false
  | _ => true
  end.

Definition ensure_list (v : value) : list value :=
  match v with
  | VScalar _ => [v]
  | VTuple l => map VScalar l
  | VArr bs => map (fun b => VScalar (SBool b)) bs
  | VIds zs => map (fun z => VScalar (SInt z)) zs
  | VList l => l
  | VDict d => map (fun kv => VScalar (SStr (fst kv))) d
  end.

Definition hashable (v : value) : bool :=
  match v with
  | VScalar _ | VTuple _ => true
  | _ => false
  end.

(** [population_name in set(names)] *)
Definition name_in_set (population_name : string) (names : list value)
  : result bool :=
  if forallb hashable names then
    Ok (existsb (fun v => match v with
                          | VScalar (SStr n) => String.eqb population_name n
                          | _ => false
                          end) names)
  else Err (PyError "TypeError: unhashable type").

Definition is_None (v : value) : bool :=
  match v with VScalar SNone => true | _ => false end.

Definition _circuit_mask (data : DataFrame) (population_name : string)
  (queries : list (string * value))
  : result (list (string * value) * mask) :=
  let '(populations, queries) := dict_pop POPULATION_KEY (VScalar SNone) queries in
  mismatch ← (if is_None populations then Ok false
              else b ← name_in_set population_name (ensure_list populations);
                   Ok (negb b));
  let '(ids, queries) :=
    if mismatch : bool then (VList [], queries)
    else
      let '(e, queries) := dict_pop EDGE_ID_KEY (VScalar SNone) queries in
      dict_pop NODE_ID_KEY e queries in
  mask_ ← _positional_mask data ids;
  Ok (queries, mask_).

(** [data[prop]] *)
Definition get_column (data : DataFrame) (prop : string) : result column :=
  match dict_get prop (df_columns data) with
  | Some c => Ok c
  | None => Err (PyError "KeyError")
  end.

(** [v1, v2 = values] *)
Definition unpack2 (values : value) : result (value * value) :=
  match values with
  | VScalar (SStr s) =>
      match list_ascii_of_string s with
      | [c1; c2] => Ok (VScalar (SStr (String c1 "")), VScalar (SStr (String c2 "")))
      | _ => Err (PyError "ValueError: wrong number of values to unpack")
      end
  | VScalar _ => Err (PyError "TypeError: cannot unpack non-iterable object")
  | _ =>
      match ensure_list values with
      | [v1; v2] => Ok (v1, v2)
      | _ => Err (PyError "ValueError: wrong number of values to unpack")
      end
  end.

(** The bound of a range as a number. *)
Definition range_bound (v : value) : result float :=
  match v with
  | VScalar a =>
      match as_float a with
      | Some f => Ok f
      | None => Err (PyError "TypeError: invalid comparison with a float column")
      end
  | _ => Err (Unmodelled "comparison of a column with a collection")
  end.

(** The mask of one property: the body of the loop of
    [_properties_mask]. *)
Definition prop_mask (prop : column) (values : value) : result mask :=
  match prop with
  | ColFloat cells =>
      '(v1, v2) ← unpack2 values;
      f1 ← range_bound v1;
      f2 ← range_bound v2;
      Ok (MVec (col_range cells f1 f2))
  | _ =>
      match values with
      | VDict query => _complex_query prop query
      | VList l =>
          elems ← mapM (fun v => match v with
                                 | VScalar a => Ok a
                                 | _ => Err (Unmodelled "isin: nested values")
                                 end) l;
          Ok (MVec (col_isin prop elems))
      | VScalar a => Ok (MVec (col_eq prop a))
      | VTuple l => m ← col_eq_seq prop l; Ok (MVec m)
      | VArr bs => m ← col_eq_seq prop (map SBool bs); Ok (MVec m)
      | VIds zs => m ← col_eq_seq prop (map SInt zs); Ok (MVec m)
      end
  end.

Fixpoint _properties_mask_loop (data : DataFrame)
  (queries : list (string * value)) (mask_ : mask) : result mask :=
  match queries with
  | [] => Ok mask_
  | (prop, values) :: rest =>
      col ← get_column data prop;
      pm ← prop_mask col values;
      mask' ← _logical_and [mask_; pm];
      _properties_mask_loop data rest mask'
  end.

(** [mask is False or isinstance(mask, np.ndarray) and not mask.any()] *)
Definition selects_nothing (m : mask) : bool :=
  match m with
  | MBool b => negb b
  | MVec v => negb (existsb id v)
  end.

Definition _properties_mask (data : DataFrame) (population_name : string)
  (queries : list (string * value)) : result mask :=
  let unknown_props :=
    List.filter (fun k => negb (mem k (map fst (df_columns data))) && negb (mem k ALL_KEYS))
           (map fst queries) in
  if negb (is_nil unknown_props) then Ok (MBool false)
  else
    '(queries, mask_) ← _circuit_mask data population_name queries;
    if selects_nothing mask_ then Ok (MBool false)
    else _properties_mask_loop data queries mask_.

(** ** The object store

    Dictionaries and lists are objects with an identity: a query held
    by the caller and the copy made by [deepcopy] are different
    objects, and [queries[key] = ...] changes one object in place.
    A store value is a scalar, an immutable array or tuple, or a
    reference to an object. *)

Inductive hval :=
| HScalar (a : scalar)
| HTuple (l : list scalar)
| HArr (v : list bool)
| HIds (ids : list Z)
| HRef (l : nat).

Inductive obj :=
| ODict (d : list (string * hval))
| OList (l : list hval).

Abbreviation store := (list obj).

(** Computations that read and update the store and may raise; the
    store reached when an exception is raised is kept. *)
Definition M (A : Type) : Type := store -> result A * store.

#[global] Instance M_ret : MRet M := fun _ a s => (Ok a, s).
#[global] Instance M_bind : MBind M := fun _ _ k m s =>
  match m s with
  | (Ok a, s') => k a s'
  | (Err e, s') => (Err e, s')
  end.

Definition raise {A} (e : error) : M A := fun s => (Err e, s).
Definition lift {A} (r : result A) : M A := fun s => (r, s).
Definition read {A} (f : store -> result A) : M A := fun s => (f s, s).

Fixpoint forM {A B} (f : A -> M B) (l : list A) : M (list B) :=
  match l with
  | [] => mret []
  | a :: l' => b ← f a; bs ← forM f l'; mret (b :: bs)
  end.

Fixpoint forM_ {A} (f : A -> M unit) (l : list A) : M unit :=
  match l with
  | [] => mret tt
  | a :: l' => f a;; forM_ f l'
  end.

(** A new object; its reference is the next free position. *)
Definition new_obj (o : obj) : M nat := fun s => (Ok (length s), s ++ [o]).

Definition get_dict (q : hval) : M (list (string * hval)) := fun s =>
  match q with
  | HRef l =>
      match s !! l with
      | Some (ODict d) => (Ok d, s)
      | Some (OList _) => (Err (PyError "AttributeError: 'list' object is not a mapping"), s)
      | None => (Err (Unmodelled "dangling reference"), s)
      end
  | _ => (Err (PyError "AttributeError: object is not a mapping"), s)
  end.

Definition put_dict (q : hval) (d : list (string * hval)) : M unit := fun s =>
  match q with
  | HRef l => (Ok tt, <[l := ODict d]> s)
  | _ => (Err (PyError "TypeError: object does not support item assignment"), s)
  end.

(** [queries[key]] *)
Definition getitem (q : hval) (key : string) : M hval :=
  d ← get_dict q;
  match dict_get key d with
  | Some v => mret v
  | None => raise (PyError "KeyError")
  end.

(** [queries[key] = v] *)
Definition setitem (q : hval) (key : string) (v : hval) : M unit :=
  d ← get_dict q; put_dict q (dict_set key v d).

(** [del queries[key]] *)
Definition delitem (q : hval) (key : string) : M unit :=
  d ← get_dict q;
  match dict_get key d with
  | Some _ => put_dict q (dict_del key d)
  | None => raise (PyError "KeyError")
  end.

(** [list(queries.keys())] *)
Definition dict_keys (q : hval) : M (list string) :=
  d ← get_dict q; mret (map fst d).

(** [isinstance(v, Mapping)]; the keys of the mapping when it is one. *)
Definition mapping_keys (v : hval) : M (option (list string)) := fun s =>
  match v with
  | HRef l =>
      match s !! l with
      | Some (ODict d) => (Ok (Some (map fst d)), s)
      | Some (OList _) => (Ok None, s)
      | None => (Err (Unmodelled "dangling reference"), s)
      end
  | _ => (Ok None, s)
  end.

(** [lst.append(v)] *)
Definition list_append (lst : hval) (v : hval) : M unit := fun s =>
  match lst with
  | HRef l =>
      match s !! l with
      | Some (OList xs) => (Ok tt, <[l := OList (xs ++ [v])]> s)
      | Some (ODict _) => (Err (PyError "AttributeError: 'dict' object has no attribute 'append'"), s)
      | None => (Err (Unmodelled "dangling reference"), s)
      end
  | _ => (Err (PyError "AttributeError: object has no attribute 'append'"), s)
  end.

(** The elements [for x in v] goes through, for a [v] that is not
    changed during the loop. *)
Definition iter_values (v : hval) : M (list hval) := fun s =>
  match v with
  | HRef l =>
      match s !! l with
      | Some (OList xs) => (Ok xs, s)
      | Some (ODict d) => (Ok (map (fun kv => HScalar (SStr (fst kv))) d), s)
      | None => (Err (Unmodelled "dangling reference"), s)
      end
  | HTuple l => (Ok (map HScalar l), s)
  | HArr bs => (Ok (map (fun b => HScalar (SBool b)) bs), s)
  | HIds zs => (Ok (map (fun z => HScalar (SInt z)) zs), s)
  | HScalar (SStr t) =>
      (Ok (map (fun c => HScalar (SStr (String c ""))) (list_ascii_of_string t)), s)
  | HScalar _ => (Err (PyError "TypeError: object is not iterable"), s)
  end.

(** [for x in lst: body(x)] over a list object: the iterator holds a
    position and looks the list up again at every step, so elements
    appended during the loop are visited too. *)
Fixpoint iter_list (fuel : nat) (body : hval -> M unit) (l : nat) (i : nat)
  : M unit :=
  match fuel with
  | O => raise OutOfFuel
  | S fuel' => fun s =>
      match s !! l with
      | Some (OList xs) =>
          match xs !! i with
          | Some x => (body x;; iter_list fuel' body l (S i)) s
          | None => (Ok tt, s)
          end
      | _ => (Err (Unmodelled "list replaced during iteration"), s)
      end
  end.

Definition is_list (v : hval) (s : store) : option nat :=
  match v with
  | HRef l => match s !! l with Some (OList _) => Some l | _ => None end
  | _ => None
  end.

(** The value tree a store value stands for. *)
Fixpoint reify (fuel : nat) (s : store) (h : hval) : result value :=
  match h with
  | HScalar a => Ok (VScalar a)
  | HTuple l => Ok (VTuple l)
  | HArr v => Ok (VArr v)
  | HIds ids => Ok (VIds ids)
  | HRef l =>
      match fuel with
      | O => Err OutOfFuel
      | S fuel' =>
          match s !! l with
          | Some (ODict d) =>
              d' ← mapM (fun kv => v ← reify fuel' s (snd kv); Ok (fst kv, v)) d;
              Ok (VDict d')
          | Some (OList xs) =>
              xs' ← mapM (reify fuel' s) xs; Ok (VList xs')
          | None => Err (Unmodelled "dangling reference")
          end
      end
  end.

(** Building a value tree in the store, as evaluating a literal does:
    the elements first, left to right, then the container. *)
Fixpoint alloc_all {A B} (f : A -> store -> B * store) (l : list A) (s : store)
  : list B * store :=
  match l with
  | [] => ([], s)
  | x :: l' =>
      let '(h, s1) := f x s in
      let '(hs, s2) := alloc_all f l' s1 in (h :: hs, s2)
  end.

Fixpoint alloc (v : value) (s : store) : hval * store :=
  match v with
  | VScalar a => (HScalar a, s)
  | VTuple l => (HTuple l, s)
  | VArr bs => (HArr bs, s)
  | VIds ids => (HIds ids, s)
  | VList l =>
      let '(hs, s') := alloc_all alloc l s in
      (HRef (length s'), s' ++ [OList hs])
  | VDict d =>
      let '(hd, s') :=
        alloc_all (fun kv s => let '(h, s1) := alloc (snd kv) s in ((fst kv, h), s1))
                  d s in
      (HRef (length s'), s' ++ [ODict hd])
  end.

(** The fuel a value asks for: the nesting of its containers, and at
    least the length of each of its lists. *)
Fixpoint depth (v : value) : nat :=
  match v with
  | VList l => S (Nat.max (length l) (fold_right Nat.max 0%nat (map depth l)))
  | VDict d =>
      S (fold_right Nat.max 0%nat (map (fun kv => depth (snd kv)) d))
  | _ => 0
  end.

(** [copy.deepcopy].  [memo] maps each object already copied to its
    copy, so an object reached twice is copied once.  The copy [y] of a
    container is created empty, recorded in [memo], then filled:
    [fill_dict] and [fill_list] are the loops [y[key] = copy(value)]
    and [y.append(copy(a))]. *)
Definition memo_t := list (nat * nat).

Fixpoint fill_dict (copy : hval -> memo_t -> M (hval * memo_t)) (y : nat)
  (d : list (string * hval)) (memo : memo_t) : M memo_t :=
  match d with
  | [] => mret memo
  | (k, v) :: d' =>
      '(v', memo1) ← copy v memo;
      setitem (HRef y) k v';;
      fill_dict copy y d' memo1
  end.

Fixpoint fill_list (copy : hval -> memo_t -> M (hval * memo_t)) (y : nat)
  (xs : list hval) (memo : memo_t) : M memo_t :=
  match xs with
  | [] => mret memo
  | v :: xs' =>
      '(v', memo1) ← copy v memo;
      list_append (HRef y) v';;
      fill_list copy y xs' memo1
  end.

Definition memo_get (l : nat) (memo : memo_t) : option nat :=
  match list_find (fun p => Nat.eqb (fst p) l) memo with
  | Some (_, (_, y)) => Some y
  | None => None
  end.

Fixpoint deepcopy (fuel : nat) (x : hval) (memo : memo_t) : M (hval * memo_t) :=
  match x with
  | HRef l =>
      match fuel with
      | O => raise OutOfFuel
      | S fuel' =>
          match memo_get l memo with
          | Some y => mret (HRef y, memo)
          | None => fun s =>
              match s !! l with
              | Some (ODict d) =>
                  (y ← new_obj (ODict []);
                   memo' ← fill_dict (deepcopy fuel') y d ((l, y) :: memo);
                   mret (HRef y, memo')) s
              | Some (OList xs) =>
                  (y ← new_obj (OList []);
                   memo' ← fill_list (deepcopy fuel') y xs ((l, y) :: memo);
                   mret (HRef y, memo')) s
              | None => (Err (Unmodelled "dangling reference"), s)
              end
          end
      end
  | _ => mret (x, memo)
  end.

(** ** Traversal and resolution *)

Definition value_operators_mixed : string :=
  "Value operators can't be used with plain values".

(** [VALUE_KEYS & set(keys)] is not empty. *)
Definition has_value_key (keys : list string) : bool :=
  existsb (fun k => mem k VALUE_KEYS) keys.

(** [set(keys).issubset(VALUE_KEYS)] *)
Definition only_value_keys (keys : list string) : bool :=
  forallb (fun k => mem k VALUE_KEYS) keys.

(** The part of the loop body of [traverse_queries_bottom_up] that
    comes before the call of [traverse_fn]: the descent into the
    children of [queries[key]], [recurse] being the traversal itself. *)
Definition traverse_children (recurse : hval -> M unit) (fuel : nat)
  (queries : hval) (key : string) : M unit :=
  if mem key [OR_KEY; AND_KEY] then
    sub ← getitem queries key;
    l ← read (fun s => Ok (is_list sub s));
    match l with
    | Some l => iter_list fuel recurse l 0
    | None => subqueries ← iter_values sub; forM_ recurse subqueries
    end
  else
    v ← getitem queries key;
    ks ← mapping_keys v;
    match ks with
    | Some ks =>
        if has_value_key ks then
          if negb (only_value_keys ks)
          then raise (QueryError value_operators_mixed)
          else mret tt
        else recurse v
    | None => mret tt
    end.

(** [traverse_queries_bottom_up]: the keys are listed once, before the
    loop; [traverse_fn] may rewrite [queries[key]]. *)
Fixpoint traverse_queries_bottom_up (fuel : nat)
  (traverse_fn : hval -> string -> M unit) (queries : hval) : M unit :=
  match fuel with
  | O => raise OutOfFuel
  | S fuel' =>
      keys ← dict_keys queries;
      forM_ (fun key =>
               traverse_children (traverse_queries_bottom_up fuel' traverse_fn)
                 fuel' queries key;;
               traverse_fn queries key)
            keys
  end.

(** A value stored by the resolution, read back as a mask. *)
Definition as_mask (h : hval) : result mask :=
  match h with
  | HScalar (SBool b) => Ok (MBool b)
  | HArr v => Ok (MVec v)
  | _ => Err (Unmodelled "np.asarray of a value that is not a mask")
  end.

Definition hval_of_mask (m : mask) : hval :=
  match m with
  | MBool b => HScalar (SBool b)
  | MVec v => HArr v
  end.

(** [_merge_queries_masks]: [_logical_and(queries.values())] *)
Definition _merge_queries_masks (queries : hval) : M mask :=
  d ← get_dict queries;
  masks ← lift (mapM as_mask (map snd d));
  lift (_logical_and masks).

(** [_collect] of [resolve_ids]. *)
Definition _collect (fuel : nat) (data : DataFrame) (population_name : string)
  (queries : hval) (queries_key : string) : M unit :=
  if String.eqb queries_key OR_KEY then
    sub ← getitem queries queries_key;
    children ← iter_values sub;
    children_mask ← forM _merge_queries_masks children;
    m ← lift (_logical_or children_mask);
    setitem queries queries_key (hval_of_mask m)
  else if String.eqb queries_key AND_KEY then
    sub ← getitem queries queries_key;
    children ← iter_values sub;
    children_mask ← forM _merge_queries_masks children;
    m ← lift (_logical_and children_mask);
    setitem queries queries_key (hval_of_mask m)
  else
    h ← getitem queries queries_key;
    v ← read (fun s => reify fuel s h);
    m ← lift (_properties_mask data population_name [(queries_key, v)]);
    setitem queries queries_key (hval_of_mask m).

(** [np.full(n, fill_value=result) if isinstance(result, bool) else result] *)
Definition broadcast (n : nat) (result_ : mask) : list bool :=
  match result_ with
  | MBool b => repeat b n
  | MVec v => v
  end.

Definition resolve_ids (fuel : nat) (data : DataFrame) (population_name : string)
  (queries : hval) : M (list bool) :=
  '(queries, _) ← deepcopy fuel queries [];
  traverse_queries_bottom_up fuel (_collect fuel data population_name) queries;;
  result_ ← _merge_queries_masks queries;
  mret (broadcast (len data) result_).

Section NodeSets.
(** The node-set registry and the population are objects of other
    modules: [node_sets[name]] looks a node set up, and
    [get_ids ns raise_missing_prop] is
    [ns.get_ids(population.to_libsonata, raise_missing_prop)]. *)
Variable NodeSet : Type.
Variable node_sets : scalar -> result NodeSet.
Variable get_ids : NodeSet -> bool -> result (list Z).

Definition lookup_node_set (name : hval) : result NodeSet :=
  match name with
  | HScalar a => node_sets a
  | HTuple _ => Err (Unmodelled "node set named by a tuple")
  | _ => Err (PyError "TypeError: unhashable type")
  end.

(** [_resolve] of [resolve_nodesets]. *)
Definition _resolve (raise_missing_prop : bool) (queries : hval)
  (queries_key : string) : M unit :=
  if String.eqb queries_key NODE_SET_KEY then
    d ← get_dict queries;
    (if mem AND_KEY (map fst d) then mret tt
     else l ← new_obj (OList []); setitem queries AND_KEY (HRef l));;
    name ← getitem queries queries_key;
    node_set ← lift (lookup_node_set name);
    lst ← getitem queries AND_KEY;
    _ ← read (fun s => match is_list lst s with
                       | Some _ => Ok tt
                       | None => Err (PyError "AttributeError: object has no attribute 'append'")
                       end);
    ids ← lift (get_ids node_set raise_missing_prop);
    leaf ← new_obj (ODict [(NODE_ID_KEY, HIds ids)]);
    list_append lst (HRef leaf);;
    delitem queries queries_key
  else mret tt.

Definition resolve_nodesets (fuel : nat) (queries : hval)
  (raise_missing_prop : bool) : M hval :=
  '(resolved_queries, _) ← deepcopy fuel queries [];
  traverse_queries_bottom_up fuel (_resolve raise_missing_prop) resolved_queries;;
  mret resolved_queries.
End NodeSets.

(** ** Objects of a call

    [s0] is the store when a call starts.  A store value is [fresh]
    when it does not refer to an object of [s0]; [extends s0 s] says
    that [s] is [s0] followed by objects that hold fresh values only,
    the dictionaries among them with each key once. *)

Definition hval_fresh (n0 : nat) (h : hval) : Prop :=
  match h with
  | HRef l => (n0 <= l)%nat
  | _ => True
  end.

Definition obj_fresh (n0 : nat) (o : obj) : Prop :=
  match o with
  | ODict d => NoDup (map fst d) /\ Forall (fun kv => hval_fresh n0 (snd kv)) d
  | OList xs => Forall (hval_fresh n0) xs
  end.

Definition extends (s0 s : store) : Prop :=
  exists ext, s = s0 ++ ext /\ Forall (obj_fresh (length s0)) ext.

(** [safe s0 m Q]: started in a store that extends [s0], [m] ends in
    a store that extends [s0], whatever the outcome, and a value it
    returns satisfies [Q]. *)
Definition safe {A} (s0 : store) (m : M A) (Q : A -> Prop) : Prop :=
  forall s, extends s0 s ->
    extends s0 (snd (m s)) /\ forall a, fst (m s) = Ok a -> Q a.

(** The copies recorded by [deepcopy] are objects of the call. *)
Definition memo_fresh (n0 : nat) (memo : memo_t) : Prop :=
  Forall (fun p => (n0 <= snd p)%nat) memo.

Definition copy_fresh (n0 : nat) (r : hval * memo_t) : Prop :=
  hval_fresh n0 (fst r) /\ memo_fresh n0 (snd r).

(** Every reference in [s] points to an object of [s]. *)
Definition hval_closed (s : store) (h : hval) : Prop :=
  match h with
  | HRef l => (l < length s)%nat
  | _ => True
  end.

Definition obj_closed (s : store) (o : obj) : Prop :=
  match o with
  | ODict d => Forall (fun kv => hval_closed s (snd kv)) d
  | OList xs => Forall (hval_closed s) xs
  end.

Definition store_closed (s : store) : Prop := Forall (obj_closed s) s.

(** ** Masks of a table of [N] rows *)

Definition valid_mask (N : nat) (m : mask) : Prop :=
  match m with
  | MBool _ => True
  | MVec v => length v = N
  end.

(** The store values that are such masks. *)
Definition valid_hval (N : nat) (h : hval) : Prop :=
  match h with
  | HScalar (SBool _) => True
  | HArr v => length v = N
  | _ => False
  end.

(** [writes n0 N s s']: [s'] is [s] after some assignments
    [queries[key] = mask], each to a dictionary created after the
    first [n0] objects and each of a mask of [N] rows. *)
Inductive writes (n0 N : nat) : store -> store -> Prop :=
| writes_refl s : writes n0 N s s
| writes_step s s' (l : nat) d k h :
    writes n0 N s s' ->
    (n0 <= l)%nat ->
    s' !! l = Some (ODict d) ->
    valid_hval N h ->
    writes n0 N s (<[l := ODict (dict_set k h d)]> s').

(** A child query is resolved when all its values are masks. *)
Definition resolved (N : nat) (s : store) (c : hval) : Prop :=
  forall (l : nat) d, c = HRef l -> s !! l = Some (ODict d) ->
    Forall (fun kv => valid_hval N (snd kv)) d.

(** The entries of the dictionary at [l] are masks, except for the
    keys [rem] still to be visited. *)
Definition pending (N : nat) (s : store) (l : nat) (rem : list string) : Prop :=
  forall d, s !! l = Some (ODict d) ->
    Forall (fun kv => In (fst kv) rem \/ valid_hval N (snd kv)) d.

(** ** Values of bounded depth

    [ranked s a b n h]: following references from [h] in [s] one stays
    among the objects [a], ..., [b - 1], meets no missing object, reaches
    a scalar after at most [n] steps, and every list met on the way at
    fuel [n'] has at most [n'] elements. *)
Fixpoint ranked (s : store) (a b : nat) (n : nat) (h : hval) {struct n} : Prop :=
  match h with
  | HRef l =>
      match n with
      | O => False
      | S n' =>
          (a <= l < b)%nat /\
          match s !! l with
          | Some (ODict d) => Forall (fun kv => ranked s a b n' (snd kv)) d
          | Some (OList xs) => (length xs <= n')%nat /\ Forall (ranked s a b n') xs
          | None => False
          end
      end
  | _ => True
  end.

(** No object of [a], ..., [b - 1] has been copied yet. *)
Definition memo_outside (memo : memo_t) (a b : nat) : Prop :=
  forall l y, In (l, y) memo -> ~ (a <= l < b)%nat.

Abbreviation not_fuel := (fun e : error => e <> OutOfFuel).

(** The objects [memo'] records beyond [memo] are among [a], ...,
    [b - 1]. *)
Definition memo_grows (a b : nat) (memo memo' : memo_t) : Prop :=
  forall l y, In (l, y) memo' -> In (l, y) memo \/ (a <= l < b)%nat.

(** [s'] is [s] with the object at [y] changed and objects added. *)
Definition frame_except (y : nat) (s s' : store) : Prop :=
  (length s <= length s')%nat /\
  forall l : nat, (l < length s)%nat -> l <> y -> s' !! l = s !! l.

(** Copying the tree [v], however it was built in the store: with fuel
    for its depth the copy is made of new objects only, and it is as
    deep as [v]. *)
Definition copy_ok (v : value) : Prop :=
  forall s1 h s2 fuel memo (s : store),
    alloc v s1 = (h, s2) -> (depth v <= fuel)%nat -> s2 `prefix_of` s ->
    memo_outside memo (length s1) (length s2) ->
    exists h' memo' ext,
      deepcopy fuel h memo s = (Ok (h', memo'), s ++ ext) /\
      ranked (s ++ ext) (length s) (length (s ++ ext)) (depth v) h' /\
      memo_grows (length s1) (length s2) memo memo'.

(** ** Conditions on a node dictionary *)

(** A node dictionary whose [population] entry names other populations
    only: the value is not [None], its elements are hashable, and none
    of them is the name of the table's population. *)
Definition population_mismatch (population_name : string)
  (queries : list (string * value)) : Prop :=
  exists populations,
    dict_get POPULATION_KEY queries = Some populations /\
    is_None populations = false /\
    name_in_set population_name (ensure_list populations) = Ok false.

(** The [population] entry is absent, [None], or names the table's
    population. *)
Definition population_ok (population_name : string)
  (queries : list (string * value)) : Prop :=
  match dict_get POPULATION_KEY queries with
  | None => True
  | Some populations =>
      is_None populations = true \/
      name_in_set population_name (ensure_list populations) = Ok true
  end.

(** ** Where a [QueryError] comes from *)

(** The two messages of [BluepySnapError] in this module. *)
Definition query_error_message (msg : string) : Prop :=
  msg = value_operators_mixed \/
  exists key, key <> REGEX_KEY /\ msg = unknown_modifier key.

(** When [r] is an exception, it is one of [P]. *)
Definition errors_in (P : error -> Prop) {A} (r : result A) : Prop :=
  forall e, r = Err e -> P e.

(** An exception that, when it is a [QueryError], has a message of [E]. *)
Definition query_errors_among (E : string -> Prop) (e : error) : Prop :=
  forall msg, e = QueryError msg -> E msg.

Definition raises_only_query_errors {A} (r : result A) : Prop :=
  errors_in (query_errors_among query_error_message) r.

(** The exceptions of a computation on the store. *)
Definition only_errors (P : error -> Prop) {A} (m : M A) : Prop :=
  forall s, errors_in P (fst (m s)).

(** The two situations of a mapping value in which a [QueryError] is
    expected: a single key other than [$regex], or [$regex] mixed with
    other keys. *)
Definition single_other_key (keys : list string) : bool :=
  match keys with
  | [k] => negb (String.eqb k REGEX_KEY)
  | _ => false
  end.

Definition mixed_keys (keys : list string) : bool :=
  has_value_key keys && negb (only_value_keys keys).

(** Does a mapping value in one of the two situations occur in the
    query? *)
Fixpoint expected_query_error (v : value) : bool :=
  match v with
  | VDict d =>
      single_other_key (map fst d) || mixed_keys (map fst d) ||
      (fix any_entry (d : list (string * value)) : bool :=
         match d with
         | [] => false
         | (_, x) :: d' => expected_query_error x || any_entry d'
         end) d
  | VList l =>
      (fix any_elem (l : list value) : bool :=
         match l with
         | [] => false
         | x :: l' => expected_query_error x || any_elem l'
         end) l
  | _ => false
  end.

(** The same check below the root, whose own keys are not those of a
    predicate value. *)
Definition query_expects_error (q : value) : bool :=
  match q with
  | VDict d => existsb (fun kv => expected_query_error (snd kv)) d
  | _ => false
  end.

(** ** Example data *)

(** Five nodes with IDs 0, 2, 5, 7, 9. *)
Definition example_table : DataFrame :=
  {| df_index := [0; 2; 5; 7; 9];
     df_columns :=
       [("layer", ColInt [2; 6; 2; 5; 6]);
        ("mtype", ColStr ["ab"; "a"; "b"; "abc"; "xab"]);
        ("x", ColFloat [1.5%float; 2%float; 5%float; 5.5%float; 2.5%float])] |}.

Definition run_resolve_ids (data : DataFrame) (population_name : string)
  (q : value) : result (list bool) :=
  let '(h, s) := alloc q [] in
  fst (resolve_ids 64 data population_name h s).

(** ** Rows of a mask *)

(** The arrays among [masks], in order: what the scanning loops of
    [_logical_and] and [_logical_or] keep. *)
Definition mask_arrays (masks : list mask) : list (list bool) :=
  omap (fun m => match m with MVec v => Some v | MBool _ => None end) masks.

(** The entry of row [i] of a mask over [N] rows; a scalar stands for
    every row. *)
Definition mask_row (N : nat) (m : mask) (i : nat) : bool :=
  nth i (broadcast N m) false.

(** The mask of one entry of a node: the column is looked up, then
    matched against the value, as the loop of [_properties_mask] does. *)
Definition key_mask (data : DataFrame) (kv : string * value) : result mask :=
  col ← get_column data (fst kv); prop_mask col (snd kv).

(** ** [get_properties]

    [props] is a set of strings created by the call and filled by the
    closure [_collect]; it is kept in the store as the list of its
    elements, each once, in the order they were added.  Only membership
    can be observed on the set returned. *)

Definition set_elements (xs : list hval) : list string :=
  omap (fun h => match h with HScalar (SStr k) => Some k | _ => None end) xs.

(** [props.add(k)] *)
Definition set_add (props : hval) (k : string) : M unit :=
  xs ← iter_values props;
  if mem k (set_elements xs) then mret tt
  else list_append props (HScalar (SStr k)).

(** [_collect] of [get_properties]. *)
Definition _collect_property (props : hval) (_ : hval) (query_key : string) : M unit :=
  if negb (mem query_key ALL_KEYS) then set_add props query_key else mret tt.

Definition get_properties (fuel : nat) (queries : hval) : M (list string) :=
  props ← new_obj (OList []);
  traverse_queries_bottom_up fuel (_collect_property (HRef props)) queries;;
  xs ← iter_values (HRef props);
  mret (set_elements xs).

(** The set [props] of a run of [get_properties] started in [s0]: the
    object created first by the call.  [props_ok s0 s] says that [s] is
    [s0] followed by the objects of the call, and that the set holds
    strings, each once, none of them a reserved key. *)
Definition props_ok (s0 s : store) : Prop :=
  s0 `prefix_of` s /\
  exists xs, s !! length s0 = Some (OList xs) /\
    Forall (fun h => exists k, h = HScalar (SStr k)) xs /\
    NoDup (set_elements xs) /\
    Forall (fun k => mem k ALL_KEYS = false) (set_elements xs).

(** A query on which the traversal meets what it expects: each
    dictionary has every key once, [$or] and [$and] hold lists of such
    queries, and a mapping with a value operator has value operators
    only.  (A mapping without value operator is traversed as a query; a
    list under another key is a leaf.) *)
Fixpoint plain_query (v : value) : bool :=
  match v with
  | VDict d =>
      bool_decide (NoDup (map fst d)) &&
      forallb (fun kv =>
                 if mem (fst kv) [OR_KEY; AND_KEY] then
                   match snd kv with
                   | VList subs => forallb plain_query subs
                   | _ => false
                   end
                 else
                   match snd kv with
                   | VDict m =>
                       if has_value_key (map fst m) then only_value_keys (map fst m)
                       else plain_query (snd kv)
                   | _ => true
                   end) d
  | _ => false
  end.

(** The keys the traversal visits that are not reserved, in the order
    of the visits. *)
Fixpoint property_names (v : value) : list string :=
  match v with
  | VDict d =>
      flat_map (fun kv =>
                  (if mem (fst kv) [OR_KEY; AND_KEY] then
                     match snd kv with
                     | VList subs => flat_map property_names subs
                     | _ => []
                     end
                   else
                     match snd kv with
                     | VDict m =>
                         if has_value_key (map fst m) then []
                         else property_names (snd kv)
                     | _ => []
                     end)
                  ++ (if mem (fst kv) ALL_KEYS then [] else [fst kv])) d
  | _ => []
  end.

(** The set [props] of a run started in [s0] holds the names [names]. *)
Definition props_are (s0 s : store) (names : list string) : Prop :=
  s0 `prefix_of` s /\
  exists xs, s !! length s0 = Some (OList xs) /\ set_elements xs = names.

(** The two functions above on one entry of a dictionary. *)
Definition entry_plain (kv : string * value) : bool :=
  if mem (fst kv) [OR_KEY; AND_KEY] then
    match snd kv with
    | VList subs => forallb plain_query subs
    | _ => false
    end
  else
    match snd kv with
    | VDict m =>
        if has_value_key (map fst m) then only_value_keys (map fst m)
        else plain_query (snd kv)
    | _ => true
    end.

Definition child_names (kv : string * value) : list string :=
  if mem (fst kv) [OR_KEY; AND_KEY] then
    match snd kv with
    | VList subs => flat_map property_names subs
    | _ => []
    end
  else
    match snd kv with
    | VDict m => if has_value_key (map fst m) then [] else property_names (snd kv)
    | _ => []
    end.

Definition own_name (kv : string * value) : list string :=
  if mem (fst kv) ALL_KEYS then [] else [fst kv].

(** ** The private copy, object by object

    [deepcopy] creates the copy of a container before the copies of
    its elements: the copy of the tree [v] made in a store of [n]
    objects consists of the objects [snd (layout v n)], placed from
    position [n] on, and is referred to by [fst (layout v n)]. *)
Fixpoint layout_all {A B} (f : A -> nat -> B * list obj) (l : list A) (n : nat)
  : list B * list obj :=
  match l with
  | [] => ([], [])
  | x :: l' =>
      let '(h, o1) := f x n in
      let '(hs, o2) := layout_all f l' (n + length o1)%nat in
      (h :: hs, o1 ++ o2)
  end.

Fixpoint layout (v : value) (n : nat) : hval * list obj :=
  match v with
  | VScalar a => (HScalar a, [])
  | VTuple l => (HTuple l, [])
  | VArr bs => (HArr bs, [])
  | VIds ids => (HIds ids, [])
  | VList l =>
      let '(hs, objs) := layout_all layout l (S n) in
      (HRef n, OList hs :: objs)
  | VDict d =>
      let '(hd, objs) :=
        layout_all (fun kv m => let '(h, o) := layout (snd kv) m in ((fst kv, h), o))
                   d (S n) in
      (HRef n, ODict hd :: objs)
  end.

(** Every dictionary of the tree has each key once, as a Python
    dictionary does. *)
Fixpoint unique_keys (v : value) : bool :=
  match v with
  | VList l => forallb unique_keys l
  | VDict d =>
      bool_decide (NoDup (map fst d)) && forallb (fun kv => unique_keys (snd kv)) d
  | _ => true
  end.

(** The objects [objs] are in [s] from position [n] on. *)
Definition placed (s : store) (n : nat) (objs : list obj) : Prop :=
  forall (i : nat) o, objs !! i = Some o -> s !! (n + i)%nat = Some o.

(** Copying the tree [v], with its result given exactly. *)
Definition copy_exact (v : value) : Prop :=
  forall s1 h s2 fuel memo (s : store),
    alloc v s1 = (h, s2) -> (depth v <= fuel)%nat -> s2 `prefix_of` s ->
    memo_outside memo (length s1) (length s2) ->
    exists memo',
      deepcopy fuel h memo s
      = (Ok (fst (layout v (length s)), memo'), s ++ snd (layout v (length s))) /\
      memo_grows (length s1) (length s2) memo memo'.

(** ** What [resolve_ids] computes

    The traversal of [resolve_ids] written as a function of the query
    tree: [resolve_node] gives, for a dictionary, the mask the traversal
    leaves under each key, in the order of the keys, or the exception
    raised first. *)
Definition value_of_mask (m : mask) : value :=
  match m with
  | MBool b => VScalar (SBool b)
  | MVec v => VArr v
  end.

(** [_merge_queries_masks] of a resolved dictionary. *)
Definition merge_masks (entries : list (string * mask)) : result mask :=
  _logical_and (map snd entries).

Fixpoint resolve_node (data : DataFrame) (population_name : string) (v : value)
  : result (list (string * mask)) :=
  match v with
  | VDict d =>
      mapM (fun kv =>
              m ← (if mem (fst kv) [OR_KEY; AND_KEY] then
                     match snd kv with
                     | VList subs =>
                         children ← mapM (resolve_node data population_name) subs;
                         children_mask ← mapM merge_masks children;
                         if String.eqb (fst kv) OR_KEY then _logical_or children_mask
                         else _logical_and children_mask
                     | _ => Err (Unmodelled "$or or $and of a value that is not a list")
                     end
                   else
                     match snd kv with
                     | VDict m' =>
                         if has_value_key (map fst m') then
                           if negb (only_value_keys (map fst m'))
                           then Err (QueryError value_operators_mixed)
                           else _properties_mask data population_name [(fst kv, snd kv)]
                         else
                           inner ← resolve_node data population_name (snd kv);
                           _properties_mask data population_name
                             [(fst kv,
                               VDict (map (fun km => (fst km, value_of_mask (snd km)))
                                          inner))]
                     | _ => _properties_mask data population_name [(fst kv, snd kv)]
                     end);
              Ok (fst kv, m)) d
  | _ => Err (PyError "AttributeError: object is not a mapping")
  end.

(** The mask of one entry, as in [resolve_node]. *)
Definition resolve_entry (data : DataFrame) (population_name : string)
  (kv : string * value) : result (string * mask) :=
  m ← (if mem (fst kv) [OR_KEY; AND_KEY] then
         match snd kv with
         | VList subs =>
             children ← mapM (resolve_node data population_name) subs;
             children_mask ← mapM merge_masks children;
             if String.eqb (fst kv) OR_KEY then _logical_or children_mask
             else _logical_and children_mask
         | _ => Err (Unmodelled "$or or $and of a value that is not a list")
         end
       else
         match snd kv with
         | VDict m' =>
             if has_value_key (map fst m') then
               if negb (only_value_keys (map fst m'))
               then Err (QueryError value_operators_mixed)
               else _properties_mask data population_name [(fst kv, snd kv)]
             else
               inner ← resolve_node data population_name (snd kv);
               _properties_mask data population_name
                 [(fst kv,
                   VDict (map (fun km => (fst km, value_of_mask (snd km))) inner))]
         | _ => _properties_mask data population_name [(fst kv, snd kv)]
         end);
  Ok (fst kv, m).

(** The rows selected by a query. *)
Definition resolve_query (data : DataFrame) (population_name : string) (v : value)
  : result (list bool) :=
  entries ← resolve_node data population_name v;
  m ← merge_masks entries;
  Ok (broadcast (len data) m).

(** The dictionary of masks the traversal leaves in place of a query. *)
Definition masks_dict (entries : list (string * mask)) : list (string * hval) :=
  map (fun km => (fst km, hval_of_mask (snd km))) entries.

Definition void {A} (r : result A) : result unit :=
  match r with
  | Ok _ => Ok tt
  | Err e => Err e
  end.

(** The entries of a dictionary, laid out one after the other. *)
Definition layout_entry (kv : string * value) (m : nat) : (string * hval) * list obj :=
  let '(h, o) := layout (snd kv) m in ((fst kv, h), o).

(** [resolve_ids] on the query [q] written as a literal. *)
Definition resolve_ids_of (fuel : nat) (data : DataFrame) (population_name : string)
  (q : value) : result (list bool) :=
  fst (resolve_ids fuel data population_name (fst (alloc q [])) (snd (alloc q []))).

(** ** Node sets in a query *)

(** Does the traversal of [v] visit the key [$node_set]? *)
Fixpoint visits_node_set (v : value) : bool :=
  match v with
  | VDict d =>
      existsb (fun kv =>
                 String.eqb (fst kv) NODE_SET_KEY ||
                 (if mem (fst kv) [OR_KEY; AND_KEY] then
                    match snd kv with
                    | VList subs => existsb visits_node_set subs
                    | _ => false
                    end
                  else
                    match snd kv with
                    | VDict m =>
                        if has_value_key (map fst m) then false
                        else visits_node_set (snd kv)
                    | _ => false
                    end)) d
  | _ => false
  end.

(** The same on one entry of a dictionary. *)
Definition entry_visits_node_set (kv : string * value) : bool :=
  String.eqb (fst kv) NODE_SET_KEY ||
  (if mem (fst kv) [OR_KEY; AND_KEY] then
     match snd kv with
     | VList subs => existsb visits_node_set subs
     | _ => false
     end
   else
     match snd kv with
     | VDict m => if has_value_key (map fst m) then false else visits_node_set (snd kv)
     | _ => false
     end).

(** The query a node set stands for: the IDs of its nodes. *)

Definition node_set_leaf (ids : list Z) : value := VDict [(NODE_ID_KEY, VIds ids)].

(** The list under [$and], empty when there is none. *)
Definition and_list (d : list (string * value)) : list value :=
  match dict_get AND_KEY d with
  | Some (VList l) => l
  | _ => []
  end.

(** What [_resolve] makes of a dictionary with a [$node_set] entry:
    the leaf is appended to the list under [$and] (created at the end of
    the dictionary when absent), then the [$node_set] entry is deleted. *)
Definition expand_node_set (ids : list Z) (d : list (string * value))
  : list (string * value) :=
  dict_del NODE_SET_KEY
    (dict_set AND_KEY (VList (and_list d ++ [node_set_leaf ids])) d).

(** ** Objects of a query

    The objects a store value reaches, in the order [reify] reads them.
    A query is a tree of objects when no object occurs twice there. *)
Fixpoint footprint (fuel : nat) (s : store) (h : hval) : list nat :=
  match h with
  | HRef l =>
      match fuel with
      | O => []
      | S fuel' =>
          match s !! l with
          | Some (ODict d) => l :: flat_map (fun kv => footprint fuel' s (snd kv)) d
          | Some (OList xs) => l :: flat_map (footprint fuel' s) xs
          | None => []
          end
      end
  | _ => []
  end.

(** No object of [fp] has been copied yet. *)
Definition memo_free (memo : memo_t) (fp : list nat) : Prop :=
  forall l, In l fp -> memo_get l memo = None.

(** Copying a tree of objects that reads as [v], with the result given
    exactly. *)
Definition copy_tree (n : nat) : Prop :=
  forall v (src : store) h,
    reify n src h = Ok v -> unique_keys v = true -> NoDup (footprint n src h) ->
    forall fuel memo (s : store),
      (depth v <= fuel)%nat -> src `prefix_of` s -> memo_free memo (footprint n src h) ->
      exists memo',
        deepcopy fuel h memo s
        = (Ok (fst (layout v (length s)), memo'), s ++ snd (layout v (length s))) /\
        forall l, memo_get l memo = None -> ~ In l (footprint n src h) ->
                  memo_get l memo' = None.

(** * Properties *)

(** ** The outcome monad *)

Lemma bind_Ok {A B} (a : A) (f : A -> result B) : (Ok a ≫= f) = f a.
Proof. reflexivity. Qed.

Lemma bind_Err {A B} (e : error) (f : A -> result B) : (Err e ≫= f) = Err e.
Proof. reflexivity. Qed.

Lemma bind_Ok_inv {A B} (r : result A) (f : A -> result B) (b : B) :
  (r ≫= f) = Ok b -> exists a, r = Ok a /\ f a = Ok b.
Proof. destruct r as [a|e]; [eauto | discriminate]. Qed.

(** ** Membership and dictionaries *)

Lemma mem_In (k : string) (keys : list string) : mem k keys = true <-> In k keys.
Proof.
  unfold mem. rewrite existsb_exists. split.
  - intros (x & Hx & He). apply String.eqb_eq in He. now subst.
  - intros H. exists k. split; [assumption | apply String.eqb_refl].
Qed.

Lemma mem_false (k : string) (keys : list string) :
  mem k keys = false <-> ~ In k keys.
Proof.
  rewrite <- mem_In. destruct (mem k keys); split; congruence.
Qed.

Section DictFacts.
Context {V : Type}.
Implicit Types d : list (string * V).

Lemma dict_get_In k d : is_Some (dict_get k d) <-> In k (map fst d).
Proof.
  induction d as [|[k' v] d IH]; simpl.
  - split; [intros [x Hx]; discriminate | tauto].
  - destruct (String.eqb_spec k k') as [->|Hne].
    + split; [tauto | eauto].
    + rewrite IH. split; [tauto | intros [H|H]; [congruence | assumption]].
Qed.

Lemma dict_get_None k d : dict_get k d = None <-> ~ In k (map fst d).
Proof.
  rewrite <- dict_get_In. split.
  - intros H [x Hx]. congruence.
  - intros H. destruct (dict_get k d) eqn:E; [|reflexivity].
    exfalso. apply H. eauto.
Qed.

Lemma dict_get_del_eq k d : dict_get k (dict_del k d) = None.
Proof.
  induction d as [|[k' v] d IH]; simpl; [reflexivity|].
  unfold dict_del in *. simpl.
  destruct (String.eqb_spec k k') as [->|Hne]; simpl; [assumption|].
  destruct (String.eqb_spec k k'); [contradiction | assumption].
Qed.

Lemma dict_get_del_ne k k' d :
  k <> k' -> dict_get k (dict_del k' d) = dict_get k d.
Proof.
  intros Hne. induction d as [|[k0 v] d IH]; simpl; [reflexivity|].
  unfold dict_del in *. simpl.
  destruct (String.eqb_spec k' k0) as [->|Hne']; simpl.
  - destruct (String.eqb_spec k k0); [contradiction | assumption].
  - destruct (String.eqb_spec k k0); [reflexivity | assumption].
Qed.

Lemma dict_del_absent k d : dict_get k d = None -> dict_del k d = d.
Proof.
  induction d as [|[k' v] d IH]; simpl; [reflexivity|].
  unfold dict_del in *. simpl.
  destruct (String.eqb_spec k k') as [->|Hne]; simpl; [discriminate|].
  intros H. now rewrite IH.
Qed.

Lemma dict_set_keys k v d :
  is_Some (dict_get k d) -> map fst (dict_set k v d) = map fst d.
Proof.
  induction d as [|[k' v'] d IH]; simpl.
  - intros [x Hx]. discriminate.
  - destruct (String.eqb_spec k k') as [->|Hne]; simpl; [reflexivity|].
    intros H. now rewrite IH.
Qed.

Lemma dict_get_set_eq k v d : dict_get k (dict_set k v d) = Some v.
Proof.
  induction d as [|[k' v'] d IH]; simpl.
  - now rewrite String.eqb_refl.
  - destruct (String.eqb_spec k k') as [->|Hne]; simpl.
    + now rewrite String.eqb_refl.
    + destruct (String.eqb_spec k k'); [contradiction | assumption].
Qed.

Lemma dict_get_set_ne k k' v d :
  k <> k' -> dict_get k (dict_set k' v d) = dict_get k d.
Proof.
  intros Hne. induction d as [|[k0 v0] d IH]; simpl.
  - destruct (String.eqb_spec k k'); [contradiction | reflexivity].
  - destruct (String.eqb_spec k' k0) as [->|Hne']; simpl.
    + destruct (String.eqb_spec k k0); [contradiction | reflexivity].
    + destruct (String.eqb_spec k k0); [reflexivity | assumption].
Qed.
Lemma dict_set_keys_In k v d x :
  In x (map fst (dict_set k v d)) <-> x = k \/ In x (map fst d).
Proof.
  induction d as [|[k' v'] d IH]; simpl.
  - intuition congruence.
  - destruct (String.eqb_spec k k') as [->|Hne]; simpl.
    + intuition congruence.
    + rewrite IH. intuition congruence.
Qed.

Lemma dict_set_NoDup k v d :
  NoDup (map fst d) -> NoDup (map fst (dict_set k v d)).
Proof.
  induction d as [|[k' v'] d IH]; simpl; intros Hnd.
  - apply NoDup_cons; split; [apply not_elem_of_nil | constructor].
  - apply NoDup_cons in Hnd as [Hk' Hnd].
    destruct (String.eqb_spec k k') as [->|Hne]; simpl.
    + now apply NoDup_cons.
    + apply NoDup_cons. split; [|now apply IH].
      rewrite list_elem_of_In, dict_set_keys_In.
      intros [E|Hin]; [congruence|]. now apply Hk', list_elem_of_In.
Qed.

Lemma dict_del_NoDup k d :
  NoDup (map fst d) -> NoDup (map fst (dict_del k d)).
Proof.
  unfold dict_del. induction d as [|[k' v'] d IH]; simpl; intros Hnd; [constructor|].
  apply NoDup_cons in Hnd as [Hk' Hnd].
  destruct (negb _); simpl; [|now apply IH].
  apply NoDup_cons. split; [|now apply IH].
  rewrite list_elem_of_In, in_map_iff. intros ([k0 v0] & E & Hin).
  simpl in E. subst k0. apply filter_In in Hin as [Hin _].
  apply Hk', list_elem_of_In, in_map_iff. now exists (k', v0).
Qed.

(** With each key once, an entry of the dictionary is what a lookup
    of its key returns. *)
Lemma dict_get_entry k v d :
  NoDup (map fst d) -> In (k, v) d -> dict_get k d = Some v.
Proof.
  induction d as [|[k' v'] d IH]; simpl; intros Hnd Hin; [contradiction|].
  apply NoDup_cons in Hnd as [Hk' Hnd].
  destruct Hin as [[= -> ->]|Hin].
  - now rewrite String.eqb_refl.
  - destruct (String.eqb_spec k k') as [->|Hne]; [|now apply IH].
    exfalso. apply Hk', list_elem_of_In, in_map_iff. now exists (k', v).
Qed.
End DictFacts.

(** ** Masks *)

Lemma existsb_id_repeat_false n : existsb id (repeat false n) = false.
Proof. induction n; simpl; auto. Qed.

Lemma logical_and_true_vec v : _logical_and [MBool true; MVec v] = Ok (MVec v).
Proof. reflexivity. Qed.

(** C7: both reducers on the empty list of masks *)
Lemma logical_and_or_empty :
  _logical_and [] = Ok (MBool true) /\ _logical_or [] = Ok (MBool false).
Proof. split; reflexivity. Qed.


(** ** The property matcher and the population/ID filter *)

Lemma filter_nil_iff {A} (f : A -> bool) (l : list A) :
  is_nil (List.filter f l) = true <-> forall x, In x l -> f x = false.
Proof.
  induction l as [|a l IH]; simpl.
  - split; [intros _ x [] | reflexivity].
  - destruct (f a) eqn:E; simpl.
    + split; [discriminate | intros H; specialize (H a (or_introl eq_refl)); congruence].
    + rewrite IH. split.
      * intros H x [<-|Hx]; auto.
      * intros H x Hx. apply H. now right.
Qed.

Lemma NoDup_by_compute (l : list Z) : bool_decide (NoDup l) = true -> NoDup l.
Proof. apply bool_decide_eq_true_1. Qed.

Lemma get_indexer_nil index :
  NoDup index -> get_indexer index [] = Ok [].
Proof.
  intros H. unfold get_indexer. rewrite bool_decide_eq_true_2 by assumption.
  reflexivity.
Qed.

Lemma positional_mask_no_ids data :
  NoDup (df_index data) ->
  _positional_mask data (VList []) = Ok (MVec (repeat false (len data))).
Proof.
  intros H. unfold _positional_mask. simpl.
  rewrite get_indexer_nil by assumption. reflexivity.
Qed.

Lemma properties_mask_unknown_props data population_name queries key :
  In key (map fst queries) ->
  mem key (map fst (df_columns data)) = false ->
  mem key ALL_KEYS = false ->
  _properties_mask data population_name queries = Ok (MBool false).
Proof.
  intros Hin Hcol Hall.
  unfold _properties_mask.
  destruct (is_nil (List.filter _ (map fst queries))) eqn:E; [|reflexivity].
  exfalso. rewrite filter_nil_iff in E. specialize (E key Hin).
  rewrite Hcol, Hall in E. discriminate.
Qed.

(** C5: a node with a key that is neither a column of the table nor
    one of [ALL_KEYS] resolves to [False]; nothing is raised. *)
Theorem properties_mask_unknown_key :
  forall data population_name queries key,
    In key (map fst queries) ->
    mem key (map fst (df_columns data)) = false ->
    mem key ALL_KEYS = false ->
    _properties_mask data population_name queries = Ok (MBool false).
Proof.
  intros data pop queries key Hin Hcol Hall.
  exact (properties_mask_unknown_props data pop queries key Hin Hcol Hall).
Qed.

Lemma properties_mask_unknown_key_witness :
  _properties_mask example_table "default"
    [("layer", VScalar (SInt 2)); ("zz", VDict [("$gt", VScalar (SInt 1))])]
  = Ok (MBool false).
Proof.
  apply (properties_mask_unknown_key example_table "default" _ "zz");
    [simpl; tauto | reflexivity | reflexivity].
Defined.

(** C4: a node whose [population] entry does not name the table's
    population resolves to [False] whatever its other keys are, and
    nothing is raised. *)
Theorem properties_mask_population_mismatch :
  forall data population_name queries,
    NoDup (df_index data) ->
    population_mismatch population_name queries ->
    _properties_mask data population_name queries = Ok (MBool false).
Proof.
  intros data pop queries Hnd (populations & Hget & Hnone & Hset).
  unfold _properties_mask.
  destruct (negb (is_nil _)); [reflexivity|].
  unfold _circuit_mask, dict_pop. rewrite Hget, Hnone.
  rewrite Hset, !bind_Ok. cbn [negb].
  rewrite positional_mask_no_ids by assumption.
  rewrite !bind_Ok. cbn [selects_nothing].
  now rewrite existsb_id_repeat_false.
Qed.

Lemma properties_mask_population_mismatch_witness :
  _properties_mask example_table "default"
    [("population", VList [VScalar (SStr "A"); VScalar (SStr "B")]);
     ("node_id", VScalar (SStr "not an id"));
     ("x", VScalar (SInt 3));
     ("mtype", VDict [("$gt", VScalar (SInt 1))])]
  = Ok (MBool false).
Proof.
  apply properties_mask_population_mismatch.
  - apply NoDup_by_compute. vm_compute. reflexivity.
  - eexists. repeat split; reflexivity.
Defined.

Lemma key_names_distinct :
  NODE_ID_KEY <> EDGE_ID_KEY /\ NODE_ID_KEY <> POPULATION_KEY /\
  EDGE_ID_KEY <> POPULATION_KEY.
Proof. repeat split; discriminate. Qed.

(** C10: with both [node_id] and [edge_id] in the node (and no failing
    [population]), [_circuit_mask] removes both keys and computes the
    positional mask from the [node_id] value; the [edge_id] value plays
    no part in the result. *)
Theorem circuit_mask_node_id_wins :
  forall data population_name queries nid eid,
    dict_get NODE_ID_KEY queries = Some nid ->
    dict_get EDGE_ID_KEY queries = Some eid ->
    population_ok population_name queries ->
    let queries' :=
      dict_del NODE_ID_KEY (dict_del EDGE_ID_KEY (dict_del POPULATION_KEY queries)) in
    _circuit_mask data population_name queries
      = (m ← _positional_mask data nid; Ok (queries', m)) /\
    dict_get NODE_ID_KEY queries' = None /\
    dict_get EDGE_ID_KEY queries' = None.
Proof.
  intros data pop queries nid eid Hn He Hpop queries'.
  destruct key_names_distinct as (Hne & Hnp & Hep).
  split; [|split].
  - unfold _circuit_mask, dict_pop. unfold population_ok in Hpop.
    assert (Hmis : exists q0,
      (match dict_get POPULATION_KEY queries with
       | Some v => (v, dict_del POPULATION_KEY queries)
       | None => (VScalar SNone, queries)
       end) = (q0, dict_del POPULATION_KEY queries) /\
      ((if is_None q0 then Ok false
        else b ← name_in_set pop (ensure_list q0); Ok (negb b)) = Ok false)).
    { destruct (dict_get POPULATION_KEY queries) as [p|] eqn:Ep.
      - exists p. split; [reflexivity|].
        destruct Hpop as [-> | ->]; [reflexivity|].
        now destruct (is_None p).
      - exists (VScalar SNone). rewrite (dict_del_absent _ _ Ep). auto. }
    destruct Hmis as (q0 & -> & ->). rewrite bind_Ok.
    rewrite (dict_get_del_ne EDGE_ID_KEY POPULATION_KEY) by assumption.
    rewrite He.
    rewrite (dict_get_del_ne NODE_ID_KEY EDGE_ID_KEY) by assumption.
    rewrite (dict_get_del_ne NODE_ID_KEY POPULATION_KEY) by assumption.
    rewrite Hn. reflexivity.
  - apply dict_get_del_eq.
  - unfold queries'. rewrite dict_get_del_ne by (intros E; now apply Hne).
    apply dict_get_del_eq.
Qed.

Lemma circuit_mask_node_id_wins_witness :
  _circuit_mask example_table "default"
    [("edge_id", VScalar (SInt 0)); ("layer", VScalar (SInt 2));
     ("node_id", VList [VScalar (SInt 7)]); ("population", VScalar (SStr "default"))]
  = Ok ([("layer", VScalar (SInt 2))], MVec [false; false; false; true; false]).
Proof.
  refine (eq_trans
    (proj1 (circuit_mask_node_id_wins example_table "default" _
              (VList [VScalar (SInt 7)]) (VScalar (SInt 0)) _ _ _)) _).
  - reflexivity.
  - reflexivity.
  - right. reflexivity.
  - vm_compute. reflexivity.
Defined.

(** C2 does not hold on a floating-point column, where the value is
    always unpacked as a range; nor for a column that bears the name
    of a control key, which the population/ID filter consumes. *)
Lemma properties_mask_scalar_counterexample :
  (exists c,
      dict_get "x" (df_columns example_table) = Some c /\
      In true (col_eq c (SFloat 2%float)) /\
      _properties_mask example_table "default" [("x", VScalar (SFloat 2%float))]
      = Err (PyError "TypeError: cannot unpack non-iterable object")) /\
  (let data := {| df_index := [0; 1]; df_columns := [("node_id", ColInt [1; 0])] |} in
   col_eq (ColInt [1; 0]) (SInt 1) = [true; false] /\
   _properties_mask data "default" [("node_id", VScalar (SInt 1))]
   = Ok (MVec [false; true])).
Proof.
  split.
  - eexists. split; [reflexivity|]. split; vm_compute; auto.
  - split; vm_compute; reflexivity.
Qed.

(** C2, amended: for a column that is not floating-point and a property
    name that is not [population], [node_id] or [edge_id], the mask of
    [{P: V}] for a scalar [V] marks exactly the rows whose cell
    equals [V]. *)
Theorem properties_mask_scalar_equality :
  forall data population_name P c V,
    dict_get P (df_columns data) = Some c ->
    is_floating c = false ->
    mem P [POPULATION_KEY; NODE_ID_KEY; EDGE_ID_KEY] = false ->
    _properties_mask data population_name [(P, VScalar V)]
    = Ok (MVec (col_eq c V)).
Proof.
  intros data pop P c V Hc Hfl Hres.
  assert (HP : mem P (map fst (df_columns data)) = true).
  { apply mem_In, dict_get_In. eauto. }
  apply mem_false in Hres. simpl in Hres.
  assert (Hpop : String.eqb POPULATION_KEY P = false)
    by (apply String.eqb_neq; intros E; apply Hres; auto).
  assert (Hnode : String.eqb NODE_ID_KEY P = false)
    by (apply String.eqb_neq; intros E; apply Hres; auto).
  assert (Hedge : String.eqb EDGE_ID_KEY P = false)
    by (apply String.eqb_neq; intros E; apply Hres; auto).
  unfold _properties_mask. cbn [map fst List.filter]. rewrite HP.
  cbn [negb andb is_nil].
  unfold _circuit_mask, dict_pop. cbn [dict_get].
  rewrite Hpop. cbn [is_None]. rewrite bind_Ok.
  cbn [dict_get]. rewrite Hedge. cbn [dict_get]. rewrite Hnode.
  cbn [_positional_mask]. rewrite !bind_Ok. cbn [selects_nothing negb].
  cbn [_properties_mask_loop]. unfold get_column. rewrite Hc, bind_Ok.
  destruct c; try discriminate; cbn [prop_mask]; rewrite bind_Ok;
    rewrite logical_and_true_vec; reflexivity.
Qed.

Lemma properties_mask_scalar_equality_witness :
  _properties_mask example_table "default" [("mtype", VScalar (SStr "ab"))]
  = Ok (MVec [true; false; false; false; false]).
Proof.
  apply (properties_mask_scalar_equality example_table "default" "mtype"
           (ColStr ["ab"; "a"; "b"; "abc"; "xab"]) (SStr "ab"));
    reflexivity.
Defined.

(** ** The positional mask *)

Lemma get_loc_found index id :
  0 <= get_loc index id ->
  index !! Z.to_nat (get_loc index id) = Some id.
Proof.
  induction index as [|x rest IH]; simpl; [lia|].
  destruct (Z.eqb_spec x id) as [->|Hne]; [reflexivity|].
  destruct (Z.ltb_spec (get_loc rest id) 0) as [Hlt|Hge]; [lia|].
  intros _. replace (Z.to_nat (get_loc rest id + 1)) with (S (Z.to_nat (get_loc rest id))) by lia.
  simpl. apply IH. lia.
Qed.

Lemma get_loc_In index id : In id index -> 0 <= get_loc index id.
Proof.
  induction index as [|x rest IH]; simpl; [tauto|].
  intros [->|Hin].
  - rewrite Z.eqb_refl. lia.
  - destruct (x =? id); [lia|]. specialize (IH Hin).
    destruct (Z.ltb_spec (get_loc rest id) 0); lia.
Qed.

Lemma set_true_length m ps : length (set_true m ps) = length m.
Proof.
  unfold set_true. revert m.
  induction ps as [|p ps IH]; intros m; simpl; [reflexivity|].
  rewrite IH. apply length_insert.
Qed.

Lemma set_true_lookup m ps (i : nat) :
  set_true m ps !! i = Some true <->
  m !! i = Some true \/ ((i < length m)%nat /\ exists p, In p ps /\ Z.to_nat p = i).
Proof.
  unfold set_true. revert m.
  induction ps as [|p ps IH]; intros m; simpl.
  - split; [auto | intros [H|(_ & q & [] & _)]; assumption].
  - rewrite IH, length_insert. split.
    + intros [H|(Hlt & q & Hq & Hi)].
      * destruct (Nat.eq_dec (Z.to_nat p) i) as [E|E].
        -- right. split; [|eauto].
           apply lookup_lt_Some in H. now rewrite length_insert in H.
        -- left. now rewrite list_lookup_insert_ne in H.
      * right. split; [assumption|]. eauto.
    + intros [H|(Hlt & q & [<-|Hq] & Hi)].
      * destruct (Nat.eq_dec (Z.to_nat p) i) as [E|E].
        -- left. subst i. apply list_lookup_insert_eq. now apply lookup_lt_Some in H.
        -- left. now rewrite list_lookup_insert_ne.
      * left. subst i. now apply list_lookup_insert_eq.
      * right. split; [assumption|]. eauto.
Qed.

Lemma mapM_scalars (l : list scalar) :
  mapM (fun v => match v with
                 | VScalar a => Ok a
                 | _ => Err (Unmodelled "get_indexer: nested target")
                 end) (map VScalar l) = Ok l.
Proof.
  induction l as [|a l IH]; cbn [map mapM]; [reflexivity|].
  rewrite bind_Ok, IH. reflexivity.
Qed.

Lemma get_indexer_ints index (ids : list Z) :
  NoDup index ->
  get_indexer index (map SInt ids) = Ok (map (get_loc index) ids).
Proof.
  intros H. unfold get_indexer. rewrite bool_decide_eq_true_2 by assumption.
  induction ids as [|z ids IH]; cbn [map mapM id_of_scalar]; [reflexivity|].
  rewrite !bind_Ok, IH. reflexivity.
Qed.

Lemma positional_mask_ints data (ids : list Z) v :
  NoDup (df_index data) ->
  v = VList (map (fun z => VScalar (SInt z)) ids) \/ v = VIds ids ->
  _positional_mask data v =
  Ok (MVec (set_true (repeat false (len data))
              (List.filter (fun i => -1 <? i) (map (get_loc (df_index data)) ids)))).
Proof.
  intros Hnd [-> | ->]; unfold _positional_mask, ids_elements.
  - rewrite <- (map_map SInt VScalar), mapM_scalars, bind_Ok.
    rewrite get_indexer_ints by assumption. reflexivity.
  - rewrite bind_Ok, get_indexer_ints by assumption. reflexivity.
Qed.

(** C8: the positional mask has one entry per row, and the entry of a
    row is true exactly when the ID of that row is among the requested
    IDs; repeated and absent IDs change nothing and raise nothing. *)
Theorem positional_mask_marks_requested_rows :
  forall data (ids : list Z) v,
    NoDup (df_index data) ->
    v = VList (map (fun z => VScalar (SInt z)) ids) \/ v = VIds ids ->
    exists m,
      _positional_mask data v = Ok (MVec m) /\
      length m = len data /\
      forall (i : nat) (id : Z),
        df_index data !! i = Some id ->
        m !! i = Some (bool_decide (id ∈ ids)).
Proof.
  intros data ids v Hnd Hv.
  eexists. split; [apply (positional_mask_ints data ids v Hnd Hv)|].
  split; [rewrite set_true_length; apply repeat_length|].
  intros i id Hi.
  set (m := set_true _ _).
  assert (Hlen : length m = len data)
    by (unfold m; rewrite set_true_length; apply repeat_length).
  assert (Hi' : (i < length m)%nat)
    by (rewrite Hlen; unfold len; now apply lookup_lt_Some in Hi).
  assert (Htrue : m !! i = Some true <-> id ∈ ids).
  { unfold m. rewrite set_true_lookup. split.
    - intros [H|(_ & p & Hp & Hpi)].
      + apply list_elem_of_lookup_2 in H as H'.
        apply list_elem_of_In, repeat_spec in H'. discriminate.
      + apply filter_In in Hp as [Hp Hpos].
        apply in_map_iff in Hp as (id' & <- & Hid').
        apply Z.ltb_lt in Hpos.
        assert (Hge : 0 <= get_loc (df_index data) id') by lia.
        assert (Hf := get_loc_found (df_index data) id' Hge).
        rewrite Hpi, Hi in Hf. inversion Hf; subst.
        now apply list_elem_of_In.
    - intros Hin. right. split; [rewrite repeat_length, <- Hlen; exact Hi'|].
      assert (Hpos : 0 <= get_loc (df_index data) id).
      { apply get_loc_In, list_elem_of_In. eapply list_elem_of_lookup_2; eauto. }
      exists (get_loc (df_index data) id). split.
      + apply filter_In. split.
        * apply in_map. now apply list_elem_of_In.
        * apply Z.ltb_lt. lia.
      + eapply NoDup_lookup; eauto using get_loc_found. }
  destruct (lookup_lt_is_Some_2 m i Hi') as [b Hb].
  rewrite Hb. f_equal. destruct b.
  - symmetry. apply bool_decide_eq_true_2, Htrue, Hb.
  - symmetry. apply bool_decide_eq_false_2. intros Hin.
    apply Htrue in Hin. congruence.
Qed.

Lemma positional_mask_marks_requested_rows_witness :
  exists m,
    _positional_mask example_table (VList (map (fun z => VScalar (SInt z)) [2; 2; 5; 3]))
    = Ok (MVec m) /\
    length m = 5%nat /\
    forall (i : nat) (id : Z),
      [0; 2; 5; 7; 9] !! i = Some id ->
      m !! i = Some (bool_decide (id ∈ [2; 2; 5; 3])).
Proof.
  apply (positional_mask_marks_requested_rows example_table [2; 2; 5; 3]).
  - apply NoDup_by_compute. vm_compute. reflexivity.
  - left. reflexivity.
Defined.

Example positional_mask_duplicates :
  _positional_mask example_table (VList (map (fun z => VScalar (SInt z)) [2; 2; 5; 3]))
  = Ok (MVec [false; true; true; false; false]).
Proof. vm_compute. reflexivity. Qed.

(** ** Regular expressions *)

Lemma lang_char_eps_inv c w : lang (RSeq (RChar c) REps) w -> w = [c].
Proof.
  intros H. inversion H as [| | |r1 r2 w1 w2 H1 H2| | | |]; subst.
  inversion H1; subst. inversion H2; subst. reflexivity.
Qed.

(** C3 at a failing input: for the pattern [a|b] the appended [\Z]
    anchors the second alternative only, so the value [ab], of which
    the pattern matches a proper prefix and never the whole, is
    selected. *)
Theorem regex_alternation_selects_prefix_match :
  (exists r, re_compile "a|b" = Ok r /\ ~ lang r (list_ascii_of_string "ab")) /\
  re_compile ("a|b" +:+ "\Z")
  = Ok (RAlt (RSeq (RChar "a") REps) (RSeq (RChar "b") (RSeq REnd REps))) /\
  _complex_query (ColStr ["ab"]) [(REGEX_KEY, VScalar (SStr "a|b"))]
  = Ok (MVec [true]) /\
  run_resolve_ids example_table "default"
    (VDict [("mtype", VDict [(REGEX_KEY, VScalar (SStr "a|b"))])])
  = Ok [true; true; true; true; false].
Proof.
  split; [|split; [|split]]; try (vm_compute; reflexivity).
  eexists. split; [vm_compute; reflexivity|].
  intros H. inversion H as [| | | |r1 r2 w H1|r1 r2 w H1| |]; subst;
    apply lang_char_eps_inv in H1; discriminate.
Qed.

(** ** Frame: a call only changes objects it has created *)

Section Frame.
Variable s0 : store.
Abbreviation n0 := (length s0).
Abbreviation fresh := (hval_fresh (length s0)).
Abbreviation any := (fun _ => True).

Lemma extends_refl : extends s0 s0.
Proof. exists []. split; [now rewrite app_nil_r | constructor]. Qed.

Lemma safe_ret {A} (a : A) (Q : A -> Prop) : Q a -> safe s0 (mret a) Q.
Proof. intros HQ s Hs. split; [exact Hs|]. intros a' [= <-]. exact HQ. Qed.

Lemma safe_raise {A} (e : error) (Q : A -> Prop) : safe s0 (raise e) Q.
Proof. intros s Hs. split; [exact Hs|]. intros a [=]. Qed.

Lemma safe_bind {A B} (m : M A) (k : A -> M B) (P : A -> Prop) (Q : B -> Prop) :
  safe s0 m P -> (forall a, P a -> safe s0 (k a) Q) -> safe s0 (m ≫= k) Q.
Proof.
  intros Hm Hk s Hs. destruct (Hm s Hs) as [Hext HP].
  unfold mbind, M_bind. destruct (m s) as [[a|e] s'].
  - apply (Hk a); [apply HP; reflexivity | exact Hext].
  - split; [exact Hext|]. intros b [=].
Qed.

Lemma safe_weaken {A} (m : M A) (P Q : A -> Prop) :
  safe s0 m P -> (forall a, P a -> Q a) -> safe s0 m Q.
Proof. intros Hm HPQ s Hs. destruct (Hm s Hs). split; auto. Qed.

(** A computation that leaves the store alone. *)
Lemma safe_readonly {A} (m : M A) (Q : A -> Prop) :
  (forall s, snd (m s) = s) ->
  (forall s a, extends s0 s -> fst (m s) = Ok a -> Q a) ->
  safe s0 m Q.
Proof. intros Hro HQ s Hs. rewrite Hro. split; [exact Hs | intros a; now apply HQ]. Qed.

Lemma safe_lift {A} (r : result A) : safe s0 (lift r) any.
Proof. apply safe_readonly; auto. Qed.

Lemma safe_read {A} (f : store -> result A) : safe s0 (read f) any.
Proof. apply safe_readonly; auto. Qed.

Lemma extends_lookup s (l : nat) o :
  extends s0 s -> (n0 <= l)%nat -> s !! l = Some o -> obj_fresh n0 o.
Proof.
  intros (ext & -> & Hext) Hl Hlook.
  rewrite lookup_app_r in Hlook by exact Hl.
  eapply Forall_lookup_1; eassumption.
Qed.

Lemma extends_insert s (l : nat) o :
  extends s0 s -> (n0 <= l)%nat -> obj_fresh n0 o -> extends s0 (<[l := o]> s).
Proof.
  intros (ext & -> & Hext) Hl Ho.
  exists (<[(l - n0)%nat := o]> ext). split.
  - now apply insert_app_r_alt.
  - now apply Forall_insert.
Qed.

Lemma extends_new s o :
  extends s0 s -> obj_fresh n0 o -> extends s0 (s ++ [o]) /\ (n0 <= length s)%nat.
Proof.
  intros (ext & -> & Hext) Ho. split.
  - exists (ext ++ [o]). split; [now rewrite app_assoc|].
    apply Forall_app. split; [exact Hext | now constructor].
  - rewrite length_app. lia.
Qed.

Lemma get_dict_readonly q s : snd (get_dict q s) = s.
Proof.
  unfold get_dict. destruct q; try reflexivity.
  destruct (s !! l) as [[|]|]; reflexivity.
Qed.

Lemma safe_get_dict q :
  fresh q -> safe s0 (get_dict q) (fun d => obj_fresh n0 (ODict d)).
Proof.
  intros Hq. apply safe_readonly; [apply get_dict_readonly|].
  intros s d Hs. unfold get_dict. destruct q as [| | | |l]; try discriminate.
  destruct (s !! l) as [[d'|xs]|] eqn:E; try discriminate.
  intros [= <-]. exact (extends_lookup s l _ Hs Hq E).
Qed.

Lemma safe_get_dict_any q : safe s0 (get_dict q) any.
Proof. apply safe_readonly; [apply get_dict_readonly | auto]. Qed.

Lemma safe_put_dict q d :
  fresh q -> obj_fresh n0 (ODict d) -> safe s0 (put_dict q d) any.
Proof.
  intros Hq Hd s Hs. unfold put_dict. destruct q as [| | | |l]; simpl; auto.
  split; [|auto]. now apply extends_insert.
Qed.

Lemma dict_get_fresh k (d : list (string * hval)) v :
  Forall (fun kv => fresh (snd kv)) d -> dict_get k d = Some v -> fresh v.
Proof.
  induction 1 as [|[k' v'] d Hv Hd IH]; simpl; [discriminate|].
  destruct (String.eqb k k'); [intros [= <-]; exact Hv | exact IH].
Qed.

Lemma dict_set_fresh k v (d : list (string * hval)) :
  Forall (fun kv => fresh (snd kv)) d -> fresh v ->
  Forall (fun kv => fresh (snd kv)) (dict_set k v d).
Proof.
  intros Hd Hv. induction Hd as [|[k' v'] d Hv' Hd IH]; simpl.
  - now constructor.
  - destruct (String.eqb k k'); constructor; auto.
Qed.

Lemma dict_del_fresh k (d : list (string * hval)) :
  Forall (fun kv => fresh (snd kv)) d ->
  Forall (fun kv => fresh (snd kv)) (dict_del k d).
Proof.
  intros Hd. unfold dict_del. induction Hd as [|kv d Hv Hd IH]; simpl.
  - constructor.
  - destruct (negb _); [constructor|]; auto.
Qed.

Lemma safe_getitem q key : fresh q -> safe s0 (getitem q key) fresh.
Proof.
  intros Hq. unfold getitem.
  eapply safe_bind; [apply safe_get_dict, Hq|].
  intros d [_ Hd]. destruct (dict_get key d) as [v|] eqn:E.
  - apply safe_ret. eapply dict_get_fresh; eassumption.
  - apply safe_raise.
Qed.

Lemma safe_setitem q key v : fresh q -> fresh v -> safe s0 (setitem q key v) any.
Proof.
  intros Hq Hv. unfold setitem.
  eapply safe_bind; [apply safe_get_dict, Hq|].
  intros d [Hnd Hd]. apply safe_put_dict; [exact Hq|].
  split; [now apply dict_set_NoDup | now apply dict_set_fresh].
Qed.

Lemma safe_delitem q key : fresh q -> safe s0 (delitem q key) any.
Proof.
  intros Hq. unfold delitem.
  eapply safe_bind; [apply safe_get_dict, Hq|].
  intros d Hd. destruct (dict_get key d).
  - destruct Hd as [Hnd Hd]. apply safe_put_dict; [exact Hq|].
    split; [now apply dict_del_NoDup | now apply dict_del_fresh].
  - apply safe_raise.
Qed.

Lemma safe_dict_keys q : safe s0 (dict_keys q) any.
Proof.
  unfold dict_keys. eapply safe_bind; [apply safe_get_dict_any|].
  intros d _. now apply safe_ret.
Qed.

Lemma safe_mapping_keys v : safe s0 (mapping_keys v) any.
Proof.
  apply safe_readonly; [|auto]. intros s. unfold mapping_keys.
  destruct v; try reflexivity. destruct (s !! l) as [[|]|]; reflexivity.
Qed.

Lemma safe_new_obj o : obj_fresh n0 o -> safe s0 (new_obj o) (fun l => (n0 <= l)%nat).
Proof.
  intros Ho s Hs. destruct (extends_new s o Hs Ho) as [He Hl].
  split; [exact He|]. intros l [= <-]. exact Hl.
Qed.

Lemma safe_list_append lst v : fresh lst -> fresh v -> safe s0 (list_append lst v) any.
Proof.
  intros Hl Hv s Hs. unfold list_append.
  destruct lst as [| | | |l]; simpl; auto.
  destruct (s !! l) as [[d|xs]|] eqn:E; simpl; auto.
  split; [|auto]. apply extends_insert; [exact Hs | exact Hl|].
  simpl. apply Forall_app. split; [|now constructor].
  exact (extends_lookup s l _ Hs Hl E).
Qed.

Lemma safe_iter_values v : fresh v -> safe s0 (iter_values v) (Forall fresh).
Proof.
  intros Hv. apply safe_readonly.
  - intros s. unfold iter_values. destruct v as [[]| | | |l]; try reflexivity.
    destruct (s !! l) as [[|]|]; reflexivity.
  - intros s xs Hs. unfold iter_values.
    destruct v as [a|t|bs|zs|l].
    + destruct a; try discriminate. intros [= <-].
      apply Forall_forall. intros x Hx. apply list_elem_of_In, in_map_iff in Hx as (c & <- & _). exact I.
    + intros [= <-]. apply Forall_forall. intros x Hx.
      apply list_elem_of_In, in_map_iff in Hx as (c & <- & _). exact I.
    + intros [= <-]. apply Forall_forall. intros x Hx.
      apply list_elem_of_In, in_map_iff in Hx as (c & <- & _). exact I.
    + intros [= <-]. apply Forall_forall. intros x Hx.
      apply list_elem_of_In, in_map_iff in Hx as (c & <- & _). exact I.
    + destruct (s !! l) as [[d|ys]|] eqn:E; try discriminate; intros [= <-].
      * apply Forall_forall. intros x Hx.
        apply list_elem_of_In, in_map_iff in Hx as (c & <- & _). exact I.
      * exact (extends_lookup s l _ Hs Hv E).
Qed.

Lemma safe_forM_ {A} (f : A -> M unit) (P : A -> Prop) (l : list A) :
  Forall P l -> (forall a, P a -> safe s0 (f a) any) -> safe s0 (forM_ f l) any.
Proof.
  intros Hl Hf. induction Hl as [|a l Ha Hl IH]; simpl.
  - now apply safe_ret.
  - eapply safe_bind; [apply Hf, Ha|]. intros _ _. exact IH.
Qed.

Lemma safe_forM {A B} (f : A -> M B) (l : list A) :
  (forall a, safe s0 (f a) any) -> safe s0 (forM f l) any.
Proof.
  intros Hf. induction l as [|a l IH]; simpl.
  - now apply safe_ret.
  - eapply safe_bind; [apply Hf|]. intros b _.
    eapply safe_bind; [apply IH|]. intros bs _. now apply safe_ret.
Qed.

Lemma safe_iter_list fuel (body : hval -> M unit) (l i : nat) :
  (n0 <= l)%nat -> (forall x, fresh x -> safe s0 (body x) any) ->
  safe s0 (iter_list fuel body l i) any.
Proof.
  intros Hl Hbody. revert i. induction fuel as [|fuel IH]; intros i.
  - apply safe_raise.
  - intros s Hs. cbn [iter_list].
    destruct (s !! l) as [[d|xs]|] eqn:E; [now split | | now split].
    destruct (xs !! i) as [x|] eqn:Ex; [|now split].
    assert (Hx : fresh x).
    { assert (Ho := extends_lookup s l _ Hs Hl E). simpl in Ho.
      eapply Forall_lookup_1; eassumption. }
    apply (safe_bind (body x) (fun _ => iter_list fuel body l (S i)) any any);
      [apply Hbody, Hx | intros _ _; apply IH | exact Hs].
Qed.

Lemma safe_is_list v :
  fresh v ->
  safe s0 (read (fun s => Ok (is_list v s)))
       (fun o => forall l, o = Some l -> (n0 <= l)%nat).
Proof.
  intros Hv. apply safe_readonly; [reflexivity|].
  intros s o _ [= <-] l. unfold is_list.
  destruct v as [| | | |l']; try discriminate.
  destruct (s !! l') as [[|]|]; try discriminate. intros [= <-]. exact Hv.
Qed.

Lemma safe_traverse_children recurse fuel q key :
  (forall v, fresh v -> safe s0 (recurse v) any) ->
  fresh q -> safe s0 (traverse_children recurse fuel q key) any.
Proof.
  intros IH Hq. unfold traverse_children.
  destruct (mem key [OR_KEY; AND_KEY]).
  - eapply safe_bind; [apply safe_getitem, Hq|]. intros sub Hsub.
    eapply safe_bind; [apply safe_is_list, Hsub|]. intros [l|] Hl.
    + apply safe_iter_list; [now apply Hl | exact IH].
    + eapply safe_bind; [apply safe_iter_values, Hsub|]. intros subs Hsubs.
      eapply safe_forM_; [exact Hsubs | exact IH].
  - eapply safe_bind; [apply safe_getitem, Hq|]. intros v Hv.
    eapply safe_bind; [apply safe_mapping_keys|]. intros [ks|] _.
    + destruct (has_value_key ks); [|now apply IH].
      destruct (negb (only_value_keys ks)); [apply safe_raise | now apply safe_ret].
    + now apply safe_ret.
Qed.

(** The traversal stays within the objects of the call as long as
    the visitor does. *)
Lemma safe_traverse fuel (traverse_fn : hval -> string -> M unit) :
  (forall q key, fresh q -> safe s0 (traverse_fn q key) any) ->
  forall q, fresh q -> safe s0 (traverse_queries_bottom_up fuel traverse_fn q) any.
Proof.
  intros Hfn. induction fuel as [|fuel IH]; intros q Hq.
  - apply safe_raise.
  - cbn [traverse_queries_bottom_up].
    eapply safe_bind; [apply safe_dict_keys|]. intros keys _.
    apply (safe_forM_ _ any); [now apply Forall_forall|]. intros key _.
    eapply safe_bind; [|intros _ _; now apply Hfn].
    now apply safe_traverse_children.
Qed.

Lemma iter_values_readonly v s : snd (iter_values v s) = s.
Proof.
  unfold iter_values. destruct v as [[]| | | |l]; try reflexivity.
  destruct (s !! l) as [[|]|]; reflexivity.
Qed.

Lemma safe_iter_values_any v : safe s0 (iter_values v) any.
Proof. apply safe_readonly; [apply iter_values_readonly | auto]. Qed.

Lemma safe_merge_queries_masks q : safe s0 (_merge_queries_masks q) any.
Proof.
  unfold _merge_queries_masks.
  eapply safe_bind; [apply safe_get_dict_any|]. intros d _.
  eapply safe_bind; [apply safe_lift|]. intros masks _. apply safe_lift.
Qed.

Lemma hval_of_mask_fresh m : fresh (hval_of_mask m).
Proof. destruct m; exact I. Qed.

Lemma safe_collect fuel data population_name q key :
  fresh q -> safe s0 (_collect fuel data population_name q key) any.
Proof.
  intros Hq. unfold _collect.
  destruct (String.eqb key OR_KEY); [|destruct (String.eqb key AND_KEY)].
  - eapply safe_bind; [apply safe_getitem, Hq|]. intros sub _.
    eapply safe_bind; [apply safe_iter_values_any|].
    intros children _.
    eapply safe_bind; [apply safe_forM, safe_merge_queries_masks|]. intros ms _.
    eapply safe_bind; [apply safe_lift|]. intros m _.
    apply safe_setitem; [exact Hq | apply hval_of_mask_fresh].
  - eapply safe_bind; [apply safe_getitem, Hq|]. intros sub _.
    eapply safe_bind; [apply safe_iter_values_any|].
    intros children _.
    eapply safe_bind; [apply safe_forM, safe_merge_queries_masks|]. intros ms _.
    eapply safe_bind; [apply safe_lift|]. intros m _.
    apply safe_setitem; [exact Hq | apply hval_of_mask_fresh].
  - eapply safe_bind; [apply safe_getitem, Hq|]. intros h _.
    eapply safe_bind; [apply safe_read|]. intros v _.
    eapply safe_bind; [apply safe_lift|]. intros m _.
    apply safe_setitem; [exact Hq | apply hval_of_mask_fresh].
Qed.
Lemma memo_get_fresh l memo y :
  memo_fresh n0 memo -> memo_get l memo = Some y -> (n0 <= y)%nat.
Proof.
  unfold memo_get. intros Hm.
  destruct (list_find _ memo) as [[i [a b]]|] eqn:E; [|discriminate].
  intros [= <-]. apply list_find_Some in E as (Hi & _).
  exact (Forall_lookup_1 _ _ _ _ Hm Hi).
Qed.

Section Fill.
Variable copy : hval -> memo_t -> M (hval * memo_t).
Hypothesis safe_copy :
  forall v memo, memo_fresh n0 memo -> safe s0 (copy v memo) (copy_fresh n0).

Lemma safe_fill_dict y d memo :
  (n0 <= y)%nat -> memo_fresh n0 memo ->
  safe s0 (fill_dict copy y d memo) (memo_fresh n0).
Proof.
  intros Hy. revert memo. induction d as [|[k v] d IH]; intros memo Hm; simpl.
  - now apply safe_ret.
  - eapply safe_bind; [apply safe_copy, Hm|]. intros [v' memo1] [Hv' Hm1].
    eapply safe_bind; [apply safe_setitem; [exact Hy | exact Hv']|].
    intros _ _. now apply IH.
Qed.

Lemma safe_fill_list y xs memo :
  (n0 <= y)%nat -> memo_fresh n0 memo ->
  safe s0 (fill_list copy y xs memo) (memo_fresh n0).
Proof.
  intros Hy. revert memo. induction xs as [|v xs IH]; intros memo Hm; simpl.
  - now apply safe_ret.
  - eapply safe_bind; [apply safe_copy, Hm|]. intros [v' memo1] [Hv' Hm1].
    eapply safe_bind; [apply safe_list_append; [exact Hy | exact Hv']|].
    intros _ _. now apply IH.
Qed.
End Fill.

(** [deepcopy] creates its copies after the objects of [s0], and
    returns a reference to one of them. *)
Lemma safe_deepcopy fuel x memo :
  memo_fresh n0 memo ->
  safe s0 (deepcopy fuel x memo)
       (fun r => copy_fresh n0 r /\ ((forall a, x <> HRef a) -> fst r = x)).
Proof.
  assert (Hweak : forall fuel,
    (forall x memo, memo_fresh n0 memo ->
       safe s0 (deepcopy fuel x memo)
         (fun r => copy_fresh n0 r /\ ((forall a, x <> HRef a) -> fst r = x))) ->
    forall v memo, memo_fresh n0 memo ->
      safe s0 (deepcopy fuel v memo) (copy_fresh n0)).
  { intros f H v m Hm. eapply safe_weaken; [apply H, Hm|]. now intros r [Hr _]. }
  revert x memo. induction fuel as [|fuel IH]; intros x memo Hm.
  - destruct x as [| | | |l]; try (apply safe_ret; repeat split; auto).
    apply safe_raise.
  - destruct x as [| | | |l]; try (apply safe_ret; repeat split; auto).
    cbn [deepcopy].
    destruct (memo_get l memo) as [y|] eqn:Eg.
    + apply safe_ret. repeat split; auto.
      * simpl. eapply memo_get_fresh; eassumption.
      * intros Ha. exfalso. specialize (Ha l). congruence.
    + intros s Hs. destruct (s !! l) as [[d|xs]|] eqn:E.
      * revert s Hs E. intros s Hs _. revert s Hs.
        change (safe s0 (y ← new_obj (ODict []);
                         memo' ← fill_dict (deepcopy fuel) y d ((l, y) :: memo);
                         mret (HRef y, memo'))
                  (fun r => copy_fresh n0 r /\ ((forall a, HRef l <> HRef a) -> fst r = HRef l))).
        eapply safe_bind; [apply safe_new_obj; split; constructor|]. intros y Hy.
        eapply safe_bind.
        { apply safe_fill_dict; [now apply Hweak | exact Hy|].
          constructor; [exact Hy | exact Hm]. }
        intros memo' Hm'. apply safe_ret. repeat split; auto.
        intros Ha. exfalso. specialize (Ha l). congruence.
      * revert s Hs E. intros s Hs _. revert s Hs.
        change (safe s0 (y ← new_obj (OList []);
                         memo' ← fill_list (deepcopy fuel) y xs ((l, y) :: memo);
                         mret (HRef y, memo'))
                  (fun r => copy_fresh n0 r /\ ((forall a, HRef l <> HRef a) -> fst r = HRef l))).
        eapply safe_bind; [apply safe_new_obj; constructor|]. intros y Hy.
        eapply safe_bind.
        { apply safe_fill_list; [now apply Hweak | exact Hy|].
          constructor; [exact Hy | exact Hm]. }
        intros memo' Hm'. apply safe_ret. repeat split; auto.
        intros Ha. exfalso. specialize (Ha l). congruence.
      * now split.
Qed.

Lemma safe_resolve_ids fuel data population_name queries :
  safe s0 (resolve_ids fuel data population_name queries) any.
Proof.
  unfold resolve_ids.
  eapply safe_bind; [apply safe_deepcopy; constructor|].
  intros [q memo] [[Hq _] _].
  eapply safe_bind.
  { apply safe_traverse; [|exact Hq]. intros q' key Hq'. now apply safe_collect. }
  intros _ _.
  eapply safe_bind; [apply safe_merge_queries_masks|]. intros m _.
  now apply safe_ret.
Qed.

Section NodeSetsFrame.
Variable NodeSet : Type.
Variable node_sets : scalar -> result NodeSet.
Variable get_ids : NodeSet -> bool -> result (list Z).

Lemma safe_resolve raise_missing_prop q key :
  fresh q -> safe s0 (_resolve NodeSet node_sets get_ids raise_missing_prop q key) any.
Proof.
  intros Hq. unfold _resolve.
  destruct (String.eqb key NODE_SET_KEY); [|now apply safe_ret].
  eapply safe_bind; [apply safe_get_dict_any|]. intros d _.
  eapply safe_bind.
  { instantiate (1 := any). destruct (mem AND_KEY (map fst d)); [now apply safe_ret|].
    eapply safe_bind; [apply safe_new_obj; constructor|]. intros l Hl.
    apply safe_setitem; [exact Hq | exact Hl]. }
  intros _ _.
  eapply safe_bind; [apply safe_getitem, Hq|]. intros name _.
  eapply safe_bind; [apply safe_lift|]. intros ns _.
  eapply safe_bind; [apply safe_getitem, Hq|]. intros lst Hlst.
  eapply safe_bind; [apply safe_read|]. intros _ _.
  eapply safe_bind; [apply safe_lift|]. intros ids _.
  eapply safe_bind; [apply safe_new_obj|].
  { simpl. split; [apply NoDup_singleton | constructor; [exact I | constructor]]. }
  intros leaf Hleaf.
  eapply safe_bind; [apply safe_list_append; [exact Hlst | exact Hleaf]|].
  intros _ _. apply safe_delitem, Hq.
Qed.

Lemma safe_resolve_nodesets fuel queries raise_missing_prop :
  safe s0 (resolve_nodesets NodeSet node_sets get_ids fuel queries raise_missing_prop)
       (fun r => fresh r /\ ((forall a, queries <> HRef a) -> r = queries)).
Proof.
  unfold resolve_nodesets.
  eapply safe_bind; [apply safe_deepcopy; constructor|].
  intros [q memo] [[Hq _] Hsame].
  eapply safe_bind.
  { apply safe_traverse; [|exact Hq]. intros q' key Hq'. now apply safe_resolve. }
  intros _ _. apply safe_ret. split; [exact Hq | exact Hsame].
Qed.
End NodeSetsFrame.
End Frame.

Lemma mapM_ext_Forall {A B} (f g : A -> result B) (l : list A) :
  Forall (fun a => f a = g a) l -> mapM f l = mapM g l.
Proof.
  induction 1 as [|a l Ha Hl IH]; simpl; [reflexivity|].
  now rewrite Ha, IH.
Qed.

Lemma store_closed_lookup s (l : nat) o :
  store_closed s -> s !! l = Some o -> obj_closed s o.
Proof. intros Hs Hl. exact (Forall_lookup_1 _ _ _ _ Hs Hl). Qed.

(** Reading a value of a closed store is not affected by objects added
    after it. *)
Lemma reify_app fuel s ext h :
  store_closed s -> hval_closed s h ->
  reify fuel (s ++ ext) h = reify fuel s h.
Proof.
  intros Hs. revert h. induction fuel as [|fuel IH]; intros h Hh.
  - destruct h; reflexivity.
  - destruct h as [| | | |l]; try reflexivity. cbn [reify].
    simpl in Hh. rewrite lookup_app_l by exact Hh.
    destruct (s !! l) as [[d|xs]|] eqn:E; [| |reflexivity].
    + assert (Hd := store_closed_lookup s l _ Hs E). simpl in Hd.
      rewrite (mapM_ext_Forall
                 (fun kv => v ← reify fuel (s ++ ext) (snd kv); Ok (fst kv, v))
                 (fun kv => v ← reify fuel s (snd kv); Ok (fst kv, v))); [reflexivity|].
      eapply Forall_impl; [exact Hd|]. intros kv Hkv. cbn beta. now rewrite IH.
    + assert (Hd := store_closed_lookup s l _ Hs E). simpl in Hd.
      rewrite (mapM_ext_Forall (reify fuel (s ++ ext)) (reify fuel s)); [reflexivity|].
      eapply Forall_impl; [exact Hd|]. intros x Hx. now apply IH.
Qed.

(** C9: [resolve_ids] and [resolve_nodesets] leave every object that
    existed before the call as it was, whatever the outcome of the
    call, so the query of the caller reads the same after the call as
    before; the query returned by [resolve_nodesets] is made of objects
    created by the call. *)
Theorem resolution_leaves_caller_query_unchanged :
  forall (NodeSet : Type) (node_sets : scalar -> result NodeSet)
         (get_ids : NodeSet -> bool -> result (list Z))
         fuel data population_name raise_missing_prop (s : store) (queries : hval),
    store_closed s -> hval_closed s queries ->
    let s1 := snd (resolve_ids fuel data population_name queries s) in
    let r2 := resolve_nodesets NodeSet node_sets get_ids fuel queries
                raise_missing_prop s in
    (forall (l : nat) o, s !! l = Some o -> s1 !! l = Some o /\ snd r2 !! l = Some o) /\
    (forall n, reify n s1 queries = reify n s queries /\
               reify n (snd r2) queries = reify n s queries) /\
    (forall resolved, fst r2 = Ok resolved -> hval_fresh (length s) resolved).
Proof.
  intros NodeSet node_sets get_ids fuel data pop rmp s queries Hs Hq s1 r2.
  destruct (safe_resolve_ids s fuel data pop queries s (extends_refl s))
    as [(ext1 & E1 & _) _].
  destruct (safe_resolve_nodesets s NodeSet node_sets get_ids fuel queries rmp s
              (extends_refl s)) as [(ext2 & E2 & _) Hres].
  fold s1 in E1. fold r2 in E2, Hres.
  split; [|split].
  - intros l o Hl. rewrite E1, E2. split; now apply lookup_app_l_Some.
  - intros n. rewrite E1, E2. split; now apply reify_app.
  - intros resolved Hr. now apply Hres.
Qed.

Lemma resolution_leaves_caller_query_unchanged_witness :
  let q := VDict [("$node_set", VScalar (SStr "Layer2"));
                  ("$or", VList [VDict [("layer", VScalar (SInt 2))];
                                 VDict [("mtype", VList [VScalar (SStr "a")])]])] in
  let '(h, s) := alloc q [] in
  let s1 := snd (resolve_ids 16 example_table "default" h s) in
  let r2 := resolve_nodesets unit (fun _ => Ok tt) (fun _ _ => Ok [2; 5]) 16 h true s in
  (forall (l : nat) o, s !! l = Some o -> s1 !! l = Some o /\ snd r2 !! l = Some o) /\
  (forall n, reify n s1 h = reify n s h /\ reify n (snd r2) h = reify n s h) /\
  (forall resolved, fst r2 = Ok resolved -> hval_fresh (length s) resolved).
Proof.
  cbv zeta. destruct (alloc _ []) as [h s] eqn:E.
  vm_compute in E. injection E as <- <-.
  apply (resolution_leaves_caller_query_unchanged unit (fun _ => Ok tt) (fun _ _ => Ok [2; 5])).
  - repeat (constructor; simpl; try lia).
  - simpl. lia.
Defined.

Example resolve_nodesets_expands :
  let q := VDict [("$node_set", VScalar (SStr "Layer2")); ("layer", VScalar (SInt 2))] in
  let '(h, s) := alloc q [] in
  let r := resolve_nodesets unit (fun _ => Ok tt) (fun _ _ => Ok [2; 5]) 16 h true s in
  (r' ← fst r; reify 16 (snd r) r')
  = Ok (VDict [("layer", VScalar (SInt 2));
               ("$and", VList [VDict [("node_id", VIds [2; 5])]])]) /\
  reify 16 (snd r) h = Ok q.
Proof. vm_compute. split; reflexivity. Qed.

(** ** Every mask has one entry per row *)

Section MaskLength.
Variable N : nat.

Lemma np_binop_length op a b r :
  length a = N -> length b = N -> np_binop op a b = Ok r -> length r = N.
Proof.
  intros Ha Hb. unfold np_binop.
  rewrite Ha, Hb, Nat.eqb_refl. intros [= <-].
  rewrite length_zip_with. lia.
Qed.

Lemma np_reduce_length op acc rest r :
  length acc = N -> Forall (fun v => length v = N) rest ->
  np_reduce op acc rest = Ok r -> length r = N.
Proof.
  intros Hacc Hrest. revert acc Hacc.
  induction Hrest as [|v rest Hv Hrest IH]; intros acc Hacc; cbn [np_reduce].
  - now intros [= <-].
  - intros H. apply bind_Ok_inv in H as (acc' & Hb & Hr).
    apply (IH acc'); [|exact Hr]. apply (np_binop_length op acc v); assumption.
Qed.

Lemma and_scan_length masks filtered res :
  Forall (valid_mask N) masks -> Forall (fun v => length v = N) filtered ->
  and_scan masks filtered = Some res -> Forall (fun v => length v = N) res.
Proof.
  intros Hm. revert filtered.
  induction Hm as [|m masks Hv Hm IH]; intros filtered Hf; simpl.
  - now intros [= <-].
  - destruct m as [[|]|v]; [now apply IH | discriminate|].
    apply IH. apply Forall_app. split; [exact Hf | now constructor].
Qed.

Lemma or_scan_length masks filtered res :
  Forall (valid_mask N) masks -> Forall (fun v => length v = N) filtered ->
  or_scan masks filtered = Some res -> Forall (fun v => length v = N) res.
Proof.
  intros Hm. revert filtered.
  induction Hm as [|m masks Hv Hm IH]; intros filtered Hf; simpl.
  - now intros [= <-].
  - destruct m as [[|]|v]; [discriminate | now apply IH|].
    apply IH. apply Forall_app. split; [exact Hf | now constructor].
Qed.

Lemma logical_and_valid masks m :
  Forall (valid_mask N) masks -> _logical_and masks = Ok m -> valid_mask N m.
Proof.
  intros Hm. unfold _logical_and.
  destruct (and_scan masks []) as [[|v vs]|] eqn:E; try (intros [= <-]; exact I).
  apply and_scan_length in E; [|exact Hm|constructor].
  apply Forall_cons in E as [Hv Hvs].
  intros H. apply bind_Ok_inv in H as (r & Hr & [= <-]).
  simpl. eapply np_reduce_length; [exact Hv | exact Hvs | exact Hr].
Qed.

Lemma logical_or_valid masks m :
  Forall (valid_mask N) masks -> _logical_or masks = Ok m -> valid_mask N m.
Proof.
  intros Hm. unfold _logical_or.
  destruct (or_scan masks []) as [[|v vs]|] eqn:E; try (intros [= <-]; exact I).
  apply or_scan_length in E; [|exact Hm|constructor].
  apply Forall_cons in E as [Hv Hvs].
  intros H. apply bind_Ok_inv in H as (r & Hr & [= <-]).
  simpl. eapply np_reduce_length; [exact Hv | exact Hvs | exact Hr].
Qed.

Lemma str_match_length pat cells r :
  str_match pat cells = Ok r -> length r = length cells.
Proof.
  unfold str_match. intros H. apply bind_Ok_inv in H as (re & _ & [= <-]).
  apply length_map.
Qed.

Lemma str_cells_length c cells :
  str_cells c = Ok cells -> length cells = col_len c.
Proof. destruct c; simpl; intros [= <-]; reflexivity. Qed.

Lemma complex_query_loop_valid prop query acc m :
  col_len prop = N -> valid_mask N acc ->
  _complex_query_loop prop query acc = Ok m -> valid_mask N m.
Proof.
  intros Hlen. revert acc. induction query as [|[key v] query IH]; intros acc Hacc;
    cbn [_complex_query_loop].
  - now intros [= <-].
  - destruct (String.eqb key REGEX_KEY); [|discriminate].
    intros H. apply bind_Ok_inv in H as (cells & Hc & H).
    apply bind_Ok_inv in H as (pat & _ & H).
    apply bind_Ok_inv in H as (mm & Hmm & H).
    apply bind_Ok_inv in H as (acc' & Hacc' & H).
    apply (IH acc'); [|exact H].
    apply (logical_and_valid [acc; MVec mm]); [|exact Hacc'].
    repeat constructor; [exact Hacc|]. simpl.
    apply str_match_length in Hmm. apply str_cells_length in Hc. congruence.
Qed.

Lemma col_eq_length c a : length (col_eq c a) = col_len c.
Proof. destruct c; simpl; apply length_map. Qed.

Lemma col_isin_length c l : length (col_isin c l) = col_len c.
Proof. destruct c; simpl; apply length_map. Qed.

Lemma col_eq_seq_length c l r : col_eq_seq c l = Ok r -> length r = col_len c.
Proof.
  unfold col_eq_seq. destruct (Nat.eqb_spec (col_len c) (length l)) as [E|]; [|discriminate].
  intros [= <-]. destruct c; simpl in *; rewrite length_zip_with; lia.
Qed.

Lemma prop_mask_valid c values m :
  col_len c = N -> prop_mask c values = Ok m -> valid_mask N m.
Proof.
  intros Hlen H.
  assert (Hgen : match values with
                 | VDict query => _complex_query c query
                 | VList l =>
                     elems ← mapM (fun v => match v with
                                            | VScalar a => Ok a
                                            | _ => Err (Unmodelled "isin: nested values")
                                            end) l;
                     Ok (MVec (col_isin c elems))
                 | VScalar a => Ok (MVec (col_eq c a))
                 | VTuple l => m ← col_eq_seq c l; Ok (MVec m)
                 | VArr bs => m ← col_eq_seq c (map SBool bs); Ok (MVec m)
                 | VIds zs => m ← col_eq_seq c (map SInt zs); Ok (MVec m)
                 end = Ok m -> valid_mask N m).
  { clear H. destruct values as [a|l|bs|zs|l|query].
    - intros [= <-]. simpl. now rewrite col_eq_length.
    - intros H. apply bind_Ok_inv in H as (r & Hr & [= <-]).
      simpl. apply col_eq_seq_length in Hr. congruence.
    - intros H. apply bind_Ok_inv in H as (r & Hr & [= <-]).
      simpl. apply col_eq_seq_length in Hr. congruence.
    - intros H. apply bind_Ok_inv in H as (r & Hr & [= <-]).
      simpl. apply col_eq_seq_length in Hr. congruence.
    - intros H. apply bind_Ok_inv in H as (r & Hr & [= <-]).
      simpl. now rewrite col_isin_length.
    - apply complex_query_loop_valid; [exact Hlen | exact I]. }
  destruct c as [cells|cells|cells|cells]; try (apply Hgen; exact H).
  simpl in H. apply bind_Ok_inv in H as ([v1 v2] & _ & H).
  apply bind_Ok_inv in H as (f1 & _ & H).
  apply bind_Ok_inv in H as (f2 & _ & [= <-]).
  simpl. unfold col_range. now rewrite length_map.
Qed.

Lemma positional_mask_valid data ids m :
  len data = N -> _positional_mask data ids = Ok m -> valid_mask N m.
Proof.
  intros Hlen. unfold _positional_mask.
  assert (Hgen : forall elems : result (list scalar),
    (elems ← elems;
     indices ← get_indexer (df_index data) elems;
     Ok (MVec (set_true (repeat false (len data))
                        (List.filter (fun i => -1 <? i) indices)))) = Ok m ->
    valid_mask N m).
  { intros elems H. apply bind_Ok_inv in H as (es & _ & H).
    apply bind_Ok_inv in H as (ix & _ & [= <-]).
    simpl. now rewrite set_true_length, repeat_length. }
  destruct ids as [[]| | | | |]; try apply Hgen.
  now intros [= <-].
Qed.
End MaskLength.

Lemma dict_get_In_pair {V} k (v : V) d : dict_get k d = Some v -> In (k, v) d.
Proof.
  induction d as [|[k' v'] d IH]; simpl; [discriminate|].
  destruct (String.eqb_spec k k') as [->|Hne].
  - intros [= ->]. now left.
  - intros H. right. now apply IH.
Qed.

Lemma get_column_length data prop c :
  wf_table data -> get_column data prop = Ok c -> col_len c = len data.
Proof.
  intros [_ Hcols]. unfold get_column.
  destruct (dict_get prop (df_columns data)) as [c'|] eqn:E; [|discriminate].
  intros [= <-]. apply dict_get_In_pair in E.
  rewrite Forall_forall in Hcols. apply (Hcols (prop, c')).
  now apply list_elem_of_In.
Qed.

Lemma properties_mask_loop_valid data queries acc m :
  wf_table data -> valid_mask (len data) acc ->
  _properties_mask_loop data queries acc = Ok m -> valid_mask (len data) m.
Proof.
  intros Hwf. revert acc. induction queries as [|[prop values] queries IH];
    intros acc Hacc; cbn [_properties_mask_loop].
  - now intros [= <-].
  - intros H. apply bind_Ok_inv in H as (c & Hc & H).
    apply bind_Ok_inv in H as (pm & Hpm & H).
    apply bind_Ok_inv in H as (acc' & Hacc' & H).
    apply (IH acc'); [|exact H].
    apply (logical_and_valid _ [acc; pm]); [|exact Hacc'].
    repeat constructor; [exact Hacc|].
    eapply prop_mask_valid; [|exact Hpm]. eapply get_column_length; eassumption.
Qed.

(** The mask of a node has one entry per row of the table. *)
Lemma properties_mask_valid data population_name queries m :
  wf_table data ->
  _properties_mask data population_name queries = Ok m ->
  valid_mask (len data) m.
Proof.
  intros Hwf. unfold _properties_mask.
  destruct (negb (is_nil _)); [now intros [= <-]|].
  intros H. apply bind_Ok_inv in H as ([queries' cm] & Hc & H).
  destruct (selects_nothing cm); [now injection H as <-|].
  eapply properties_mask_loop_valid; [exact Hwf | | exact H].
  unfold _circuit_mask in Hc.
  destruct (dict_pop POPULATION_KEY (VScalar SNone) queries) as [populations q1].
  apply bind_Ok_inv in Hc as (mismatch & _ & Hc).
  destruct (if mismatch then _ else _) as [ids q2].
  apply bind_Ok_inv in Hc as (pm & Hpm & [= _ <-]).
  eapply positional_mask_valid; [reflexivity | exact Hpm].
Qed.

(** ** What a successful step has done to the store *)

Lemma bindM_Ok_inv {A B} (m : M A) (k : A -> M B) s b s'' :
  (m ≫= k) s = (Ok b, s'') ->
  exists a s', m s = (Ok a, s') /\ k a s' = (Ok b, s'').
Proof.
  unfold mbind, M_bind. destruct (m s) as [[a|e] s']; [eauto | discriminate].
Qed.

Lemma mret_Ok {A} (a b : A) (s s' : store) :
  (mret a : M A) s = (Ok b, s') -> a = b /\ s' = s.
Proof. intros [= -> ->]. auto. Qed.

Lemma get_dict_Ok q s d s' :
  get_dict q s = (Ok d, s') ->
  s' = s /\ exists l : nat, q = HRef l /\ s !! l = Some (ODict d).
Proof.
  unfold get_dict. destruct q as [| | | |l]; try discriminate.
  destruct (s !! l) as [[d'|]|] eqn:E; try discriminate.
  intros [= <- <-]. eauto.
Qed.

Lemma getitem_Ok q key s v s' :
  getitem q key s = (Ok v, s') ->
  s' = s /\
  exists (l : nat) d, q = HRef l /\ s !! l = Some (ODict d) /\ dict_get key d = Some v.
Proof.
  unfold getitem. intros H. apply bindM_Ok_inv in H as (d & s1 & Hd & H).
  apply get_dict_Ok in Hd as (-> & l & -> & Hl).
  destruct (dict_get key d) as [v'|] eqn:E; [|discriminate].
  apply mret_Ok in H as [-> ->]. eauto 6.
Qed.

Lemma setitem_Ok q key h s s' :
  setitem q key h s = (Ok tt, s') ->
  exists (l : nat) d,
    q = HRef l /\ s !! l = Some (ODict d) /\
    s' = <[l := ODict (dict_set key h d)]> s.
Proof.
  unfold setitem. intros H. apply bindM_Ok_inv in H as (d & s1 & Hd & H).
  apply get_dict_Ok in Hd as (-> & l & -> & Hl).
  unfold put_dict in H. injection H as <-. eauto.
Qed.

Lemma iter_values_Ok v s xs s' : iter_values v s = (Ok xs, s') -> s' = s.
Proof.
  intros H. rewrite <- (iter_values_readonly v s). now rewrite H.
Qed.

Lemma mapping_keys_Ok v s ks s' : mapping_keys v s = (Ok ks, s') -> s' = s.
Proof.
  unfold mapping_keys. destruct v as [| | | |r]; try (now intros [= _ <-]).
  destruct (s !! r) as [[|]|]; now intros [= _ <-].
Qed.

Lemma lift_Ok {A} (r : result A) s a s' :
  lift r s = (Ok a, s') -> r = Ok a /\ s' = s.
Proof. unfold lift. intros [= -> ->]. auto. Qed.

Lemma read_Ok {A} (f : store -> result A) s a s' :
  read f s = (Ok a, s') -> f s = Ok a /\ s' = s.
Proof. unfold read. intros [= -> ->]. auto. Qed.

(** The children of a value that is not a list are not references. *)
Lemma iter_values_not_list v s xs s' :
  (forall (r : nat) ys, v = HRef r -> s !! r <> Some (OList ys)) ->
  iter_values v s = (Ok xs, s') ->
  Forall (fun x => forall l, x <> HRef l) xs.
Proof.
  intros Hnl. unfold iter_values.
  destruct v as [a|t|bs|zs|l].
  - destruct a; try discriminate. intros [= <- _].
    apply Forall_forall. intros x Hx.
    apply list_elem_of_In, in_map_iff in Hx as (c & <- & _). discriminate.
  - intros [= <- _]. apply Forall_forall. intros x Hx.
    apply list_elem_of_In, in_map_iff in Hx as (c & <- & _). discriminate.
  - intros [= <- _]. apply Forall_forall. intros x Hx.
    apply list_elem_of_In, in_map_iff in Hx as (c & <- & _). discriminate.
  - intros [= <- _]. apply Forall_forall. intros x Hx.
    apply list_elem_of_In, in_map_iff in Hx as (c & <- & _). discriminate.
  - destruct (s !! l) as [[d|ys]|] eqn:E; try discriminate.
    + intros [= <- _]. apply Forall_forall. intros x Hx.
      apply list_elem_of_In, in_map_iff in Hx as (c & <- & _). discriminate.
    + exfalso. now apply (Hnl l ys).
Qed.

(** ** Assignments of masks *)

Section Writes.
Variables n0 N : nat.
Abbreviation W := (writes n0 N).

Lemma writes_trans s1 s2 s3 : W s1 s2 -> W s2 s3 -> W s1 s3.
Proof.
  intros H12 H23. induction H23 as [|s2 s3 l d k h H23 IH Hl Hd Hh]; [exact H12|].
  eapply writes_step; eauto.
Qed.

Lemma writes_one s (l : nat) d k h :
  (n0 <= l)%nat -> s !! l = Some (ODict d) -> valid_hval N h ->
  W s (<[l := ODict (dict_set k h d)]> s).
Proof. intros. eapply writes_step; eauto. apply writes_refl. Qed.

Lemma valid_hval_not_ref h : valid_hval N h -> forall l, h <> HRef l.
Proof. destruct h; simpl; try tauto; discriminate. Qed.

(** Lists are not written. *)
Lemma writes_list s s' (l : nat) xs :
  W s s' -> (s !! l = Some (OList xs) <-> s' !! l = Some (OList xs)).
Proof.
  induction 1 as [|s s' l0 d k h H IH Hl Hd Hh]; [tauto|].
  rewrite IH. destruct (Nat.eq_dec l0 l) as [->|Hne].
  - rewrite list_lookup_insert_eq by (now apply lookup_lt_Some in Hd).
    rewrite Hd. split; discriminate.
  - now rewrite list_lookup_insert_ne.
Qed.

(** An entry after the writes is the entry before them or a mask. *)
Lemma writes_entry s s' (l : nat) d' key v' :
  W s s' -> s' !! l = Some (ODict d') -> dict_get key d' = Some v' ->
  valid_hval N v' \/ exists d, s !! l = Some (ODict d) /\ dict_get key d = Some v'.
Proof.
  intros H. revert d' v'.
  induction H as [|s s' l0 d k h H IH Hl Hd Hh]; intros d' v' Hd' Hv'; [eauto|].
  destruct (Nat.eq_dec l0 l) as [->|Hne].
  - rewrite list_lookup_insert_eq in Hd' by (now apply lookup_lt_Some in Hd).
    injection Hd' as <-.
    destruct (String.eqb_spec key k) as [->|Hk].
    + rewrite dict_get_set_eq in Hv'. injection Hv' as <-. now left.
    + rewrite dict_get_set_ne in Hv' by exact Hk. eapply IH; eassumption.
  - rewrite list_lookup_insert_ne in Hd' by exact Hne. eapply IH; eassumption.
Qed.

Lemma dict_set_Forall (P : string * hval -> Prop) k h d :
  Forall P d -> (forall k', P (k', h)) -> Forall P (dict_set k h d).
Proof.
  intros Hd Hh. induction Hd as [|[k' v'] d Hv Hd IH]; simpl.
  - constructor; [apply Hh | constructor].
  - destruct (String.eqb k k'); constructor; auto.
Qed.

Lemma writes_resolved s s' c : W s s' -> resolved N s c -> resolved N s' c.
Proof.
  induction 1 as [|s s' l0 d k h H IH Hl Hd Hh]; [tauto|].
  intros Hc l d' -> Hd'. specialize (IH Hc).
  destruct (Nat.eq_dec l0 l) as [->|Hne].
  - rewrite list_lookup_insert_eq in Hd' by (now apply lookup_lt_Some in Hd).
    injection Hd' as <-. apply dict_set_Forall; [|intros; exact Hh].
    exact (IH l d eq_refl Hd).
  - rewrite list_lookup_insert_ne in Hd' by exact Hne. exact (IH l d' eq_refl Hd').
Qed.

Lemma writes_pending s s' (l : nat) rem :
  W s s' -> pending N s l rem -> pending N s' l rem.
Proof.
  induction 1 as [|s s' l0 d k h H IH Hl Hd Hh]; [tauto|].
  intros Hp d' Hd'. specialize (IH Hp).
  destruct (Nat.eq_dec l0 l) as [->|Hne].
  - rewrite list_lookup_insert_eq in Hd' by (now apply lookup_lt_Some in Hd).
    injection Hd' as <-. apply dict_set_Forall; [|intros; now right].
    exact (IH d Hd).
  - rewrite list_lookup_insert_ne in Hd' by exact Hne. exact (IH d' Hd').
Qed.

Lemma extends_writes s0 s s' :
  n0 = length s0 -> extends s0 s -> W s s' -> extends s0 s'.
Proof.
  intros -> Hs. induction 1 as [|s s' l0 d k h H IH Hl Hd Hh]; [exact Hs|].
  specialize (IH Hs). apply extends_insert; [exact IH | exact Hl|].
  destruct (extends_lookup s0 s' l0 _ IH Hl Hd) as [Hnd Hf].
  split; [now apply dict_set_NoDup|].
  apply dict_set_Forall; [exact Hf|]. intros k'. simpl.
  destruct h; simpl in *; try tauto.
Qed.
End Writes.

(** ** The traversal of [resolve_ids] leaves masks behind *)

Lemma as_mask_valid N h m : as_mask h = Ok m -> valid_hval N h -> valid_mask N m.
Proof.
  destruct h as [[]| | | |]; simpl; try discriminate; intros [= <-]; auto.
Qed.

Lemma mapM_as_mask_valid N hs masks :
  Forall (valid_hval N) hs -> mapM as_mask hs = Ok masks ->
  Forall (valid_mask N) masks.
Proof.
  intros Hhs. revert masks. induction Hhs as [|h hs Hh Hhs IH]; intros masks; cbn [mapM].
  - intros [= <-]. constructor.
  - intros H. apply bind_Ok_inv in H as (m & Hm & H).
    apply bind_Ok_inv in H as (ms & Hms & [= <-]).
    constructor; [eapply as_mask_valid; eassumption | now apply IH].
Qed.

Lemma not_ref_fresh n x : (forall l, x <> HRef l) -> hval_fresh n x.
Proof. destruct x as [| | | |r]; intros H; try exact I. now destruct (H r). Qed.

Lemma hval_of_mask_valid N m : valid_mask N m -> valid_hval N (hval_of_mask m).
Proof. destruct m; simpl; auto. Qed.

(** Merging a resolved child yields a mask of the table. *)
Lemma merge_queries_masks_Ok N c s m s' :
  resolved N s c -> _merge_queries_masks c s = (Ok m, s') ->
  s' = s /\ valid_mask N m.
Proof.
  intros Hc H. unfold _merge_queries_masks in H.
  apply bindM_Ok_inv in H as (d & s1 & Hd & H).
  apply get_dict_Ok in Hd as (-> & l & -> & Hl).
  apply bindM_Ok_inv in H as (masks & s2 & Hm & H).
  apply lift_Ok in Hm as [Hm ->]. apply lift_Ok in H as [H ->].
  split; [reflexivity|].
  apply (logical_and_valid N masks); [|exact H].
  apply (mapM_as_mask_valid N (map snd d)); [|exact Hm].
  apply Forall_map. exact (Hc l d eq_refl Hl).
Qed.

Lemma forM_merge_Ok N children s ms s' :
  Forall (resolved N s) children ->
  forM _merge_queries_masks children s = (Ok ms, s') ->
  s' = s /\ Forall (valid_mask N) ms.
Proof.
  intros Hc. revert ms s'.
  induction Hc as [|c children Hc Hcs IH]; intros ms s'; cbn [forM].
  - intros H. apply mret_Ok in H as [<- ->]. split; [reflexivity | constructor].
  - intros H. apply bindM_Ok_inv in H as (m & s1 & Hm & H).
    apply (merge_queries_masks_Ok N) in Hm as [-> Hm]; [|exact Hc].
    apply bindM_Ok_inv in H as (ms' & s2 & Hms & H).
    apply IH in Hms as [-> Hms]. apply mret_Ok in H as [<- ->].
    split; [reflexivity | now constructor].
Qed.

Section ResolveIds.
Variable s0 : store.
Variable data : DataFrame.
Variable population_name : string.
Variable fuel0 : nat.
Hypothesis data_wf : wf_table data.

Abbreviation N := (len data).
Abbreviation W' := (writes (length s0) (len data)).
Abbreviation collect := (_collect fuel0 data population_name).

(** One call of [_collect] on a dictionary of the call assigns a mask
    to the key; for [$and] and [$or] this needs the children resolved. *)
Lemma collect_Ok q key s s' :
  hval_fresh (length s0) q ->
  (mem key [OR_KEY; AND_KEY] = true ->
   forall sub children,
     getitem q key s = (Ok sub, s) -> iter_values sub s = (Ok children, s) ->
     Forall (resolved N s) children) ->
  collect q key s = (Ok tt, s') ->
  W' s s' /\
  exists (l : nat) d h,
    q = HRef l /\ s' !! l = Some (ODict d) /\ dict_get key d = Some h /\
    valid_hval N h.
Proof.
  intros Hq Hready H.
  assert (Hset : forall m s1,
    valid_mask N m -> s1 = s ->
    setitem q key (hval_of_mask m) s1 = (Ok tt, s') ->
    W' s s' /\
    exists (l : nat) d h,
      q = HRef l /\ s' !! l = Some (ODict d) /\ dict_get key d = Some h /\
      valid_hval N h).
  { intros m s1 Hm -> Hs. apply setitem_Ok in Hs as (l & d & -> & Hl & ->).
    split.
    - apply writes_one; [exact Hq | exact Hl | now apply hval_of_mask_valid].
    - exists l, (dict_set key (hval_of_mask m) d), (hval_of_mask m).
      split; [reflexivity|]. split.
      + apply list_lookup_insert_eq. now apply lookup_lt_Some in Hl.
      + split; [apply dict_get_set_eq | now apply hval_of_mask_valid]. }
  assert (Hcomb : forall (op : list mask -> result mask),
    (forall ms m, Forall (valid_mask N) ms -> op ms = Ok m -> valid_mask N m) ->
    mem key [OR_KEY; AND_KEY] = true ->
    (sub ← getitem q key;
     children ← iter_values sub;
     children_mask ← forM _merge_queries_masks children;
     m ← lift (op children_mask);
     setitem q key (hval_of_mask m)) s = (Ok tt, s') ->
    W' s s' /\
    exists (l : nat) d h,
      q = HRef l /\ s' !! l = Some (ODict d) /\ dict_get key d = Some h /\
      valid_hval N h).
  { intros op Hop Hmem Hrun.
    apply bindM_Ok_inv in Hrun as (sub & s1 & Hsub & Hrun).
    assert (E1 : s1 = s) by (apply getitem_Ok in Hsub; tauto). subst s1.
    apply bindM_Ok_inv in Hrun as (children & s1 & Hch & Hrun).
    assert (E1 : s1 = s) by (now apply iter_values_Ok in Hch). subst s1.
    apply bindM_Ok_inv in Hrun as (ms & s1 & Hms & Hrun).
    apply (forM_merge_Ok N) in Hms as [-> Hms];
      [|exact (Hready Hmem sub children Hsub Hch)].
    apply bindM_Ok_inv in Hrun as (m & s1 & Hm & Hrun).
    apply lift_Ok in Hm as [Hm ->].
    apply (Hset m s); [eapply Hop; eassumption | reflexivity | exact Hrun]. }
  unfold _collect in H.
  destruct (String.eqb key OR_KEY) eqn:Eor.
  - apply (Hcomb _logical_or); [apply logical_or_valid | | exact H].
    simpl. now rewrite Eor.
  - destruct (String.eqb key AND_KEY) eqn:Eand.
    + apply (Hcomb _logical_and); [apply logical_and_valid | | exact H].
      simpl. rewrite Eand. now rewrite orb_true_r.
    + apply bindM_Ok_inv in H as (h & s1 & Hh & H).
      assert (E1 : s1 = s) by (apply getitem_Ok in Hh; tauto). subst s1.
      apply bindM_Ok_inv in H as (v & s1 & Hv & H).
      apply read_Ok in Hv as [Hv ->].
      apply bindM_Ok_inv in H as (m & s1 & Hm & H).
      apply lift_Ok in Hm as [Hm ->].
      apply (Hset m s); [|reflexivity | exact H].
      eapply properties_mask_valid; eassumption.
Qed.

Section Children.
Variable fuel : nat.
Variable recurse : hval -> M unit.
Hypothesis recurse_Ok :
  forall q s s',
    extends s0 s -> hval_fresh (length s0) q ->
    recurse q s = (Ok tt, s') -> W' s s' /\ resolved N s' q.

Lemma iter_list_Ok f (l2 : nat) xs : forall (i : nat) s s',
  extends s0 s -> (length s0 <= l2)%nat -> s !! l2 = Some (OList xs) ->
  (forall (j : nat) x, (j < i)%nat -> xs !! j = Some x -> resolved N s x) ->
  iter_list f recurse l2 i s = (Ok tt, s') ->
  W' s s' /\ Forall (resolved N s') xs.
Proof.
  induction f as [|f IH]; intros i s s' Hs Hl2 Hxs Hdone; cbn [iter_list].
  - discriminate.
  - rewrite Hxs. destruct (xs !! i) as [x|] eqn:Ex.
    + intros H. apply bindM_Ok_inv in H as ([] & s1 & Hx & H).
      assert (Hfx : hval_fresh (length s0) x).
      { assert (Ho := extends_lookup s0 s l2 _ Hs Hl2 Hxs). simpl in Ho.
        exact (Forall_lookup_1 _ _ _ _ Ho Ex). }
      destruct (recurse_Ok x s s1 Hs Hfx Hx) as [Hw1 Hr1].
      destruct (IH (S i) s1 s') as [Hw2 Hall]; auto.
      * eapply extends_writes; [reflexivity | exact Hs | exact Hw1].
      * now apply (writes_list _ _ s s1 l2 xs Hw1).
      * intros j y Hj Hy. destruct (Nat.eq_dec j i) as [->|Hne].
        -- rewrite Ex in Hy. injection Hy as <-. exact Hr1.
        -- eapply writes_resolved; [exact Hw1|]. apply (Hdone j); [lia | exact Hy].
      * split; [eapply writes_trans; eassumption | exact Hall].
    + intros [= <-]. split; [apply writes_refl|].
      apply Forall_lookup_2. intros j y Hy. apply (Hdone j); [|exact Hy].
      apply lookup_ge_None in Ex. apply lookup_lt_Some in Hy. lia.
Qed.

Lemma forM_recurse_Ok children : forall s s',
  extends s0 s -> Forall (hval_fresh (length s0)) children ->
  forM_ recurse children s = (Ok tt, s') -> W' s s'.
Proof.
  induction children as [|c children IH]; intros s s' Hs Hch; cbn [forM_].
  - intros H. apply mret_Ok in H as [_ ->]. apply writes_refl.
  - apply Forall_cons in Hch as [Hc Hch].
    intros H. apply bindM_Ok_inv in H as ([] & s1 & Hx & H).
    destruct (recurse_Ok c s s1 Hs Hc Hx) as [Hw1 _].
    eapply writes_trans; [exact Hw1|]. apply IH; [|exact Hch | exact H].
    eapply extends_writes; [reflexivity | exact Hs | exact Hw1].
Qed.

(** After the children of [queries[key]] have been traversed, the
    value [_collect] finds under [$and] or [$or] has resolved children. *)
Lemma traverse_children_Ok (l : nat) key s s' :
  extends s0 s -> (length s0 <= l)%nat ->
  traverse_children recurse fuel (HRef l) key s = (Ok tt, s') ->
  W' s s' /\
  (mem key [OR_KEY; AND_KEY] = true ->
   forall sub children,
     getitem (HRef l) key s' = (Ok sub, s') ->
     iter_values sub s' = (Ok children, s') ->
     Forall (resolved N s') children).
Proof.
  intros Hs Hl. unfold traverse_children.
  destruct (mem key [OR_KEY; AND_KEY]) eqn:Emem.
  - intros H. apply bindM_Ok_inv in H as (sub & s1 & Hsub & H).
    destruct (safe_getitem s0 (HRef l) key Hl s Hs) as [_ Hfsub].
    specialize (Hfsub sub). rewrite Hsub in Hfsub. specialize (Hfsub eq_refl).
    apply getitem_Ok in Hsub as (-> & l' & d & [= <-] & Hd & Hk).
    apply bindM_Ok_inv in H as (lo & s1 & Hlo & H).
    apply read_Ok in Hlo as [[= <-] ->].
    assert (Hlater : W' s s' ->
      (forall xs (l2 : nat), sub = HRef l2 -> s !! l2 = Some (OList xs) ->
         Forall (resolved N s') xs) ->
      forall sub' children,
        getitem (HRef l) key s' = (Ok sub', s') ->
        iter_values sub' s' = (Ok children, s') ->
        Forall (resolved N s') children).
    { intros Hw Hlist sub' children Hsub' Hch.
      apply getitem_Ok in Hsub' as (_ & l' & d' & [= <-] & Hd' & Hk').
      assert (Hnonref : Forall (fun x => forall a, x <> HRef a) children ->
                        Forall (resolved N s') children).
      { intros HF. eapply Forall_impl; [exact HF|].
        intros x Hx a dx ->. now destruct (Hx a). }
      destruct (writes_entry _ _ s s' l d' key sub' Hw Hd' Hk')
        as [Hvalid | (d0 & Hd0 & Hk0)].
      - apply Hnonref. eapply iter_values_not_list; [|exact Hch].
        intros r ys ->. now destruct (valid_hval_not_ref _ _ Hvalid r).
      - rewrite Hd in Hd0. injection Hd0 as <-. rewrite Hk in Hk0.
        injection Hk0 as <-.
        destruct sub as [| | | |l2];
          try (apply Hnonref; eapply iter_values_not_list; [|exact Hch]; discriminate).
        destruct (s !! l2) as [[dd|xs]|] eqn:E2.
        + apply Hnonref. eapply iter_values_not_list; [|exact Hch].
          intros r ys [= <-] Hys. apply (writes_list _ _ s s' l2 ys Hw) in Hys. congruence.
        + assert (Hxs' : s' !! l2 = Some (OList xs))
            by now apply (writes_list _ _ s s' l2 xs Hw).
          unfold iter_values in Hch. rewrite Hxs' in Hch. injection Hch as <-.
          now apply (Hlist xs l2).
        + apply Hnonref. eapply iter_values_not_list; [|exact Hch].
          intros r ys [= <-] Hys. apply (writes_list _ _ s s' l2 ys Hw) in Hys. congruence. }
    unfold is_list in H.
    destruct sub as [| | | |l2].
    1-4: apply bindM_Ok_inv in H as (subs & s1 & Hsubs & H);
         apply iter_values_Ok in Hsubs as Es; subst s1;
         assert (Hw : W' s s');
         [ apply (forM_recurse_Ok subs s s' Hs); [|exact H];
           eapply Forall_impl;
             [eapply iter_values_not_list; [|exact Hsubs]; discriminate|];
           intros x; apply not_ref_fresh
         | split; [exact Hw | intros _; apply Hlater; [exact Hw | discriminate]] ].
    destruct (s !! l2) as [[dd|xs]|] eqn:E2.
    + apply bindM_Ok_inv in H as (subs & s1 & Hsubs & H).
      apply iter_values_Ok in Hsubs as Es. subst s1.
      assert (Hw : W' s s').
      { apply (forM_recurse_Ok subs s s' Hs); [|exact H].
        eapply Forall_impl.
        - eapply iter_values_not_list; [|exact Hsubs]. intros r ys [= <-]. congruence.
        - intros x. apply not_ref_fresh. }
      split; [exact Hw | intros _; apply Hlater; [exact Hw|]].
      intros xs l3 [= <-]. congruence.
    + destruct (iter_list_Ok fuel l2 xs 0%nat s s') as [Hw Hall]; auto.
      * intros j x Hj. lia.
      * split; [exact Hw | intros _; apply Hlater; [exact Hw|]].
        intros xs' l3 [= <-] Hxs'. rewrite E2 in Hxs'. now injection Hxs' as <-.
    + apply bindM_Ok_inv in H as (subs & s1 & Hsubs & H).
      unfold iter_values in Hsubs. rewrite E2 in Hsubs. discriminate.
  - intros H. split; [|discriminate].
    apply bindM_Ok_inv in H as (v & s1 & Hv & H).
    destruct (safe_getitem s0 (HRef l) key Hl s Hs) as [_ Hfv].
    specialize (Hfv v). rewrite Hv in Hfv. specialize (Hfv eq_refl).
    apply getitem_Ok in Hv as (-> & _).
    apply bindM_Ok_inv in H as (ks & s1 & Hks & H).
    apply mapping_keys_Ok in Hks as E1.
    subst s1. destruct ks as [ks|].
    + destruct (has_value_key ks).
      * destruct (negb (only_value_keys ks)); [discriminate|].
        apply mret_Ok in H as [_ ->]. apply writes_refl.
      * now apply (recurse_Ok v s s').
    + apply mret_Ok in H as [_ ->]. apply writes_refl.
Qed.
Lemma pending_visited (l : nat) key rem s :
  extends s0 s -> (length s0 <= l)%nat ->
  pending N s l (key :: rem) ->
  (exists (l' : nat) d h,
     HRef l = HRef l' /\ s !! l' = Some (ODict d) /\ dict_get key d = Some h /\
     valid_hval N h) ->
  pending N s l rem.
Proof.
  intros Hs Hl Hp (l' & d & h & [= <-] & Hd & Hk & Hh) d1 Hd1.
  rewrite Hd in Hd1. injection Hd1 as <-.
  destruct (extends_lookup s0 s l _ Hs Hl Hd) as [Hnd _].
  specialize (Hp d Hd). rewrite Forall_forall in Hp. apply Forall_forall.
  intros [k v] Hin. destruct (Hp (k, v) Hin) as [[E|Hrem]|Hv]; auto.
  right. simpl in *. subst k. apply list_elem_of_In in Hin.
  rewrite (dict_get_entry _ _ _ Hnd Hin) in Hk. now injection Hk as ->.
Qed.

(** The loop over the keys of one dictionary. *)
Lemma keys_loop_Ok (l : nat) rem : forall s s',
  extends s0 s -> (length s0 <= l)%nat -> pending N s l rem ->
  forM_ (fun key => traverse_children recurse fuel (HRef l) key;;
                    collect (HRef l) key) rem s = (Ok tt, s') ->
  W' s s' /\ pending N s' l [].
Proof.
  induction rem as [|key rem IH]; intros s s' Hs Hl Hp; cbn [forM_].
  - intros H. apply mret_Ok in H as [_ ->]. split; [apply writes_refl | exact Hp].
  - intros H. apply bindM_Ok_inv in H as ([] & s2 & Hbody & H).
    apply bindM_Ok_inv in Hbody as ([] & s1 & Hch & Hcol).
    destruct (traverse_children_Ok l key s s1 Hs Hl Hch) as [Hw1 Hready].
    assert (Hs1 : extends s0 s1)
      by (eapply extends_writes; [reflexivity | exact Hs | exact Hw1]).
    destruct (collect_Ok (HRef l) key s1 s2 Hl Hready Hcol) as [Hw2 Hvalid].
    assert (Hs2 : extends s0 s2)
      by (eapply extends_writes; [reflexivity | exact Hs1 | exact Hw2]).
    assert (Hw : W' s s2) by (eapply writes_trans; eassumption).
    destruct (IH s2 s' Hs2 Hl) as [Hw3 Hdone]; [|exact H|].
    + apply (pending_visited l key rem s2 Hs2 Hl); [|exact Hvalid].
      eapply writes_pending; [exact Hw | exact Hp].
    + split; [eapply writes_trans; eassumption | exact Hdone].
Qed.
End Children.

(** A traversal that returns has resolved the dictionary it was given. *)
Lemma traverse_Ok fuel : forall q s s',
  extends s0 s -> hval_fresh (length s0) q ->
  traverse_queries_bottom_up fuel collect q s = (Ok tt, s') ->
  W' s s' /\ resolved N s' q.
Proof.
  induction fuel as [|fuel IH]; intros q s s' Hs Hq; cbn [traverse_queries_bottom_up].
  - discriminate.
  - intros H. apply bindM_Ok_inv in H as (keys & s1 & Hkeys & H).
    unfold dict_keys in Hkeys.
    apply bindM_Ok_inv in Hkeys as (d & s2 & Hd & Hkeys).
    apply get_dict_Ok in Hd as (-> & l & -> & Hd).
    apply mret_Ok in Hkeys as [<- ->].
    destruct (keys_loop_Ok fuel (traverse_queries_bottom_up fuel collect) IH
                l (map fst d) s s' Hs Hq) as [Hw Hdone]; [|exact H|].
    + intros d' Hd'. rewrite Hd in Hd'. injection Hd' as <-.
      apply Forall_forall. intros kv Hin. left.
      apply in_map. now apply list_elem_of_In.
    + split; [exact Hw|]. intros l' d' [= <-] Hd'.
      eapply Forall_impl; [exact (Hdone d' Hd')|].
      intros kv [[]|Hv]. exact Hv.
Qed.
End ResolveIds.

Lemma broadcast_length n m : valid_mask n m -> length (broadcast n m) = n.
Proof. destruct m; simpl; [intros _; apply repeat_length | auto]. Qed.

(** Whenever [resolve_ids] returns, it returns one boolean per row
    of the table: the merged mask of the resolved query when that is an
    array, and the scalar [True] or [False] repeated for every row
    otherwise. *)
Lemma resolve_ids_Ok :
  forall fuel data population_name queries (s : store) v s',
    wf_table data ->
    resolve_ids fuel data population_name queries s = (Ok v, s') ->
    length v = len data /\
    exists m, valid_mask (len data) m /\ v = broadcast (len data) m /\
              forall b, m = MBool b -> v = repeat b (len data).
Proof.
  intros fuel data pop queries s v s' Hwf H. unfold resolve_ids in H.
  apply bindM_Ok_inv in H as ([q memo] & s1 & Hcopy & H).
  destruct (safe_deepcopy s fuel queries [] ltac:(constructor) s (extends_refl s))
    as [Hs1 Hq]. rewrite Hcopy in Hs1, Hq. simpl in Hs1.
  destruct (Hq _ eq_refl) as [[Hq' _] _]. simpl in Hq'.
  apply bindM_Ok_inv in H as ([] & s2 & Htr & H).
  destruct (traverse_Ok s data pop fuel Hwf fuel q s1 s2 Hs1 Hq' Htr) as [_ Hres].
  apply bindM_Ok_inv in H as (m & s3 & Hm & H).
  apply (merge_queries_masks_Ok (len data)) in Hm as [-> Hm]; [|exact Hres].
  apply mret_Ok in H as [<- _].
  split; [now apply broadcast_length|].
  exists m. split; [exact Hm|]. split; [reflexivity|]. now intros b ->.
Qed.

(** ** The two sources of [QueryError] *)

(** C6 fails in both directions: a mapping with two plain keys on a
    known column raises a [QueryError] although it is in neither of
    the two situations, and a single unknown operator on an unknown
    column raises nothing. *)
Lemma query_error_situations_counterexample :
  (let q := VDict [("mtype", VDict [("u", VScalar (SInt 1)); ("w", VScalar (SInt 2))])] in
   query_expects_error q = false /\
   run_resolve_ids example_table "default" q
   = Err (QueryError "Unknown query modifier: 'u'")) /\
  (let q := VDict [("zz", VDict [("$gt", VScalar (SInt 1))])] in
   query_expects_error q = true /\
   run_resolve_ids example_table "default" q
   = Ok [false; false; false; false; false]).
Proof. split; split; vm_compute; reflexivity. Qed.

Lemma ei_Ok {P : error -> Prop} {A} (a : A) : errors_in P (Ok a).
Proof. intros e [=]. Qed.

Lemma ei_Err {P : error -> Prop} {A} (e : error) : P e -> errors_in P (@Err A e).
Proof. intros He e' [= <-]. exact He. Qed.

Lemma ei_bind {P : error -> Prop} {A B} (r : result A) (k : A -> result B) :
  errors_in P r -> (forall a, errors_in P (k a)) -> errors_in P (r ≫= k).
Proof.
  intros Hr Hk. destruct r as [a|e]; [apply Hk|].
  intros e' [= <-]. now apply Hr.
Qed.

Lemma ei_mapM {P : error -> Prop} {A B} (f : A -> result B) (l : list A) :
  (forall a, errors_in P (f a)) -> errors_in P (mapM f l).
Proof.
  intros Hf. induction l as [|a l IH]; cbn [mapM]; [apply ei_Ok|].
  apply ei_bind; [apply Hf|]. intros b.
  apply ei_bind; [exact IH|]. intros bs. apply ei_Ok.
Qed.

Lemma query_errors_among_py E what : query_errors_among E (PyError what).
Proof. intros msg [=]. Qed.

Lemma query_errors_among_unmodelled E what : query_errors_among E (Unmodelled what).
Proof. intros msg [=]. Qed.

Lemma query_errors_among_fuel E : query_errors_among E OutOfFuel.
Proof. intros msg [=]. Qed.

Lemma not_fuel_py what : PyError what <> OutOfFuel.
Proof. discriminate. Qed.

Lemma not_fuel_unmodelled what : Unmodelled what <> OutOfFuel.
Proof. discriminate. Qed.

Lemma not_fuel_query msg : QueryError msg <> OutOfFuel.
Proof. discriminate. Qed.

Create HintDb ei.
#[global] Hint Resolve query_errors_among_py query_errors_among_unmodelled
  query_errors_among_fuel not_fuel_py not_fuel_unmodelled not_fuel_query : ei.

Ltac ei_step :=
  match goal with
  | |- errors_in _ (Ok _) => apply ei_Ok
  | |- errors_in _ (Err _) => apply ei_Err; solve [auto with ei]
  | |- errors_in _ (_ ≫= _) => apply ei_bind; [|intros]
  | |- errors_in _ (mapM _ _) => apply ei_mapM; intros
  | |- errors_in _ (match ?x with _ => _ end) => destruct x
  | |- errors_in _ (let '(_, _) := ?x in _) => destruct x
  end.

Ltac ei := repeat ei_step; eauto with ei.

(** The exceptions of the functions that use no fuel. *)
Section ErrorsIn.
Variable P : error -> Prop.
Hypothesis P_py : forall what, P (PyError what).
Hypothesis P_unmodelled : forall what, P (Unmodelled what).
Hypothesis P_compile : forall pat, errors_in P (re_compile pat).
Hypothesis P_unknown_modifier :
  forall key, key <> REGEX_KEY -> P (QueryError (unknown_modifier key)).

Lemma ei_np_reduce op acc rest : errors_in P (np_reduce op acc rest).
Proof.
  revert acc. induction rest as [|v rest IH]; intros acc; cbn [np_reduce]; [ei|].
  apply ei_bind; [unfold np_binop; ei | intros; apply IH].
Qed.
#[local] Hint Resolve ei_np_reduce : ei.

Lemma ei_logical_and masks : errors_in P (_logical_and masks).
Proof. unfold _logical_and. ei. Qed.

Lemma ei_logical_or masks : errors_in P (_logical_or masks).
Proof. unfold _logical_or. ei. Qed.
#[local] Hint Resolve ei_logical_and ei_logical_or : ei.

Lemma ei_str_match pat cells : errors_in P (str_match pat cells).
Proof. unfold str_match. apply ei_bind; [apply P_compile | intros; ei]. Qed.
#[local] Hint Resolve ei_str_match : ei.

Lemma ei_complex_query_loop prop query acc :
  errors_in P (_complex_query_loop prop query acc).
Proof.
  revert acc. induction query as [|[key v] query IH]; intros acc;
    cbn [_complex_query_loop]; [ei|].
  destruct (String.eqb_spec key REGEX_KEY) as [->|Hne].
  - apply ei_bind; [unfold str_cells; ei|]. intros cells.
    apply ei_bind; [ei|]. intros pat.
    apply ei_bind; [ei|]. intros m.
    apply ei_bind; [ei|]. intros acc'. apply IH.
  - apply ei_Err. now apply P_unknown_modifier.
Qed.
#[local] Hint Resolve ei_complex_query_loop : ei.

Lemma ei_positional_mask data ids : errors_in P (_positional_mask data ids).
Proof.
  assert (Hix : forall elems, errors_in P (get_indexer (df_index data) elems)).
  { intros elems. unfold get_indexer. destruct (bool_decide _); [|ei].
    apply ei_mapM. intros a. apply ei_bind; [unfold id_of_scalar; ei | intros; ei]. }
  assert (Hgen : forall elems : result (list scalar),
    errors_in P elems ->
    errors_in P
      (elems ← elems;
       indices ← get_indexer (df_index data) elems;
       Ok (MVec (set_true (repeat false (len data))
                          (List.filter (fun i => -1 <? i) indices))))).
  { intros elems He. apply ei_bind; [exact He|]. intros es.
    apply ei_bind; [apply Hix | intros; ei]. }
  unfold _positional_mask.
  destruct ids as [[]| | | | |]; try (apply Hgen; unfold ids_elements; ei). ei.
Qed.
#[local] Hint Resolve ei_positional_mask : ei.

Lemma ei_prop_mask c values : errors_in P (prop_mask c values).
Proof.
  unfold prop_mask, unpack2, range_bound, col_eq_seq, _complex_query.
  destruct c; ei.
Qed.
#[local] Hint Resolve ei_prop_mask : ei.

Lemma ei_properties_mask data population_name queries :
  errors_in P (_properties_mask data population_name queries).
Proof.
  unfold _properties_mask. destruct (negb _); [ei|].
  apply ei_bind.
  - unfold _circuit_mask. destruct (dict_pop _ _ _) as [p q1].
    apply ei_bind; [unfold name_in_set; ei|]. intros mismatch.
    destruct (if mismatch then _ else _) as [ids q2]. ei.
  - intros [q m]. destruct (selects_nothing m); [ei|].
    revert m. induction q as [|[prop values] q IH]; intros m;
      cbn [_properties_mask_loop]; [ei|].
    apply ei_bind; [unfold get_column; ei|]. intros c.
    apply ei_bind; [ei|]. intros pm.
    apply ei_bind; [ei|]. intros m'. apply IH.
Qed.

Lemma oe_ret {A} (a : A) : only_errors P (mret a : M A).
Proof. intros s. apply ei_Ok. Qed.

Lemma oe_bind {A B} (m : M A) (k : A -> M B) :
  only_errors P m -> (forall a, only_errors P (k a)) -> only_errors P (m ≫= k).
Proof.
  intros Hm Hk s. unfold mbind, M_bind. specialize (Hm s).
  destruct (m s) as [[a|e] s']; [apply Hk|].
  intros e' [= <-]. now apply Hm.
Qed.

Lemma oe_lift {A} (r : result A) : errors_in P r -> only_errors P (lift r).
Proof. intros Hr s. exact Hr. Qed.

Lemma oe_read {A} (f : store -> result A) :
  (forall s, errors_in P (f s)) -> only_errors P (read f).
Proof. intros Hf s. apply Hf. Qed.

Lemma oe_new_obj o : only_errors P (new_obj o).
Proof. intros s. apply ei_Ok. Qed.

Lemma oe_get_dict q : only_errors P (get_dict q).
Proof.
  intros s. unfold get_dict. destruct q as [| | | |l]; simpl; ei.
  destruct (s !! l) as [[|]|]; simpl; ei.
Qed.

Lemma oe_put_dict q d : only_errors P (put_dict q d).
Proof. intros s. unfold put_dict. destruct q; simpl; ei. Qed.

Lemma oe_getitem q key : only_errors P (getitem q key).
Proof.
  unfold getitem. apply oe_bind; [apply oe_get_dict|]. intros d.
  destruct (dict_get key d); [apply oe_ret|]. intros s. simpl. ei.
Qed.

Lemma oe_setitem q key v : only_errors P (setitem q key v).
Proof.
  unfold setitem. apply oe_bind; [apply oe_get_dict|]. intros d. apply oe_put_dict.
Qed.

Lemma oe_list_append lst v : only_errors P (list_append lst v).
Proof.
  intros s. unfold list_append. destruct lst as [| | | |l]; simpl; ei.
  destruct (s !! l) as [[|]|]; simpl; ei.
Qed.

Lemma oe_iter_values v : only_errors P (iter_values v).
Proof.
  intros s. unfold iter_values. destruct v as [[]| | | |l]; simpl; ei.
  destruct (s !! l) as [[|]|]; simpl; ei.
Qed.

Lemma oe_mapping_keys v : only_errors P (mapping_keys v).
Proof.
  intros s. unfold mapping_keys. destruct v as [| | | |l]; simpl; ei.
  destruct (s !! l) as [[|]|]; simpl; ei.
Qed.

Lemma oe_dict_keys q : only_errors P (dict_keys q).
Proof.
  unfold dict_keys. apply oe_bind; [apply oe_get_dict | intros; apply oe_ret].
Qed.

Lemma oe_forM_ {A} (f : A -> M unit) (l : list A) :
  (forall a, In a l -> only_errors P (f a)) -> only_errors P (forM_ f l).
Proof.
  induction l as [|a l IH]; intros Hf; cbn [forM_]; [apply oe_ret|].
  apply oe_bind; [apply Hf; now left | intros _; apply IH].
  intros b Hb. apply Hf. now right.
Qed.

Lemma oe_forM {A B} (f : A -> M B) (l : list A) :
  (forall a, only_errors P (f a)) -> only_errors P (forM f l).
Proof.
  intros Hf. induction l as [|a l IH]; cbn [forM]; [apply oe_ret|].
  apply oe_bind; [apply Hf|]. intros b.
  apply oe_bind; [exact IH|]. intros bs. apply oe_ret.
Qed.

Lemma oe_merge_queries_masks q : only_errors P (_merge_queries_masks q).
Proof.
  unfold _merge_queries_masks. apply oe_bind; [apply oe_get_dict|]. intros d.
  apply oe_bind; [apply oe_lift; apply ei_mapM; intros h; unfold as_mask; ei|].
  intros masks. apply oe_lift, ei_logical_and.
Qed.

(** [_collect], given the exceptions of reading the value of the key. *)
Lemma oe_collect fuel data population_name q key s :
  (forall h, getitem q key s = (Ok h, s) -> errors_in P (reify fuel s h)) ->
  errors_in P (fst (_collect fuel data population_name q key s)).
Proof.
  intros Hreify. unfold _collect.
  destruct (String.eqb key OR_KEY); [|destruct (String.eqb key AND_KEY)].
  - revert s Hreify. intros s _. revert s.
    change (only_errors P
              (sub ← getitem q key;
               children ← iter_values sub;
               children_mask ← forM _merge_queries_masks children;
               m ← lift (_logical_or children_mask);
               setitem q key (hval_of_mask m))).
    apply oe_bind; [apply oe_getitem|]. intros sub.
    apply oe_bind; [apply oe_iter_values|]. intros children.
    apply oe_bind; [apply oe_forM, oe_merge_queries_masks|]. intros ms.
    apply oe_bind; [apply oe_lift, ei_logical_or|]. intros m. apply oe_setitem.
  - revert s Hreify. intros s _. revert s.
    change (only_errors P
              (sub ← getitem q key;
               children ← iter_values sub;
               children_mask ← forM _merge_queries_masks children;
               m ← lift (_logical_and children_mask);
               setitem q key (hval_of_mask m))).
    apply oe_bind; [apply oe_getitem|]. intros sub.
    apply oe_bind; [apply oe_iter_values|]. intros children.
    apply oe_bind; [apply oe_forM, oe_merge_queries_masks|]. intros ms.
    apply oe_bind; [apply oe_lift, ei_logical_and|]. intros m. apply oe_setitem.
  - unfold mbind at 1, M_bind at 1.
    destruct (getitem q key s) as [[h|e] s1] eqn:Eh.
    2:{ intros e' [= <-]. exact (oe_getitem q key s e (f_equal fst Eh)). }
    assert (s1 = s) by (apply getitem_Ok in Eh; tauto). subst s1.
    specialize (Hreify h eq_refl).
    unfold mbind at 1, M_bind at 1. unfold read at 1.
    destruct (reify fuel s h) as [v|e] eqn:Ev; [|intros e' [= <-]; now apply Hreify].
    revert s Eh Hreify Ev. intros s _ _ _. revert s.
    change (only_errors P
              (m ← lift (_properties_mask data population_name [(key, v)]);
               setitem q key (hval_of_mask m))).
    apply oe_bind; [apply oe_lift, ei_properties_mask|]. intros m. apply oe_setitem.
Qed.
End ErrorsIn.

(** The [QueryError]s of the whole resolution. *)
Section QueryErrors.
Variable E : string -> Prop.
Hypothesis E_unknown_modifier : forall key, key <> REGEX_KEY -> E (unknown_modifier key).
Hypothesis E_value_operators_mixed : E value_operators_mixed.
Abbreviation Q := (query_errors_among E).

Lemma qe_parse n : forall s,
  errors_in Q (parse_alt n s) /\ errors_in Q (parse_seq n s).
Proof.
  induction n as [|n IH]; intros s; [split; apply ei_Err; auto with ei|].
  split; cbn [parse_alt parse_seq].
  - apply ei_bind; [apply IH|]. intros [r s1].
    destruct (starts_with "|" s1); [|ei].
    apply ei_bind; [apply IH|]. intros [r2 s3]. ei.
  - destruct s as [|c s']; [ei|].
    destruct (_ || _); [ei|].
    apply ei_bind.
    + unfold parse_atom. destruct (Ascii.eqb c "(").
      * destruct (starts_with "?" s'); [ei|].
        apply ei_bind; [apply IH|]. intros [r s1].
        destruct (starts_with ")" s1); ei.
      * destruct (Ascii.eqb c "\").
        -- destruct s' as [|e s1]; [ei|].
           apply ei_bind; [unfold parse_escape; ei | intros; ei].
        -- ei.
    + intros [a s1]. apply ei_bind; [unfold parse_repeat; ei|].
      intros [a' s2]. apply ei_bind; [apply IH|]. intros [r s3]. ei.
Qed.

Lemma qe_compile pat : errors_in Q (re_compile pat).
Proof.
  unfold re_compile. apply ei_bind; [apply qe_parse|]. intros [r rest]. ei.
Qed.

Lemma qe_unknown_modifier key :
  key <> REGEX_KEY -> Q (QueryError (unknown_modifier key)).
Proof. intros H msg [= <-]. now apply E_unknown_modifier. Qed.

Lemma qe_reify fuel s h : errors_in Q (reify fuel s h).
Proof.
  revert h. induction fuel as [|fuel IH]; intros h; destruct h; cbn [reify]; ei.
Qed.

Lemma oqe_iter_list fuel body (l i : nat) :
  (forall x, only_errors Q (body x)) -> only_errors Q (iter_list fuel body l i).
Proof.
  intros Hb. revert i. induction fuel as [|fuel IH]; intros i s; cbn [iter_list].
  - simpl. ei.
  - destruct (s !! l) as [[d|xs]|]; simpl; [ei | | ei].
    destruct (xs !! i) as [x|]; [|simpl; ei].
    apply (oe_bind Q (body x) (fun _ => iter_list fuel body l (S i)));
      [apply Hb | intros _; apply IH].
Qed.

Lemma oqe_traverse_children recurse fuel q key :
  (forall v, only_errors Q (recurse v)) ->
  only_errors Q (traverse_children recurse fuel q key).
Proof.
  intros IH. unfold traverse_children. destruct (mem key [OR_KEY; AND_KEY]).
  - apply oe_bind; [apply oe_getitem; auto with ei|]. intros sub.
    apply oe_bind; [apply oe_read; intros; apply ei_Ok|]. intros [l|].
    + now apply oqe_iter_list.
    + apply oe_bind; [apply oe_iter_values; auto with ei|]. intros subs.
      apply oe_forM_. intros; apply IH.
  - apply oe_bind; [apply oe_getitem; auto with ei|]. intros v.
    apply oe_bind; [apply oe_mapping_keys; auto with ei|]. intros [ks|]; [|apply oe_ret].
    destruct (has_value_key ks); [|apply IH].
    destruct (negb (only_value_keys ks)); [|apply oe_ret].
    intros s e [= <-] msg [= <-]. exact E_value_operators_mixed.
Qed.

Lemma oqe_traverse fuel traverse_fn :
  (forall q key, only_errors Q (traverse_fn q key)) ->
  forall q, only_errors Q (traverse_queries_bottom_up fuel traverse_fn q).
Proof.
  intros Hfn. induction fuel as [|fuel IH]; intros q; cbn [traverse_queries_bottom_up].
  - intros s. simpl. ei.
  - apply oe_bind; [apply oe_dict_keys; auto with ei|].
    intros keys. apply oe_forM_. intros key _.
    apply oe_bind; [now apply oqe_traverse_children | intros _; apply Hfn].
Qed.

Lemma oqe_deepcopy fuel : forall x memo, only_errors Q (deepcopy fuel x memo).
Proof.
  induction fuel as [|fuel IH]; intros x memo.
  - destruct x; try apply oe_ret. intros s. simpl. ei.
  - destruct x as [| | | |l]; try apply oe_ret. cbn [deepcopy].
    destruct (memo_get l memo); [apply oe_ret|].
    intros s. destruct (s !! l) as [[d|xs]|]; [| |simpl; ei].
    + apply (oe_bind Q (new_obj (ODict []))); [apply oe_new_obj|]. intros y.
      apply oe_bind; [|intros; apply oe_ret].
      generalize ((l, y) :: memo). induction d as [|[k v] d IHd]; intros m; cbn [fill_dict].
      * apply oe_ret.
      * apply oe_bind; [apply IH|]. intros [v' m1].
        apply oe_bind; [apply oe_setitem; auto with ei | intros _; apply IHd].
    + apply (oe_bind Q (new_obj (OList []))); [apply oe_new_obj|]. intros y.
      apply oe_bind; [|intros; apply oe_ret].
      generalize ((l, y) :: memo). induction xs as [|v xs IHd]; intros m; cbn [fill_list].
      * apply oe_ret.
      * apply oe_bind; [apply IH|]. intros [v' m1].
        apply oe_bind; [apply oe_list_append; auto with ei | intros _; apply IHd].
Qed.

Lemma oqe_resolve_ids fuel data population_name queries :
  only_errors Q (resolve_ids fuel data population_name queries).
Proof.
  unfold resolve_ids. apply oe_bind; [apply oqe_deepcopy|]. intros [q memo].
  apply oe_bind.
  - apply oqe_traverse. intros q' key s.
    apply oe_collect; auto using qe_compile, qe_unknown_modifier with ei.
    intros h _. apply qe_reify.
  - intros _. apply oe_bind; [|intros; apply oe_ret].
    apply oe_merge_queries_masks; auto with ei.
Qed.
End QueryErrors.

Lemma query_error_message_unknown key :
  key <> REGEX_KEY -> query_error_message (unknown_modifier key).
Proof. intros H. right. eauto. Qed.

Lemma query_error_message_mixed : query_error_message value_operators_mixed.
Proof. now left. Qed.

(** One [$regex] entry of [_complex_query]: the next value of [result]. *)
Lemma complex_query_loop_regex prop v rest acc :
  (exists acc',
     _complex_query_loop prop [(REGEX_KEY, v)] acc = Ok acc' /\
     _complex_query_loop prop ((REGEX_KEY, v) :: rest) acc
     = _complex_query_loop prop rest acc') \/
  (exists e,
     (forall msg, e <> QueryError msg) /\
     _complex_query_loop prop [(REGEX_KEY, v)] acc = Err e /\
     _complex_query_loop prop ((REGEX_KEY, v) :: rest) acc = Err e).
Proof.
  cbn [_complex_query_loop]. rewrite String.eqb_refl.
  destruct (str_cells prop) as [cells|e] eqn:Ec.
  2:{ right. exists e. split; [|split; reflexivity].
      intros msg ->. destruct prop; discriminate. }
  rewrite !bind_Ok.
  destruct (match v with
            | VScalar (SStr pat) => Ok pat
            | _ => Err (PyError "TypeError: unsupported operand type(s) for +")
            end) as [pat|e] eqn:Ep.
  2:{ right. exists e. split; [|split; reflexivity].
      intros msg ->. destruct v as [[]| | | | |]; discriminate. }
  rewrite !bind_Ok.
  destruct (str_match (pat +:+ "\Z") cells) as [m|e] eqn:Em.
  2:{ right. exists e. split; [|split; reflexivity].
      intros msg ->.
      exact (ei_str_match _ (qe_compile (fun _ => False)) _ _ _ Em msg eq_refl). }
  rewrite !bind_Ok.
  destruct (_logical_and [acc; MVec m]) as [acc'|e] eqn:Ea.
  2:{ right. exists e. split; [|split; reflexivity].
      intros msg ->.
      exact (ei_logical_and (query_errors_among (fun _ => False))
               (query_errors_among_py _) _ _ Ea msg eq_refl). }
  rewrite !bind_Ok. left. eauto.
Qed.

(** [_complex_query] raises [QueryError] exactly when it reaches a key
    other than [$regex], and names that key. *)
Lemma complex_query_loop_query_error prop query : forall acc0 msg,
  _complex_query_loop prop query acc0 = Err (QueryError msg) <->
  exists pre key v post acc,
    query = pre ++ (key, v) :: post /\ key <> REGEX_KEY /\
    msg = unknown_modifier key /\
    _complex_query_loop prop pre acc0 = Ok acc.
Proof.
  induction query as [|[k v] rest IH]; intros acc0 msg.
  - split; [discriminate|]. intros (pre & key & v & post & acc & E & _).
    now destruct pre.
  - destruct (String.eqb_spec k REGEX_KEY) as [->|Hne].
    + destruct (complex_query_loop_regex prop v rest acc0)
        as [(acc' & H1 & ->) | (e & He & H1 & ->)].
      * rewrite IH. split.
        -- intros (pre & key & v' & post & acc & -> & Hk & -> & Hpre).
           exists ((REGEX_KEY, v) :: pre), key, v', post, acc.
           repeat split; auto.
           destruct (complex_query_loop_regex prop v pre acc0)
             as [(acc'' & H2 & ->) | (e & _ & H2 & _)]; congruence.
        -- intros (pre & key & v' & post & acc & E & Hk & -> & Hpre).
           destruct pre as [|[k0 v0] pre]; injection E as <- <- ->; [congruence|].
           exists pre, key, v', post, acc. repeat split; auto.
           destruct (complex_query_loop_regex prop v pre acc0)
             as [(acc'' & H2 & H3) | (e & _ & H2 & H3)]; congruence.
      * split; [intros [= ->]; now destruct (He msg)|].
        intros (pre & key & v' & post & acc & E & Hk & -> & Hpre).
        destruct pre as [|[k0 v0] pre]; injection E as <- <- ->; [congruence|].
        destruct (complex_query_loop_regex prop v pre acc0)
          as [(acc'' & H2 & H3) | (e' & _ & H2 & H3)]; congruence.
    + cbn [_complex_query_loop].
      destruct (String.eqb_spec k REGEX_KEY) as [|_]; [contradiction|]. split.
      * intros [= <-]. exists [], k, v, rest, acc0. repeat split; auto.
      * intros (pre & key & v' & post & acc & E & Hk & -> & Hpre).
        destruct pre as [|[k0 v0] pre]; injection E as <- <- ->; [reflexivity|].
        cbn [_complex_query_loop] in Hpre.
        destruct (String.eqb_spec k REGEX_KEY); [contradiction | discriminate].
Qed.

Lemma mixed_keys_spec keys :
  mixed_keys keys = true <->
  In REGEX_KEY keys /\ exists k, In k keys /\ k <> REGEX_KEY.
Proof.
  unfold mixed_keys, has_value_key, only_value_keys.
  rewrite andb_true_iff, negb_true_iff, existsb_exists.
  rewrite <- not_true_iff_false, forallb_forall.
  assert (Hmem : forall k, mem k VALUE_KEYS = true <-> k = REGEX_KEY).
  { intros k. rewrite mem_In. simpl. intuition congruence. }
  split.
  - intros [(k & Hk & Hv) Hnot]. apply Hmem in Hv as ->. split; [exact Hk|].
    destruct (existsb (fun k => negb (mem k VALUE_KEYS)) keys) eqn:Ex.
    + apply existsb_exists in Ex as (k & Hk' & Hn). exists k. split; [exact Hk'|].
      intros ->. rewrite (proj2 (Hmem REGEX_KEY) eq_refl) in Hn. discriminate.
    + exfalso. apply Hnot. intros k Hk'.
      destruct (mem k VALUE_KEYS) eqn:Em; [reflexivity|].
      assert (Hex : existsb (fun k => negb (mem k VALUE_KEYS)) keys = true)
        by (apply existsb_exists; exists k; now rewrite Em).
      congruence.
  - intros [Hr (k & Hk & Hne)]. split.
    + exists REGEX_KEY. split; [exact Hr | now apply Hmem].
    + intros Hall. apply Hne, Hmem, Hall, Hk.
Qed.

(** C6, amended: a [QueryError] of [resolve_ids] carries one of two
    messages.  The traversal raises the first exactly on a mapping
    value (under a key other than [$and] and [$or]) that has [$regex]
    together with another key.  The property matcher raises the second
    exactly when it meets a key other than [$regex], whatever the number
    of keys of the mapping; it is reached for a known column that is
    not floating-point, while a mapping under an unknown column resolves
    to [False] and one under a floating-point column raises another
    exception. *)
Theorem query_errors_come_from_two_places :
  (forall fuel data population_name queries s,
      raises_only_query_errors (fst (resolve_ids fuel data population_name queries s))) /\
  (forall recurse fuel q key s v ks,
      mem key [OR_KEY; AND_KEY] = false ->
      getitem q key s = (Ok v, s) ->
      mapping_keys v s = (Ok (Some ks), s) ->
      (mixed_keys ks = true <->
       In REGEX_KEY ks /\ exists k, In k ks /\ k <> REGEX_KEY) /\
      traverse_children recurse fuel q key s
      = if mixed_keys ks then (Err (QueryError value_operators_mixed), s)
        else if has_value_key ks then (Ok tt, s)
        else recurse v s) /\
  (forall prop query msg,
      _complex_query prop query = Err (QueryError msg) <->
      exists pre key v post acc,
        query = pre ++ (key, v) :: post /\ key <> REGEX_KEY /\
        msg = unknown_modifier key /\
        _complex_query_loop prop pre (MBool true) = Ok acc) /\
  (forall data population_name P m,
      mem P [POPULATION_KEY; NODE_ID_KEY; EDGE_ID_KEY] = false ->
      match dict_get P (df_columns data) with
      | Some c =>
          if is_floating c
          then errors_in (query_errors_among (fun _ => False))
                 (_properties_mask data population_name [(P, VDict m)])
          else _properties_mask data population_name [(P, VDict m)]
               = (pm ← _complex_query c m; _logical_and [MBool true; pm])
      | None =>
          mem P ALL_KEYS = false ->
          _properties_mask data population_name [(P, VDict m)] = Ok (MBool false)
      end).
Proof.
  split; [|split; [|split]].
  - intros fuel data pop queries s.
    apply (oqe_resolve_ids query_error_message
             query_error_message_unknown query_error_message_mixed).
  - intros recurse fuel q key s v ks Hmem Hv Hks.
    split; [apply mixed_keys_spec|].
    unfold traverse_children. rewrite Hmem.
    unfold mbind, M_bind. rewrite Hv, Hks. unfold mixed_keys.
    destruct (has_value_key ks); [|reflexivity].
    destruct (only_value_keys ks); reflexivity.
  - intros prop query msg. apply complex_query_loop_query_error.
  - intros data pop P m Hres.
    apply mem_false in Hres. simpl in Hres.
    assert (Hpop : String.eqb POPULATION_KEY P = false)
      by (apply String.eqb_neq; intros E; apply Hres; auto).
    assert (Hnode : String.eqb NODE_ID_KEY P = false)
      by (apply String.eqb_neq; intros E; apply Hres; auto).
    assert (Hedge : String.eqb EDGE_ID_KEY P = false)
      by (apply String.eqb_neq; intros E; apply Hres; auto).
    destruct (dict_get P (df_columns data)) as [c|] eqn:Hc.
    + assert (HP : mem P (map fst (df_columns data)) = true).
      { apply mem_In, dict_get_In. eauto. }
      assert (Hrun : _properties_mask data pop [(P, VDict m)]
                     = (pm ← prop_mask c (VDict m); _logical_and [MBool true; pm])).
      { unfold _properties_mask. cbn [map fst List.filter]. rewrite HP.
        cbn [negb andb is_nil].
        unfold _circuit_mask, dict_pop. cbn [dict_get].
        rewrite Hpop. cbn [is_None]. rewrite bind_Ok.
        cbn [dict_get]. rewrite Hedge. cbn [dict_get]. rewrite Hnode.
        cbn [_positional_mask]. rewrite !bind_Ok. cbn [selects_nothing negb].
        cbn [_properties_mask_loop]. unfold get_column. rewrite Hc, bind_Ok.
        destruct (prop_mask c (VDict m)) as [pm|e]; [|reflexivity].
        rewrite !bind_Ok. now destruct (_logical_and [MBool true; pm]). }
      destruct c as [cells|cells|cells|cells]; cbn [is_floating]; try exact Hrun.
      rewrite Hrun. apply ei_bind; [|intros; apply ei_logical_and; auto with ei].
      unfold prop_mask, unpack2, range_bound. ei.
    + intros Hall. apply (properties_mask_unknown_props data pop _ P).
      * now left.
      * apply mem_false. intros Hin. apply dict_get_In in Hin as [x Hx]. congruence.
      * exact Hall.
Qed.

(** ** Enough fuel: the pattern parser *)

Lemma ei_bind_dep {P : error -> Prop} {A B} (r : result A) (k : A -> result B) :
  errors_in P r -> (forall a, r = Ok a -> errors_in P (k a)) -> errors_in P (r ≫= k).
Proof.
  intros Hr Hk. destruct r as [a|e]; [now apply Hk|].
  intros e' [= <-]. now apply Hr.
Qed.

Lemma starts_with_length c s : starts_with c s = true -> (length (tl s) < length s)%nat.
Proof. destruct s; simpl; [discriminate | lia]. Qed.

Lemma parse_repeat_length a s a' s' :
  parse_repeat a s = Ok (a', s') -> (length s' <= length s)%nat.
Proof.
  unfold parse_repeat.
  repeat match goal with
         | |- context [match ?x with _ => _ end] => destruct x
         end; intros [=]; subst; simpl; lia.
Qed.

Lemma parse_atom_length alt c s' a s1 :
  (forall x r rest, alt x = Ok (r, rest) -> (length rest <= length x)%nat) ->
  parse_atom alt c s' = Ok (a, s1) -> (length s1 <= length s')%nat.
Proof.
  intros Halt. unfold parse_atom.
  destruct (Ascii.eqb c "(").
  - destruct (starts_with "?" s'); [discriminate|].
    intros H. apply bind_Ok_inv in H as ([r s2] & Hr & H).
    apply Halt in Hr. destruct (starts_with ")" s2) eqn:E; [|discriminate].
    injection H as <- <-. apply starts_with_length in E. lia.
  - destruct (Ascii.eqb c "\").
    + destruct s' as [|e s2]; [discriminate|].
      intros H. apply bind_Ok_inv in H as (r & _ & [= <- <-]). simpl. lia.
    + repeat match goal with
             | |- context [if ?x then _ else _] => destruct x
             end; intros [=]; subst; lia.
Qed.

Lemma parse_length n : forall s r rest,
  (parse_alt n s = Ok (r, rest) -> (length rest <= length s)%nat) /\
  (parse_seq n s = Ok (r, rest) -> (length rest <= length s)%nat).
Proof.
  induction n as [|n IH]; intros s r rest; [split; discriminate|].
  split; cbn [parse_alt parse_seq].
  - intros H. apply bind_Ok_inv in H as ([r1 s1] & H1 & H).
    apply IH in H1. destruct (starts_with "|" s1) eqn:E.
    + apply bind_Ok_inv in H as ([r2 s3] & H2 & [= <- <-]).
      apply IH in H2. apply starts_with_length in E. lia.
    + injection H as <- <-. exact H1.
  - destruct s as [|c s']; [intros [= <- <-]; lia|].
    destruct (_ || _); [intros [= <- <-]; lia|].
    intros H. apply bind_Ok_inv in H as ([a s1] & Ha & H).
    apply parse_atom_length in Ha; [|intros x r0 rest0; apply IH].
    apply bind_Ok_inv in H as ([a' s2] & Hrep & H).
    apply parse_repeat_length in Hrep.
    apply bind_Ok_inv in H as ([r3 s3] & H3 & [= <- <-]).
    apply IH in H3. simpl. lia.
Qed.

Lemma parse_fuel n : forall s,
  ((2 * length s + 2 <= n)%nat -> errors_in not_fuel (parse_alt n s)) /\
  ((2 * length s + 1 <= n)%nat -> errors_in not_fuel (parse_seq n s)).
Proof.
  induction n as [|n IH]; intros s; [split; lia|].
  split; intros Hn; cbn [parse_alt parse_seq].
  - apply ei_bind_dep; [apply IH; lia|]. intros [r s1] H1.
    apply parse_length in H1.
    destruct (starts_with "|" s1) eqn:E; [|ei].
    apply starts_with_length in E.
    apply ei_bind; [apply IH; lia|]. intros [r2 s3]. ei.
  - destruct s as [|c s']; [ei|]. simpl in Hn.
    destruct (_ || _); [ei|].
    apply ei_bind_dep.
    + unfold parse_atom. destruct (Ascii.eqb c "(").
      * destruct (starts_with "?" s'); [ei|].
        apply ei_bind; [apply IH; lia|]. intros [r s1].
        destruct (starts_with ")" s1); ei.
      * destruct (Ascii.eqb c "\").
        -- destruct s' as [|e s1]; [ei|].
           apply ei_bind; [unfold parse_escape; ei | intros; ei].
        -- ei.
    + intros [a s1] Ha.
      apply parse_atom_length in Ha; [|intros x r0 rest0; apply parse_length].
      apply ei_bind_dep; [unfold parse_repeat; ei|].
      intros [a' s2] Hrep. apply parse_repeat_length in Hrep.
      apply ei_bind; [apply IH; lia|]. intros [r s3]. ei.
Qed.

(** [re_compile] gives its parser enough fuel. *)
Lemma compile_fuel pat : errors_in not_fuel (re_compile pat).
Proof.
  unfold re_compile. apply ei_bind; [apply parse_fuel; lia|]. intros [r rest]. ei.
Qed.

(** ** Enough fuel: values of bounded depth *)

Section Ranked.
Variables a b : nat.

Lemma ranked_mono s n m h : (n <= m)%nat -> ranked s a b n h -> ranked s a b m h.
Proof.
  revert m h. induction n as [|n IH]; intros m h Hnm; destruct h as [| | | |l];
    try (destruct m; simpl; tauto).
  destruct m as [|m]; [lia|]. cbn [ranked]. intros [Hl Hobj]. split; [exact Hl|].
  destruct (s !! l) as [[d|xs]|]; [| |exact Hobj].
  - eapply Forall_impl; [exact Hobj|]. intros kv. apply IH. lia.
  - destruct Hobj as [Hlen Hxs]. split; [lia|].
    eapply Forall_impl; [exact Hxs|]. intros x. apply IH. lia.
Qed.

Lemma ranked_fresh s n h : ranked s a b n h -> hval_fresh a h.
Proof. destruct h as [| | | |l]; try exact (fun _ => I). destruct n; simpl; [tauto | lia]. Qed.

Lemma ranked_not_ref s n h : (forall l, h <> HRef l) -> ranked s a b n h.
Proof. destruct h as [| | | |l]; intros H; try (destruct n; exact I). now destruct (H l). Qed.

(** Only the objects of the interval matter. *)
Lemma ranked_frame s s' n h :
  (forall l : nat, (a <= l < b)%nat -> s' !! l = s !! l) ->
  ranked s a b n h -> ranked s' a b n h.
Proof.
  intros Hsame. revert h. induction n as [|n IH]; intros h; destruct h as [| | | |l];
    try (simpl; tauto).
  cbn [ranked]. intros [Hl Hobj]. split; [exact Hl|]. rewrite (Hsame l Hl).
  destruct (s !! l) as [[d|xs]|]; [| |exact Hobj].
  - eapply Forall_impl; [exact Hobj|]. intros kv. apply IH.
  - destruct Hobj as [Hlen Hxs]. split; [exact Hlen|].
    eapply Forall_impl; [exact Hxs|]. intros x. apply IH.
Qed.

(** Assignments of masks keep the depth. *)
Lemma ranked_writes n0 N s s' n h :
  writes n0 N s s' -> ranked s a b n h -> ranked s' a b n h.
Proof.
  induction 1 as [|s s' l0 d k v H IH Hl Hd Hv]; [tauto|].
  intros Hr. specialize (IH Hr). clear Hr. revert h IH.
  induction n as [|n IHn]; intros h; destruct h as [| | | |l]; try (simpl; tauto).
  cbn [ranked]. intros [Hlb Hobj]. split; [exact Hlb|].
  destruct (Nat.eq_dec l0 l) as [->|Hne].
  - rewrite list_lookup_insert_eq by (now apply lookup_lt_Some in Hd).
    rewrite Hd in Hobj. apply dict_set_Forall.
    + eapply Forall_impl; [exact Hobj|]. intros kv. apply IHn.
    + intros k'. simpl. apply ranked_not_ref. now apply (valid_hval_not_ref N).
  - rewrite list_lookup_insert_ne by exact Hne.
    destruct (s' !! l) as [[d'|xs]|]; [| |exact Hobj].
    + eapply Forall_impl; [exact Hobj|]. intros kv. apply IHn.
    + destruct Hobj as [Hlen Hxs]. split; [exact Hlen|].
      eapply Forall_impl; [exact Hxs|]. intros x. apply IHn.
Qed.

(** A value of depth [n] is read back with fuel [n]. *)
Lemma reify_ranked s n fuel h :
  ranked s a b n h -> (n <= fuel)%nat -> errors_in not_fuel (reify fuel s h).
Proof.
  revert fuel h. induction n as [|n IH]; intros fuel h; destruct h as [| | | |l];
    try solve [intros _ _; destruct fuel; simpl; ei].
  - simpl. tauto.
  - cbn [ranked]. intros [Hl Hobj] Hfuel. destruct fuel as [|fuel]; [lia|].
    cbn [reify]. destruct (s !! l) as [[d|xs]|]; [| |ei].
    + apply ei_bind; [|intros; ei].
      induction Hobj as [|kv d Hkv Hd IHd]; cbn [mapM]; [ei|].
      apply ei_bind; [apply ei_bind; [apply IH; [exact Hkv | lia] | intros; ei]|].
      intros v. apply ei_bind; [exact IHd | intros; ei].
    + destruct Hobj as [_ Hxs]. apply ei_bind; [|intros; ei].
      induction Hxs as [|x xs Hx Hxs IHd]; cbn [mapM]; [ei|].
      apply ei_bind; [apply IH; [exact Hx | lia]|].
      intros v. apply ei_bind; [exact IHd | intros; ei].
Qed.
End Ranked.

(** ** Enough fuel: the traversal *)

Lemma ei_bindM {P : error -> Prop} {A B} (m : M A) (k : A -> M B) s :
  errors_in P (fst (m s)) ->
  (forall a s', m s = (Ok a, s') -> errors_in P (fst (k a s'))) ->
  errors_in P (fst ((m ≫= k) s)).
Proof.
  intros Hm Hk. unfold mbind, M_bind.
  destruct (m s) as [[x|e] s']; [now apply Hk|].
  intros e' [= <-]. now apply Hm.
Qed.

Lemma traverse_not_ref fuel traverse_fn c s :
  (forall l, c <> HRef l) ->
  errors_in not_fuel (fst (traverse_queries_bottom_up (S fuel) traverse_fn c s)).
Proof.
  intros Hc. cbn [traverse_queries_bottom_up]. unfold dict_keys.
  destruct c as [| | | |l]; try (intros e [= <-]; discriminate).
  now destruct (Hc l).
Qed.

Lemma ranked_list_inv a b s n l xs :
  ranked s a b n (HRef l) -> s !! l = Some (OList xs) ->
  (length xs < n)%nat /\ Forall (ranked s a b n) xs.
Proof.
  destruct n as [|n]; [simpl; tauto|]. cbn [ranked]. intros [_ H] E.
  rewrite E in H. destruct H as [Hlen Hxs]. split; [lia|].
  eapply Forall_impl; [exact Hxs|]. intros x Hx.
  apply (ranked_mono a b s n (S n) x); [lia | exact Hx].
Qed.

Lemma ranked_ref_bound a b s n l : ranked s a b n (HRef l) -> s !! l <> None.
Proof.
  destruct n as [|n]; [simpl; tauto|]. cbn [ranked]. intros [_ H] E.
  now rewrite E in H.
Qed.

Section TraverseFuel.
Variable s0 : store.
Variable data : DataFrame.
Variable population_name : string.
Variable fuel0 : nat.
Variable bound : nat.
Hypothesis data_wf : wf_table data.

Abbreviation rk := (fun s => ranked s (length s0) bound).
Abbreviation collect' := (_collect fuel0 data population_name).

Section Level.
Variable f : nat.
Hypothesis f_fuel0 : (f <= fuel0)%nat.
Hypothesis traverse_level :
  forall q s, extends s0 s -> rk s f q ->
    errors_in not_fuel (fst (traverse_queries_bottom_up (S f) collect' q s)).

Lemma iter_list_fuel (l2 : nat) xs k : forall (i : nat) s,
  extends s0 s -> (length s0 <= l2)%nat -> s !! l2 = Some (OList xs) ->
  Forall (rk s f) xs -> (i <= length xs)%nat -> (length xs < i + k)%nat ->
  errors_in not_fuel
    (fst (iter_list k (traverse_queries_bottom_up (S f) collect') l2 i s)).
Proof.
  induction k as [|k IH]; intros i s Hs Hl2 Hxs Hrk Hi Hk; [lia|].
  cbn [iter_list]. rewrite Hxs. destruct (xs !! i) as [x|] eqn:Ex; [|simpl; ei].
  assert (Hx : rk s f x) by exact (Forall_lookup_1 _ _ _ _ Hrk Ex).
  apply ei_bindM; [now apply traverse_level|]. intros [] s1 Hrun.
  destruct (traverse_Ok s0 data population_name fuel0 data_wf (S f) x s s1 Hs
              (ranked_fresh _ _ _ _ _ Hx) Hrun) as [Hw _].
  apply IH.
  - eapply extends_writes; [reflexivity | exact Hs | exact Hw].
  - exact Hl2.
  - now apply (writes_list _ _ s s1 l2 xs Hw).
  - eapply Forall_impl; [exact Hrk|]. intros y. apply (ranked_writes _ _ _ _ s s1 f y Hw).
  - apply lookup_lt_Some in Ex. lia.
  - lia.
Qed.

Lemma traverse_children_fuel (l : nat) key s :
  extends s0 s -> rk s (S f) (HRef l) ->
  errors_in not_fuel
    (fst (traverse_children (traverse_queries_bottom_up (S f) collect') (S f)
            (HRef l) key s)).
Proof.
  intros Hs Hl. unfold traverse_children.
  assert (Hentry : forall v, getitem (HRef l) key s = (Ok v, s) -> rk s f v).
  { intros v Hv. apply getitem_Ok in Hv as (_ & l' & d & [= <-] & Hd & Hk).
    cbn [ranked] in Hl. destruct Hl as [_ Hl]. rewrite Hd in Hl.
    apply dict_get_In_pair in Hk. rewrite Forall_forall in Hl.
    apply (Hl (key, v)). now apply list_elem_of_In. }
  destruct (mem key [OR_KEY; AND_KEY]).
  - apply ei_bindM; [apply oe_getitem; auto with ei|]. intros sub s1 Hsub.
    assert (s1 = s) by (apply getitem_Ok in Hsub; tauto). subst s1.
    specialize (Hentry sub Hsub).
    apply ei_bindM; [simpl; ei|]. intros lo s1 Hlo.
    apply read_Ok in Hlo as [[= <-] ->]. unfold is_list.
    destruct sub as [| | | |l2].
    1-4: apply ei_bindM; [apply oe_iter_values; auto with ei|];
         intros subs s1 Hsubs; apply iter_values_Ok in Hsubs as Es; subst s1;
         apply oe_forM_; intros c Hc;
         assert (Hnr : Forall (fun x => forall r, x <> HRef r) subs)
           by (eapply iter_values_not_list; [|exact Hsubs]; discriminate);
         rewrite Forall_forall in Hnr; intros s2; apply traverse_not_ref;
         apply Hnr; now apply list_elem_of_In.
    destruct (s !! l2) as [[dd|xs]|] eqn:E2.
    + apply ei_bindM; [apply oe_iter_values; auto with ei|].
      intros subs s1 Hsubs. apply iter_values_Ok in Hsubs as Es. subst s1.
      apply oe_forM_. intros c Hc.
      assert (Hnr : Forall (fun x => forall r, x <> HRef r) subs).
      { eapply iter_values_not_list; [|exact Hsubs]. intros r ys [= <-]. congruence. }
      rewrite Forall_forall in Hnr. intros s2. apply traverse_not_ref.
      apply Hnr. now apply list_elem_of_In.
    + destruct (ranked_list_inv _ _ _ _ _ _ Hentry E2) as [Hlen Hxs].
      apply ranked_fresh in Hentry. simpl in Hentry.
      apply (iter_list_fuel l2 xs); auto; lia.
    + now destruct (ranked_ref_bound _ _ _ _ _ Hentry).
  - apply ei_bindM; [apply oe_getitem; auto with ei|]. intros v s1 Hv.
    assert (s1 = s) by (apply getitem_Ok in Hv; tauto). subst s1.
    specialize (Hentry v Hv).
    apply ei_bindM; [apply oe_mapping_keys; auto with ei|]. intros ks s1 Hks.
    apply mapping_keys_Ok in Hks as ->.
    destruct ks as [ks|]; [|simpl; ei].
    destruct (has_value_key ks); [|now apply traverse_level].
    destruct (negb (only_value_keys ks)); simpl; ei.
Qed.

Lemma keys_loop_fuel (l : nat) rem : forall s,
  extends s0 s -> rk s (S f) (HRef l) ->
  errors_in not_fuel
    (fst (forM_ (fun key =>
                   traverse_children (traverse_queries_bottom_up (S f) collect')
                     (S f) (HRef l) key;;
                   collect' (HRef l) key) rem s)).
Proof.
  induction rem as [|key rem IH]; intros s Hs Hl; cbn [forM_]; [simpl; ei|].
  assert (Hfresh : (length s0 <= l)%nat) by (cbn [ranked] in Hl; lia).
  assert (Hrec := traverse_Ok s0 data population_name fuel0 data_wf (S f)).
  apply ei_bindM.
  - apply ei_bindM; [now apply traverse_children_fuel|]. intros [] s1 Hch.
    destruct (traverse_children_Ok s0 data (S f) _ Hrec l key s s1 Hs Hfresh Hch)
      as [Hw1 _].
    apply oe_collect; auto using compile_fuel with ei.
    intros h Hh. apply getitem_Ok in Hh as (_ & l' & d & [= <-] & Hd & Hk).
    apply (reify_ranked (length s0) bound s1 f); [|exact f_fuel0].
    assert (Hl1 : rk s1 (S f) (HRef l))
      by exact (ranked_writes _ _ _ _ s s1 _ _ Hw1 Hl).
    cbn [ranked] in Hl1. destruct Hl1 as [_ Hl1]. rewrite Hd in Hl1.
    apply dict_get_In_pair in Hk. rewrite Forall_forall in Hl1.
    apply (Hl1 (key, h)). now apply list_elem_of_In.
  - intros [] s2 Hbody.
    apply bindM_Ok_inv in Hbody as ([] & s1 & Hch & Hcol).
    destruct (traverse_children_Ok s0 data (S f) _ Hrec l key s s1 Hs Hfresh Hch)
      as [Hw1 Hready].
    assert (Hs1 : extends s0 s1)
      by (eapply extends_writes; [reflexivity | exact Hs | exact Hw1]).
    destruct (collect_Ok s0 data population_name fuel0 data_wf (HRef l) key s1 s2
                Hfresh Hready Hcol) as [Hw2 _].
    apply IH.
    + eapply extends_writes; [reflexivity | exact Hs1 | exact Hw2].
    + apply (ranked_writes _ _ _ _ s1 s2 _ _ Hw2).
      exact (ranked_writes _ _ _ _ s s1 _ _ Hw1 Hl).
Qed.
End Level.

(** With fuel beyond the depth of the query, the traversal ends. *)
Lemma traverse_fuel f : forall q s,
  (f <= fuel0)%nat -> extends s0 s -> rk s f q ->
  errors_in not_fuel (fst (traverse_queries_bottom_up (S f) collect' q s)).
Proof.
  induction f as [|f IH]; intros q s Hf Hs Hq.
  - apply traverse_not_ref. intros l ->. exact Hq.
  - destruct q as [| | | |l]; try (apply traverse_not_ref; discriminate).
    cbn [traverse_queries_bottom_up].
    apply ei_bindM; [apply oe_dict_keys; auto with ei|]. intros keys s1 Hkeys.
    unfold dict_keys in Hkeys.
    apply bindM_Ok_inv in Hkeys as (d & s2 & Hd & Hkeys).
    apply get_dict_Ok in Hd as (-> & _). apply mret_Ok in Hkeys as [_ ->].
    apply keys_loop_fuel; auto; try lia.
    intros q' s' Hs' Hq'. apply IH; auto; lia.
Qed.
End TraverseFuel.

(** ** Enough fuel: the private copy *)

Lemma ranked_interval a b a' b' s n h :
  (a' <= a)%nat -> (b <= b')%nat -> ranked s a b n h -> ranked s a' b' n h.
Proof.
  intros Ha Hb. revert h. induction n as [|n IH]; intros h; destruct h as [| | | |l];
    try (simpl; tauto).
  cbn [ranked]. intros [Hl Hobj]. split; [lia|].
  destruct (s !! l) as [[d|xs]|]; [| |exact Hobj].
  - eapply Forall_impl; [exact Hobj|]. intros kv. apply IH.
  - destruct Hobj as [Hlen Hxs]. split; [exact Hlen|].
    eapply Forall_impl; [exact Hxs|]. intros x. apply IH.
Qed.

Lemma value_nested_ind (P : value -> Prop) :
  (forall a, P (VScalar a)) -> (forall l, P (VTuple l)) ->
  (forall v, P (VArr v)) -> (forall ids, P (VIds ids)) ->
  (forall l, Forall P l -> P (VList l)) ->
  (forall d, Forall (fun kv => P (snd kv)) d -> P (VDict d)) ->
  forall v, P v.
Proof.
  intros Hs Ht Ha Hi Hl Hd. fix IH 1.
  intros [a|l|v|ids|l|d]; [apply Hs | apply Ht | apply Ha | apply Hi | |].
  - apply Hl. induction l as [|v l IHl]; constructor; [apply IH | exact IHl].
  - apply Hd. induction d as [|[k v] d IHd]; constructor; [apply IH | exact IHd].
Qed.

Lemma bindM_Ok {A B} (m : M A) (k : A -> M B) s a s' :
  m s = (Ok a, s') -> (m ≫= k) s = k a s'.
Proof. intros H. unfold mbind, M_bind. now rewrite H. Qed.

Lemma alloc_all_prefix {A B} (f : A -> store -> B * store) l :
  Forall (fun x => forall s y s', f x s = (y, s') -> s `prefix_of` s') l ->
  forall s ys s', alloc_all f l s = (ys, s') -> s `prefix_of` s'.
Proof.
  induction 1 as [|x l Hx _ IH]; intros s ys s'; cbn [alloc_all].
  - now intros [= _ <-].
  - destruct (f x s) as [y s1] eqn:E1. destruct (alloc_all f l s1) as [ys' s2] eqn:E2.
    intros [= _ <-]. etransitivity; [exact (Hx _ _ _ E1) | exact (IH _ _ _ E2)].
Qed.

Lemma alloc_prefix v : forall s h s', alloc v s = (h, s') -> s `prefix_of` s'.
Proof.
  induction v as [a|l|bs|ids|l IH|d IH] using value_nested_ind; intros s h s';
    cbn [alloc]; try (now intros [= _ <-]).
  - destruct (alloc_all alloc l s) as [hs s1] eqn:E. intros [= _ <-].
    etransitivity; [exact (alloc_all_prefix _ _ IH _ _ _ E) | now apply prefix_app_r].
  - destruct (alloc_all _ d s) as [hd s1] eqn:E. intros [= _ <-].
    etransitivity; [|now apply prefix_app_r].
    refine (alloc_all_prefix _ _ _ _ _ _ E).
    eapply Forall_impl; [exact IH|]. intros [k v] Hv s2 y s3. simpl.
    destruct (alloc v s2) as [h2 s4] eqn:E2. intros [= _ <-]. exact (Hv _ _ _ E2).
Qed.

Lemma prefix_insert (s t : store) (y : nat) o :
  s `prefix_of` t -> (length s <= y)%nat -> s `prefix_of` <[y := o]> t.
Proof.
  intros [u ->] Hy. exists (<[(y - length s)%nat := o]> u).
  now apply insert_app_r_alt.
Qed.

Lemma prefix_lookup (s t : store) (l : nat) :
  s `prefix_of` t -> (l < length s)%nat -> t !! l = s !! l.
Proof. intros [u ->] Hl. now apply lookup_app_l. Qed.

Lemma agree_prefix (s t : store) :
  (length s <= length t)%nat ->
  (forall l : nat, (l < length s)%nat -> t !! l = s !! l) ->
  exists ext, t = s ++ ext.
Proof.
  intros Hlen Hsame. exists (drop (length s) t).
  rewrite <- (take_drop (length s) t) at 1. f_equal.
  apply list_eq. intros i. destruct (Nat.lt_ge_cases i (length s)) as [Hi|Hi].
  - rewrite lookup_take_lt by exact Hi. now apply Hsame.
  - rewrite lookup_take_ge by exact Hi. symmetry. now apply lookup_ge_None.
Qed.

Lemma memo_get_outside memo a b (l : nat) :
  memo_outside memo a b -> (a <= l < b)%nat -> memo_get l memo = None.
Proof.
  intros Hout Hl. unfold memo_get.
  destruct (list_find _ memo) as [[i [l' y]]|] eqn:E; [|reflexivity].
  apply list_find_Some in E as (Hi & Heq & _). simpl in Heq.
  apply Is_true_true, Nat.eqb_eq in Heq. subst l'.
  apply list_elem_of_lookup_2, list_elem_of_In in Hi. now destruct (Hout _ _ Hi).
Qed.

Lemma depth_bound {A} (f : A -> nat) l :
  Forall (fun x => (f x <= fold_right Nat.max 0%nat (map f l))%nat) l.
Proof.
  induction l as [|x l IH]; constructor; simpl; [lia|].
  eapply Forall_impl; [exact IH|]. simpl. intros y Hy. lia.
Qed.

Lemma ranked_app a b (s ext : store) n h :
  (b <= length s)%nat -> ranked s a b n h -> ranked (s ++ ext) a b n h.
Proof.
  intros Hb. apply ranked_frame. intros l Hl. apply lookup_app_l. lia.
Qed.

Lemma ranked_insert a b (s : store) (y : nat) o n h :
  (y < a)%nat -> ranked s a b n h -> ranked (<[y := o]> s) a b n h.
Proof.
  intros Hy. apply ranked_frame. intros l Hl. apply list_lookup_insert_ne. lia.
Qed.

(** What a finished copy and the values already stored in the
    container under construction become once the copy is stored. *)
Lemma ranked_stored_old (s ext : store) (y : nat) o n h :
  (y < length s)%nat -> ranked s (S y) (length s) n h ->
  ranked (<[y := o]> (s ++ ext)) (S y) (length (<[y := o]> (s ++ ext))) n h.
Proof.
  intros Hy Hh. apply ranked_insert; [lia|].
  apply (ranked_interval (S y) (length s)); [lia | |].
  - rewrite length_insert, length_app. lia.
  - apply ranked_app; [lia | exact Hh].
Qed.

Lemma ranked_stored_new (s ext : store) (y : nat) o m n h :
  (y < length s)%nat -> (m <= n)%nat ->
  ranked (s ++ ext) (length s) (length (s ++ ext)) m h ->
  ranked (<[y := o]> (s ++ ext)) (S y) (length (<[y := o]> (s ++ ext))) n h.
Proof.
  intros Hy Hm Hh. apply ranked_insert; [lia|].
  apply (ranked_interval (length s) (length (s ++ ext))); [lia | |].
  - now rewrite length_insert.
  - now apply (ranked_mono _ _ _ m n).
Qed.

Lemma frame_except_stored (s ext s' : store) (y : nat) o :
  (y < length s)%nat ->
  frame_except y (<[y := o]> (s ++ ext)) s' -> frame_except y s s'.
Proof.
  intros Hy [Hlen Hsame]. rewrite length_insert, length_app in Hlen, Hsame.
  split; [lia|]. intros l Hl Hne. rewrite Hsame by (lia || exact Hne).
  rewrite list_lookup_insert_ne by lia. now apply lookup_app_l.
Qed.

Lemma memo_outside_next memo memo1 a b c :
  (a <= b)%nat -> (b <= c)%nat ->
  memo_outside memo a c -> memo_grows a b memo memo1 -> memo_outside memo1 b c.
Proof.
  intros Hab Hbc Hout Hgrow l y Hin Hl.
  destruct (Hgrow l y Hin) as [Hold|Hnew]; [|lia].
  apply (Hout l y Hold). lia.
Qed.

Lemma memo_grows_trans memo memo1 memo2 a b c :
  (a <= b)%nat -> (b <= c)%nat ->
  memo_grows a b memo memo1 -> memo_grows b c memo1 memo2 ->
  memo_grows a c memo memo2.
Proof.
  intros Hab Hbc H1 H2 l y Hin.
  destruct (H2 l y Hin) as [Hold|Hnew]; [|right; lia].
  destruct (H1 l y Hold) as [Hold'|Hnew]; [now left | right; lia].
Qed.

Lemma list_append_run (s : store) (y : nat) xs h :
  s !! y = Some (OList xs) ->
  list_append (HRef y) h s = (Ok tt, <[y := OList (xs ++ [h])]> s).
Proof. intros H. unfold list_append. now rewrite H. Qed.

Lemma setitem_run (s : store) (y : nat) d k h :
  s !! y = Some (ODict d) ->
  setitem (HRef y) k h s = (Ok tt, <[y := ODict (dict_set k h d)]> s).
Proof.
  intros H. unfold setitem. erewrite bindM_Ok; [reflexivity|].
  unfold get_dict. now rewrite H.
Qed.

Lemma fill_list_alloc fuel n (Hfuel : (n <= fuel)%nat) l :
  Forall copy_ok l -> Forall (fun v => (depth v <= n)%nat) l ->
  forall s1 hs s2 memo (s : store) (y : nat) ys,
    alloc_all alloc l s1 = (hs, s2) -> s2 `prefix_of` s -> (length s2 <= y)%nat ->
    memo_outside memo (length s1) (length s2) ->
    s !! y = Some (OList ys) -> Forall (ranked s (S y) (length s) n) ys ->
    exists memo' s' zs,
      fill_list (deepcopy fuel) y hs memo s = (Ok memo', s') /\
      frame_except y s s' /\ s' !! y = Some (OList (ys ++ zs)) /\
      length zs = length l /\
      Forall (ranked s' (S y) (length s') n) (ys ++ zs) /\
      memo_grows (length s1) (length s2) memo memo'.
Proof.
  induction l as [|v l IH]; intros Hok Hdepth s1 hs s2 memo s y ys; cbn [alloc_all].
  - intros [= <- <-] Hpre Hy Hmemo Hys Hrk. exists memo, s, []. cbn [fill_list].
    rewrite app_nil_r. repeat split; auto.
    intros l0 y0 Hin. now left.
  - apply Forall_cons in Hok as [Hv Hok]. apply Forall_cons in Hdepth as [Hdv Hdl].
    destruct (alloc v s1) as [h sa] eqn:Ea.
    destruct (alloc_all alloc l sa) as [hs' sb] eqn:Eb.
    intros [= <- <-] Hpre Hy Hmemo Hys Hrk.
    assert (P1 := alloc_prefix _ _ _ _ Ea).
    assert (P2 : sa `prefix_of` sb).
    { refine (alloc_all_prefix alloc l _ _ _ _ Eb). apply Forall_forall.
      intros x _ s3 h3 s4. apply alloc_prefix. }
    assert (L1 := prefix_length _ _ P1). assert (L2 := prefix_length _ _ P2).
    assert (Hylt : (y < length s)%nat) by (now apply lookup_lt_Some in Hys).
    destruct (Hv s1 h sa fuel memo s Ea) as (h' & memo1 & ext & Hcopy & Hh' & Hg1).
    { lia. } { now transitivity sb. }
    { intros l0 y0 Hin Hl0. apply (Hmemo l0 y0 Hin). lia. }
    cbn [fill_list]. rewrite (bindM_Ok _ _ _ _ _ Hcopy). cbn beta iota.
    rewrite (bindM_Ok _ _ _ _ _ (list_append_run (s ++ ext) y ys h'
                                   (eq_trans (lookup_app_l _ _ _ Hylt) Hys))).
    set (s1' := <[y := OList (ys ++ [h'])]> (s ++ ext)).
    destruct (IH Hok Hdl sa hs' sb memo1 s1' y (ys ++ [h']) Eb)
      as (memo' & s' & zs & Hrun & Hframe & Hy' & Hlen & Hzs & Hg2).
    + apply prefix_insert; [|exact Hy]. now apply prefix_app_r.
    + exact Hy.
    + now apply (memo_outside_next memo memo1 (length s1)).
    + apply list_lookup_insert_eq. rewrite length_app. lia.
    + apply Forall_app. split.
      * eapply Forall_impl; [exact Hrk|]. intros x. now apply ranked_stored_old.
      * constructor; [|constructor]. now apply (ranked_stored_new _ _ _ _ (depth v)).
    + exists memo', s', (h' :: zs). rewrite <- app_assoc in Hy', Hzs.
      repeat split; auto.
      * now apply (frame_except_stored s ext s' y (OList (ys ++ [h']))).
      * now apply (frame_except_stored s ext s' y (OList (ys ++ [h']))).
      * simpl. now rewrite Hlen.
      * now apply (memo_grows_trans memo memo1 memo' _ (length sa)).
Qed.

Lemma alloc_entry_prefix (kv : string * value) s (e : string * hval) s' :
  (let '(h, s1) := alloc (snd kv) s in ((fst kv, h), s1)) = (e, s') ->
  s `prefix_of` s'.
Proof.
  destruct (alloc (snd kv) s) as [h s1] eqn:E. intros [= _ <-].
  exact (alloc_prefix _ _ _ _ E).
Qed.

Lemma fill_dict_alloc fuel n (Hfuel : (n <= fuel)%nat) d :
  Forall (fun kv => copy_ok (snd kv)) d ->
  Forall (fun kv => (depth (snd kv) <= n)%nat) d ->
  forall s1 hd s2 memo (s : store) (y : nat) dy,
    alloc_all (fun kv s => let '(h, s1) := alloc (snd kv) s in ((fst kv, h), s1))
      d s1 = (hd, s2) ->
    s2 `prefix_of` s -> (length s2 <= y)%nat ->
    memo_outside memo (length s1) (length s2) ->
    s !! y = Some (ODict dy) ->
    Forall (fun e => ranked s (S y) (length s) n (snd e)) dy ->
    exists memo' s' dy',
      fill_dict (deepcopy fuel) y hd memo s = (Ok memo', s') /\
      frame_except y s s' /\ s' !! y = Some (ODict dy') /\
      Forall (fun e => ranked s' (S y) (length s') n (snd e)) dy' /\
      memo_grows (length s1) (length s2) memo memo'.
Proof.
  induction d as [|[k v] d IH]; intros Hok Hdepth s1 hd s2 memo s y dy;
    cbn [alloc_all].
  - intros [= <- <-] Hpre Hy Hmemo Hys Hrk. exists memo, s, dy. cbn [fill_dict].
    repeat split; auto.
    intros l0 y0 Hin. now left.
  - apply Forall_cons in Hok as [Hv Hok]. apply Forall_cons in Hdepth as [Hdv Hdl].
    cbn [fst snd] in Hv, Hdv |- *.
    destruct (alloc v s1) as [h sa] eqn:Ea.
    destruct (alloc_all _ d sa) as [hd' sb] eqn:Eb.
    intros [= <- <-] Hpre Hy Hmemo Hys Hrk.
    assert (P1 := alloc_prefix _ _ _ _ Ea).
    assert (P2 : sa `prefix_of` sb).
    { refine (alloc_all_prefix _ d _ _ _ _ Eb). apply Forall_forall.
      intros x _ s3 h3 s4. apply alloc_entry_prefix. }
    assert (L1 := prefix_length _ _ P1). assert (L2 := prefix_length _ _ P2).
    assert (Hylt : (y < length s)%nat) by (now apply lookup_lt_Some in Hys).
    destruct (Hv s1 h sa fuel memo s Ea) as (h' & memo1 & ext & Hcopy & Hh' & Hg1).
    { lia. } { now transitivity sb. }
    { intros l0 y0 Hin Hl0. apply (Hmemo l0 y0 Hin). lia. }
    cbn [fill_dict]. rewrite (bindM_Ok _ _ _ _ _ Hcopy). cbn beta iota.
    rewrite (bindM_Ok _ _ _ _ _ (setitem_run (s ++ ext) y dy k h'
                                   (eq_trans (lookup_app_l _ _ _ Hylt) Hys))).
    set (s1' := <[y := ODict (dict_set k h' dy)]> (s ++ ext)).
    destruct (IH Hok Hdl sa hd' sb memo1 s1' y (dict_set k h' dy) Eb)
      as (memo' & s' & dy' & Hrun & Hframe & Hy' & Hdy' & Hg2).
    + apply prefix_insert; [|exact Hy]. now apply prefix_app_r.
    + exact Hy.
    + now apply (memo_outside_next memo memo1 (length s1)).
    + apply list_lookup_insert_eq. rewrite length_app. lia.
    + apply dict_set_Forall.
      * eapply Forall_impl; [exact Hrk|]. intros x. now apply ranked_stored_old.
      * intros k'. now apply (ranked_stored_new _ _ _ _ (depth v)).
    + exists memo', s', dy'. repeat split; auto.
      * now apply (frame_except_stored s ext s' y (ODict (dict_set k h' dy))).
      * now apply (frame_except_stored s ext s' y (ODict (dict_set k h' dy))).
      * now apply (memo_grows_trans memo memo1 memo' _ (length sa)).
Qed.

Lemma copy_ok_leaf v h :
  (forall l, h <> HRef l) -> (forall s, alloc v s = (h, s)) -> copy_ok v.
Proof.
  intros Hh Hv s1 h0 s2 fuel memo s Ea _ _ _. rewrite Hv in Ea.
  injection Ea as Eh Es. subst h0 s2. exists h, memo, []. rewrite app_nil_r.
  repeat split.
  - destruct fuel, h as [| | | |l]; try reflexivity; now destruct (Hh l).
  - now apply ranked_not_ref.
  - intros l y Hin. now left.
Qed.

(** [copy.deepcopy] of a query tree ends, and the copy is a tree of new
    objects of the same depth. *)
Lemma deepcopy_alloc v : copy_ok v.
Proof.
  induction v as [a|l|bs|ids|l IH|d IH] using value_nested_ind;
    try (eapply copy_ok_leaf; [|reflexivity]; discriminate).
  - intros s1 h s2 fuel memo s. cbn [alloc depth].
    destruct (alloc_all alloc l s1) as [hs sa] eqn:Ea.
    intros [= <- <-] Hfuel Hpre Hmemo.
    destruct fuel as [|fuel]; [lia|].
    set (n := Nat.max (length l) (fold_right Nat.max 0%nat (map depth l))) in *.
    assert (P1 : s1 `prefix_of` sa).
    { refine (alloc_all_prefix alloc l _ _ _ _ Ea). apply Forall_forall.
      intros x _ s3 h3 s4. apply alloc_prefix. }
    assert (L1 := prefix_length _ _ P1). assert (L2 := prefix_length _ _ Hpre).
    rewrite length_app in Hmemo, L2. simpl in Hmemo, L2.
    cbn [deepcopy]. rewrite (memo_get_outside memo (length s1) (length sa + 1)) by (auto; lia).
    rewrite (prefix_lookup _ _ _ Hpre) by (rewrite length_app; simpl; lia).
    rewrite lookup_app_r, Nat.sub_diag by lia. cbn [lookup list_lookup].
    rewrite (bindM_Ok _ _ s (length s) (s ++ [OList []])) by reflexivity.
    destruct (fill_list_alloc fuel n ltac:(lia) l IH) with
      (s1 := s1) (hs := hs) (s2 := sa) (memo := (length sa, length s) :: memo)
      (s := s ++ [OList []]) (y := length s) (ys := @nil hval)
      as (memo' & s' & zs & Hrun & [Hlen Hsame] & Hy' & Hzl & Hzs & Hg).
    + eapply Forall_impl; [apply (depth_bound depth l)|]. simpl. intros x Hx.
      unfold n. lia.
    + exact Ea.
    + destruct Hpre as [t ->]. rewrite <- !app_assoc. now apply prefix_app_r.
    + lia.
    + intros l0 y0 [[= <- <-]|Hin] Hl0; [lia|]. apply (Hmemo l0 y0 Hin). lia.
    + now apply list_lookup_middle.
    + constructor.
    + rewrite (bindM_Ok _ _ _ _ _ Hrun). rewrite length_app in Hlen, Hsame.
      simpl in Hlen, Hsame, Hy', Hzs.
      destruct (agree_prefix s s') as [ext ->]; [lia| |].
      { intros l0 Hl0. rewrite Hsame by lia. now apply lookup_app_l. }
      exists (HRef (length s)), memo', ext. split; [reflexivity|]. split.
      * cbn [ranked]. split; [lia|]. rewrite Hy'. split; [unfold n in *; lia|].
        eapply Forall_impl; [exact Hzs|]. intros x.
        apply ranked_interval; lia.
      * intros l0 y0 Hin. destruct (Hg l0 y0 Hin) as [[[= <- <-]|Hold]|Hnew].
        -- right. rewrite length_app. simpl. lia.
        -- now left.
        -- right. rewrite length_app. simpl. lia.
  - intros s1 h s2 fuel memo s. cbn [alloc depth].
    destruct (alloc_all _ d s1) as [hd sa] eqn:Ea.
    intros [= <- <-] Hfuel Hpre Hmemo.
    destruct fuel as [|fuel]; [lia|].
    set (n := fold_right Nat.max 0%nat (map (fun kv => depth (snd kv)) d)) in *.
    assert (P1 : s1 `prefix_of` sa).
    { refine (alloc_all_prefix _ d _ _ _ _ Ea). apply Forall_forall.
      intros x _ s3 h3 s4. apply alloc_entry_prefix. }
    assert (L1 := prefix_length _ _ P1). assert (L2 := prefix_length _ _ Hpre).
    rewrite length_app in Hmemo, L2. simpl in Hmemo, L2.
    cbn [deepcopy]. rewrite (memo_get_outside memo (length s1) (length sa + 1)) by (auto; lia).
    rewrite (prefix_lookup _ _ _ Hpre) by (rewrite length_app; simpl; lia).
    rewrite lookup_app_r, Nat.sub_diag by lia. cbn [lookup list_lookup].
    rewrite (bindM_Ok _ _ s (length s) (s ++ [ODict []])) by reflexivity.
    destruct (fill_dict_alloc fuel n ltac:(lia) d IH) with
      (s1 := s1) (hd := hd) (s2 := sa) (memo := (length sa, length s) :: memo)
      (s := s ++ [ODict []]) (y := length s) (dy := @nil (string * hval))
      as (memo' & s' & dy' & Hrun & [Hlen Hsame] & Hy' & Hdy' & Hg).
    + exact (depth_bound (fun kv => depth (snd kv)) d).
    + exact Ea.
    + destruct Hpre as [t ->]. rewrite <- !app_assoc. now apply prefix_app_r.
    + lia.
    + intros l0 y0 [[= <- <-]|Hin] Hl0; [lia|]. apply (Hmemo l0 y0 Hin). lia.
    + now apply list_lookup_middle.
    + constructor.
    + rewrite (bindM_Ok _ _ _ _ _ Hrun). rewrite length_app in Hlen, Hsame.
      simpl in Hlen, Hsame.
      destruct (agree_prefix s s') as [ext ->]; [lia| |].
      { intros l0 Hl0. rewrite Hsame by lia. now apply lookup_app_l. }
      exists (HRef (length s)), memo', ext. split; [reflexivity|]. split.
      * cbn [ranked]. split; [lia|]. rewrite Hy'.
        eapply Forall_impl; [exact Hdy'|]. intros x.
        apply ranked_interval; lia.
      * intros l0 y0 Hin. destruct (Hg l0 y0 Hin) as [[[= <- <-]|Hold]|Hnew].
        -- right. rewrite length_app. simpl. lia.
        -- now left.
        -- right. rewrite length_app. simpl. lia.
Qed.

(** ** The result of [resolve_ids] *)

(** C1: for every query tree and every table, [resolve_ids], given
    fuel beyond the depth of the tree, ends: it returns or it raises a
    Python exception.  What it returns is one boolean per row of the
    table: the merged mask of the resolved query when that is an array,
    and the scalar [True] or [False] repeated for every row otherwise. *)
Theorem resolve_ids_returns_row_vector :
  forall data population_name (queries : value) (s : store) fuel,
    wf_table data -> (depth queries < fuel)%nat ->
    match fst (resolve_ids fuel data population_name
                 (fst (alloc queries s)) (snd (alloc queries s))) with
    | Ok v =>
        length v = len data /\
        exists m, valid_mask (len data) m /\ v = broadcast (len data) m /\
                  forall b, m = MBool b -> v = repeat b (len data)
    | Err e => e <> OutOfFuel
    end.
Proof.
  intros data pop queries s fuel Hwf Hfuel.
  destruct (alloc queries s) as [h s0] eqn:Ea. cbn [fst snd].
  destruct (deepcopy_alloc queries s h s0 fuel [] s0 Ea)
    as (h' & memo' & ext & Hcopy & Hrk & _);
    [lia | reflexivity | intros l y [] |].
  destruct (resolve_ids fuel data pop h s0) as [[v|e] s'] eqn:Hrun; cbn [fst].
  - exact (resolve_ids_Ok fuel data pop h s0 v s' Hwf Hrun).
  - assert (Hs1 : extends s0 (s0 ++ ext)).
    { destruct (safe_deepcopy s0 fuel h [] ltac:(constructor) s0 (extends_refl s0))
        as [Hs1 _]. now rewrite Hcopy in Hs1. }
    unfold resolve_ids in Hrun. rewrite (bindM_Ok _ _ _ _ _ Hcopy) in Hrun.
    cbn beta iota in Hrun.
    match type of Hrun with ?m _ = _ =>
      assert (H : errors_in not_fuel (fst (m (s0 ++ ext)))) end.
    { destruct fuel as [|f]; [lia|]. apply ei_bindM.
      - apply (traverse_fuel s0 data pop (S f) (length (s0 ++ ext)) Hwf f);
          [lia | exact Hs1 |].
        apply (ranked_mono _ _ _ (depth queries)); [lia | exact Hrk].
      - intros [] s1 _. apply ei_bindM.
        + apply oe_merge_queries_masks; auto with ei.
        + intros m s2 _. simpl. ei. }
    rewrite Hrun in H. exact (H e eq_refl).
Qed.

Lemma resolve_ids_returns_row_vector_witness :
  let q := VDict [("$or", VList [VDict [("layer", VScalar (SInt 2))];
                                 VDict [("mtype", VList [VScalar (SStr "a")])]]);
                  ("population", VScalar (SStr "default"))] in
  fst (resolve_ids 16 example_table "default" (fst (alloc q [])) (snd (alloc q [])))
  = Ok [true; true; true; false; false] /\
  length [true; true; true; false; false] = len example_table.
Proof.
  intros q.
  assert (Hout : fst (resolve_ids 16 example_table "default"
                        (fst (alloc q [])) (snd (alloc q [])))
                 = Ok [true; true; true; false; false])
    by (vm_compute; reflexivity).
  split; [exact Hout|].
  assert (Hwf : wf_table example_table).
  { split; [apply NoDup_by_compute; vm_compute; reflexivity | repeat constructor]. }
  assert (Hfuel : (depth q < 16)%nat) by (vm_compute; lia).
  generalize (resolve_ids_returns_row_vector example_table "default" q [] 16 Hwf Hfuel).
  rewrite Hout. intros [Hlen _]. exact Hlen.
Defined.

(** ** One key at a time *)

(** [_collect] hands [_properties_mask] a dictionary of one key, so in
    [resolve_ids] the keys of a node are matched one by one and their
    masks are merged afterwards.  A node naming another population, or
    holding an unknown key, still resolves to no row when its other keys
    are resolved without an exception, but an exception raised for
    another key is raised by [resolve_ids]; and [node_id] and [edge_id]
    in one node are both looked up, their masks being intersected. *)
Example resolve_ids_matches_each_key_alone :
  run_resolve_ids example_table "default"
    (VDict [("population", VScalar (SStr "other")); ("mtype", VScalar (SStr "a"))])
  = Ok [false; false; false; false; false] /\
  run_resolve_ids example_table "default"
    (VDict [("population", VScalar (SStr "other"));
            ("mtype", VDict [("$foo", VScalar (SInt 1))])])
  = Err (QueryError "Unknown query modifier: '$foo'") /\
  run_resolve_ids example_table "default"
    (VDict [("zz", VScalar (SInt 1)); ("mtype", VScalar (SStr "a"))])
  = Ok [false; false; false; false; false] /\
  run_resolve_ids example_table "default"
    (VDict [("zz", VScalar (SInt 1)); ("x", VScalar (SInt 5))])
  = Err (PyError "TypeError: cannot unpack non-iterable object") /\
  run_resolve_ids example_table "default"
    (VDict [("node_id", VList [VScalar (SInt 0); VScalar (SInt 2)]);
            ("edge_id", VList [VScalar (SInt 2); VScalar (SInt 5)])])
  = Ok [false; true; false; false; false].
Proof. repeat split; vm_compute; reflexivity. Qed.

(** ** The reducers, row by row *)

Lemma np_reduce_zip N op acc rest :
  length acc = N -> Forall (fun v => length v = N) rest ->
  np_reduce op acc rest = Ok (fold_left (zip_with op) rest acc).
Proof.
  intros Hacc Hrest. revert acc Hacc.
  induction Hrest as [|v rest Hv _ IH]; intros acc Hacc; cbn [np_reduce fold_left].
  - reflexivity.
  - unfold np_binop. rewrite Hacc, Hv, Nat.eqb_refl, bind_Ok.
    apply IH. rewrite length_zip_with. lia.
Qed.

Lemma fold_zip_nth N (op : bool -> bool -> bool) rest : forall acc (i : nat),
  length acc = N -> Forall (fun v => length v = N) rest -> (i < N)%nat ->
  nth i (fold_left (zip_with op) rest acc) false
  = fold_left op (map (fun v => nth i v false) rest) (nth i acc false).
Proof.
  induction rest as [|v rest IH]; intros acc i Hacc Hrest Hi; cbn [fold_left map].
  - reflexivity.
  - apply Forall_cons in Hrest as [Hv Hrest].
    rewrite IH by (rewrite ?length_zip_with; auto; lia). f_equal.
    rewrite !nth_lookup, lookup_zip_with.
    destruct (lookup_lt_is_Some_2 acc i ltac:(lia)) as [x ->].
    destruct (lookup_lt_is_Some_2 v i ltac:(lia)) as [y ->]. reflexivity.
Qed.

Lemma fold_andb l : forall a, fold_left andb l a = a && forallb id l.
Proof.
  induction l as [|b l IH]; intros a; simpl; [now rewrite andb_true_r|].
  now rewrite IH, andb_assoc.
Qed.

Lemma fold_orb l : forall a, fold_left orb l a = a || existsb id l.
Proof.
  induction l as [|b l IH]; intros a; simpl; [now rewrite orb_false_r|].
  now rewrite IH, orb_assoc.
Qed.

Lemma and_scan_spec masks : forall filtered,
  match and_scan masks filtered with
  | None => In (MBool false) masks
  | Some res => ~ In (MBool false) masks /\ res = filtered ++ mask_arrays masks
  end.
Proof.
  induction masks as [|[[|]|v] masks IH]; intros filtered; cbn [and_scan].
  - split; [tauto | now rewrite app_nil_r].
  - specialize (IH filtered). destruct (and_scan masks filtered); simpl; [|tauto].
    destruct IH as [Hn ->]. split; [|reflexivity]. intros [[=]|H]. tauto.
  - now left.
  - specialize (IH (filtered ++ [v])). destruct (and_scan masks _); simpl; [|tauto].
    destruct IH as [Hn ->]. split; [|now rewrite <- app_assoc]. intros [[=]|H]. tauto.
Qed.

Lemma or_scan_spec masks : forall filtered,
  match or_scan masks filtered with
  | None => In (MBool true) masks
  | Some res => ~ In (MBool true) masks /\ res = filtered ++ mask_arrays masks
  end.
Proof.
  induction masks as [|[[|]|v] masks IH]; intros filtered; cbn [or_scan].
  - split; [tauto | now rewrite app_nil_r].
  - now left.
  - specialize (IH filtered). destruct (or_scan masks filtered); simpl; [|tauto].
    destruct IH as [Hn ->]. split; [|reflexivity]. intros [[=]|H]. tauto.
  - specialize (IH (filtered ++ [v])). destruct (or_scan masks _); simpl; [|tauto].
    destruct IH as [Hn ->]. split; [|now rewrite <- app_assoc]. intros [[=]|H]. tauto.
Qed.

Lemma mask_row_bool N b (i : nat) : (i < N)%nat -> mask_row N (MBool b) i = b.
Proof.
  intros Hi. unfold mask_row. simpl. revert i Hi.
  induction N as [|N IH]; intros [|i] Hi; simpl; try lia; [reflexivity|].
  apply IH. lia.
Qed.

Lemma mask_arrays_valid N masks :
  Forall (valid_mask N) masks -> Forall (fun v => length v = N) (mask_arrays masks).
Proof.
  induction 1 as [|[b|v] masks Hm _ IH]; simpl; [constructor | exact IH|].
  constructor; [exact Hm | exact IH].
Qed.

Lemma forallb_rows N masks (i : nat) :
  (i < N)%nat -> ~ In (MBool false) masks ->
  forallb (fun m => mask_row N m i) masks
  = forallb id (map (fun v => nth i v false) (mask_arrays masks)).
Proof.
  intros Hi. induction masks as [|[[|]|v] masks IH]; intros Hn; simpl.
  - reflexivity.
  - rewrite mask_row_bool by exact Hi. apply IH. intros H. apply Hn. now right.
  - destruct Hn. now left.
  - f_equal. apply IH. intros H. apply Hn. now right.
Qed.

Lemma existsb_rows N masks (i : nat) :
  (i < N)%nat -> ~ In (MBool true) masks ->
  existsb (fun m => mask_row N m i) masks
  = existsb id (map (fun v => nth i v false) (mask_arrays masks)).
Proof.
  intros Hi. induction masks as [|[[|]|v] masks IH]; intros Hn; simpl.
  - reflexivity.
  - destruct Hn. now left.
  - rewrite mask_row_bool by exact Hi. apply IH. intros H. apply Hn. now right.
  - f_equal. apply IH. intros H. apply Hn. now right.
Qed.

Lemma logical_and_spec :
  forall N masks,
    Forall (valid_mask N) masks ->
    exists m, _logical_and masks = Ok m /\ valid_mask N m /\
      forall i : nat, (i < N)%nat ->
        mask_row N m i = forallb (fun m' => mask_row N m' i) masks.
Proof.
  intros N masks Hv. unfold _logical_and.
  assert (Hs := and_scan_spec masks []). assert (Ha := mask_arrays_valid N masks Hv).
  destruct (and_scan masks []) as [res|].
  - destruct Hs as [Hn ->]. simpl in *.
    destruct (mask_arrays masks) as [|v vs] eqn:E.
    + exists (MBool true). repeat split. intros i Hi.
      rewrite (forallb_rows N masks i Hi Hn), E. now apply mask_row_bool.
    + apply Forall_cons in Ha as [Hv0 Hvs].
      rewrite (np_reduce_zip N andb v vs Hv0 Hvs), bind_Ok.
      exists (MVec (fold_left (zip_with andb) vs v)). split; [reflexivity|]. split.
      * simpl. clear E. revert v Hv0.
        induction Hvs as [|w vs Hw _ IH]; intros v Hv0; simpl; [exact Hv0|].
        apply IH. rewrite length_zip_with. lia.
      * intros i Hi. rewrite (forallb_rows N masks i Hi Hn), E.
        unfold mask_row. cbn [broadcast map forallb].
        rewrite (fold_zip_nth N andb vs v i Hv0 Hvs Hi). apply fold_andb.
  - exists (MBool false). repeat split. intros i Hi.
    rewrite mask_row_bool by exact Hi. symmetry.
    destruct (forallb _ masks) eqn:E; [|reflexivity].
    rewrite forallb_forall in E. specialize (E _ Hs).
    now rewrite mask_row_bool in E by exact Hi.
Qed.

Lemma logical_or_spec :
  forall N masks,
    Forall (valid_mask N) masks ->
    exists m, _logical_or masks = Ok m /\ valid_mask N m /\
      forall i : nat, (i < N)%nat ->
        mask_row N m i = existsb (fun m' => mask_row N m' i) masks.
Proof.
  intros N masks Hv. unfold _logical_or.
  assert (Hs := or_scan_spec masks []). assert (Ha := mask_arrays_valid N masks Hv).
  destruct (or_scan masks []) as [res|].
  - destruct Hs as [Hn ->]. simpl in *.
    destruct (mask_arrays masks) as [|v vs] eqn:E.
    + exists (MBool false). repeat split. intros i Hi.
      rewrite (existsb_rows N masks i Hi Hn), E. now apply mask_row_bool.
    + apply Forall_cons in Ha as [Hv0 Hvs].
      rewrite (np_reduce_zip N orb v vs Hv0 Hvs), bind_Ok.
      exists (MVec (fold_left (zip_with orb) vs v)). split; [reflexivity|]. split.
      * simpl. clear E. revert v Hv0.
        induction Hvs as [|w vs Hw _ IH]; intros v Hv0; simpl; [exact Hv0|].
        apply IH. rewrite length_zip_with. lia.
      * intros i Hi. rewrite (existsb_rows N masks i Hi Hn), E.
        unfold mask_row. cbn [broadcast map existsb].
        rewrite (fold_zip_nth N orb vs v i Hv0 Hvs Hi). apply fold_orb.
  - exists (MBool true). repeat split. intros i Hi.
    rewrite mask_row_bool by exact Hi. symmetry.
    apply existsb_exists. exists (MBool true). split; [exact Hs|].
    now apply mask_row_bool.
Qed.

(** X1: on masks that are scalars or arrays of [N] rows, [_logical_and]
    raises nothing; its result is such a mask, and row by row it is the
    conjunction of the masks (a scalar standing for all rows, the empty
    conjunction being [True]). *)
Theorem logical_and_rows :
  forall N masks,
    Forall (valid_mask N) masks ->
    exists m, _logical_and masks = Ok m /\ valid_mask N m /\
      forall i : nat, (i < N)%nat ->
        mask_row N m i = forallb (fun m' => mask_row N m' i) masks.
Proof.
  intros N masks Hv.
  destruct (logical_and_spec N masks Hv) as (m & Hm & Hval & Hrows).
  exists m. split; [exact Hm|]. split; [exact Hval|].
  intros i Hi. now apply Hrows.
Qed.

Lemma logical_and_rows_witness :
  exists m, _logical_and [MBool true; MVec [true; false; true]; MVec [true; true; false]]
            = Ok m /\ valid_mask 3 m /\
    forall i : nat, (i < 3)%nat ->
      mask_row 3 m i
      = forallb (fun m' => mask_row 3 m' i)
          [MBool true; MVec [true; false; true]; MVec [true; true; false]].
Proof. apply (logical_and_rows 3). repeat constructor. Defined.

(** X2: on masks that are scalars or arrays of [N] rows, [_logical_or]
    raises nothing; its result is such a mask, and row by row it is the
    disjunction of the masks (the empty disjunction being [False]). *)
Theorem logical_or_rows :
  forall N masks,
    Forall (valid_mask N) masks ->
    exists m, _logical_or masks = Ok m /\ valid_mask N m /\
      forall i : nat, (i < N)%nat ->
        mask_row N m i = existsb (fun m' => mask_row N m' i) masks.
Proof.
  intros N masks Hv.
  destruct (logical_or_spec N masks Hv) as (m & Hm & Hval & Hrows).
  exists m. split; [exact Hm|]. split; [exact Hval|].
  intros i Hi. now apply Hrows.
Qed.

Lemma logical_or_rows_witness :
  exists m, _logical_or [MBool false; MVec [true; false; false]; MVec [false; false; true]]
            = Ok m /\ valid_mask 3 m /\
    forall i : nat, (i < 3)%nat ->
      mask_row 3 m i
      = existsb (fun m' => mask_row 3 m' i)
          [MBool false; MVec [true; false; false]; MVec [false; false; true]].
Proof. apply (logical_or_rows 3). repeat constructor. Defined.

(** X3: a scalar [False] among the masks makes [_logical_and] return
    [False], and a scalar [True] makes [_logical_or] return [True],
    whatever the other masks are: the arrays are not combined, so arrays
    of different lengths raise nothing here. *)
Theorem logical_and_or_absorbing :
  forall masks,
    (In (MBool false) masks -> _logical_and masks = Ok (MBool false)) /\
    (In (MBool true) masks -> _logical_or masks = Ok (MBool true)).
Proof.
  intros masks. split; intros Hin.
  - unfold _logical_and. assert (Hs := and_scan_spec masks []).
    destruct (and_scan masks []); [now destruct Hs | reflexivity].
  - unfold _logical_or. assert (Hs := or_scan_spec masks []).
    destruct (or_scan masks []); [now destruct Hs | reflexivity].
Qed.

(** ** The property matcher on one node *)

Lemma circuit_mask_no_control_key data population_name queries :
  dict_get POPULATION_KEY queries = None ->
  dict_get EDGE_ID_KEY queries = None ->
  dict_get NODE_ID_KEY queries = None ->
  _circuit_mask data population_name queries = Ok (queries, MBool true).
Proof.
  intros Hp He Hn. unfold _circuit_mask, dict_pop. rewrite Hp. cbn [is_None].
  rewrite bind_Ok, He, Hn. reflexivity.
Qed.

Lemma dict_get_single_ne {V} k P (v : V) : k <> P -> dict_get k [(P, v)] = None.
Proof. intros H. simpl. now destruct (String.eqb_spec k P). Qed.

Lemma properties_mask_one_key data population_name P V :
  mem P [POPULATION_KEY; NODE_ID_KEY; EDGE_ID_KEY] = false ->
  mem P (map fst (df_columns data)) || mem P ALL_KEYS = true ->
  _properties_mask data population_name [(P, V)]
  = (pm ← key_mask data (P, V); _logical_and [MBool true; pm]).
Proof.
  intros Hres Hknown. apply mem_false in Hres. simpl in Hres.
  unfold _properties_mask. cbn [map fst List.filter].
  rewrite <- negb_orb, Hknown. cbn [negb is_nil].
  rewrite circuit_mask_no_control_key by (apply dict_get_single_ne; tauto).
  rewrite bind_Ok. cbn [selects_nothing negb _properties_mask_loop].
  unfold key_mask. cbn [fst snd].
  destruct (get_column data P) as [c|e]; [|reflexivity]. rewrite !bind_Ok.
  destruct (prop_mask c V) as [pm|e]; [|reflexivity]. rewrite !bind_Ok.
  destruct (_logical_and [MBool true; pm]); reflexivity.
Qed.

Lemma key_mask_column data P c V :
  dict_get P (df_columns data) = Some c -> key_mask data (P, V) = prop_mask c V.
Proof. intros H. unfold key_mask, get_column. cbn [fst snd]. now rewrite H. Qed.

Lemma known_column data P c :
  dict_get P (df_columns data) = Some c ->
  mem P (map fst (df_columns data)) || mem P ALL_KEYS = true.
Proof.
  intros H. apply orb_true_iff. left. apply mem_In, dict_get_In. eauto.
Qed.

Lemma mapM_scalar_list (f : value -> result scalar) l :
  (forall a, f (VScalar a) = Ok a) -> mapM f (map VScalar l) = Ok l.
Proof.
  intros Hf. induction l as [|a l IH]; cbn [map mapM]; [reflexivity|].
  now rewrite Hf, bind_Ok, IH, bind_Ok.
Qed.

(** X4: for a column that is not floating-point and a property name
    that is not [population], [node_id] or [edge_id], the mask of
    [{P: [v1, ..., vn]}] marks the rows whose cell equals one of the
    listed scalars; the empty list marks no row. *)
Theorem properties_mask_list_membership :
  forall data population_name P c vs,
    dict_get P (df_columns data) = Some c ->
    is_floating c = false ->
    mem P [POPULATION_KEY; NODE_ID_KEY; EDGE_ID_KEY] = false ->
    _properties_mask data population_name [(P, VList (map VScalar vs))]
    = Ok (MVec (col_isin c vs)) /\
    (vs = [] -> col_isin c vs = repeat false (col_len c)).
Proof.
  intros data pop P c vs Hc Hfl Hres. split.
  - rewrite properties_mask_one_key by eauto using known_column.
    rewrite (key_mask_column data P c) by exact Hc.
    destruct c; try discriminate; cbn [prop_mask];
      rewrite mapM_scalar_list, !bind_Ok by reflexivity; reflexivity.
  - intros ->. clear Hc Hfl.
    destruct c as [l|l|l|l]; cbn [col_isin col_len existsb];
      induction l as [|x l IH]; cbn [map length repeat existsb];
      [reflexivity | f_equal; exact IH ..].
Qed.

Lemma properties_mask_list_membership_witness :
  _properties_mask example_table "default"
    [("mtype", VList (map VScalar [SStr "a"; SStr "b"]))]
  = Ok (MVec [false; true; true; false; false]).
Proof.
  apply (properties_mask_list_membership example_table "default" "mtype"
           (ColStr ["ab"; "a"; "b"; "abc"; "xab"]) [SStr "a"; SStr "b"]);
    reflexivity.
Defined.

(** X5: on a floating-point column the value is unpacked as a pair of
    bounds, and the mask of [{P: (v1, v2)}] marks the rows with
    [v1 <= cell <= v2], both bounds included; the pair may be a tuple
    or a list. *)
Theorem properties_mask_float_range :
  forall data population_name P cells a b f1 f2 V,
    dict_get P (df_columns data) = Some (ColFloat cells) ->
    mem P [POPULATION_KEY; NODE_ID_KEY; EDGE_ID_KEY] = false ->
    as_float a = Some f1 -> as_float b = Some f2 ->
    V = VTuple [a; b] \/ V = VList [VScalar a; VScalar b] ->
    _properties_mask data population_name [(P, V)]
    = Ok (MVec (map (fun x => PrimFloat.leb f1 x && PrimFloat.leb x f2) cells)).
Proof.
  intros data pop P cells a b f1 f2 V Hc Hres Ha Hb HV.
  rewrite properties_mask_one_key by eauto using known_column.
  rewrite (key_mask_column data P _ V Hc).
  destruct HV as [-> | ->]; cbn [prop_mask unpack2 ensure_list map];
    rewrite !bind_Ok; cbn [range_bound]; rewrite Ha, Hb, !bind_Ok; reflexivity.
Qed.

Lemma properties_mask_float_range_witness :
  _properties_mask example_table "default" [("x", VTuple [SInt 2; SFloat 5%float])]
  = Ok (MVec [false; true; true; false; true]).
Proof.
  apply (properties_mask_float_range example_table "default" "x"
           [1.5%float; 2%float; 5%float; 5.5%float; 2.5%float]
           (SInt 2) (SFloat 5%float) 2%float 5%float); auto.
Defined.

(** X6: an empty mapping as the value of a known column that is not
    floating-point restricts nothing: the loop of [_complex_query] does
    not run and the node resolves to [True]. *)
Theorem properties_mask_empty_mapping :
  forall data population_name P c,
    dict_get P (df_columns data) = Some c ->
    is_floating c = false ->
    mem P [POPULATION_KEY; NODE_ID_KEY; EDGE_ID_KEY] = false ->
    _properties_mask data population_name [(P, VDict [])] = Ok (MBool true).
Proof.
  intros data pop P c Hc Hfl Hres.
  rewrite properties_mask_one_key by eauto using known_column.
  rewrite (key_mask_column data P c) by exact Hc.
  destruct c; try discriminate; reflexivity.
Qed.

Lemma properties_mask_empty_mapping_witness :
  _properties_mask example_table "default" [("layer", VDict [])] = Ok (MBool true).
Proof.
  apply (properties_mask_empty_mapping example_table "default" "layer"
           (ColInt [2; 6; 2; 5; 6])); reflexivity.
Defined.

(** X7: a reserved key that neither [_circuit_mask] nor the traversal
    consumes ([$node_set], [$regex], [$or], [$and]) is looked up as a
    column, so it raises [KeyError] unless the table has a column of
    that name. *)
Theorem properties_mask_reserved_key_error :
  forall data population_name key V,
    In key [NODE_SET_KEY; REGEX_KEY; OR_KEY; AND_KEY] ->
    dict_get key (df_columns data) = None ->
    _properties_mask data population_name [(key, V)] = Err (PyError "KeyError").
Proof.
  intros data pop key V Hkey Hcol.
  rewrite properties_mask_one_key.
  - unfold key_mask, get_column. cbn [fst]. now rewrite Hcol.
  - simpl in Hkey. destruct Hkey as [<-|[<-|[<-|[<-|[]]]]]; reflexivity.
  - apply orb_true_iff. right.
    simpl in Hkey. destruct Hkey as [<-|[<-|[<-|[<-|[]]]]]; reflexivity.
Qed.

Lemma properties_mask_reserved_key_error_witness :
  _properties_mask example_table "default" [("$node_set", VScalar (SStr "Layer2"))]
  = Err (PyError "KeyError").
Proof.
  apply (properties_mask_reserved_key_error example_table "default" "$node_set");
    [simpl; tauto | reflexivity].
Defined.

Lemma properties_mask_loop_rows data :
  wf_table data ->
  forall queries acc pms,
    valid_mask (len data) acc ->
    mapM (key_mask data) queries = Ok pms ->
    exists m, _properties_mask_loop data queries acc = Ok m /\
      valid_mask (len data) m /\
      forall i : nat, (i < len data)%nat ->
        mask_row (len data) m i
        = mask_row (len data) acc i && forallb (fun m' => mask_row (len data) m' i) pms.
Proof.
  intros Hwf. induction queries as [|[k v] queries IH]; intros acc pms Hacc;
    cbn [mapM _properties_mask_loop].
  - intros [= <-]. exists acc. split; [reflexivity|]. split; [exact Hacc|].
    intros i _. simpl. now rewrite andb_true_r.
  - intros H. apply bind_Ok_inv in H as (pm & Hpm & H).
    apply bind_Ok_inv in H as (pms' & Hpms & [= <-]).
    unfold key_mask in Hpm. cbn [fst snd] in Hpm.
    apply bind_Ok_inv in Hpm as (c & Hc & Hpm). rewrite Hc, bind_Ok, Hpm, bind_Ok.
    assert (Hv : valid_mask (len data) pm).
    { apply (prop_mask_valid (len data) c v); [|exact Hpm].
      now apply (get_column_length data k). }
    destruct (logical_and_spec (len data) [acc; pm]) as (acc' & Hand & Hacc' & Hrows);
      [repeat constructor; assumption|].
    rewrite Hand, bind_Ok.
    destruct (IH acc' pms' Hacc' Hpms) as (m & Hm & Hval & Hm_rows).
    exists m. split; [exact Hm|]. split; [exact Hval|].
    intros i Hi. rewrite (Hm_rows i Hi), (Hrows i Hi). simpl.
    now rewrite andb_true_r, andb_assoc.
Qed.

Lemma selects_nothing_rows N m (i : nat) :
  selects_nothing m = true -> mask_row N m i = false.
Proof.
  destruct m as [b|v]; simpl.
  - intros ->%negb_true_iff. unfold mask_row. simpl. revert i.
    induction N as [|N IH]; intros [|i]; simpl; auto.
  - intros H%negb_true_iff. unfold mask_row. simpl. revert i.
    induction v as [|b v IH]; intros [|i]; simpl; auto.
    + simpl in H. now apply orb_false_iff in H as [-> _].
    + apply IH. simpl in H. now apply orb_false_iff in H as [_ ->].
Qed.

Lemma circuit_mask_positional data population_name queries queries' pm :
  _circuit_mask data population_name queries = Ok (queries', pm) ->
  exists ids, _positional_mask data ids = Ok pm.
Proof.
  unfold _circuit_mask.
  destruct (dict_pop POPULATION_KEY _ queries) as [populations q1].
  intros H. apply bind_Ok_inv in H as (mismatch & _ & H).
  destruct (if mismatch then _ else _) as [ids q2].
  apply bind_Ok_inv in H as (m & Hm & [= _ <-]). eauto.
Qed.

(** X8: [_properties_mask], on a node whose keys are all columns or
    reserved keys, is [_circuit_mask] followed by the conjunction of the
    masks of the remaining entries: when each entry has a mask, a row is
    selected exactly when the population and ID filter selects it and
    every entry's mask does. *)
Theorem properties_mask_is_conjunction :
  forall data population_name queries queries' pm pms,
    wf_table data ->
    Forall (fun k => mem k (map fst (df_columns data)) || mem k ALL_KEYS = true)
           (map fst queries) ->
    _circuit_mask data population_name queries = Ok (queries', pm) ->
    mapM (key_mask data) queries' = Ok pms ->
    exists m, _properties_mask data population_name queries = Ok m /\
      valid_mask (len data) m /\
      forall i : nat, (i < len data)%nat ->
        mask_row (len data) m i
        = mask_row (len data) pm i && forallb (fun m' => mask_row (len data) m' i) pms.
Proof.
  intros data pop queries queries' pm pms Hwf Hkeys Hcirc Hpms.
  unfold _properties_mask.
  assert (Hnil : is_nil (List.filter
            (fun k => negb (mem k (map fst (df_columns data))) && negb (mem k ALL_KEYS))
            (map fst queries)) = true).
  { apply filter_nil_iff. intros k Hk. rewrite Forall_forall in Hkeys.
    rewrite <- negb_orb, (Hkeys k); [reflexivity | now apply list_elem_of_In]. }
  rewrite Hnil. cbn [negb]. rewrite Hcirc, bind_Ok.
  destruct (circuit_mask_positional _ _ _ _ _ Hcirc) as (ids & Hids).
  assert (Hpm : valid_mask (len data) pm)
    by exact (positional_mask_valid (len data) data ids pm eq_refl Hids).
  destruct (selects_nothing pm) eqn:Esel.
  - exists (MBool false). repeat split. intros i Hi.
    rewrite (selects_nothing_rows _ pm i Esel). now apply mask_row_bool.
  - exact (properties_mask_loop_rows data Hwf queries' pm pms Hpm Hpms).
Qed.

Lemma properties_mask_is_conjunction_witness :
  let queries := [("node_id", VIds [0; 2; 5]); ("layer", VScalar (SInt 2));
                  ("mtype", VList [VScalar (SStr "ab"); VScalar (SStr "b")])] in
  exists m, _properties_mask example_table "default" queries = Ok m /\
    valid_mask 5 m /\
    forall i : nat, (i < 5)%nat ->
      mask_row 5 m i
      = mask_row 5 (MVec [true; true; true; false; false]) i &&
        forallb (fun m' => mask_row 5 m' i)
          [MVec [true; false; true; false; false];
           MVec [true; false; true; false; false]].
Proof.
  intros queries.
  apply (properties_mask_is_conjunction example_table "default" queries
           [("layer", VScalar (SInt 2));
            ("mtype", VList [VScalar (SStr "ab"); VScalar (SStr "b")])]).
  - split; [apply NoDup_by_compute; vm_compute; reflexivity | repeat constructor].
  - repeat constructor.
  - vm_compute. reflexivity.
  - vm_compute. reflexivity.
Defined.

Lemma get_loc_absent index id : ~ In id index -> get_loc index id = -1.
Proof.
  induction index as [|x rest IH]; simpl; [reflexivity|]. intros H.
  destruct (Z.eqb_spec x id) as [->|_]; [tauto|].
  rewrite IH by tauto. reflexivity.
Qed.

Lemma circuit_mask_node_id data population_name queries v :
  population_ok population_name queries ->
  dict_get NODE_ID_KEY queries = Some v ->
  exists queries',
    _circuit_mask data population_name queries
    = (m ← _positional_mask data v; Ok (queries', m)).
Proof.
  intros Hpop Hn. destruct key_names_distinct as (Hne & Hnp & Hep).
  unfold _circuit_mask, dict_pop. unfold population_ok in Hpop.
  destruct (dict_get POPULATION_KEY queries) as [p|] eqn:Ep.
  - assert (Hmis : (if is_None p then Ok false
                    else b ← name_in_set population_name (ensure_list p); Ok (negb b))
                   = Ok false).
    { destruct Hpop as [-> | Hin]; [reflexivity|].
      destruct (is_None p); [reflexivity|]. now rewrite Hin. }
    rewrite Hmis, bind_Ok.
    destruct (dict_get EDGE_ID_KEY (dict_del POPULATION_KEY queries)) as [e|].
    + rewrite !dict_get_del_ne, Hn by congruence. eauto.
    + rewrite !dict_get_del_ne, Hn by congruence. eauto.
  - cbn [is_None]. rewrite bind_Ok.
    destruct (dict_get EDGE_ID_KEY queries) as [e|].
    + rewrite !dict_get_del_ne, Hn by congruence. eauto.
    + rewrite Hn. eauto.
Qed.

(** X9: when none of the IDs requested under [node_id] is an ID of the
    table, the node resolves to [False] and its other entries are not
    evaluated, so nothing they contain can raise. *)
Theorem properties_mask_absent_ids :
  forall data population_name queries (ids : list Z) v,
    NoDup (df_index data) ->
    population_ok population_name queries ->
    dict_get NODE_ID_KEY queries = Some v ->
    v = VList (map (fun z => VScalar (SInt z)) ids) \/ v = VIds ids ->
    Forall (fun z => ~ In z (df_index data)) ids ->
    _properties_mask data population_name queries = Ok (MBool false).
Proof.
  intros data pop queries ids v Hnd Hpop Hn Hv Habs.
  unfold _properties_mask. destruct (negb (is_nil _)); [reflexivity|].
  destruct (circuit_mask_node_id data pop queries v Hpop Hn) as (queries' & ->).
  rewrite (positional_mask_ints data ids v Hnd Hv), !bind_Ok.
  assert (Hnone : List.filter (fun i => -1 <? i) (map (get_loc (df_index data)) ids) = []).
  { clear Hv. induction Habs as [|z ids Hz _ IH]; simpl; [reflexivity|].
    rewrite (get_loc_absent _ _ Hz). exact IH. }
  rewrite Hnone. cbn [set_true fold_left selects_nothing].
  now rewrite existsb_id_repeat_false.
Qed.

Lemma properties_mask_absent_ids_witness :
  _properties_mask example_table "default"
    [("x", VScalar (SStr "not a range")); ("node_id", VIds [1; 3]);
     ("mtype", VDict [("$gt", VScalar (SInt 1))])]
  = Ok (MBool false).
Proof.
  apply (properties_mask_absent_ids example_table "default" _ [1; 3] (VIds [1; 3])).
  - apply NoDup_by_compute. vm_compute. reflexivity.
  - exact I.
  - reflexivity.
  - now right.
  - repeat constructor; simpl; lia.
Defined.

(** ** What the traversal itself does to the store *)

Lemma getitem_readonly q key s : snd (getitem q key s) = s.
Proof.
  unfold getitem, mbind, M_bind. assert (H := get_dict_readonly q s).
  destruct (get_dict q s) as [[d|e] s1]; simpl in H; subst s1; [|reflexivity].
  now destruct (dict_get key d).
Qed.

Lemma dict_keys_readonly q s : snd (dict_keys q s) = s.
Proof.
  unfold dict_keys, mbind, M_bind. assert (H := get_dict_readonly q s).
  destruct (get_dict q s) as [[d|e] s1]; simpl in H; subst s1; reflexivity.
Qed.

Lemma mapping_keys_readonly v s : snd (mapping_keys v s) = s.
Proof.
  unfold mapping_keys. destruct v as [| | | |l]; try reflexivity.
  now destruct (s !! l) as [[d|xs]|].
Qed.

Section TraverseInvariant.
Variable Inv : store -> Prop.

Lemma inv_bind {A B} (m : M A) (k : A -> M B) s :
  Inv (snd (m s)) -> (forall a s', Inv s' -> Inv (snd (k a s'))) ->
  Inv (snd ((m ≫= k) s)).
Proof.
  intros Hm Hk. unfold mbind, M_bind.
  destruct (m s) as [[a|e] s']; [now apply Hk | exact Hm].
Qed.

Lemma inv_forM_ {A} (f : A -> M unit) l :
  (forall a s, Inv s -> Inv (snd (f a s))) ->
  forall s, Inv s -> Inv (snd (forM_ f l s)).
Proof.
  intros Hf. induction l as [|a l IH]; intros s Hs; cbn [forM_]; [exact Hs|].
  apply inv_bind; [now apply Hf | intros _ s' Hs'; now apply IH].
Qed.

Lemma inv_iter_list (body : hval -> M unit) l fuel :
  (forall x s, Inv s -> Inv (snd (body x s))) ->
  forall i s, Inv s -> Inv (snd (iter_list fuel body l i s)).
Proof.
  intros Hbody. induction fuel as [|fuel IH]; intros i s Hs; cbn [iter_list];
    [exact Hs|].
  destruct (s !! l) as [[d|xs]|]; try exact Hs.
  destruct (xs !! i) as [x|]; [|exact Hs].
  apply inv_bind; [now apply Hbody | intros _ s' Hs'; now apply IH].
Qed.

Lemma inv_traverse_children recurse fuel q key :
  (forall x s, Inv s -> Inv (snd (recurse x s))) ->
  forall s, Inv s -> Inv (snd (traverse_children recurse fuel q key s)).
Proof.
  intros Hrec s Hs. unfold traverse_children.
  destruct (mem key [OR_KEY; AND_KEY]).
  - apply inv_bind; [now rewrite getitem_readonly|]. intros sub s1 Hs1.
    apply inv_bind; [exact Hs1|]. intros [l|] s2 Hs2.
    + now apply inv_iter_list.
    + apply inv_bind; [now rewrite iter_values_readonly|]. intros subs s3 Hs3.
      now apply inv_forM_.
  - apply inv_bind; [now rewrite getitem_readonly|]. intros v s1 Hs1.
    apply inv_bind; [now rewrite mapping_keys_readonly|]. intros [ks|] s2 Hs2;
      [|exact Hs2].
    destruct (has_value_key ks); [|now apply Hrec].
    destruct (negb (only_value_keys ks)); exact Hs2.
Qed.

Lemma inv_traverse (traverse_fn : hval -> string -> M unit) :
  (forall q key s, Inv s -> Inv (snd (traverse_fn q key s))) ->
  forall fuel q s, Inv s ->
    Inv (snd (traverse_queries_bottom_up fuel traverse_fn q s)).
Proof.
  intros Hfn. induction fuel as [|fuel IH]; intros q s Hs;
    cbn [traverse_queries_bottom_up]; [exact Hs|].
  apply inv_bind; [now rewrite dict_keys_readonly|]. intros keys s1 Hs1.
  apply inv_forM_; [|exact Hs1]. intros key s2 Hs2.
  apply inv_bind; [|intros _ s3 Hs3; now apply Hfn].
  apply inv_traverse_children; [|exact Hs2]. intros x s3 Hs3. now apply IH.
Qed.
End TraverseInvariant.

(** X10: [traverse_queries_bottom_up] changes objects only through
    [traverse_fn]: a condition on the store that every call of
    [traverse_fn] keeps holds when the traversal ends, whether it
    returns or raises. *)
Theorem traverse_keeps_invariant :
  forall (Inv : store -> Prop) (traverse_fn : hval -> string -> M unit),
    (forall q key s, Inv s -> Inv (snd (traverse_fn q key s))) ->
    forall fuel queries s, Inv s ->
      Inv (snd (traverse_queries_bottom_up fuel traverse_fn queries s)).
Proof.
  intros Inv traverse_fn Hfn fuel queries s Hs.
  now apply inv_traverse.
Qed.

Lemma traverse_keeps_invariant_witness :
  let q := VDict [("$or", VList [VDict [("layer", VScalar (SInt 2))];
                                 VDict [("mtype", VDict [("$regex", VScalar (SStr "a"))])]])] in
  snd (traverse_queries_bottom_up 8 (fun _ _ => mret tt)
         (fst (alloc q [])) (snd (alloc q [])))
  = snd (alloc q []).
Proof.
  intros q.
  apply (traverse_keeps_invariant (fun s => s = snd (alloc q []))
           (fun _ _ => mret tt)); [|reflexivity].
  intros _ _ s Hs. exact Hs.
Defined.

(** ** [get_properties] *)

Lemma set_elements_app xs ys : set_elements (xs ++ ys) = set_elements xs ++ set_elements ys.
Proof. unfold set_elements. apply omap_app. Qed.

Lemma collect_property_ok s0 q key s :
  props_ok s0 s -> props_ok s0 (snd (_collect_property (HRef (length s0)) q key s)).
Proof.
  intros Hs. unfold _collect_property.
  destruct (mem key ALL_KEYS) eqn:Ek; cbn [negb]; [exact Hs|].
  destruct Hs as (Hpre & xs & Hxs & Hstr & Hnd & Hres).
  unfold set_add, mbind, M_bind. cbn [iter_values]. rewrite Hxs.
  destruct (mem key (set_elements xs)) eqn:Em.
  - simpl. split; [exact Hpre|]. exists xs. auto.
  - unfold list_append. rewrite Hxs. cbn [snd]. split.
    + now apply prefix_insert.
    + exists (xs ++ [HScalar (SStr key)]). split; [|split; [|split]].
      * apply list_lookup_insert_eq. now apply lookup_lt_Some in Hxs.
      * apply Forall_app. split; [exact Hstr|]. constructor; eauto.
      * rewrite set_elements_app. simpl. apply NoDup_app. split; [exact Hnd|].
        split; [|apply NoDup_singleton].
        intros k Hk ->%list_elem_of_singleton.
        apply mem_false in Em. apply Em. now apply list_elem_of_In.
      * rewrite set_elements_app. apply Forall_app. split; [exact Hres|].
        simpl. constructor; [exact Ek | constructor].
Qed.

Lemma get_properties_ok fuel queries s0 :
  props_ok s0 (snd (get_properties fuel queries s0)) /\
  forall props, fst (get_properties fuel queries s0) = Ok props ->
    NoDup props /\ Forall (fun k => mem k ALL_KEYS = false) props.
Proof.
  unfold get_properties.
  rewrite (bindM_Ok _ _ s0 (length s0) (s0 ++ [OList []])) by reflexivity.
  assert (H0 : props_ok s0 (s0 ++ [OList []])).
  { split; [now apply prefix_app_r|]. exists []. split; [now apply list_lookup_middle|].
    repeat split; constructor. }
  assert (H1 := inv_traverse (props_ok s0) (_collect_property (HRef (length s0)))
                  (collect_property_ok s0) fuel queries _ H0).
  unfold mbind, M_bind, mret, M_ret. cbn [iter_values].
  destruct (traverse_queries_bottom_up fuel _ queries (s0 ++ [OList []]))
    as [[[]|e] s1]; cbn [snd] in H1; cbn [fst snd].
  - destruct H1 as (Hpre & xs & Hxs & Hstr & Hnd & Hres).
    rewrite Hxs. cbn [fst snd]. split.
    + split; [exact Hpre|]. exists xs. auto.
    + intros props [= <-]. auto.
  - split; [exact H1 | discriminate].
Qed.

(** X11: the names returned by [get_properties] contain none of the
    reserved keys ([node_id], [edge_id], [population], [$or], [$and],
    [$node_set], [$regex]); each name is held once. *)
Theorem get_properties_no_reserved_key :
  forall fuel queries s props,
    fst (get_properties fuel queries s) = Ok props ->
    NoDup props /\ forall k, In k props -> ~ In k ALL_KEYS.
Proof.
  intros fuel queries s props Hrun.
  destruct (get_properties_ok fuel queries s) as [_ H].
  destruct (H props Hrun) as [Hnd Hres]. split; [exact Hnd|].
  intros k Hk. apply mem_false. rewrite Forall_forall in Hres.
  apply Hres. now apply list_elem_of_In.
Qed.

Lemma get_properties_no_reserved_key_witness :
  let q := VDict [("$or", VList [VDict [("layer", VScalar (SInt 2))];
                                 VDict [("mtype", VDict [("$regex", VScalar (SStr "a"))]);
                                        ("layer", VScalar (SInt 3))]]);
                  ("node_id", VIds [1; 2]);
                  ("region", VScalar (SStr "CA1"))] in
  fst (get_properties 8 (fst (alloc q [])) (snd (alloc q [])))
  = Ok ["layer"; "mtype"; "region"] /\
  (NoDup ["layer"; "mtype"; "region"] /\
   forall k, In k ["layer"; "mtype"; "region"] -> ~ In k ALL_KEYS).
Proof.
  intros q.
  assert (Hrun : fst (get_properties 8 (fst (alloc q [])) (snd (alloc q [])))
                 = Ok ["layer"; "mtype"; "region"]) by (vm_compute; reflexivity).
  split; [exact Hrun|].
  exact (get_properties_no_reserved_key 8 _ _ _ Hrun).
Defined.

(** X12: [get_properties] only reads the query: every object that
    existed before the call is the same after it, whether the call
    returns or raises. *)
Theorem get_properties_reads_only :
  forall fuel queries (s : store) (l : nat) o,
    s !! l = Some o ->
    snd (get_properties fuel queries s) !! l = Some o.
Proof.
  intros fuel queries s l o Hl.
  destruct (get_properties_ok fuel queries s) as [[Hpre _] _].
  rewrite (prefix_lookup _ _ l Hpre); [exact Hl | now apply lookup_lt_Some in Hl].
Qed.

Lemma get_properties_reads_only_witness :
  let q := VDict [("layer", VScalar (SInt 2)); ("mtype", VList [VScalar (SStr "a")])] in
  snd (get_properties 8 (fst (alloc q [])) (snd (alloc q []))) !! 1%nat
  = Some (ODict [("layer", HScalar (SInt 2)); ("mtype", HRef 0)]).
Proof.
  intros q. apply (get_properties_reads_only 8 (fst (alloc q [])) (snd (alloc q []))).
  reflexivity.
Defined.

(** ** The names [get_properties] returns *)

Lemma mapM_Forall2 {A B} (f : A -> result B) l : forall l',
  mapM f l = Ok l' -> Forall2 (fun a b => f a = Ok b) l l'.
Proof.
  induction l as [|a l IH]; intros l'; cbn [mapM].
  - intros [= <-]. constructor.
  - intros H. apply bind_Ok_inv in H as (b & Hb & H).
    apply bind_Ok_inv in H as (bs & Hbs & [= <-]). constructor; auto.
Qed.

Lemma reify_dict_inv n s h d :
  reify n s h = Ok (VDict d) ->
  exists n' (l : nat) hd,
    n = S n' /\ h = HRef l /\ s !! l = Some (ODict hd) /\
    Forall2 (fun kh kv => fst kh = fst kv /\ reify n' s (snd kh) = Ok (snd kv)) hd d.
Proof.
  destruct h as [| | | |l]; destruct n as [|n']; try discriminate. cbn [reify].
  destruct (s !! l) as [[hd|xs]|] eqn:E; try discriminate.
  - intros H. apply bind_Ok_inv in H as (d' & Hd & [= <-]).
    exists n', l, hd. repeat split; auto.
    apply mapM_Forall2 in Hd. eapply Forall2_impl; [exact Hd|].
    intros [k h] [k' v] H. cbn [fst snd] in *.
    apply bind_Ok_inv in H as (v0 & Hv & [= <- <-]). auto.
  - intros H. apply bind_Ok_inv in H as (d' & Hd & [=]).
Qed.

Lemma reify_list_inv n s h subs :
  reify n s h = Ok (VList subs) ->
  exists n' (l : nat) hs,
    n = S n' /\ h = HRef l /\ s !! l = Some (OList hs) /\
    Forall2 (fun x v => reify n' s x = Ok v) hs subs.
Proof.
  destruct h as [| | | |l]; destruct n as [|n']; try discriminate. cbn [reify].
  destruct (s !! l) as [[hd|xs]|] eqn:E; try discriminate.
  - intros H. apply bind_Ok_inv in H as (d' & Hd & [=]).
  - intros H. apply bind_Ok_inv in H as (xs' & Hxs & [= <-]).
    exists n', l, xs. repeat split; auto. now apply mapM_Forall2.
Qed.

Lemma reify_not_mapping n (s0 s : store) h v :
  reify n s0 h = Ok v -> (forall d, v <> VDict d) -> s0 `prefix_of` s ->
  mapping_keys h s = (Ok None, s).
Proof.
  intros Hr Hv Hpre. destruct h as [| | | |l]; try reflexivity.
  destruct n as [|n']; [discriminate|]. cbn [reify] in Hr. unfold mapping_keys.
  destruct (s0 !! l) as [[hd|xs]|] eqn:E; try discriminate.
  - apply bind_Ok_inv in Hr as (d' & _ & [= <-]). now destruct (Hv d').
  - rewrite (prefix_lookup _ _ l Hpre), E; [reflexivity | now apply lookup_lt_Some in E].
Qed.

Lemma Forall2_keys {A B} (hd : list (string * A)) (d : list (string * B)) R :
  Forall2 (fun kh kv => fst kh = fst kv /\ R kh kv) hd d -> map fst hd = map fst d.
Proof. induction 1 as [|kh kv hd d [Hk _] _ IH]; simpl; congruence. Qed.

Lemma depth_entry d kv n :
  (depth (VDict d) <= S n)%nat -> In kv d -> (depth (snd kv) <= n)%nat.
Proof.
  cbn [depth]. intros Hd Hin.
  assert (H := depth_bound (fun kv => depth (snd kv)) d).
  rewrite Forall_forall in H. apply list_elem_of_In in Hin.
  specialize (H kv Hin). simpl in H. lia.
Qed.

Lemma depth_element l v n :
  (depth (VList l) <= n)%nat -> In v l -> (depth v < n)%nat /\ (length l < n)%nat.
Proof.
  cbn [depth]. intros Hd Hin.
  assert (H := depth_bound depth l).
  rewrite Forall_forall in H. apply list_elem_of_In in Hin.
  specialize (H v Hin). simpl in H. lia.
Qed.

Lemma plain_query_dict d :
  plain_query (VDict d) = bool_decide (NoDup (map fst d)) && forallb entry_plain d.
Proof. reflexivity. Qed.

Lemma property_names_dict d :
  property_names (VDict d) = flat_map (fun kv => child_names kv ++ own_name kv) d.
Proof. reflexivity. Qed.

Section PropertyNames.
Variable s0 : store.
Abbreviation collectp := (_collect_property (HRef (length s0))).

Lemma props_lookup s names (l : nat) o :
  props_are s0 s names -> s0 !! l = Some o -> s !! l = Some o.
Proof.
  intros [Hpre _] Hl. rewrite (prefix_lookup _ _ l Hpre); [exact Hl|].
  now apply lookup_lt_Some in Hl.
Qed.

Lemma collect_property_names q kv s names :
  props_are s0 s names ->
  exists s' names',
    collectp q (fst kv) s = (Ok tt, s') /\ props_are s0 s' names' /\
    forall x, In x names' <-> In x names \/ In x (own_name kv).
Proof.
  intros Hs. unfold _collect_property, own_name.
  destruct (mem (fst kv) ALL_KEYS) eqn:Ek; cbn [negb].
  - exists s, names. split; [reflexivity|]. split; [exact Hs|]. simpl. tauto.
  - destruct Hs as (Hpre & xs & Hxs & <-).
    unfold set_add. rewrite (bindM_Ok _ _ s xs s) by (cbn [iter_values]; now rewrite Hxs).
    destruct (mem (fst kv) (set_elements xs)) eqn:Em.
    + exists s, (set_elements xs). split; [reflexivity|].
      split; [split; [exact Hpre | eauto]|].
      intros x. simpl. apply mem_In in Em. split; [tauto|].
      intros [H|[<-|[]]]; assumption.
    + exists (<[length s0 := OList (xs ++ [HScalar (SStr (fst kv))])]> s),
             (set_elements xs ++ [fst kv]).
      split; [unfold list_append; now rewrite Hxs|]. split.
      * split; [now apply prefix_insert|]. eexists. split.
        -- apply list_lookup_insert_eq. now apply lookup_lt_Some in Hxs.
        -- now rewrite set_elements_app.
      * intros x. rewrite in_app_iff. reflexivity.
Qed.

Section Level.
Variable f : nat.
Hypothesis traverse_names_level :
  forall v q n s names,
    (depth v <= f)%nat -> plain_query v = true -> reify n s0 q = Ok v ->
    props_are s0 s names ->
    exists s' names',
      traverse_queries_bottom_up f collectp q s = (Ok tt, s') /\
      props_are s0 s' names' /\
      forall x, In x names' <-> In x names \/ In x (property_names v).

Lemma iter_list_names (l2 : nat) hs subs n :
  s0 !! l2 = Some (OList hs) ->
  Forall2 (fun x v => reify n s0 x = Ok v) hs subs ->
  Forall (fun v => (depth v <= f)%nat /\ plain_query v = true) subs ->
  forall k (i : nat) s names,
    (i <= length hs)%nat -> (length hs < i + k)%nat -> props_are s0 s names ->
    exists s' names',
      iter_list k (traverse_queries_bottom_up f collectp) l2 i s = (Ok tt, s') /\
      props_are s0 s' names' /\
      forall x, In x names' <->
                In x names \/ In x (flat_map property_names (drop i subs)).
Proof.
  intros Hl2 Hsubs Hok. induction k as [|k IH]; intros i s names Hi Hk Hs.
  - exfalso. lia.
  - cbn [iter_list]. rewrite (props_lookup s names l2 _ Hs Hl2).
    destruct (hs !! i) as [x|] eqn:Ex.
    + destruct (Forall2_lookup_l _ _ _ _ _ Hsubs Ex) as (v & Ev & Hv).
      rewrite Forall_forall in Hok.
      destruct (Hok v (list_elem_of_lookup_2 _ _ _ Ev)) as [Hd Hp].
      destruct (traverse_names_level v x n s names Hd Hp Hv Hs)
        as (s1 & names1 & Hrun & Hs1 & Hn1).
      rewrite (bindM_Ok _ _ _ _ _ Hrun).
      assert (Hlt := lookup_lt_Some _ _ _ Ex).
      destruct (IH (S i) s1 names1 ltac:(lia) ltac:(lia) Hs1)
        as (s' & names' & Hrun' & Hs' & Hn').
      exists s', names'. split; [exact Hrun'|]. split; [exact Hs'|].
      intros y. rewrite (drop_S _ _ _ Ev). cbn [flat_map]. rewrite in_app_iff.
      rewrite Hn', Hn1. tauto.
    + exists s, names. split; [reflexivity|]. split; [exact Hs|].
      apply lookup_ge_None in Ex.
      rewrite drop_ge by (rewrite <- (Forall2_length _ _ _ Hsubs); lia).
      simpl. tauto.
Qed.

Lemma children_names (l : nat) hd h kv n s names :
  s0 !! l = Some (ODict hd) -> dict_get (fst kv) hd = Some h ->
  reify n s0 h = Ok (snd kv) -> (depth (snd kv) <= f)%nat -> entry_plain kv = true ->
  props_are s0 s names ->
  exists s' names',
    traverse_children (traverse_queries_bottom_up f collectp) f (HRef l) (fst kv) s
    = (Ok tt, s') /\
    props_are s0 s' names' /\
    forall x, In x names' <-> In x names \/ In x (child_names kv).
Proof.
  intros Hl Hh Hr Hd Hp Hs. unfold traverse_children, entry_plain, child_names in *.
  assert (Hget : getitem (HRef l) (fst kv) s = (Ok h, s)).
  { unfold getitem.
    rewrite (bindM_Ok _ _ s hd s)
      by (unfold get_dict; now rewrite (props_lookup s names l _ Hs Hl)).
    now rewrite Hh. }
  destruct (mem (fst kv) [OR_KEY; AND_KEY]); rewrite (bindM_Ok _ _ _ _ _ Hget).
  - destruct (snd kv) as [| | | |subs|] eqn:Ev; try discriminate.
    apply reify_list_inv in Hr as (n' & l2 & hs & -> & -> & Hl2 & Hsubs).
    rewrite (bindM_Ok _ _ s (Some l2) s)
      by (unfold read, is_list; now rewrite (props_lookup s names l2 _ Hs Hl2)).
    apply (iter_list_names l2 hs subs n' Hl2 Hsubs); [|lia| |exact Hs].
    + apply Forall_forall. intros v Hv%list_elem_of_In. split.
      * destruct (depth_element subs v f Hd Hv). lia.
      * rewrite forallb_forall in Hp. now apply Hp.
    + rewrite (Forall2_length _ _ _ Hsubs). cbn [depth] in Hd. lia.
  - destruct (snd kv) as [a|t|bs|ids|subs|m] eqn:Ev.
    1-5: rewrite (bindM_Ok _ _ s None s)
           by (apply (reify_not_mapping n s0 s h _ Hr); [discriminate | apply Hs]);
         exists s, names; split; [reflexivity|]; split; [exact Hs|]; simpl; tauto.
    destruct (reify_dict_inv _ _ _ _ Hr) as (n' & l3 & hm & -> & -> & Hl3 & Hm).
    rewrite (bindM_Ok _ _ s (Some (map fst m)) s).
    2:{ unfold mapping_keys. rewrite (props_lookup s names l3 _ Hs Hl3).
        now rewrite (Forall2_keys _ _ _ Hm). }
    destruct (has_value_key (map fst m)).
    + rewrite Hp. cbn [negb]. exists s, names. split; [reflexivity|].
      split; [exact Hs|]. simpl. tauto.
    + now apply (traverse_names_level (VDict m) (HRef l3) (S n')).
Qed.

Lemma keys_names (l : nat) hd n rest_h : forall rest_d s names,
  s0 !! l = Some (ODict hd) ->
  Forall2 (fun kh kv => fst kh = fst kv /\ reify n s0 (snd kh) = Ok (snd kv))
          rest_h rest_d ->
  (forall kh, In kh rest_h -> dict_get (fst kh) hd = Some (snd kh)) ->
  Forall (fun kv => (depth (snd kv) <= f)%nat /\ entry_plain kv = true) rest_d ->
  props_are s0 s names ->
  exists s' names',
    forM_ (fun key =>
             traverse_children (traverse_queries_bottom_up f collectp) f (HRef l) key;;
             collectp (HRef l) key) (map fst rest_h) s = (Ok tt, s') /\
    props_are s0 s' names' /\
    forall x, In x names' <->
              In x names \/ In x (flat_map (fun kv => child_names kv ++ own_name kv) rest_d).
Proof.
  induction rest_h as [|kh rest_h IH]; intros rest_d s names Hl Hall Hget Hok Hs.
  - apply Forall2_nil_inv_l in Hall as ->. exists s, names.
    split; [reflexivity|]. split; [exact Hs|]. simpl. tauto.
  - apply Forall2_cons_inv_l in Hall as (kv & rest_d' & [Hk Hr] & Hall & ->).
    apply Forall_cons in Hok as [[Hd Hp] Hok].
    cbn [map forM_]. rewrite Hk.
    destruct (children_names l hd (snd kh) kv n s names Hl) as (s1 & names1 & Hc & Hs1 & Hn1);
      auto.
    { rewrite <- Hk. apply Hget. now left. }
    destruct (collect_property_names (HRef l) kv s1 names1 Hs1)
      as (s2 & names2 & Hcol & Hs2 & Hn2).
    rewrite (bindM_Ok _ _ s tt s2) by (rewrite (bindM_Ok _ _ _ _ _ Hc); exact Hcol).
    destruct (IH rest_d' s2 names2 Hl Hall) as (s' & names' & Hrun & Hs' & Hn'); auto.
    { intros kh' Hin. apply Hget. now right. }
    exists s', names'. split; [exact Hrun|]. split; [exact Hs'|].
    intros x. cbn [flat_map]. rewrite !in_app_iff, Hn', Hn2, Hn1. tauto.
Qed.
End Level.

Lemma traverse_names f : forall v q n s names,
  (depth v <= f)%nat -> plain_query v = true -> reify n s0 q = Ok v ->
  props_are s0 s names ->
  exists s' names',
    traverse_queries_bottom_up f collectp q s = (Ok tt, s') /\
    props_are s0 s' names' /\
    forall x, In x names' <-> In x names \/ In x (property_names v).
Proof.
  induction f as [|f IH]; intros v q n s names Hd Hp Hr Hs.
  - destruct v; try discriminate. cbn [depth] in Hd. lia.
  - destruct v as [| | | | |d]; try discriminate.
    rewrite plain_query_dict in Hp. apply andb_true_iff in Hp as [Hnd Hp].
    apply bool_decide_eq_true_1 in Hnd.
    destruct (reify_dict_inv _ _ _ _ Hr) as (n' & l & hd & -> & -> & Hl & Hall).
    cbn [traverse_queries_bottom_up].
    rewrite (bindM_Ok _ _ s (map fst hd) s).
    2:{ unfold dict_keys. rewrite (bindM_Ok _ _ s hd s); [reflexivity|].
        unfold get_dict. now rewrite (props_lookup s names l _ Hs Hl). }
    rewrite property_names_dict.
    apply (keys_names f IH l hd n' hd d s names Hl Hall); [| |exact Hs].
    + intros [k h] Hin. apply dict_get_entry; [|exact Hin].
      now rewrite (Forall2_keys _ _ _ Hall).
    + apply Forall_forall. intros kv Hkv%list_elem_of_In. split.
      * now apply (depth_entry d).
      * rewrite forallb_forall in Hp. now apply Hp.
Qed.
End PropertyNames.

(** X13: on a query the traversal accepts (every dictionary has each
    key once, [$or] and [$and] hold lists of such queries, a mapping
    with a value operator has nothing else), [get_properties], given
    fuel for the depth of the query, returns exactly the keys that are
    not reserved among: the keys of the query, of the queries listed
    under [$or] and [$and], and of the mappings without value operator,
    at any depth.  Keys inside a mapping with [$regex], or inside a list
    under a property, are not reported. *)
Theorem get_properties_names :
  forall fuel queries (s : store) n v,
    reify n s queries = Ok v ->
    plain_query v = true ->
    (depth v <= fuel)%nat ->
    exists props,
      fst (get_properties fuel queries s) = Ok props /\
      forall k, In k props <-> In k (property_names v).
Proof.
  intros fuel queries s n v Hr Hp Hd. unfold get_properties.
  rewrite (bindM_Ok _ _ s (length s) (s ++ [OList []])) by reflexivity.
  assert (H0 : props_are s (s ++ [OList []]) []).
  { split; [now apply prefix_app_r|]. exists []. split; [|reflexivity].
    now apply list_lookup_middle. }
  destruct (traverse_names s fuel v queries n _ [] Hd Hp Hr H0)
    as (s' & names' & Hrun & (Hpre & xs & Hxs & <-) & Hn).
  rewrite (bindM_Ok _ _ _ _ _ Hrun).
  rewrite (bindM_Ok _ _ s' xs s') by (cbn [iter_values]; now rewrite Hxs).
  exists (set_elements xs). split; [reflexivity|].
  intros k. rewrite Hn. simpl. tauto.
Qed.

Lemma get_properties_names_witness :
  let q := VDict [("$or", VList [VDict [("layer", VScalar (SInt 2))];
                                 VDict [("mtype", VDict [("$regex", VScalar (SStr "a"))]);
                                        ("nested", VDict [("inner", VScalar (SInt 3))])]]);
                  ("node_id", VIds [1; 2]);
                  ("region", VList [VDict [("hidden", VScalar (SInt 1))]])] in
  exists props,
    fst (get_properties 8 (fst (alloc q [])) (snd (alloc q []))) = Ok props /\
    forall k, In k props <-> In k ["layer"; "mtype"; "inner"; "nested"; "region"].
Proof.
  intros q.
  apply (get_properties_names 8 (fst (alloc q [])) (snd (alloc q [])) 8 q);
    [vm_compute; reflexivity | vm_compute; reflexivity | vm_compute; lia].
Defined.

(** ** The private copy, object by object *)

Lemma placed_app s n o1 o2 :
  placed s n (o1 ++ o2) <-> placed s n o1 /\ placed s (n + length o1) o2.
Proof.
  unfold placed. split.
  - intros H. split.
    + intros i o Hi. apply H. now apply lookup_app_l_Some.
    + intros i o Hi. rewrite <- Nat.add_assoc. apply H.
      rewrite lookup_app_r by lia. now replace (length o1 + i - length o1)%nat with i by lia.
  - intros [H1 H2] i o Hi. apply lookup_app_Some in Hi as [Hi|[Hge Hi]].
    + now apply H1.
    + replace (n + i)%nat with (n + length o1 + (i - length o1))%nat by lia.
      now apply H2.
Qed.

Lemma placed_here (pre objs post : store) : placed (pre ++ objs ++ post) (length pre) objs.
Proof.
  intros i o Hi. rewrite lookup_app_r by lia.
  replace (length pre + i - length pre)%nat with i by lia.
  now apply lookup_app_l_Some.
Qed.

Lemma placed_cons s n o objs :
  placed s n (o :: objs) <-> s !! n = Some o /\ placed s (S n) objs.
Proof.
  change (o :: objs) with ([o] ++ objs). rewrite placed_app. simpl.
  replace (n + 1)%nat with (S n) by lia. split; intros [H1 H2]; split; auto.
  - specialize (H1 0%nat o eq_refl). now rewrite Nat.add_0_r in H1.
  - intros [|i] o' [=]. subst. now rewrite Nat.add_0_r.
Qed.

Lemma layout_leaf v n : (forall l, v <> VList l) -> (forall d, v <> VDict d) ->
  snd (layout v n) = [] /\ forall l, fst (layout v n) <> HRef l.
Proof.
  destruct v as [| | | |l|d]; intros Hl Hd; simpl; try (split; [reflexivity | discriminate]).
  - now destruct (Hl l).
  - now destruct (Hd d).
Qed.

(** Reading the copy back gives the tree. *)
Lemma reify_layout v : forall n (s : store) fuel,
  placed s n (snd (layout v n)) -> (depth v <= fuel)%nat ->
  reify fuel s (fst (layout v n)) = Ok v.
Proof.
  induction v as [a|l|bs|ids|l IH|d IH] using value_nested_ind; intros n s fuel Hp Hd;
    try (destruct fuel; reflexivity).
  - cbn [layout] in *. destruct (layout_all layout l (S n)) as [hs objs] eqn:E.
    cbn [fst snd] in *. apply placed_cons in Hp as [Hn Hp].
    destruct fuel as [|fuel]; [cbn [depth] in Hd; lia|]. cbn [reify]. rewrite Hn.
    assert (Hall : mapM (reify fuel s) hs = Ok l); [|now rewrite Hall].
    assert (Hdl : Forall (fun v => (depth v <= fuel)%nat) l).
    { apply Forall_forall. intros v Hv%list_elem_of_In.
      destruct (depth_element l v (S fuel) Hd Hv). lia. }
    clear Hn Hd. revert hs objs Hp E. generalize (S n). 
    induction l as [|x l IHl]; intros m hs objs Hp; cbn [layout_all].
    + intros [= <- <-]. reflexivity.
    + apply Forall_cons in IH as [Hx IH]. apply Forall_cons in Hdl as [Hdx Hdl].
      destruct (layout x m) as [h o1] eqn:Ex.
      destruct (layout_all layout l (m + length o1)) as [hs' o2] eqn:El.
      intros [= <- <-]. apply placed_app in Hp as [Hp1 Hp2]. cbn [mapM].
      specialize (Hx m s fuel). rewrite Ex in Hx. cbn [fst snd] in Hx.
      rewrite (Hx Hp1 Hdx), bind_Ok.
      now rewrite (IHl IH Hdl _ hs' o2 Hp2 El).
  - cbn [layout] in *.
    destruct (layout_all _ d (S n)) as [hd objs] eqn:E.
    cbn [fst snd] in *. apply placed_cons in Hp as [Hn Hp].
    destruct fuel as [|fuel]; [cbn [depth] in Hd; lia|]. cbn [reify]. rewrite Hn.
    assert (Hall : mapM (fun kv => v ← reify fuel s (snd kv); Ok (fst kv, v)) hd = Ok d);
      [|now rewrite Hall].
    assert (Hdl : Forall (fun kv => (depth (snd kv) <= fuel)%nat) d).
    { apply Forall_forall. intros v Hv%list_elem_of_In. now apply (depth_entry d). }
    clear Hn Hd. revert hd objs Hp E. generalize (S n).
    induction d as [|[k x] d IHd]; intros m hd objs Hp; cbn [layout_all].
    + intros [= <- <-]. reflexivity.
    + apply Forall_cons in IH as [Hx IH]. apply Forall_cons in Hdl as [Hdx Hdl].
      cbn [fst snd] in *.
      destruct (layout x m) as [h o1] eqn:Ex.
      destruct (layout_all _ d (m + length o1)) as [hd' o2] eqn:El.
      intros [= <- <-]. apply placed_app in Hp as [Hp1 Hp2]. cbn [mapM fst snd].
      specialize (Hx m s fuel). rewrite Ex in Hx. cbn [fst snd] in Hx.
      rewrite (Hx Hp1 Hdx), !bind_Ok.
      now rewrite (IHd IH Hdl _ hd' o2 Hp2 El).
Qed.

Lemma insert_twice_app (s o : store) (y : nat) a b :
  (y < length s)%nat ->
  <[y := b]> (<[y := a]> s ++ o) = <[y := b]> (s ++ o).
Proof.
  intros Hy. rewrite !insert_app_l by (rewrite ?length_insert; lia).
  now rewrite list_insert_insert_eq.
Qed.

Lemma dict_set_absent {V} k (v : V) d :
  ~ In k (map fst d) -> dict_set k v d = d ++ [(k, v)].
Proof.
  induction d as [|[k' v'] d IH]; simpl; [reflexivity|]. intros H.
  destruct (String.eqb_spec k k') as [->|_]; [tauto|]. f_equal. apply IH. tauto.
Qed.

Lemma fill_list_layout fuel l :
  Forall (fun v => unique_keys v = true -> copy_exact v) l ->
  Forall (fun v => unique_keys v = true /\ (depth v <= fuel)%nat) l ->
  forall s1 hs s2 memo (s : store) (y : nat) ys,
    alloc_all alloc l s1 = (hs, s2) -> s2 `prefix_of` s -> (length s2 <= y)%nat ->
    memo_outside memo (length s1) (length s2) ->
    s !! y = Some (OList ys) ->
    exists memo',
      fill_list (deepcopy fuel) y hs memo s
      = (Ok memo', <[y := OList (ys ++ fst (layout_all layout l (length s)))]>
                     (s ++ snd (layout_all layout l (length s)))) /\
      memo_grows (length s1) (length s2) memo memo'.
Proof.
  induction l as [|v l IH]; intros Hok Hv s1 hs s2 memo s y ys; cbn [alloc_all layout_all].
  - intros [= <- <-] Hpre Hy Hmemo Hys. exists memo. cbn [fill_list fst snd].
    rewrite !app_nil_r, list_insert_id by exact Hys. split; [reflexivity|].
    intros l0 y0 Hin. now left.
  - apply Forall_cons in Hok as [Hc Hok]. apply Forall_cons in Hv as [[Hu Hd] Hv].
    destruct (alloc v s1) as [h sa] eqn:Ea.
    destruct (alloc_all alloc l sa) as [hs' sb] eqn:Eb.
    intros [= <- <-] Hpre Hy Hmemo Hys.
    assert (P1 := alloc_prefix _ _ _ _ Ea).
    assert (P2 : sa `prefix_of` sb).
    { refine (alloc_all_prefix alloc l _ _ _ _ Eb). apply Forall_forall.
      intros x _ s3 h3 s4. apply alloc_prefix. }
    assert (L1 := prefix_length _ _ P1). assert (L2 := prefix_length _ _ P2).
    assert (Hylt : (y < length s)%nat) by (now apply lookup_lt_Some in Hys).
    destruct (Hc Hu s1 h sa fuel memo s Ea) as (memo1 & Hcopy & Hg1).
    { exact Hd. } { now transitivity sb. }
    { intros l0 y0 Hin Hl0. apply (Hmemo l0 y0 Hin). lia. }
    destruct (layout v (length s)) as [h' o1] eqn:Ev. cbn [fst snd] in Hcopy.
    cbn [fill_list]. rewrite (bindM_Ok _ _ _ _ _ Hcopy). cbn beta iota.
    rewrite (bindM_Ok _ _ _ _ _ (list_append_run (s ++ o1) y ys h'
                                   (eq_trans (lookup_app_l _ _ _ Hylt) Hys))).
    set (s1' := <[y := OList (ys ++ [h'])]> (s ++ o1)).
    assert (Hlen1 : length s1' = (length s + length o1)%nat)
      by (unfold s1'; now rewrite length_insert, length_app).
    destruct (IH Hok Hv sa hs' sb memo1 s1' y (ys ++ [h']) Eb)
      as (memo' & Hrun & Hg2).
    + apply prefix_insert; [|exact Hy]. now apply prefix_app_r.
    + exact Hy.
    + now apply (memo_outside_next memo memo1 (length s1)).
    + apply list_lookup_insert_eq. rewrite length_app. lia.
    + exists memo'. split.
      * rewrite Hrun, Hlen1.
        destruct (layout_all layout l (length s + length o1)) as [hs2 o2].
        cbn [fst snd]. unfold s1'.
        rewrite insert_twice_app by (rewrite length_app; lia).
        now rewrite <- !app_assoc.
      * now apply (memo_grows_trans memo memo1 memo' _ (length sa)).
Qed.

Lemma fill_dict_layout fuel d :
  Forall (fun kv => unique_keys (snd kv) = true -> copy_exact (snd kv)) d ->
  Forall (fun kv => unique_keys (snd kv) = true /\ (depth (snd kv) <= fuel)%nat) d ->
  forall s1 hd s2 memo (s : store) (y : nat) dy,
    alloc_all (fun kv s => let '(h, s1) := alloc (snd kv) s in ((fst kv, h), s1))
      d s1 = (hd, s2) ->
    s2 `prefix_of` s -> (length s2 <= y)%nat ->
    memo_outside memo (length s1) (length s2) ->
    s !! y = Some (ODict dy) ->
    NoDup (map fst dy ++ map fst d) ->
    exists memo',
      fill_dict (deepcopy fuel) y hd memo s
      = (Ok memo',
         <[y := ODict (dy ++ fst (layout_all
                  (fun kv m => let '(h, o) := layout (snd kv) m in ((fst kv, h), o))
                  d (length s)))]>
           (s ++ snd (layout_all
                  (fun kv m => let '(h, o) := layout (snd kv) m in ((fst kv, h), o))
                  d (length s)))) /\
      memo_grows (length s1) (length s2) memo memo'.
Proof.
  induction d as [|[k v] d IH]; intros Hok Hv s1 hd s2 memo s y dy;
    cbn [alloc_all layout_all].
  - intros [= <- <-] Hpre Hy Hmemo Hys _. exists memo. cbn [fill_dict fst snd].
    rewrite !app_nil_r, list_insert_id by exact Hys. split; [reflexivity|].
    intros l0 y0 Hin. now left.
  - apply Forall_cons in Hok as [Hc Hok]. apply Forall_cons in Hv as [[Hu Hd] Hv].
    cbn [fst snd] in Hc, Hu, Hd |- *.
    destruct (alloc v s1) as [h sa] eqn:Ea.
    destruct (alloc_all _ d sa) as [hd' sb] eqn:Eb.
    intros [= <- <-] Hpre Hy Hmemo Hys Hnd.
    assert (P1 := alloc_prefix _ _ _ _ Ea).
    assert (P2 : sa `prefix_of` sb).
    { refine (alloc_all_prefix _ d _ _ _ _ Eb). apply Forall_forall.
      intros x _ s3 h3 s4. apply alloc_entry_prefix. }
    assert (L1 := prefix_length _ _ P1). assert (L2 := prefix_length _ _ P2).
    assert (Hylt : (y < length s)%nat) by (now apply lookup_lt_Some in Hys).
    destruct (Hc Hu s1 h sa fuel memo s Ea) as (memo1 & Hcopy & Hg1).
    { exact Hd. } { now transitivity sb. }
    { intros l0 y0 Hin Hl0. apply (Hmemo l0 y0 Hin). lia. }
    destruct (layout v (length s)) as [h' o1] eqn:Ev. cbn [fst snd] in Hcopy.
    cbn [fill_dict]. rewrite (bindM_Ok _ _ _ _ _ Hcopy). cbn beta iota.
    rewrite (bindM_Ok _ _ _ _ _ (setitem_run (s ++ o1) y dy k h'
                                   (eq_trans (lookup_app_l _ _ _ Hylt) Hys))).
    assert (Hk : ~ In k (map fst dy)).
    { cbn [map fst] in Hnd. apply NoDup_app in Hnd as (_ & Hdis & _).
      intros Hin. apply (Hdis k); [now apply list_elem_of_In | left]. }
    rewrite (dict_set_absent k h' dy Hk).
    set (s1' := <[y := ODict (dy ++ [(k, h')])]> (s ++ o1)).
    assert (Hlen1 : length s1' = (length s + length o1)%nat)
      by (unfold s1'; now rewrite length_insert, length_app).
    destruct (IH Hok Hv sa hd' sb memo1 s1' y (dy ++ [(k, h')]) Eb)
      as (memo' & Hrun & Hg2).
    + apply prefix_insert; [|exact Hy]. now apply prefix_app_r.
    + exact Hy.
    + now apply (memo_outside_next memo memo1 (length s1)).
    + apply list_lookup_insert_eq. rewrite length_app. lia.
    + rewrite map_app, <- app_assoc. exact Hnd.
    + exists memo'. split.
      * rewrite Hrun, Hlen1.
        destruct (layout_all _ d (length s + length o1)) as [hd2 o2].
        cbn [fst snd]. unfold s1'.
        rewrite insert_twice_app by (rewrite length_app; lia).
        now rewrite <- !app_assoc.
      * now apply (memo_grows_trans memo memo1 memo' _ (length sa)).
Qed.

Lemma copy_exact_leaf v h :
  (forall l, h <> HRef l) -> (forall s, alloc v s = (h, s)) ->
  (forall n, layout v n = (h, [])) -> copy_exact v.
Proof.
  intros Hh Hv Hl s1 h0 s2 fuel memo s Ea _ _ _. rewrite Hv in Ea.
  injection Ea as Eh Es. subst h0 s2. exists memo. rewrite Hl. cbn [fst snd].
  rewrite app_nil_r. split.
  - destruct fuel, h as [| | | |l]; try reflexivity; now destruct (Hh l).
  - intros l y Hin. now left.
Qed.

(** [copy.deepcopy] of a query tree, object by object. *)
Lemma deepcopy_layout v : unique_keys v = true -> copy_exact v.
Proof.
  induction v as [a|l|bs|ids|l IH|d IH] using value_nested_ind; intros Hu;
    try (eapply copy_exact_leaf; [|reflexivity|reflexivity]; discriminate).
  - intros s1 h s2 fuel memo s. cbn [alloc depth layout].
    destruct (alloc_all alloc l s1) as [hs sa] eqn:Ea.
    intros [= <- <-] Hfuel Hpre Hmemo.
    destruct fuel as [|fuel]; [lia|].
    assert (P1 : s1 `prefix_of` sa).
    { refine (alloc_all_prefix alloc l _ _ _ _ Ea). apply Forall_forall.
      intros x _ s3 h3 s4. apply alloc_prefix. }
    assert (L1 := prefix_length _ _ P1). assert (L2 := prefix_length _ _ Hpre).
    rewrite length_app in Hmemo, L2. simpl in Hmemo, L2.
    cbn [deepcopy]. rewrite (memo_get_outside memo (length s1) (length sa + 1)) by (auto; lia).
    rewrite (prefix_lookup _ _ _ Hpre) by (rewrite length_app; simpl; lia).
    rewrite lookup_app_r, Nat.sub_diag by lia. cbn [lookup list_lookup].
    rewrite (bindM_Ok _ _ s (length s) (s ++ [OList []])) by reflexivity.
    destruct (fill_list_layout fuel l IH) with
      (s1 := s1) (hs := hs) (s2 := sa) (memo := (length sa, length s) :: memo)
      (s := s ++ [OList []]) (y := length s) (ys := @nil hval)
      as (memo' & Hrun & Hg).
    + cbn [unique_keys] in Hu. rewrite forallb_forall in Hu.
      apply Forall_forall. intros x Hx%list_elem_of_In. split; [now apply Hu|].
      destruct (depth_element l x (S fuel)); [exact Hfuel | exact Hx | lia].
    + exact Ea.
    + destruct Hpre as [t ->]. rewrite <- !app_assoc. now apply prefix_app_r.
    + lia.
    + intros l0 y0 [[= <- <-]|Hin] Hl0; [lia|]. apply (Hmemo l0 y0 Hin). lia.
    + now apply list_lookup_middle.
    + rewrite (bindM_Ok _ _ _ _ _ Hrun).
      replace (length (s ++ [OList []])) with (S (length s))
        by (rewrite length_app; simpl; lia).
      destruct (layout_all layout l (S (length s))) as [hs' objs].
      cbn [fst snd app]. exists memo'. split.
      * unfold mret, M_ret. f_equal.
        rewrite <- app_assoc.
        rewrite insert_app_r_alt, Nat.sub_diag by lia. reflexivity.
      * intros l0 y0 Hin. destruct (Hg l0 y0 Hin) as [[[= <- <-]|Hold]|Hnew].
        -- right. rewrite length_app. simpl. lia.
        -- now left.
        -- right. rewrite length_app. simpl. lia.
  - intros s1 h s2 fuel memo s. cbn [alloc depth layout].
    destruct (alloc_all _ d s1) as [hd sa] eqn:Ea.
    intros [= <- <-] Hfuel Hpre Hmemo.
    destruct fuel as [|fuel]; [lia|].
    assert (P1 : s1 `prefix_of` sa).
    { refine (alloc_all_prefix _ d _ _ _ _ Ea). apply Forall_forall.
      intros x _ s3 h3 s4. apply alloc_entry_prefix. }
    assert (L1 := prefix_length _ _ P1). assert (L2 := prefix_length _ _ Hpre).
    rewrite length_app in Hmemo, L2. simpl in Hmemo, L2.
    cbn [deepcopy]. rewrite (memo_get_outside memo (length s1) (length sa + 1)) by (auto; lia).
    rewrite (prefix_lookup _ _ _ Hpre) by (rewrite length_app; simpl; lia).
    rewrite lookup_app_r, Nat.sub_diag by lia. cbn [lookup list_lookup].
    rewrite (bindM_Ok _ _ s (length s) (s ++ [ODict []])) by reflexivity.
    cbn [unique_keys] in Hu. apply andb_true_iff in Hu as [Hnd Hu].
    apply bool_decide_eq_true_1 in Hnd. rewrite forallb_forall in Hu.
    destruct (fill_dict_layout fuel d IH) with
      (s1 := s1) (hd := hd) (s2 := sa) (memo := (length sa, length s) :: memo)
      (s := s ++ [ODict []]) (y := length s) (dy := @nil (string * hval))
      as (memo' & Hrun & Hg).
    + apply Forall_forall. intros x Hx%list_elem_of_In. split; [now apply Hu|].
      now apply (depth_entry d).
    + exact Ea.
    + destruct Hpre as [t ->]. rewrite <- !app_assoc. now apply prefix_app_r.
    + lia.
    + intros l0 y0 [[= <- <-]|Hin] Hl0; [lia|]. apply (Hmemo l0 y0 Hin). lia.
    + now apply list_lookup_middle.
    + exact Hnd.
    + rewrite (bindM_Ok _ _ _ _ _ Hrun).
      replace (length (s ++ [ODict []])) with (S (length s))
        by (rewrite length_app; simpl; lia).
      destruct (layout_all _ d (S (length s))) as [hd' objs].
      cbn [fst snd app]. exists memo'. split.
      * unfold mret, M_ret. f_equal.
        rewrite <- app_assoc.
        rewrite insert_app_r_alt, Nat.sub_diag by lia. reflexivity.
      * intros l0 y0 Hin. destruct (Hg l0 y0 Hin) as [[[= <- <-]|Hold]|Hnew].
        -- right. rewrite length_app. simpl. lia.
        -- now left.
        -- right. rewrite length_app. simpl. lia.
Qed.

(** ** The traversal of [resolve_ids] on the private copy *)

Lemma resolve_node_dict data population_name d :
  resolve_node data population_name (VDict d)
  = mapM (resolve_entry data population_name) d.
Proof. reflexivity. Qed.

Lemma layout_dict d n :
  layout (VDict d) n
  = (HRef n, ODict (fst (layout_all layout_entry d (S n)))
               :: snd (layout_all layout_entry d (S n))).
Proof.
  cbn [layout]. fold layout_entry.
  change (fun kv m => let '(h, o) := layout (snd kv) m in ((fst kv, h), o))
    with layout_entry.
  now destruct (layout_all layout_entry d (S n)).
Qed.

Lemma layout_list l n :
  layout (VList l) n
  = (HRef n, OList (fst (layout_all layout l (S n)))
               :: snd (layout_all layout l (S n))).
Proof. cbn [layout]. now destruct (layout_all layout l (S n)). Qed.

Lemma layout_all_cons {A B} (f : A -> nat -> B * list obj) x l n :
  layout_all f (x :: l) n
  = (fst (f x n) :: fst (layout_all f l (n + length (snd (f x n)))),
     snd (f x n) ++ snd (layout_all f l (n + length (snd (f x n))))).
Proof.
  cbn [layout_all]. destruct (f x n) as [h o1]. cbn [fst snd].
  now destruct (layout_all f l (n + length o1)).
Qed.

Lemma layout_entry_eq kv m :
  layout_entry kv m = ((fst kv, fst (layout (snd kv) m)), snd (layout (snd kv) m)).
Proof. unfold layout_entry. now destruct (layout (snd kv) m). Qed.

Lemma layout_all_keys d : forall n,
  map fst (fst (layout_all layout_entry d n)) = map fst d.
Proof.
  induction d as [|kv d IH]; intros n; [reflexivity|].
  rewrite layout_all_cons, layout_entry_eq. cbn [fst snd map]. now rewrite IH.
Qed.

Lemma as_mask_hval_of_mask m : as_mask (hval_of_mask m) = Ok m.
Proof. now destruct m. Qed.

Lemma mapM_as_mask_masks_dict c : mapM as_mask (map snd (masks_dict c)) = Ok (map snd c).
Proof.
  induction c as [|[k m] c IH]; cbn [masks_dict map mapM fst snd]; [reflexivity|].
  rewrite as_mask_hval_of_mask, bind_Ok. unfold masks_dict in IH. now rewrite IH.
Qed.

Lemma merge_resolved (s : store) (l : nat) c :
  s !! l = Some (ODict (masks_dict c)) ->
  _merge_queries_masks (HRef l) s = (merge_masks c, s).
Proof.
  intros Hl. unfold _merge_queries_masks.
  rewrite (bindM_Ok _ _ s (masks_dict c) s) by (unfold get_dict; now rewrite Hl).
  rewrite (bindM_Ok _ _ s (map snd c) s)
    by (unfold lift; now rewrite mapM_as_mask_masks_dict).
  reflexivity.
Qed.

Lemma forM_merge_resolved (s : store) hs cs :
  Forall2 (fun h c => exists l : nat, h = HRef l /\ s !! l = Some (ODict (masks_dict c)))
          hs cs ->
  forM _merge_queries_masks hs s = (mapM merge_masks cs, s).
Proof.
  induction 1 as [|h c hs cs (l & -> & Hl) _ IH]; cbn [forM mapM]; [reflexivity|].
  unfold mbind at 1, M_bind at 1. rewrite (merge_resolved s l c Hl).
  destruct (merge_masks c) as [m|e]; [|reflexivity]. rewrite bind_Ok.
  unfold mbind at 1, M_bind at 1. rewrite IH.
  now destruct (mapM merge_masks cs).
Qed.

Lemma reify_masks_dict fuel (s : store) (l : nat) c :
  s !! l = Some (ODict (masks_dict c)) ->
  reify (S fuel) s (HRef l)
  = Ok (VDict (map (fun km => (fst km, value_of_mask (snd km))) c)).
Proof.
  intros Hl. cbn [reify]. rewrite Hl.
  assert (H : mapM (fun kv => v ← reify fuel s (snd kv); Ok (fst kv, v)) (masks_dict c)
              = Ok (map (fun km => (fst km, value_of_mask (snd km))) c));
    [|now rewrite H].
  clear Hl.
  induction c as [|[k m] c IH]; cbn [masks_dict map mapM fst snd]; [reflexivity|].
  unfold masks_dict in IH. rewrite IH.
  destruct m, fuel; reflexivity.
Qed.

Lemma dict_get_middle {V} k (v : V) done rest :
  ~ In k (map fst done) -> dict_get k (done ++ (k, v) :: rest) = Some v.
Proof.
  induction done as [|[k' v'] done IH]; simpl; intros H.
  - now rewrite String.eqb_refl.
  - destruct (String.eqb_spec k k') as [->|_]; [tauto|]. apply IH. tauto.
Qed.

Lemma dict_set_middle {V} k (v w : V) done rest :
  ~ In k (map fst done) ->
  dict_set k w (done ++ (k, v) :: rest) = done ++ (k, w) :: rest.
Proof.
  induction done as [|[k' v'] done IH]; simpl; intros H.
  - now rewrite String.eqb_refl.
  - destruct (String.eqb_spec k k') as [->|_]; [tauto|]. f_equal. apply IH. tauto.
Qed.

Section ResolveOnCopy.
Variable data : DataFrame.
Variable population_name : string.
Variable fuel0 : nat.

Abbreviation collect_ := (_collect fuel0 data population_name).
Abbreviation rnode := (resolve_node data population_name).
Abbreviation rentry := (resolve_entry data population_name).

(** The two kinds of [_collect], on a dictionary whose entry is known. *)
Lemma collect_leaf (s : store) (n : nat) cur k h v :
  mem k [OR_KEY; AND_KEY] = false ->
  s !! n = Some (ODict cur) -> dict_get k cur = Some h ->
  reify fuel0 s h = Ok v ->
  collect_ (HRef n) k s
  = match _properties_mask data population_name [(k, v)] with
    | Ok m => (Ok tt, <[n := ODict (dict_set k (hval_of_mask m) cur)]> s)
    | Err e => (Err e, s)
    end.
Proof.
  intros Hk Hn Hh Hr. unfold _collect.
  simpl in Hk. apply orb_false_iff in Hk as [Hor Hk]. apply orb_false_iff in Hk as [Hand _].
  rewrite Hor, Hand.
  rewrite (bindM_Ok _ _ s h s).
  2:{ unfold getitem. rewrite (bindM_Ok _ _ s cur s) by (unfold get_dict; now rewrite Hn).
      now rewrite Hh. }
  rewrite (bindM_Ok _ _ s v s) by (unfold read; now rewrite Hr).
  unfold mbind at 1, M_bind at 1, lift.
  destruct (_properties_mask data population_name [(k, v)]) as [m|e]; [|reflexivity].
  now apply setitem_run.
Qed.

Lemma collect_logical (s : store) (n l : nat) cur k hs cs :
  mem k [OR_KEY; AND_KEY] = true ->
  s !! n = Some (ODict cur) -> dict_get k cur = Some (HRef l) ->
  s !! l = Some (OList hs) ->
  Forall2 (fun h c => exists l : nat, h = HRef l /\ s !! l = Some (ODict (masks_dict c)))
          hs cs ->
  collect_ (HRef n) k s
  = match (children_mask ← mapM merge_masks cs;
           if String.eqb k OR_KEY then _logical_or children_mask
           else _logical_and children_mask) with
    | Ok m => (Ok tt, <[n := ODict (dict_set k (hval_of_mask m) cur)]> s)
    | Err e => (Err e, s)
    end.
Proof.
  intros Hk Hn Hh Hl Hcs. unfold _collect.
  assert (Hget : getitem (HRef n) k s = (Ok (HRef l), s)).
  { unfold getitem. rewrite (bindM_Ok _ _ s cur s) by (unfold get_dict; now rewrite Hn).
    now rewrite Hh. }
  assert (Hit : iter_values (HRef l) s = (Ok hs, s)) by (cbn [iter_values]; now rewrite Hl).
  assert (Hm := forM_merge_resolved s hs cs Hcs).
  destruct (String.eqb k OR_KEY) eqn:Eor.
  - rewrite (bindM_Ok _ _ _ _ _ Hget), (bindM_Ok _ _ _ _ _ Hit).
    unfold mbind at 1, M_bind at 1. rewrite Hm.
    destruct (mapM merge_masks cs) as [ms|e]; [|reflexivity]. rewrite bind_Ok.
    unfold mbind at 1, M_bind at 1, lift.
    destruct (_logical_or ms) as [m|e]; [|reflexivity]. now apply setitem_run.
  - simpl in Hk. rewrite Eor in Hk. simpl in Hk. rewrite orb_false_r in Hk. rewrite Hk.
    rewrite (bindM_Ok _ _ _ _ _ Hget), (bindM_Ok _ _ _ _ _ Hit).
    unfold mbind at 1, M_bind at 1. rewrite Hm.
    destruct (mapM merge_masks cs) as [ms|e]; [|reflexivity]. rewrite bind_Ok.
    unfold mbind at 1, M_bind at 1, lift.
    destruct (_logical_and ms) as [m|e]; [|reflexivity]. now apply setitem_run.
Qed.

(** From the outcome of [_collect] on an entry to the state of the
    loop over the keys. *)
Lemma entry_finish (pre objs' post : store) (n : nat) done k h rest_h
    (r : result mask) :
  (n < length pre)%nat -> ~ In k (map fst done) ->
  pre !! n = Some (ODict (done ++ (k, h) :: rest_h)) ->
  exists cur',
    match r with
    | Ok m => (Ok tt, <[n := ODict (dict_set k (hval_of_mask m)
                                      (done ++ (k, h) :: rest_h))]>
                        (pre ++ objs' ++ post))
    | Err e => (Err e, pre ++ objs' ++ post)
    end
    = (void (m ← r; Ok (k, m)), <[n := ODict cur']> pre ++ objs' ++ post) /\
    forall km, (m ← r; Ok (k, m)) = Ok km ->
      cur' = done ++ (k, hval_of_mask (snd km)) :: rest_h /\ fst km = k.
Proof.
  intros Hn Hk Hpre. destruct r as [m|e].
  - exists (done ++ (k, hval_of_mask m) :: rest_h). split.
    + rewrite dict_set_middle by exact Hk. now rewrite insert_app_l by exact Hn.
    + intros km [= <-]. auto.
  - exists (done ++ (k, h) :: rest_h). split.
    + now rewrite list_insert_id by exact Hpre.
    + intros km [=].
Qed.

Section Level.
Variable f : nat.
Hypothesis node_level :
  forall v, (depth v <= f)%nat -> (depth v <= fuel0)%nat -> plain_query v = true ->
  forall pre post : store,
    exists objs',
      length objs' = length (snd (layout v (length pre))) /\
      traverse_queries_bottom_up f collect_ (fst (layout v (length pre)))
        (pre ++ snd (layout v (length pre)) ++ post)
      = (void (rnode v), pre ++ objs' ++ post) /\
      forall entries, rnode v = Ok entries ->
        objs' !! 0%nat = Some (ODict (masks_dict entries)).

Lemma plain_query_is_dict v : plain_query v = true -> exists d, v = VDict d.
Proof. destruct v; try discriminate. eauto. Qed.

Lemma iter_children subs : forall k (pre post : store) hs_done (p : nat),
  Forall (fun v => (depth v <= f)%nat /\ (depth v <= fuel0)%nat /\ plain_query v = true)
         subs ->
  (length subs < k)%nat ->
  pre !! p = Some (OList (hs_done ++ fst (layout_all layout subs (length pre)))) ->
  exists objs',
    length objs' = length (snd (layout_all layout subs (length pre))) /\
    iter_list k (traverse_queries_bottom_up f collect_) p (length hs_done)
      (pre ++ snd (layout_all layout subs (length pre)) ++ post)
    = (void (mapM rnode subs), pre ++ objs' ++ post) /\
    forall cs, mapM rnode subs = Ok cs ->
      Forall2 (fun h c => exists l : nat,
                 h = HRef l /\ (pre ++ objs' ++ post) !! l = Some (ODict (masks_dict c)))
              (fst (layout_all layout subs (length pre))) cs.
Proof.
  induction subs as [|v subs IH]; intros k pre post hs_done p Hok Hk Hp;
    (destruct k as [|k]; [simpl in Hk; lia|]);
    assert (Hplt := lookup_lt_Some _ _ _ Hp).
  - cbn [layout_all fst snd] in *. rewrite app_nil_r in Hp. exists [].
    split; [reflexivity|]. split.
    + cbn [iter_list app]. rewrite lookup_app_l, Hp by exact Hplt.
      now rewrite (lookup_ge_None_2 hs_done (length hs_done)) by lia.
    + intros cs [= <-]. constructor.
  - apply Forall_cons in Hok as [(Hd & Hd0 & Hpl) Hok].
    rewrite layout_all_cons in *. cbn [fst snd] in *.
    destruct (plain_query_is_dict v Hpl) as [d ->].
    set (o1 := snd (layout (VDict d) (length pre))) in *.
    set (la := layout_all layout subs (length pre + length o1)) in *.
    assert (Hh : fst (layout (VDict d) (length pre)) = HRef (length pre))
      by now rewrite layout_dict.
    rewrite Hh in *.
    destruct (node_level (VDict d) Hd Hd0 Hpl pre (snd la ++ post))
      as (objs1 & Hlen1 & Hrun1 & Hpost1).
    fold o1 in Hlen1, Hrun1. rewrite Hh in Hrun1.
    cbn [iter_list]. rewrite lookup_app_l, Hp by exact Hplt.
    rewrite list_lookup_middle by reflexivity.
    unfold mbind, M_bind. rewrite <- (app_assoc o1), Hrun1. cbn [mapM].
    destruct (resolve_node data population_name (VDict d)) as [c|e] eqn:Ec; cbn [void].
    + rewrite bind_Ok.
      assert (Elen : length (pre ++ objs1) = (length pre + length o1)%nat)
        by (rewrite length_app; lia).
      assert (Elen2 : length (hs_done ++ [HRef (length pre)]) = S (length hs_done))
        by (rewrite length_app; simpl; lia).
      pose proof (IH k (pre ++ objs1) post (hs_done ++ [HRef (length pre)]) p Hok) as IH'.
      rewrite Elen, Elen2 in IH'. fold la in IH'.
      destruct IH' as (objs2 & Hlen2 & Hrun2 & Hpost2).
      * simpl in Hk. lia.
      * rewrite lookup_app_l by exact Hplt. rewrite Hp. now rewrite <- app_assoc.
      * rewrite <- !app_assoc in Hrun2.
        exists (objs1 ++ objs2). split; [rewrite !length_app; lia|]. split.
        -- rewrite Hrun2, <- !app_assoc.
           now destruct (mapM (resolve_node data population_name) subs).
        -- intros cs H. apply bind_Ok_inv in H as (cs' & Hcs' & [= <-]).
           constructor.
           ++ exists (length pre). split; [reflexivity|].
              rewrite lookup_app_r, Nat.sub_diag by lia.
              rewrite <- app_assoc. rewrite lookup_app_l.
              ** now apply Hpost1.
              ** specialize (Hpost1 c eq_refl). now apply lookup_lt_Some in Hpost1.
           ++ specialize (Hpost2 cs' Hcs'). rewrite <- !app_assoc in Hpost2.
              rewrite <- !app_assoc. exact Hpost2.
    + rewrite bind_Err. cbn [void]. exists (objs1 ++ snd la).
      split; [rewrite !length_app; lia|]. split.
      * now rewrite <- !app_assoc.
      * intros cs [=].
Qed.

Lemma entry_step kv (n : nat) done rest_h (pre post : store) :
  (depth (snd kv) <= f)%nat -> (depth (snd kv) <= fuel0)%nat ->
  entry_plain kv = true ->
  ~ In (fst kv) (map fst done) ->
  pre !! n = Some (ODict (done ++ (fst kv, fst (layout (snd kv) (length pre))) :: rest_h)) ->
  exists objs' cur',
    length objs' = length (snd (layout (snd kv) (length pre))) /\
    (traverse_children (traverse_queries_bottom_up f collect_) f (HRef n) (fst kv);;
     collect_ (HRef n) (fst kv))
      (pre ++ snd (layout (snd kv) (length pre)) ++ post)
    = (void (rentry kv), <[n := ODict cur']> pre ++ objs' ++ post) /\
    forall km, rentry kv = Ok km ->
      cur' = done ++ (fst kv, hval_of_mask (snd km)) :: rest_h /\ fst km = fst kv.
Proof.
  destruct kv as [k v]. cbn [fst snd]. intros Hd Hd0 Hpl Hk Hpre.
  assert (Hn := lookup_lt_Some _ _ _ Hpre).
  remember (done ++ (k, fst (layout v (length pre))) :: rest_h) as cur eqn:Ecur.
  assert (Hcur : dict_get k cur = Some (fst (layout v (length pre))))
    by (subst cur; now apply dict_get_middle).
  assert (Hget : forall objs : store,
    getitem (HRef n) k (pre ++ objs ++ post)
    = (Ok (fst (layout v (length pre))), pre ++ objs ++ post)).
  { intros objs. unfold getitem.
    rewrite (bindM_Ok _ _ _ cur (pre ++ objs ++ post))
      by (unfold get_dict; now rewrite lookup_app_l, Hpre by exact Hn).
    now rewrite Hcur. }
  assert (Hlook : forall objs : store, (pre ++ objs ++ post) !! n = Some (ODict cur))
    by (intros objs; now rewrite lookup_app_l by exact Hn).
  unfold resolve_entry, entry_plain, traverse_children in *. cbn [fst snd] in *.
  destruct (mem k [OR_KEY; AND_KEY]) eqn:Ek.
  - destruct v as [| | | |subs|]; try discriminate.
    rewrite layout_list in *. cbn [fst snd] in *.
    set (la := layout_all layout subs (S (length pre))) in *.
    unfold mbind at 1, M_bind at 1.
    rewrite (bindM_Ok _ _ _ _ _ (Hget _)).
    rewrite (bindM_Ok _ _ _ (Some (length pre)) (pre ++ (OList (fst la) :: snd la) ++ post)).
    2:{ unfold read, is_list. rewrite lookup_app_r, Nat.sub_diag by lia. reflexivity. }
    assert (Hsubs : Forall (fun v => (depth v <= f)%nat /\ (depth v <= fuel0)%nat /\
                                     plain_query v = true) subs).
    { apply Forall_forall. intros x Hx%list_elem_of_In.
      destruct (depth_element subs x f Hd Hx). destruct (depth_element subs x fuel0 Hd0 Hx).
      rewrite forallb_forall in Hpl. repeat split; auto; lia. }
    assert (Elen : length (pre ++ [OList (fst la)]) = S (length pre))
      by (rewrite length_app; simpl; lia).
    pose proof (iter_children subs f (pre ++ [OList (fst la)]) post [] (length pre) Hsubs)
      as Hit.
    rewrite Elen in Hit. fold la in Hit. cbn [app length] in Hit.
    destruct Hit as (objs' & Hlen & Hrun & Hpost).
    { cbn [depth] in Hd. lia. }
    { now apply list_lookup_middle. }
    rewrite <- !app_assoc in Hrun. rewrite <- !app_assoc in Hpost.
    cbn [app] in Hrun, Hpost |- *.
    rewrite Hrun.
    destruct (mapM (resolve_node data population_name) subs) as [cs|e] eqn:Ecs; cbn [void].
    + rewrite bind_Ok.
      rewrite (collect_logical (pre ++ OList (fst la) :: objs' ++ post) n (length pre)
                 cur k (fst la) cs Ek).
      * destruct (entry_finish pre (OList (fst la) :: objs') post n done k
                    (HRef (length pre)) rest_h
                    (children_mask ← mapM merge_masks cs;
                     if String.eqb k OR_KEY then _logical_or children_mask
                     else _logical_and children_mask) Hn Hk)
          as (cur' & Hout & Hkm); [rewrite <- Ecur; exact Hpre|].
        rewrite <- Ecur in Hout.
        exists (OList (fst la) :: objs'), cur'. split; [simpl; lia|].
        split; [exact Hout | exact Hkm].
      * apply (Hlook (OList (fst la) :: objs')).
      * exact Hcur.
      * rewrite lookup_app_r, Nat.sub_diag by lia. reflexivity.
      * now apply Hpost.
    + rewrite bind_Err. cbn [void].
      exists (OList (fst la) :: objs'), cur. split; [simpl; lia|]. split.
      * now rewrite list_insert_id by exact Hpre.
      * intros km [=].
  - assert (Hleaf : forall objs' v',
      reify fuel0 (pre ++ objs' ++ post) (fst (layout v (length pre))) = Ok v' ->
      exists cur',
        collect_ (HRef n) k (pre ++ objs' ++ post)
        = (void (m ← _properties_mask data population_name [(k, v')]; Ok (k, m)),
           <[n := ODict cur']> pre ++ objs' ++ post) /\
        forall km,
          (m ← _properties_mask data population_name [(k, v')]; Ok (k, m)) = Ok km ->
          cur' = done ++ (k, hval_of_mask (snd km)) :: rest_h /\ fst km = k).
    { intros objs' v' Hr.
      rewrite (collect_leaf _ n cur k _ v' Ek (Hlook objs') Hcur Hr). subst cur.
      now apply (entry_finish pre objs' post n done k (fst (layout v (length pre))) rest_h). }
    assert (Hself : reify fuel0 (pre ++ snd (layout v (length pre)) ++ post)
                      (fst (layout v (length pre))) = Ok v).
    { apply reify_layout; [apply placed_here | exact Hd0]. }
    destruct v as [a|t|bs|ids|subs|m];
      try (unfold mbind at 1, M_bind at 1;
           rewrite (bindM_Ok _ _ _ _ _ (Hget _));
           rewrite (bindM_Ok _ _ _ None (pre ++ [] ++ post)) by reflexivity;
           destruct (Hleaf [] _ Hself) as (cur' & Hout & Hkm);
           exists [], cur'; split; [reflexivity|]; split; [exact Hout | exact Hkm]).
    + rewrite layout_list in *. cbn [fst snd] in *.
      set (la := layout_all layout subs (S (length pre))) in *.
      unfold mbind at 1, M_bind at 1.
      rewrite (bindM_Ok _ _ _ _ _ (Hget _)).
      rewrite (bindM_Ok _ _ _ None (pre ++ (OList (fst la) :: snd la) ++ post)).
      2:{ unfold mapping_keys. rewrite lookup_app_r, Nat.sub_diag by lia. reflexivity. }
      destruct (Hleaf _ _ Hself) as (cur' & Hout & Hkm).
      exists (OList (fst la) :: snd la), cur'. split; [reflexivity|].
      split; [exact Hout | exact Hkm].
    + rewrite layout_dict in *. cbn [fst snd] in *.
      set (la := layout_all layout_entry m (S (length pre))) in *.
      unfold mbind at 1, M_bind at 1.
      rewrite (bindM_Ok _ _ _ _ _ (Hget _)).
      rewrite (bindM_Ok _ _ _ (Some (map fst m)) (pre ++ (ODict (fst la) :: snd la) ++ post)).
      2:{ unfold mapping_keys. rewrite lookup_app_r, Nat.sub_diag by lia.
          cbn [app lookup list_lookup]. unfold la. now rewrite layout_all_keys. }
      destruct (has_value_key (map fst m)).
      * rewrite Hpl. cbn [negb].
        destruct (Hleaf _ _ Hself) as (cur' & Hout & Hkm).
        exists (ODict (fst la) :: snd la), cur'. split; [reflexivity|].
        split; [exact Hout | exact Hkm].
      * destruct (node_level (VDict m) Hd Hd0 Hpl pre post) as (objs' & Hlen & Hrun & Hpost).
        rewrite layout_dict in Hlen, Hrun. cbn [fst snd] in Hlen, Hrun. fold la in Hlen, Hrun.
        rewrite Hrun.
        destruct (resolve_node data population_name (VDict m)) as [inner|e] eqn:Ei;
          cbn [void].
        -- rewrite bind_Ok. specialize (Hpost inner eq_refl).
           destruct fuel0 as [|fuel1] eqn:Ef; [cbn [depth] in Hd0; lia|].
           rewrite <- Ef in *.
           assert (Hr : reify fuel0 (pre ++ objs' ++ post) (HRef (length pre))
                        = Ok (VDict (map (fun km => (fst km, value_of_mask (snd km))) inner))).
           { rewrite Ef. apply reify_masks_dict.
             rewrite lookup_app_r, Nat.sub_diag by lia.
             rewrite lookup_app_l; [exact Hpost | now apply lookup_lt_Some in Hpost]. }
           destruct (Hleaf _ _ Hr) as (cur' & Hout & Hkm).
           exists objs', cur'. split; [exact Hlen|]. split; [exact Hout | exact Hkm].
        -- rewrite bind_Err. cbn [void]. exists objs', cur. split; [exact Hlen|]. split.
           ++ now rewrite list_insert_id by exact Hpre.
           ++ intros km [=].
Qed.

Lemma keys_loop (n : nat) rest_d : forall done (pre post : store),
  Forall (fun kv => (depth (snd kv) <= f)%nat /\ (depth (snd kv) <= fuel0)%nat /\
                    entry_plain kv = true) rest_d ->
  NoDup (map fst done ++ map fst rest_d) ->
  pre !! n = Some (ODict (done ++ fst (layout_all layout_entry rest_d (length pre)))) ->
  exists objs' cur',
    length objs' = length (snd (layout_all layout_entry rest_d (length pre))) /\
    forM_ (fun key =>
             traverse_children (traverse_queries_bottom_up f collect_) f (HRef n) key;;
             collect_ (HRef n) key) (map fst rest_d)
      (pre ++ snd (layout_all layout_entry rest_d (length pre)) ++ post)
    = (void (mapM rentry rest_d), <[n := ODict cur']> pre ++ objs' ++ post) /\
    forall ms, mapM rentry rest_d = Ok ms -> cur' = done ++ masks_dict ms.
Proof.
  induction rest_d as [|kv rest_d IH]; intros done pre post Hok Hnd Hpre;
    assert (Hn := lookup_lt_Some _ _ _ Hpre).
  - cbn [layout_all fst snd map forM_ mapM void] in *. exists [], done. split; [reflexivity|].
    rewrite app_nil_r in Hpre. split.
    + now rewrite list_insert_id by exact Hpre.
    + intros ms [= <-]. now rewrite app_nil_r.
  - apply Forall_cons in Hok as [(Hd & Hd0 & Hpl) Hok].
    rewrite layout_all_cons, layout_entry_eq in *. cbn [fst snd] in *.
    set (o1 := snd (layout (snd kv) (length pre))) in *.
    set (la := layout_all layout_entry rest_d (length pre + length o1)) in *.
    assert (Hk : ~ In (fst kv) (map fst done)).
    { cbn [map] in Hnd. apply NoDup_app in Hnd as (_ & Hdis & _).
      intros Hin. apply (Hdis (fst kv)); [now apply list_elem_of_In | left]. }
    destruct (entry_step kv n done (fst la) pre (snd la ++ post) Hd Hd0 Hpl Hk Hpre)
      as (objs1 & cur1 & Hlen1 & Hrun1 & Hkm).
    fold o1 in Hlen1, Hrun1.
    cbn [map forM_ mapM]. unfold mbind at 1, M_bind at 1.
    rewrite <- (app_assoc o1), Hrun1.
    destruct (resolve_entry data population_name kv) as [km|e] eqn:Ekm; cbn [void].
    + rewrite bind_Ok. destruct (Hkm km eq_refl) as [-> Hfst].
      assert (Elen : length (<[n := ODict (done ++ (fst kv, hval_of_mask (snd km)) :: fst la)]> pre
                             ++ objs1) = (length pre + length o1)%nat)
        by (rewrite length_app, length_insert; lia).
      pose proof (IH (done ++ [(fst kv, hval_of_mask (snd km))])
                    (<[n := ODict (done ++ (fst kv, hval_of_mask (snd km)) :: fst la)]> pre
                     ++ objs1) post Hok) as IH'.
      rewrite Elen in IH'. fold la in IH'.
      destruct IH' as (objs2 & cur2 & Hlen2 & Hrun2 & Hms).
      * rewrite map_app, <- app_assoc. exact Hnd.
      * rewrite lookup_app_l by (rewrite length_insert; exact Hn).
        rewrite list_lookup_insert_eq by exact Hn. now rewrite <- app_assoc.
      * rewrite <- !app_assoc in Hrun2. rewrite Hrun2.
        exists (objs1 ++ objs2), cur2. split; [rewrite !length_app; lia|]. split.
        -- rewrite insert_app_l by (rewrite length_insert; exact Hn).
           rewrite list_insert_insert_eq, <- !app_assoc.
           now destruct (mapM (resolve_entry data population_name) rest_d).
        -- intros ms H. apply bind_Ok_inv in H as (ms' & Hms' & [= <-]).
           rewrite (Hms ms' Hms'), <- app_assoc. cbn [masks_dict map app].
           now rewrite Hfst.
    + rewrite bind_Err. cbn [void]. exists (objs1 ++ snd la), cur1.
      split; [rewrite !length_app; lia|]. split.
      * now rewrite <- !app_assoc.
      * intros ms [=].
Qed.

Lemma node_step d :
  (depth (VDict d) <= S f)%nat -> (depth (VDict d) <= fuel0)%nat ->
  plain_query (VDict d) = true ->
  forall pre post : store,
    exists objs',
      length objs' = length (snd (layout (VDict d) (length pre))) /\
      traverse_queries_bottom_up (S f) collect_ (fst (layout (VDict d) (length pre)))
        (pre ++ snd (layout (VDict d) (length pre)) ++ post)
      = (void (rnode (VDict d)), pre ++ objs' ++ post) /\
      forall entries, rnode (VDict d) = Ok entries ->
        objs' !! 0%nat = Some (ODict (masks_dict entries)).
Proof.
  intros Hd Hd0 Hpl pre post. rewrite layout_dict, resolve_node_dict. cbn [fst snd].
  rewrite plain_query_dict in Hpl. apply andb_true_iff in Hpl as [Hnd Hpl].
  apply bool_decide_eq_true_1 in Hnd. rewrite forallb_forall in Hpl.
  set (la := layout_all layout_entry d (S (length pre))).
  assert (Elen : length (pre ++ [ODict (fst la)]) = S (length pre))
    by (rewrite length_app; simpl; lia).
  pose proof (keys_loop (length pre) d [] (pre ++ [ODict (fst la)]) post) as Hloop.
  rewrite Elen in Hloop. fold la in Hloop. cbn [app map] in Hloop.
  destruct Hloop as (objs' & cur' & Hlen & Hrun & Hms).
  - apply Forall_forall. intros kv Hkv%list_elem_of_In. repeat split.
    + now apply (depth_entry d).
    + assert (H := depth_entry d kv (fuel0 - 1)). cbn [depth] in Hd0 |- *.
      assert (Hx : (depth (snd kv) <= fuel0 - 1)%nat)
        by (apply H; [cbn [depth]; lia | exact Hkv]). lia.
    + now apply Hpl.
  - exact Hnd.
  - now apply list_lookup_middle.
  - rewrite <- !app_assoc in Hrun. cbn [app] in Hrun.
    exists (ODict cur' :: objs'). split; [simpl; lia|]. split.
    + cbn [traverse_queries_bottom_up].
      rewrite (bindM_Ok _ _ _ (map fst d) (pre ++ (ODict (fst la) :: snd la) ++ post)).
      2:{ unfold dict_keys.
          rewrite (bindM_Ok _ _ _ (fst la) (pre ++ (ODict (fst la) :: snd la) ++ post)).
          - unfold la. now rewrite layout_all_keys.
          - unfold get_dict. rewrite lookup_app_r, Nat.sub_diag by lia. reflexivity. }
      cbn [app]. rewrite Hrun. f_equal.
      rewrite insert_app_r_alt, Nat.sub_diag by lia. cbn [insert list_insert].
      now rewrite <- app_assoc.
    + intros entries He. rewrite (Hms entries He). reflexivity.
Qed.
End Level.

(** The traversal of a private copy computes [resolve_node], in place. *)
Lemma traverse_resolves f : forall v,
  (depth v <= f)%nat -> (depth v <= fuel0)%nat -> plain_query v = true ->
  forall pre post : store,
    exists objs',
      length objs' = length (snd (layout v (length pre))) /\
      traverse_queries_bottom_up f collect_ (fst (layout v (length pre)))
        (pre ++ snd (layout v (length pre)) ++ post)
      = (void (rnode v), pre ++ objs' ++ post) /\
      forall entries, rnode v = Ok entries ->
        objs' !! 0%nat = Some (ODict (masks_dict entries)).
Proof.
  induction f as [|f IH]; intros v Hd Hd0 Hpl.
  - destruct v; try discriminate. cbn [depth] in Hd. lia.
  - destruct (plain_query_is_dict v Hpl) as [d ->]. now apply node_step.
Qed.
End ResolveOnCopy.

(** ** [resolve_ids] as a function of the query *)

Lemma resolve_ids_run data population_name v (s : store) fuel :
  unique_keys v = true -> plain_query v = true -> (depth v < fuel)%nat ->
  fst (resolve_ids fuel data population_name (fst (alloc v s)) (snd (alloc v s)))
  = resolve_query data population_name v.
Proof.
  intros Hu Hpl Hd. destruct (alloc v s) as [h s0] eqn:Ea. cbn [fst snd].
  destruct (deepcopy_layout v Hu s h s0 fuel [] s0 Ea) as (memo' & Hcopy & _);
    [lia | reflexivity | intros l y [] |].
  unfold resolve_ids. rewrite (bindM_Ok _ _ _ _ _ Hcopy). cbn beta iota.
  destruct (traverse_resolves data population_name fuel fuel v ltac:(lia) ltac:(lia) Hpl
              s0 []) as (objs' & Hlen & Hrun & Hpost).
  rewrite !app_nil_r in Hrun. unfold mbind at 1, M_bind at 1. rewrite Hrun.
  unfold resolve_query.
  destruct (resolve_node data population_name v) as [entries|e]; cbn [void fst];
    [|reflexivity].
  rewrite bind_Ok. destruct (plain_query_is_dict v Hpl) as [d ->].
  rewrite layout_dict. cbn [fst].
  assert (Hl : (s0 ++ objs') !! length s0 = Some (ODict (masks_dict entries))).
  { rewrite lookup_app_r, Nat.sub_diag by lia. now apply Hpost. }
  unfold mbind, M_bind. rewrite (merge_resolved _ _ _ Hl).
  now destruct (merge_masks entries).
Qed.

(** X14: on a query tree the traversal accepts, and with fuel beyond
    its depth, [resolve_ids] returns what [resolve_query] computes from
    the tree, or raises the same exception: the masks of the entries of
    each dictionary are combined by [_logical_and], the queries listed
    under [$or] by [_logical_or] and those under [$and] by
    [_logical_and], an entry that is neither being matched by
    [_properties_mask] on that entry alone. *)
Theorem resolve_ids_computes_query :
  forall data population_name (queries : value) (s : store) fuel,
    unique_keys queries = true -> plain_query queries = true ->
    (depth queries < fuel)%nat ->
    fst (resolve_ids fuel data population_name
           (fst (alloc queries s)) (snd (alloc queries s)))
    = resolve_query data population_name queries.
Proof.
  intros data pop queries s fuel Hu Hpl Hd.
  rewrite (resolve_ids_run data pop queries s fuel Hu Hpl Hd). reflexivity.
Qed.

Lemma resolve_ids_computes_query_witness :
  let q := VDict [("$or", VList [VDict [("layer", VScalar (SInt 2))];
                                 VDict [("mtype", VDict [("$regex", VScalar (SStr "a.*"))]);
                                        ("x", VTuple [SInt 2; SInt 5])]]);
                  ("node_id", VIds [0; 2; 5; 9])] in
  fst (resolve_ids 8 example_table "default" (fst (alloc q [])) (snd (alloc q [])))
  = resolve_query example_table "default" q /\
  resolve_query example_table "default" q = Ok [true; true; true; false; false].
Proof.
  intros q. split.
  - apply (resolve_ids_computes_query example_table "default" q [] 8);
      [vm_compute; reflexivity | vm_compute; reflexivity | vm_compute; lia].
  - vm_compute. reflexivity.
Defined.

(** ** How [resolve_ids] combines queries *)

Lemma resolve_ids_of_query data population_name v fuel :
  unique_keys v = true -> plain_query v = true -> (depth v < fuel)%nat ->
  resolve_ids_of fuel data population_name v = resolve_query data population_name v.
Proof. intros Hu Hpl Hd. now apply resolve_ids_run. Qed.

Lemma resolve_query_inv data population_name v r :
  resolve_query data population_name v = Ok r ->
  exists entries m,
    resolve_node data population_name v = Ok entries /\
    merge_masks entries = Ok m /\ r = broadcast (len data) m.
Proof.
  unfold resolve_query. intros H. apply bind_Ok_inv in H as (entries & He & H).
  apply bind_Ok_inv in H as (m & Hm & [= <-]). eauto.
Qed.

Lemma resolve_query_length data population_name v r :
  wf_table data -> unique_keys v = true -> plain_query v = true ->
  resolve_query data population_name v = Ok r -> length r = len data.
Proof.
  intros Hwf Hu Hpl Hr.
  assert (H := resolve_ids_run data population_name v [] (S (depth v)) Hu Hpl ltac:(lia)).
  rewrite Hr in H.
  destruct (resolve_ids (S (depth v)) data population_name (fst (alloc v []))
              (snd (alloc v []))) as [r' s'] eqn:E.
  cbn [fst] in H. subst r'.
  now destruct (resolve_ids_Ok _ _ _ _ _ _ _ Hwf E).
Qed.

Lemma broadcast_valid N m : length (broadcast N m) = N -> valid_mask N m.
Proof. destruct m; simpl; auto. Qed.

Lemma mask_row_broadcast N m (i : nat) : mask_row N m i = nth i (broadcast N m) false.
Proof. reflexivity. Qed.

Lemma mapM_Ok_Forall2 {A B} (f : A -> result B) l l' :
  Forall2 (fun a b => f a = Ok b) l l' -> mapM f l = Ok l'.
Proof.
  induction 1 as [|a b l l' Hab _ IH]; cbn [mapM]; [reflexivity|].
  now rewrite Hab, bind_Ok, IH.
Qed.

Lemma existsb_Forall2 {A B} (f : A -> bool) (g : B -> bool) l l' :
  Forall2 (fun a b => f a = g b) l l' -> existsb f l = existsb g l'.
Proof. induction 1 as [|a b l l' Hab _ IH]; simpl; congruence. Qed.

Lemma forallb_Forall2 {A B} (f : A -> bool) (g : B -> bool) l l' :
  Forall2 (fun a b => f a = g b) l l' -> forallb f l = forallb g l'.
Proof. induction 1 as [|a b l l' Hab _ IH]; simpl; congruence. Qed.

Lemma Forall2_impl_In {A B} (P Q : A -> B -> Prop) l l' :
  Forall2 P l l' -> (forall a b, In a l -> P a b -> Q a b) -> Forall2 Q l l'.
Proof.
  induction 1 as [|a b l l' Hab _ IH]; intros HPQ; constructor.
  - apply HPQ; [now left | exact Hab].
  - apply IH. intros a' b' Hin. apply HPQ. now right.
Qed.

(** The queries listed under [$or] or [$and], each resolved. *)
Lemma resolved_children data population_name qs rs :
  wf_table data ->
  Forall (fun q => unique_keys q = true /\ plain_query q = true) qs ->
  Forall2 (fun q r => resolve_query data population_name q = Ok r) qs rs ->
  exists es ms,
    mapM (resolve_node data population_name) qs = Ok es /\
    mapM merge_masks es = Ok ms /\
    Forall (valid_mask (len data)) ms /\
    Forall2 (fun m r => forall i : nat, mask_row (len data) m i = nth i r false) ms rs.
Proof.
  intros Hwf Hok Hall. induction Hall as [|q r qs rs Hq _ IH].
  - exists [], []. repeat split; constructor.
  - apply Forall_cons in Hok as [[Hu Hpl] Hok].
    destruct (IH Hok) as (es & ms & Hes & Hms & Hval & Hrows).
    assert (Hlen := resolve_query_length data population_name q r Hwf Hu Hpl Hq).
    destruct (resolve_query_inv _ _ _ _ Hq) as (e & m & He & Hm & ->).
    exists (e :: es), (m :: ms). cbn [mapM]. rewrite He, bind_Ok, Hes, bind_Ok.
    rewrite Hm, bind_Ok, Hms, bind_Ok. repeat split.
    + constructor; [now apply broadcast_valid | exact Hval].
    + constructor; [reflexivity | exact Hrows].
Qed.

Lemma logical_and_single N m :
  valid_mask N m ->
  exists m', _logical_and [m] = Ok m' /\ valid_mask N m' /\
    forall i : nat, (i < N)%nat -> mask_row N m' i = mask_row N m i.
Proof.
  intros Hm. destruct (logical_and_spec N [m]) as (m' & Hand & Hval & Hrows);
    [now constructor|].
  exists m'. split; [exact Hand|]. split; [exact Hval|].
  intros i Hi. rewrite (Hrows i Hi). simpl. now rewrite andb_true_r.
Qed.

Lemma depth_or_children k qs q fuel :
  (depth (VDict [(k, VList qs)]) < fuel)%nat -> In q qs -> (depth q < fuel)%nat.
Proof.
  intros Hd Hq. cbn [depth map fold_right snd] in Hd.
  assert (H := depth_bound depth qs). rewrite Forall_forall in H.
  specialize (H q (proj2 (list_elem_of_In _ _) Hq)). simpl in H. lia.
Qed.

(** X15: the rows selected by [{"$or": [q1, ..., qn]}] are the rows
    selected by one of the queries at least, when [resolve_ids] returns
    on each of them; the empty list selects no row. *)
Theorem resolve_ids_or :
  forall data population_name qs rs fuel,
    wf_table data ->
    Forall (fun q => unique_keys q = true /\ plain_query q = true) qs ->
    (depth (VDict [(OR_KEY, VList qs)]) < fuel)%nat ->
    Forall2 (fun q r => resolve_ids_of fuel data population_name q = Ok r) qs rs ->
    exists r,
      resolve_ids_of fuel data population_name (VDict [(OR_KEY, VList qs)]) = Ok r /\
      length r = len data /\
      forall i : nat, (i < len data)%nat ->
        nth i r false = existsb (fun r' => nth i r' false) rs.
Proof.
  intros data pop qs rs fuel Hwf Hok Hd Hall.
  assert (Hq : Forall2 (fun q r => resolve_query data pop q = Ok r) qs rs).
  { apply (Forall2_impl_In _ _ _ _ Hall). intros q r Hin Hr.
    rewrite Forall_forall in Hok.
    destruct (Hok q (proj2 (list_elem_of_In _ _) Hin)) as [Hu Hpl].
    rewrite <- Hr. symmetry. apply resolve_ids_of_query; auto.
    now apply (depth_or_children OR_KEY qs). }
  destruct (resolved_children data pop qs rs Hwf Hok Hq) as (es & ms & Hes & Hms & Hval & Hrows).
  destruct (logical_or_spec (len data) ms Hval) as (m & Hor & Hm & Hm_rows).
  destruct (logical_and_single (len data) m Hm) as (m' & Hand & Hm' & Hm'_rows).
  exists (broadcast (len data) m'). split; [|split].
  - rewrite resolve_ids_of_query; [| | |exact Hd].
    + unfold resolve_query. rewrite resolve_node_dict. cbn [mapM].
      unfold resolve_entry. cbn [fst snd mem existsb String.eqb orb].
      change (String.eqb OR_KEY OR_KEY) with true. cbn [orb].
      rewrite Hes, bind_Ok, Hms, bind_Ok, Hor, !bind_Ok.
      unfold merge_masks. cbn [map snd]. now rewrite Hand, bind_Ok.
    + cbn [unique_keys map fst snd forallb]. rewrite andb_true_r.
      apply andb_true_iff. split; [apply bool_decide_eq_true_2; apply NoDup_singleton|].
      apply forallb_forall. intros q Hin. rewrite Forall_forall in Hok.
      now apply (Hok q (proj2 (list_elem_of_In _ _) Hin)).
    + rewrite plain_query_dict. cbn [map fst forallb]. rewrite andb_true_r.
      apply andb_true_iff. split; [apply bool_decide_eq_true_2; apply NoDup_singleton|].
      unfold entry_plain. cbn [fst snd]. change (mem OR_KEY [OR_KEY; AND_KEY]) with true.
      cbn iota. apply forallb_forall. intros q Hin. rewrite Forall_forall in Hok.
      now apply (Hok q (proj2 (list_elem_of_In _ _) Hin)).
  - now apply broadcast_length.
  - intros i Hi. rewrite <- mask_row_broadcast, (Hm'_rows i Hi), (Hm_rows i Hi).
    apply existsb_Forall2. eapply Forall2_impl; [exact Hrows|]. intros m0 r0 H. apply H.
Qed.

Lemma resolve_ids_or_witness :
  let qs := [VDict [("layer", VScalar (SInt 2))];
             VDict [("mtype", VList [VScalar (SStr "a")])]] in
  exists r,
    resolve_ids_of 8 example_table "default" (VDict [("$or", VList qs)]) = Ok r /\
    length r = 5%nat /\
    forall i : nat, (i < 5)%nat ->
      nth i r false
      = existsb (fun r' => nth i r' false)
          [[true; false; true; false; false]; [false; true; false; false; false]].
Proof.
  intros qs.
  apply (resolve_ids_or example_table "default" qs
           [[true; false; true; false; false]; [false; true; false; false; false]] 8).
  - split; [apply NoDup_by_compute; vm_compute; reflexivity | repeat constructor].
  - repeat constructor.
  - vm_compute. lia.
  - repeat constructor; vm_compute; reflexivity.
Defined.

Lemma depth_and_children qs q fuel :
  (depth (VDict [(AND_KEY, VList qs)]) < fuel)%nat -> In q qs -> (depth q < fuel)%nat.
Proof. apply depth_or_children. Qed.

(** X16: the rows selected by [{"$and": [q1, ..., qn]}] are the rows
    selected by every one of the queries, when [resolve_ids] returns on
    each of them; the empty list selects every row. *)
Theorem resolve_ids_and :
  forall data population_name qs rs fuel,
    wf_table data ->
    Forall (fun q => unique_keys q = true /\ plain_query q = true) qs ->
    (depth (VDict [(AND_KEY, VList qs)]) < fuel)%nat ->
    Forall2 (fun q r => resolve_ids_of fuel data population_name q = Ok r) qs rs ->
    exists r,
      resolve_ids_of fuel data population_name (VDict [(AND_KEY, VList qs)]) = Ok r /\
      length r = len data /\
      forall i : nat, (i < len data)%nat ->
        nth i r false = forallb (fun r' => nth i r' false) rs.
Proof.
  intros data pop qs rs fuel Hwf Hok Hd Hall.
  assert (Hq : Forall2 (fun q r => resolve_query data pop q = Ok r) qs rs).
  { apply (Forall2_impl_In _ _ _ _ Hall). intros q r Hin Hr.
    rewrite Forall_forall in Hok.
    destruct (Hok q (proj2 (list_elem_of_In _ _) Hin)) as [Hu Hpl].
    rewrite <- Hr. symmetry. apply resolve_ids_of_query; auto.
    now apply (depth_and_children qs). }
  destruct (resolved_children data pop qs rs Hwf Hok Hq) as (es & ms & Hes & Hms & Hval & Hrows).
  destruct (logical_and_spec (len data) ms Hval) as (m & Hor & Hm & Hm_rows).
  destruct (logical_and_single (len data) m Hm) as (m' & Hand & Hm' & Hm'_rows).
  exists (broadcast (len data) m'). split; [|split].
  - rewrite resolve_ids_of_query; [| | |exact Hd].
    + unfold resolve_query. rewrite resolve_node_dict. cbn [mapM].
      unfold resolve_entry. cbn [fst snd].
      change (mem AND_KEY [OR_KEY; AND_KEY]) with true.
      change (String.eqb AND_KEY OR_KEY) with false. cbn iota.
      rewrite Hes, bind_Ok, Hms, bind_Ok, Hor, !bind_Ok.
      unfold merge_masks. cbn [map snd]. now rewrite Hand, bind_Ok.
    + cbn [unique_keys map fst snd forallb]. rewrite andb_true_r.
      apply andb_true_iff. split; [apply bool_decide_eq_true_2; apply NoDup_singleton|].
      apply forallb_forall. intros q Hin. rewrite Forall_forall in Hok.
      now apply (Hok q (proj2 (list_elem_of_In _ _) Hin)).
    + rewrite plain_query_dict. cbn [map fst forallb]. rewrite andb_true_r.
      apply andb_true_iff. split; [apply bool_decide_eq_true_2; apply NoDup_singleton|].
      unfold entry_plain. cbn [fst snd]. change (mem AND_KEY [OR_KEY; AND_KEY]) with true.
      cbn iota. apply forallb_forall. intros q Hin. rewrite Forall_forall in Hok.
      now apply (Hok q (proj2 (list_elem_of_In _ _) Hin)).
  - now apply broadcast_length.
  - intros i Hi. rewrite <- mask_row_broadcast, (Hm'_rows i Hi), (Hm_rows i Hi).
    apply forallb_Forall2. eapply Forall2_impl; [exact Hrows|]. intros m0 r0 H. apply H.
Qed.

Lemma resolve_ids_and_witness :
  let qs := [VDict [("layer", VScalar (SInt 2))];
             VDict [("mtype", VList [VScalar (SStr "ab"); VScalar (SStr "b")])]] in
  exists r,
    resolve_ids_of 8 example_table "default" (VDict [("$and", VList qs)]) = Ok r /\
    length r = 5%nat /\
    forall i : nat, (i < 5)%nat ->
      nth i r false
      = forallb (fun r' => nth i r' false)
          [[true; false; true; false; false]; [true; false; true; false; false]].
Proof.
  intros qs.
  apply (resolve_ids_and example_table "default" qs
           [[true; false; true; false; false]; [true; false; true; false; false]] 8).
  - split; [apply NoDup_by_compute; vm_compute; reflexivity | repeat constructor].
  - repeat constructor.
  - vm_compute. lia.
  - repeat constructor; vm_compute; reflexivity.
Defined.

(** X17: the empty query selects every row. *)
Theorem resolve_ids_empty_query :
  forall data population_name fuel,
    (1 < fuel)%nat ->
    resolve_ids_of fuel data population_name (VDict []) = Ok (repeat true (len data)).
Proof.
  intros data pop fuel Hf.
  rewrite resolve_ids_of_query; [reflexivity | reflexivity | reflexivity|].
  cbn [depth map fold_right]. lia.
Qed.

Lemma resolve_ids_empty_query_witness :
  resolve_ids_of 2 example_table "default" (VDict []) = Ok [true; true; true; true; true].
Proof. apply (resolve_ids_empty_query example_table "default" 2). lia. Defined.

Lemma logical_and_one m : _logical_and [m] = Ok m.
Proof. now destruct m as [[|]|v]. Qed.

(** X18: on a query of one entry whose key is not [$or] or [$and] and
    whose value is not a mapping, [resolve_ids] returns the mask of
    [_properties_mask] for that entry, one boolean per row, or raises
    the exception [_properties_mask] raises. *)
Theorem resolve_ids_single_entry :
  forall data population_name P V fuel,
    mem P [OR_KEY; AND_KEY] = false ->
    (forall d, V <> VDict d) ->
    unique_keys V = true ->
    (depth (VDict [(P, V)]) < fuel)%nat ->
    resolve_ids_of fuel data population_name (VDict [(P, V)])
    = (m ← _properties_mask data population_name [(P, V)];
       Ok (broadcast (len data) m)).
Proof.
  intros data pop P V fuel HP HV Hu Hd.
  rewrite resolve_ids_of_query; [| | |exact Hd].
  - unfold resolve_query. rewrite resolve_node_dict. cbn [mapM].
    unfold resolve_entry. cbn [fst snd]. rewrite HP.
    assert (E : match V with
                | VDict m' =>
                    if has_value_key (map fst m') then
                      if negb (only_value_keys (map fst m'))
                      then Err (QueryError value_operators_mixed)
                      else _properties_mask data pop [(P, V)]
                    else
                      inner ← resolve_node data pop V;
                      _properties_mask data pop
                        [(P, VDict (map (fun km => (fst km, value_of_mask (snd km))) inner))]
                | _ => _properties_mask data pop [(P, V)]
                end = _properties_mask data pop [(P, V)]).
    { destruct V; try reflexivity. now destruct (HV d). }
    rewrite E. destruct (_properties_mask data pop [(P, V)]) as [m|e]; [|reflexivity].
    rewrite !bind_Ok. unfold merge_masks. cbn [map snd].
    now rewrite logical_and_one, bind_Ok.
  - cbn [unique_keys map fst snd forallb]. rewrite Hu.
    apply andb_true_iff. split; [apply bool_decide_eq_true_2; apply NoDup_singleton | reflexivity].
  - rewrite plain_query_dict. cbn [map fst forallb]. rewrite andb_true_r.
    apply andb_true_iff. split; [apply bool_decide_eq_true_2; apply NoDup_singleton|].
    unfold entry_plain. cbn [fst snd]. rewrite HP. destruct V; try reflexivity.
    now destruct (HV d).
Qed.

Lemma resolve_ids_single_entry_witness :
  resolve_ids_of 8 example_table "default" (VDict [("x", VTuple [SInt 2; SInt 5])])
  = (m ← _properties_mask example_table "default" [("x", VTuple [SInt 2; SInt 5])];
     Ok (broadcast (len example_table) m)).
Proof.
  apply (resolve_ids_single_entry example_table "default" "x" (VTuple [SInt 2; SInt 5]) 8);
    [reflexivity | discriminate | reflexivity | vm_compute; lia].
Defined.

Lemma mapM_all {A B} (f : A -> result B) (P : B -> Prop) l : forall l',
  mapM f l = Ok l' -> Forall (fun a => forall b, f a = Ok b -> P b) l -> Forall P l'.
Proof.
  induction l as [|a l IH]; intros l'; cbn [mapM].
  - intros [= <-] _. constructor.
  - intros H Hall. apply bind_Ok_inv in H as (b & Hb & H).
    apply bind_Ok_inv in H as (bs & Hbs & [= <-]).
    apply Forall_cons in Hall as [Ha Hall]. constructor; auto.
Qed.

(** Every mask [resolve_node] gives has one entry per row. *)
Lemma resolve_node_valid data population_name :
  wf_table data ->
  forall v,
    (forall entries, resolve_node data population_name v = Ok entries ->
       Forall (fun km => valid_mask (len data) (snd km)) entries) /\
    (forall subs, v = VList subs ->
       Forall (fun q => forall entries, resolve_node data population_name q = Ok entries ->
                 Forall (fun km => valid_mask (len data) (snd km)) entries) subs).
Proof.
  intros Hwf v.
  induction v as [a|l|bs|ids|l IH|d IH] using value_nested_ind;
    try solve [split; [intros entries [=] | intros subs [=]]].
  - split; [intros entries [=]|]. intros subs [= <-].
    eapply Forall_impl; [exact IH|]. intros q [H _]. exact H.
  - split; [|intros subs [=]]. intros entries He. rewrite resolve_node_dict in He.
    apply (mapM_all _ _ _ _ He). eapply Forall_impl; [exact IH|].
    intros [k v] [Hnode Hlist] km Hkm. cbn [fst snd] in *.
    unfold resolve_entry in Hkm. cbn [fst snd] in Hkm.
    apply bind_Ok_inv in Hkm as (m & Hm & [= <-]). cbn [snd].
    destruct (mem k [OR_KEY; AND_KEY]).
    + destruct v as [| | | |subs|]; try discriminate.
      apply bind_Ok_inv in Hm as (children & Hc & Hm).
      apply bind_Ok_inv in Hm as (cmask & Hcm & Hm).
      assert (Hvalid : Forall (valid_mask (len data)) cmask).
      { apply (mapM_all _ _ _ _ Hcm).
        apply (mapM_all _ _ _ _ Hc). eapply Forall_impl; [exact (Hlist subs eq_refl)|].
        intros q Hq c Hqc m0 Hm0. unfold merge_masks in Hm0.
        apply (logical_and_valid (len data) (map snd c)); [|exact Hm0].
        apply Forall_map. exact (Hq c Hqc). }
      destruct (String.eqb k OR_KEY).
      * now apply (logical_or_valid (len data) cmask).
      * now apply (logical_and_valid (len data) cmask).
    + destruct v as [| | | | |m'];
        try (now apply (properties_mask_valid data population_name _ m Hwf Hm)).
      destruct (has_value_key (map fst m')).
      * destruct (negb (only_value_keys (map fst m'))); [discriminate|].
        now apply (properties_mask_valid data population_name _ m Hwf Hm).
      * apply bind_Ok_inv in Hm as (inner & _ & Hm).
        now apply (properties_mask_valid data population_name _ m Hwf Hm).
Qed.

Lemma mapM_app {A B} (f : A -> result B) l1 l2 b1 b2 :
  mapM f l1 = Ok b1 -> mapM f l2 = Ok b2 -> mapM f (l1 ++ l2) = Ok (b1 ++ b2).
Proof.
  revert b1. induction l1 as [|a l1 IH]; intros b1; cbn [mapM app].
  - now intros [= <-].
  - intros H H2. apply bind_Ok_inv in H as (b & Hb & H).
    apply bind_Ok_inv in H as (bs & Hbs & [= <-]).
    now rewrite Hb, bind_Ok, (IH bs Hbs H2), bind_Ok.
Qed.

Lemma fold_max_app l1 l2 :
  fold_right Nat.max 0%nat (l1 ++ l2)
  = Nat.max (fold_right Nat.max 0%nat l1) (fold_right Nat.max 0%nat l2).
Proof. induction l1 as [|a l1 IH]; simpl; [reflexivity|]. rewrite IH. lia. Qed.

Lemma dict_parts d1 d2 fuel :
  unique_keys (VDict (d1 ++ d2)) = true -> plain_query (VDict (d1 ++ d2)) = true ->
  (depth (VDict (d1 ++ d2)) < fuel)%nat ->
  (unique_keys (VDict d1) = true /\ plain_query (VDict d1) = true /\
   (depth (VDict d1) < fuel)%nat) /\
  (unique_keys (VDict d2) = true /\ plain_query (VDict d2) = true /\
   (depth (VDict d2) < fuel)%nat).
Proof.
  intros Hu Hpl Hd. rewrite plain_query_dict in Hpl. cbn [unique_keys depth] in *.
  rewrite !plain_query_dict.
  apply andb_true_iff in Hu as [Hnd Hu]. apply andb_true_iff in Hpl as [_ Hpl].
  apply bool_decide_eq_true_1 in Hnd.
  rewrite map_app in Hnd, Hd. rewrite forallb_app in Hu, Hpl. rewrite fold_max_app in Hd.
  apply andb_true_iff in Hu as [Hu1 Hu2]. apply andb_true_iff in Hpl as [Hp1 Hp2].
  apply NoDup_app in Hnd as (Hn1 & _ & Hn2).
  rewrite Hu1, Hu2, Hp1, Hp2, !andb_true_r.
  repeat split; try (apply bool_decide_eq_true_2; assumption); lia.
Qed.

(** X19: the entries of a dictionary are combined by AND: the rows
    selected by a query are the rows selected both by the query made of
    its first entries and by the query made of the remaining ones, when
    [resolve_ids] returns on both. *)
Theorem resolve_ids_conjunction :
  forall data population_name d1 d2 r1 r2 fuel,
    wf_table data ->
    unique_keys (VDict (d1 ++ d2)) = true -> plain_query (VDict (d1 ++ d2)) = true ->
    (depth (VDict (d1 ++ d2)) < fuel)%nat ->
    resolve_ids_of fuel data population_name (VDict d1) = Ok r1 ->
    resolve_ids_of fuel data population_name (VDict d2) = Ok r2 ->
    exists r,
      resolve_ids_of fuel data population_name (VDict (d1 ++ d2)) = Ok r /\
      length r = len data /\
      forall i : nat, (i < len data)%nat ->
        nth i r false = nth i r1 false && nth i r2 false.
Proof.
  intros data pop d1 d2 r1 r2 fuel Hwf Hu Hpl Hd H1 H2.
  destruct (dict_parts d1 d2 fuel Hu Hpl Hd) as [(Hu1 & Hp1 & Hd1) (Hu2 & Hp2 & Hd2)].
  rewrite resolve_ids_of_query in H1, H2 by assumption.
  rewrite resolve_ids_of_query by assumption.
  destruct (resolve_query_inv _ _ _ _ H1) as (e1 & m1 & He1 & Hm1 & ->).
  destruct (resolve_query_inv _ _ _ _ H2) as (e2 & m2 & He2 & Hm2 & ->).
  assert (Hv1 := proj1 (resolve_node_valid data pop Hwf (VDict d1)) e1 He1).
  assert (Hv2 := proj1 (resolve_node_valid data pop Hwf (VDict d2)) e2 He2).
  rewrite resolve_node_dict in He1, He2.
  unfold resolve_query. rewrite resolve_node_dict, (mapM_app _ _ _ _ _ He1 He2), bind_Ok.
  unfold merge_masks in *. rewrite map_app.
  apply Forall_map in Hv1, Hv2.
  destruct (logical_and_spec (len data) (map snd e1) Hv1) as (m1' & E1 & _ & Hr1).
  destruct (logical_and_spec (len data) (map snd e2) Hv2) as (m2' & E2 & _ & Hr2).
  rewrite Hm1 in E1. rewrite Hm2 in E2. injection E1 as <-. injection E2 as <-.
  destruct (logical_and_spec (len data) (map snd e1 ++ map snd e2)) as (m & E & Hm & Hr);
    [now apply Forall_app|].
  rewrite E, bind_Ok. exists (broadcast (len data) m).
  split; [reflexivity|]. split; [now apply broadcast_length|].
  intros i Hi. rewrite <- !mask_row_broadcast, (Hr i Hi), forallb_app.
  now rewrite <- (Hr1 i Hi), <- (Hr2 i Hi).
Qed.

Lemma resolve_ids_conjunction_witness :
  let d1 := [("node_id", VIds [0; 2; 5])] in
  let d2 := [("layer", VScalar (SInt 2)); ("edge_id", VIds [5; 9])] in
  exists r,
    resolve_ids_of 8 example_table "default" (VDict (d1 ++ d2)) = Ok r /\
    length r = 5%nat /\
    forall i : nat, (i < 5)%nat ->
      nth i r false
      = nth i [true; true; true; false; false] false &&
        nth i [false; false; true; false; false] false.
Proof.
  intros d1 d2.
  apply (resolve_ids_conjunction example_table "default" d1 d2
           [true; true; true; false; false] [false; false; true; false; false] 8).
  - split; [apply NoDup_by_compute; vm_compute; reflexivity | repeat constructor].
  - vm_compute. reflexivity.
  - vm_compute. reflexivity.
  - vm_compute. lia.
  - vm_compute. reflexivity.
  - vm_compute. reflexivity.
Defined.

Lemma entry_of_result {A B} (f : A -> result B) l : forall l' a,
  mapM f l = Ok l' -> In a l -> exists b, f a = Ok b /\ In b l'.
Proof.
  induction l as [|x l IH]; intros l' a; cbn [mapM]; [intros _ []|].
  intros H Hin. apply bind_Ok_inv in H as (b & Hb & H).
  apply bind_Ok_inv in H as (bs & Hbs & [= <-]).
  destruct Hin as [->|Hin].
  - exists b. split; [exact Hb | now left].
  - destruct (IH bs a Hbs Hin) as (b' & Hb' & Hin'). exists b'. split; [exact Hb' | now right].
Qed.

Lemma merge_masks_false entries km :
  In km entries -> snd km = MBool false -> merge_masks entries = Ok (MBool false).
Proof.
  intros Hin Hkm. unfold merge_masks, _logical_and.
  assert (Hs := and_scan_spec (map snd entries) []).
  destruct (and_scan (map snd entries) []); [|reflexivity].
  destruct Hs as [Hn _]. exfalso. apply Hn. rewrite <- Hkm. now apply in_map.
Qed.

Lemma properties_mask_other_population data population_name queries :
  NoDup (df_index data) ->
  population_mismatch population_name queries ->
  _properties_mask data population_name queries = Ok (MBool false).
Proof.
  intros Hnd (populations & Hget & Hnone & Hset).
  unfold _properties_mask.
  destruct (negb (is_nil _)); [reflexivity|].
  unfold _circuit_mask, dict_pop. rewrite Hget, Hnone.
  rewrite Hset, !bind_Ok. cbn [negb].
  rewrite positional_mask_no_ids by assumption.
  rewrite !bind_Ok. cbn [selects_nothing].
  now rewrite existsb_id_repeat_false.
Qed.

(** When one entry of the query resolves to [False], [resolve_ids], if
    it returns, selects no row. *)
Lemma resolve_ids_of_false_entry data population_name d kv r fuel :
  unique_keys (VDict d) = true -> plain_query (VDict d) = true ->
  (depth (VDict d) < fuel)%nat ->
  In kv d ->
  (forall km, resolve_entry data population_name kv = Ok km -> snd km = MBool false) ->
  resolve_ids_of fuel data population_name (VDict d) = Ok r ->
  r = repeat false (len data).
Proof.
  intros Hu Hpl Hd Hin Hfalse Hr. rewrite resolve_ids_of_query in Hr by assumption.
  destruct (resolve_query_inv _ _ _ _ Hr) as (entries & m & He & Hm & ->).
  rewrite resolve_node_dict in He.
  destruct (entry_of_result _ _ _ _ He Hin) as (km & Hkm & Hin').
  rewrite (merge_masks_false entries km Hin' (Hfalse km Hkm)) in Hm.
  now injection Hm as <-.
Qed.

(** X20: in [resolve_ids], a dictionary with a key that is neither a
    column of the table nor a reserved key selects no row, whatever the
    value under that key, provided the other entries of the query raise
    nothing. *)
Theorem resolve_ids_unknown_key :
  forall data population_name d key V r fuel,
    unique_keys (VDict d) = true -> plain_query (VDict d) = true ->
    (depth (VDict d) < fuel)%nat ->
    In (key, V) d ->
    mem key (map fst (df_columns data)) = false ->
    mem key ALL_KEYS = false ->
    resolve_ids_of fuel data population_name (VDict d) = Ok r ->
    r = repeat false (len data).
Proof.
  intros data pop d key V r fuel Hu Hpl Hd Hin Hcol Hres Hr.
  apply (resolve_ids_of_false_entry data pop d (key, V) r fuel Hu Hpl Hd Hin); [|exact Hr].
  intros km Hkm. unfold resolve_entry in Hkm. cbn [fst snd] in Hkm.
  apply bind_Ok_inv in Hkm as (m & Hm & [= <-]). cbn [snd].
  assert (Hlog : mem key [OR_KEY; AND_KEY] = false).
  { apply mem_false. intros Hk. apply mem_false in Hres. apply Hres.
    simpl in Hk. destruct Hk as [<-|[<-|[]]]; simpl; tauto. }
  assert (Hun : forall X, _properties_mask data pop [(key, X)] = Ok (MBool false)).
  { intros X. apply (properties_mask_unknown_props data pop _ key); auto. now left. }
  rewrite Hlog in Hm.
  destruct V as [| | | | |m']; try (rewrite Hun in Hm; now injection Hm as <-).
  destruct (has_value_key (map fst m')).
  - destruct (negb (only_value_keys (map fst m'))); [discriminate|].
    rewrite Hun in Hm. now injection Hm as <-.
  - apply bind_Ok_inv in Hm as (inner & _ & Hm). rewrite Hun in Hm. now injection Hm as <-.
Qed.

Lemma resolve_ids_unknown_key_witness :
  let d := [("layer", VScalar (SInt 2)); ("zz", VDict [("$gt", VScalar (SInt 1))]);
            ("mtype", VList [VScalar (SStr "a")])] in
  resolve_ids_of 8 example_table "default" (VDict d) = Ok [false; false; false; false; false] /\
  [false; false; false; false; false] = repeat false (len example_table).
Proof.
  intros d.
  assert (Hr : resolve_ids_of 8 example_table "default" (VDict d)
               = Ok [false; false; false; false; false]) by (vm_compute; reflexivity).
  split; [exact Hr|].
  apply (resolve_ids_unknown_key example_table "default" d "zz"
           (VDict [("$gt", VScalar (SInt 1))]) _ 8); try exact Hr.
  - vm_compute. reflexivity.
  - vm_compute. reflexivity.
  - vm_compute. lia.
  - simpl. tauto.
  - reflexivity.
  - reflexivity.
Defined.

(** X21: in [resolve_ids], a dictionary whose [population] entry names
    other populations only selects no row, provided the other entries
    of the query raise nothing. *)
Theorem resolve_ids_other_population :
  forall data population_name d populations r fuel,
    NoDup (df_index data) ->
    unique_keys (VDict d) = true -> plain_query (VDict d) = true ->
    (depth (VDict d) < fuel)%nat ->
    In (POPULATION_KEY, populations) d ->
    (forall m, populations <> VDict m) ->
    is_None populations = false ->
    name_in_set population_name (ensure_list populations) = Ok false ->
    resolve_ids_of fuel data population_name (VDict d) = Ok r ->
    r = repeat false (len data).
Proof.
  intros data pop d populations r fuel Hnd Hu Hpl Hd Hin Hnot Hnone Hset Hr.
  apply (resolve_ids_of_false_entry data pop d (POPULATION_KEY, populations) r fuel
           Hu Hpl Hd Hin); [|exact Hr].
  intros km Hkm. unfold resolve_entry in Hkm. cbn [fst snd] in Hkm.
  apply bind_Ok_inv in Hkm as (m & Hm & [= <-]). cbn [snd].
  change (mem POPULATION_KEY [OR_KEY; AND_KEY]) with false in Hm. cbn iota in Hm.
  assert (Hmis : _properties_mask data pop [(POPULATION_KEY, populations)]
                 = Ok (MBool false)).
  { apply properties_mask_other_population; [exact Hnd|].
    exists populations. repeat split; auto. }
  destruct populations; try (rewrite Hmis in Hm; now injection Hm as <-).
  now destruct (Hnot d0).
Qed.

Lemma resolve_ids_other_population_witness :
  let d := [("population", VList [VScalar (SStr "A"); VScalar (SStr "B")]);
            ("mtype", VList [VScalar (SStr "a")])] in
  resolve_ids_of 8 example_table "default" (VDict d) = Ok [false; false; false; false; false] /\
  [false; false; false; false; false] = repeat false (len example_table).
Proof.
  intros d.
  assert (Hr : resolve_ids_of 8 example_table "default" (VDict d)
               = Ok [false; false; false; false; false]) by (vm_compute; reflexivity).
  split; [exact Hr|].
  apply (resolve_ids_other_population example_table "default" d
           (VList [VScalar (SStr "A"); VScalar (SStr "B")]) _ 8); try exact Hr.
  - apply NoDup_by_compute. vm_compute. reflexivity.
  - vm_compute. reflexivity.
  - vm_compute. reflexivity.
  - vm_compute. lia.
  - simpl. tauto.
  - discriminate.
  - reflexivity.
  - reflexivity.
Defined.

(** ** Queries without node sets *)

Lemma visits_node_set_dict d :
  visits_node_set (VDict d) = existsb entry_visits_node_set d.
Proof. reflexivity. Qed.

Section TraverseNoop.
Variable traverse_fn : hval -> string -> M unit.
Hypothesis fn_noop :
  forall q key s, key <> NODE_SET_KEY -> traverse_fn q key s = (Ok tt, s).

Section Level.
Variable f : nat.
Hypothesis noop_level :
  forall v q n (s : store),
    (depth v <= f)%nat -> plain_query v = true -> visits_node_set v = false ->
    reify n s q = Ok v ->
    traverse_queries_bottom_up f traverse_fn q s = (Ok tt, s).

Lemma iter_list_noop (s : store) (l2 : nat) hs subs n :
  s !! l2 = Some (OList hs) ->
  Forall2 (fun x v => reify n s x = Ok v) hs subs ->
  Forall (fun v => (depth v <= f)%nat /\ plain_query v = true /\
                   visits_node_set v = false) subs ->
  forall k (i : nat),
    (i <= length hs)%nat -> (length hs < i + k)%nat ->
    iter_list k (traverse_queries_bottom_up f traverse_fn) l2 i s = (Ok tt, s).
Proof.
  intros Hl2 Hsubs Hok. induction k as [|k IH]; intros i Hi Hk; [lia|].
  cbn [iter_list]. rewrite Hl2.
  destruct (hs !! i) as [x|] eqn:Ex; [|reflexivity].
  destruct (Forall2_lookup_l _ _ _ _ _ Hsubs Ex) as (v & Ev & Hv).
  rewrite Forall_forall in Hok.
  destruct (Hok v (list_elem_of_lookup_2 _ _ _ Ev)) as (Hd & Hp & Hns).
  rewrite (bindM_Ok _ _ _ _ _ (noop_level v x n s Hd Hp Hns Hv)).
  assert (Hlt := lookup_lt_Some _ _ _ Ex). apply IH; lia.
Qed.

Lemma children_noop (s : store) (l : nat) hd h kv n :
  s !! l = Some (ODict hd) -> dict_get (fst kv) hd = Some h ->
  reify n s h = Ok (snd kv) -> (depth (snd kv) <= f)%nat ->
  entry_plain kv = true -> entry_visits_node_set kv = false ->
  traverse_children (traverse_queries_bottom_up f traverse_fn) f (HRef l) (fst kv) s
  = (Ok tt, s).
Proof.
  intros Hl Hh Hr Hd Hp Hns.
  unfold traverse_children, entry_plain, entry_visits_node_set in *.
  apply orb_false_iff in Hns as [_ Hns].
  assert (Hget : getitem (HRef l) (fst kv) s = (Ok h, s)).
  { unfold getitem. rewrite (bindM_Ok _ _ s hd s) by (unfold get_dict; now rewrite Hl).
    now rewrite Hh. }
  destruct (mem (fst kv) [OR_KEY; AND_KEY]); rewrite (bindM_Ok _ _ _ _ _ Hget).
  - destruct (snd kv) as [| | | |subs|] eqn:Ev; try discriminate.
    apply reify_list_inv in Hr as (n' & l2 & hs & -> & -> & Hl2 & Hsubs).
    rewrite (bindM_Ok _ _ s (Some l2) s) by (unfold read, is_list; now rewrite Hl2).
    apply (iter_list_noop s l2 hs subs n' Hl2 Hsubs); [|lia|].
    + apply Forall_forall. intros v Hv%list_elem_of_In. split; [|split].
      * destruct (depth_element subs v f Hd Hv). lia.
      * rewrite forallb_forall in Hp. now apply Hp.
      * destruct (visits_node_set v) eqn:E; [|reflexivity].
        assert (Hex : existsb visits_node_set subs = true)
          by (apply existsb_exists; eauto). congruence.
    + rewrite (Forall2_length _ _ _ Hsubs). cbn [depth] in Hd. lia.
  - destruct (snd kv) as [a|t|bs|ids|subs|m] eqn:Ev.
    1-5: rewrite (bindM_Ok _ _ s None s)
           by (apply (reify_not_mapping n s s h _ Hr); [discriminate | reflexivity]);
         reflexivity.
    destruct (reify_dict_inv _ _ _ _ Hr) as (n' & l3 & hm & -> & -> & Hl3 & Hm).
    rewrite (bindM_Ok _ _ s (Some (map fst m)) s).
    2:{ unfold mapping_keys. rewrite Hl3. now rewrite (Forall2_keys _ _ _ Hm). }
    destruct (has_value_key (map fst m)).
    + rewrite Hp. reflexivity.
    + now apply (noop_level (VDict m) (HRef l3) (S n')).
Qed.

Lemma keys_noop (s : store) (l : nat) hd n rest_h : forall rest_d,
  s !! l = Some (ODict hd) ->
  Forall2 (fun kh kv => fst kh = fst kv /\ reify n s (snd kh) = Ok (snd kv))
          rest_h rest_d ->
  (forall kh, In kh rest_h -> dict_get (fst kh) hd = Some (snd kh)) ->
  Forall (fun kv => (depth (snd kv) <= f)%nat /\ entry_plain kv = true /\
                    entry_visits_node_set kv = false) rest_d ->
  forM_ (fun key =>
           traverse_children (traverse_queries_bottom_up f traverse_fn) f (HRef l) key;;
           traverse_fn (HRef l) key) (map fst rest_h) s = (Ok tt, s).
Proof.
  induction rest_h as [|kh rest_h IH]; intros rest_d Hl Hall Hget Hok; [reflexivity|].
  apply Forall2_cons_inv_l in Hall as (kv & rest_d' & [Hk Hr] & Hall & ->).
  apply Forall_cons in Hok as [(Hd & Hp & Hns) Hok].
  cbn [map forM_]. rewrite Hk.
  assert (Hc := children_noop s l hd (snd kh) kv n Hl).
  rewrite (bindM_Ok _ _ s tt s).
  - apply (IH rest_d'); auto. intros kh' Hin. apply Hget. now right.
  - rewrite (bindM_Ok _ _ s tt s).
    + apply fn_noop. unfold entry_visits_node_set in Hns.
      apply orb_false_iff in Hns as [Hns _]. now apply String.eqb_neq.
    + apply Hc; auto. rewrite <- Hk. apply Hget. now left.
Qed.
End Level.

(** On a query whose traversal does not visit [$node_set], the
    traversal with [traverse_fn] changes nothing. *)
Lemma traverse_noop f : forall v q n (s : store),
  (depth v <= f)%nat -> plain_query v = true -> visits_node_set v = false ->
  reify n s q = Ok v ->
  traverse_queries_bottom_up f traverse_fn q s = (Ok tt, s).
Proof.
  induction f as [|f IH]; intros v q n s Hd Hp Hns Hr.
  - destruct v; try discriminate. cbn [depth] in Hd. lia.
  - destruct v as [| | | | |d]; try discriminate.
    rewrite plain_query_dict in Hp. apply andb_true_iff in Hp as [Hnd Hp].
    apply bool_decide_eq_true_1 in Hnd.
    destruct (reify_dict_inv _ _ _ _ Hr) as (n' & l & hd & -> & -> & Hl & Hall).
    cbn [traverse_queries_bottom_up].
    rewrite (bindM_Ok _ _ s (map fst hd) s).
    2:{ unfold dict_keys. rewrite (bindM_Ok _ _ s hd s); [reflexivity|].
        unfold get_dict. now rewrite Hl. }
    apply (keys_noop f IH s l hd n' hd d Hl Hall).
    + intros [k h] Hin. apply dict_get_entry; [|exact Hin].
      now rewrite (Forall2_keys _ _ _ Hall).
    + rewrite visits_node_set_dict in Hns.
      apply Forall_forall. intros kv Hkv%list_elem_of_In. split; [|split].
      * now apply (depth_entry d).
      * rewrite forallb_forall in Hp. now apply Hp.
      * destruct (entry_visits_node_set kv) eqn:E; [|reflexivity].
        assert (Hex : existsb entry_visits_node_set d = true)
          by (apply existsb_exists; eauto). congruence.
Qed.
End TraverseNoop.

Lemma resolve_noop NodeSet node_sets get_ids raise_missing_prop q key (s : store) :
  key <> NODE_SET_KEY ->
  _resolve NodeSet node_sets get_ids raise_missing_prop q key s = (Ok tt, s).
Proof.
  intros Hk. unfold _resolve. apply String.eqb_neq in Hk. now rewrite Hk.
Qed.

Lemma placed_end (pre objs : store) : placed (pre ++ objs) (length pre) objs.
Proof.
  intros i o Hi. rewrite lookup_app_r by lia.
  now replace (length pre + i - length pre)%nat with i by lia.
Qed.



(** ** A node set in the query *)

Lemma layout_all_app {A B} (f : A -> nat -> B * list obj) l1 l2 : forall n,
  layout_all f (l1 ++ l2) n
  = (fst (layout_all f l1 n)
       ++ fst (layout_all f l2 (n + length (snd (layout_all f l1 n)))),
     snd (layout_all f l1 n)
       ++ snd (layout_all f l2 (n + length (snd (layout_all f l1 n))))).
Proof.
  induction l1 as [|x l1 IH]; intros n.
  - cbn [app layout_all fst snd length]. rewrite Nat.add_0_r.
    now destruct (layout_all f l2 n).
  - cbn [app]. rewrite !layout_all_cons, IH. cbn [fst snd].
    rewrite length_app, Nat.add_assoc, <- !app_assoc. reflexivity.
Qed.

Lemma reify_elements l : forall n (s : store) pos,
  placed s pos (snd (layout_all layout l pos)) ->
  Forall (fun v => (depth v <= n)%nat) l ->
  Forall2 (fun h v => reify n s h = Ok v) (fst (layout_all layout l pos)) l.
Proof.
  induction l as [|x l IH]; intros n s pos Hp Hd; [constructor|].
  rewrite layout_all_cons in *. cbn [fst snd] in *.
  apply placed_app in Hp as [Hp1 Hp2]. apply Forall_cons in Hd as [Hdx Hd].
  constructor; [now apply reify_layout | now apply IH].
Qed.

Lemma reify_entries d : forall n (s : store) pos,
  placed s pos (snd (layout_all layout_entry d pos)) ->
  Forall (fun kv => (depth (snd kv) <= n)%nat) d ->
  Forall2 (fun kh kv => fst kh = fst kv /\ reify n s (snd kh) = Ok (snd kv))
          (fst (layout_all layout_entry d pos)) d.
Proof.
  induction d as [|x d IH]; intros n s pos Hp Hd; [constructor|].
  rewrite layout_all_cons, layout_entry_eq in *. cbn [fst snd] in *.
  apply placed_app in Hp as [Hp1 Hp2]. apply Forall_cons in Hd as [Hdx Hd].
  constructor; [split; [reflexivity | now apply reify_layout] | now apply IH].
Qed.

Lemma reify_dict_intro n (s : store) (l : nat) hd d :
  s !! l = Some (ODict hd) ->
  Forall2 (fun kh kv => fst kh = fst kv /\ reify n s (snd kh) = Ok (snd kv)) hd d ->
  reify (S n) s (HRef l) = Ok (VDict d).
Proof.
  intros Hl Hall. cbn [reify]. rewrite Hl.
  assert (H : mapM (fun kv => v ← reify n s (snd kv); Ok (fst kv, v)) hd = Ok d);
    [|now rewrite H].
  clear Hl. induction Hall as [|[k h] [k' v] hd d [Hk Hr] _ IH]; cbn [mapM]; [reflexivity|].
  cbn [fst snd] in *. subst k'. now rewrite Hr, !bind_Ok, IH.
Qed.

Lemma reify_list_intro n (s : store) (l : nat) hs vs :
  s !! l = Some (OList hs) ->
  Forall2 (fun h v => reify n s h = Ok v) hs vs ->
  reify (S n) s (HRef l) = Ok (VList vs).
Proof.
  intros Hl Hall. cbn [reify]. rewrite Hl.
  now rewrite (mapM_Ok_Forall2 _ _ _ Hall).
Qed.

Lemma Forall2_dict_del {A B} (R : string * A -> string * B -> Prop) k hd d :
  Forall2 (fun kh kv => fst kh = fst kv /\ R kh kv) hd d ->
  Forall2 (fun kh kv => fst kh = fst kv /\ R kh kv) (dict_del k hd) (dict_del k d).
Proof.
  induction 1 as [|kh kv hd d [Hk HR] _ IH]; [constructor|].
  unfold dict_del in *. cbn [List.filter]. rewrite Hk.
  destruct (negb (String.eqb k (fst kv))); [constructor; auto | exact IH].
Qed.

Lemma forM__app {A} (f : A -> M unit) l1 l2 (s s1 : store) :
  forM_ f l1 s = (Ok tt, s1) -> forM_ f (l1 ++ l2) s = forM_ f l2 s1.
Proof.
  revert s. induction l1 as [|a l1 IH]; intros s; cbn [forM_ app].
  - now intros [= <-].
  - intros H. apply bindM_Ok_inv in H as ([] & s' & Ha & H).
    rewrite (bindM_Ok _ _ _ _ _ Ha). now apply IH.
Qed.

Lemma reify_scalar_inv n (s : store) h a : reify n s h = Ok (VScalar a) -> h = HScalar a.
Proof.
  destruct h as [| | | |l]; destruct n; try discriminate; try (now intros [= <-]).
  cbn [reify]. destruct (s !! l) as [[d|xs]|]; try discriminate.
  - intros H. apply bind_Ok_inv in H as (d' & _ & [=]).
  - intros H. apply bind_Ok_inv in H as (xs' & _ & [=]).
Qed.

Lemma dict_get_app_l {V} k (d1 d2 : list (string * V)) v :
  dict_get k d1 = Some v -> dict_get k (d1 ++ d2) = Some v.
Proof.
  induction d1 as [|[k' v'] d1 IH]; simpl; [discriminate|].
  destruct (String.eqb k k'); auto.
Qed.

Lemma dict_get_app_r {V} k (d1 d2 : list (string * V)) :
  dict_get k d1 = None -> dict_get k (d1 ++ d2) = dict_get k d2.
Proof.
  induction d1 as [|[k' v'] d1 IH]; simpl; [reflexivity|].
  destruct (String.eqb k k'); [discriminate | exact IH].
Qed.

Lemma dict_get_Forall2 {A B} (R : string * A -> string * B -> Prop) k hd d :
  Forall2 (fun kh kv => fst kh = fst kv /\ R kh kv) hd d ->
  match dict_get k hd, dict_get k d with
  | Some h, Some v => R (k, h) (k, v)
  | None, None => True
  | _, _ => False
  end.
Proof.
  induction 1 as [|[k1 h] [k2 v] hd d [Hk HR] _ IH]; simpl; [exact I|].
  cbn [fst] in Hk. subst k2.
  destruct (String.eqb_spec k k1) as [->|_]; [exact HR | exact IH].
Qed.

Section ResolveNodeSet.
Variable NodeSet : Type.
Variable node_sets : scalar -> result NodeSet.
Variable get_ids : NodeSet -> bool -> result (list Z).
Variable raise_missing_prop : bool.
Variable name : scalar.
Variable node_set : NodeSet.
Variable ids : list Z.
Hypothesis node_set_known : node_sets name = Ok node_set.
Hypothesis node_set_ids : get_ids node_set raise_missing_prop = Ok ids.

(** [_resolve] at [$node_set] when the dictionary has an [$and] list:
    the leaf is a new object appended to that list. *)
Lemma resolve_appends (s : store) (y p : nat) hd xs :
  s !! y = Some (ODict hd) ->
  dict_get NODE_SET_KEY hd = Some (HScalar name) ->
  dict_get AND_KEY hd = Some (HRef p) ->
  s !! p = Some (OList xs) ->
  exists s1,
    _resolve NodeSet node_sets get_ids raise_missing_prop (HRef y) NODE_SET_KEY s
    = (Ok tt, s1) /\
    s1 !! y = Some (ODict (dict_del NODE_SET_KEY hd)) /\
    s1 !! p = Some (OList (xs ++ [HRef (length s)])) /\
    s1 !! length s = Some (ODict [(NODE_ID_KEY, HIds ids)]) /\
    (forall j : nat, (j < length s)%nat -> j <> y -> j <> p -> s1 !! j = s !! j).
Proof.
  intros Hy Hns Hand Hp.
  assert (Hyp : y <> p) by (intros ->; congruence).
  assert (Ly := lookup_lt_Some _ _ _ Hy). assert (Lp := lookup_lt_Some _ _ _ Hp).
  set (leaf := ODict [(NODE_ID_KEY, HIds ids)]).
  exists (<[y := ODict (dict_del NODE_SET_KEY hd)]>
            (<[p := OList (xs ++ [HRef (length s)])]> (s ++ [leaf]))).
  split; [|split; [|split; [|split]]].
  - unfold _resolve. rewrite String.eqb_refl.
    rewrite (bindM_Ok _ _ s hd s) by (unfold get_dict; now rewrite Hy).
    assert (Hm : mem AND_KEY (map fst hd) = true).
    { apply mem_In, dict_get_In. eauto. }
    rewrite Hm. rewrite (bindM_Ok _ _ s tt s) by reflexivity.
    rewrite (bindM_Ok _ _ s (HScalar name) s).
    2:{ unfold getitem. rewrite (bindM_Ok _ _ s hd s) by (unfold get_dict; now rewrite Hy).
        now rewrite Hns. }
    rewrite (bindM_Ok _ _ s node_set s) by (unfold lift; cbn; now rewrite node_set_known).
    rewrite (bindM_Ok _ _ s (HRef p) s).
    2:{ unfold getitem. rewrite (bindM_Ok _ _ s hd s) by (unfold get_dict; now rewrite Hy).
        now rewrite Hand. }
    rewrite (bindM_Ok _ _ s tt s) by (unfold read, is_list; now rewrite Hp).
    rewrite (bindM_Ok _ _ s ids s) by (unfold lift; now rewrite node_set_ids).
    rewrite (bindM_Ok _ _ s (length s) (s ++ [leaf])) by reflexivity.
    rewrite (bindM_Ok _ _ (s ++ [leaf]) tt
               (<[p := OList (xs ++ [HRef (length s)])]> (s ++ [leaf]))).
    2:{ unfold list_append. now rewrite (lookup_app_l_Some _ _ _ _ Hp). }
    unfold delitem.
    rewrite (bindM_Ok _ _ _ hd (<[p := OList (xs ++ [HRef (length s)])]> (s ++ [leaf]))).
    2:{ unfold get_dict. rewrite list_lookup_insert_ne by auto.
        now rewrite (lookup_app_l_Some _ _ _ _ Hy). }
    now rewrite Hns.
  - apply list_lookup_insert_eq. rewrite length_insert, length_app. lia.
  - rewrite list_lookup_insert_ne by auto.
    apply list_lookup_insert_eq. rewrite length_app. lia.
  - rewrite !list_lookup_insert_ne by lia.
    rewrite lookup_app_r by lia. now rewrite Nat.sub_diag.
  - intros j Hj Hjy Hjp. rewrite !list_lookup_insert_ne by auto.
    now rewrite lookup_app_l by lia.
Qed.

(** [_resolve] at [$node_set] when the dictionary has no [$and]: an
    empty list is stored under [$and] first, as the last entry. *)
Lemma resolve_creates (s : store) (y : nat) hd :
  s !! y = Some (ODict hd) ->
  dict_get NODE_SET_KEY hd = Some (HScalar name) ->
  dict_get AND_KEY hd = None ->
  exists s1,
    _resolve NodeSet node_sets get_ids raise_missing_prop (HRef y) NODE_SET_KEY s
    = (Ok tt, s1) /\
    s1 !! y = Some (ODict (dict_del NODE_SET_KEY (hd ++ [(AND_KEY, HRef (length s))]))) /\
    s1 !! length s = Some (OList [HRef (S (length s))]) /\
    s1 !! S (length s) = Some (ODict [(NODE_ID_KEY, HIds ids)]) /\
    (forall j : nat, (j < length s)%nat -> j <> y -> s1 !! j = s !! j).
Proof.
  intros Hy Hns Hand.
  assert (Ly := lookup_lt_Some _ _ _ Hy).
  set (leaf := ODict [(NODE_ID_KEY, HIds ids)]).
  set (hdA := hd ++ [(AND_KEY, HRef (length s))]).
  set (sa := <[y := ODict hdA]> (s ++ [OList []])).
  assert (La : length sa = S (length s)).
  { unfold sa. rewrite length_insert, length_app. simpl. lia. }
  assert (Hya : sa !! y = Some (ODict hdA)).
  { apply list_lookup_insert_eq. rewrite length_app. lia. }
  assert (Hla : sa !! length s = Some (OList [])).
  { unfold sa. rewrite list_lookup_insert_ne by lia.
    rewrite lookup_app_r by lia. now rewrite Nat.sub_diag. }
  assert (HnsA : dict_get NODE_SET_KEY hdA = Some (HScalar name))
    by now apply dict_get_app_l.
  assert (HandA : dict_get AND_KEY hdA = Some (HRef (length s))).
  { unfold hdA. rewrite dict_get_app_r by exact Hand. reflexivity. }
  exists (<[y := ODict (dict_del NODE_SET_KEY hdA)]>
            (<[length s := OList [HRef (S (length s))]]> (sa ++ [leaf]))).
  split; [|split; [|split; [|split]]].
  - unfold _resolve. rewrite String.eqb_refl.
    rewrite (bindM_Ok _ _ s hd s) by (unfold get_dict; now rewrite Hy).
    assert (Hm : mem AND_KEY (map fst hd) = false).
    { apply mem_false. now apply dict_get_None. }
    rewrite Hm.
    rewrite (bindM_Ok _ _ s tt sa).
    2:{ rewrite (bindM_Ok _ _ s (length s) (s ++ [OList []])) by reflexivity.
        unfold setitem.
        rewrite (bindM_Ok _ _ _ hd (s ++ [OList []])).
        2:{ unfold get_dict. now rewrite (lookup_app_l_Some _ _ _ _ Hy). }
        unfold put_dict, sa, hdA. rewrite dict_set_absent; [reflexivity|].
        now apply dict_get_None. }
    rewrite (bindM_Ok _ _ sa (HScalar name) sa).
    2:{ unfold getitem. rewrite (bindM_Ok _ _ sa hdA sa) by (unfold get_dict; now rewrite Hya).
        now rewrite HnsA. }
    rewrite (bindM_Ok _ _ sa node_set sa) by (unfold lift; cbn; now rewrite node_set_known).
    rewrite (bindM_Ok _ _ sa (HRef (length s)) sa).
    2:{ unfold getitem. rewrite (bindM_Ok _ _ sa hdA sa) by (unfold get_dict; now rewrite Hya).
        now rewrite HandA. }
    rewrite (bindM_Ok _ _ sa tt sa) by (unfold read, is_list; now rewrite Hla).
    rewrite (bindM_Ok _ _ sa ids sa) by (unfold lift; now rewrite node_set_ids).
    rewrite (bindM_Ok _ _ sa (S (length s)) (sa ++ [leaf]))
      by (unfold new_obj; now rewrite La).
    rewrite (bindM_Ok _ _ (sa ++ [leaf]) tt
               (<[length s := OList [HRef (S (length s))]]> (sa ++ [leaf]))).
    2:{ unfold list_append. now rewrite (lookup_app_l_Some _ _ _ _ Hla). }
    unfold delitem.
    rewrite (bindM_Ok _ _ _ hdA (<[length s := OList [HRef (S (length s))]]> (sa ++ [leaf]))).
    2:{ unfold get_dict. rewrite list_lookup_insert_ne by lia.
        now rewrite (lookup_app_l_Some _ _ _ _ Hya). }
    now rewrite HnsA.
  - apply list_lookup_insert_eq. rewrite length_insert, length_app. lia.
  - rewrite list_lookup_insert_ne by lia.
    apply list_lookup_insert_eq. rewrite length_app. lia.
  - rewrite !list_lookup_insert_ne by lia.
    rewrite lookup_app_r by lia. now rewrite La, Nat.sub_diag.
  - intros j Hj Hjy. rewrite !list_lookup_insert_ne by lia.
    rewrite lookup_app_l by lia. unfold sa.
    rewrite list_lookup_insert_ne by auto. now rewrite lookup_app_l by lia.
Qed.

(** The traversal of a dictionary with a [$node_set] entry and no other
    node set below: the keys before [$node_set] change nothing,
    [_resolve] rewrites the dictionary, and the keys after it are
    visited on the rewritten dictionary, where they change nothing. *)
Lemma traverse_node_set f (s s1 : store) (y : nat) hd hd_top d d' n :
  s !! y = Some (ODict hd) ->
  NoDup (map fst d) ->
  In (NODE_SET_KEY, VScalar name) d ->
  Forall2 (fun kh kv => fst kh = fst kv /\ reify n s (snd kh) = Ok (snd kv)) hd d ->
  Forall (fun kv => fst kv <> NODE_SET_KEY ->
                    (depth (snd kv) <= f)%nat /\ entry_plain kv = true /\
                    entry_visits_node_set kv = false) d ->
  _resolve NodeSet node_sets get_ids raise_missing_prop (HRef y) NODE_SET_KEY s
  = (Ok tt, s1) ->
  s1 !! y = Some (ODict hd_top) ->
  (forall kh, In kh hd -> fst kh <> NODE_SET_KEY ->
              dict_get (fst kh) hd_top = Some (snd kh)) ->
  Forall2 (fun kh kv => fst kh = fst kv /\ reify n s1 (snd kh) = Ok (snd kv)) hd d' ->
  Forall (fun kv => fst kv <> NODE_SET_KEY ->
                    (depth (snd kv) <= f)%nat /\ entry_plain kv = true /\
                    entry_visits_node_set kv = false) d' ->
  traverse_queries_bottom_up (S f)
    (_resolve NodeSet node_sets get_ids raise_missing_prop) (HRef y) s = (Ok tt, s1).
Proof.
  intros Hy Hnd Hin Hall Hok Hev Hy1 Htop Hall' Hok'.
  assert (Hnoop := resolve_noop NodeSet node_sets get_ids raise_missing_prop).
  assert (Hlevel := traverse_noop _ Hnoop f).
  destruct (in_split _ _ Hin) as (d1 & d2 & ->).
  assert (Hkeys := Forall2_keys _ _ _ Hall).
  assert (Hkeys' := Forall2_keys _ _ _ Hall').
  apply Forall2_app_inv_r in Hall as (hd1 & hr & Hall1 & Hr & ->).
  apply Forall2_cons_inv_r in Hr as (x & hd2 & [Hx Hxr] & Hall2 & ->).
  destruct x as [kx hx]. cbn [fst snd] in Hx, Hxr. subst kx.
  apply reify_scalar_inv in Hxr. subst hx.
  assert (Hndh : NoDup (map fst (hd1 ++ (NODE_SET_KEY, HScalar name) :: hd2)))
    by now rewrite Hkeys.
  assert (Hndh' := Hndh). rewrite map_app in Hndh'. cbn [map fst] in Hndh'.
  apply NoDup_app in Hndh' as (_ & Hdisj & Hnd2). apply NoDup_cons in Hnd2 as [Hns2 _].
  assert (Hns1 : ~ In NODE_SET_KEY (map fst hd1)).
  { intros Hi%list_elem_of_In. apply (Hdisj _ Hi). left. }
  assert (Hget : forall kh, In kh (hd1 ++ (NODE_SET_KEY, HScalar name) :: hd2) ->
                            dict_get (fst kh) (hd1 ++ (NODE_SET_KEY, HScalar name) :: hd2)
                            = Some (snd kh)).
  { intros [k h] Hi. now apply dict_get_entry. }
  cbn [traverse_queries_bottom_up].
  rewrite (bindM_Ok _ _ s (map fst (hd1 ++ (NODE_SET_KEY, HScalar name) :: hd2)) s).
  2:{ unfold dict_keys.
      rewrite (bindM_Ok _ _ s (hd1 ++ (NODE_SET_KEY, HScalar name) :: hd2) s);
        [reflexivity|].
      unfold get_dict. now rewrite Hy. }
  rewrite map_app. cbn [map fst].
  rewrite (forM__app _ _ _ s s).
  2:{ apply (keys_noop _ Hnoop f Hlevel s y
             (hd1 ++ (NODE_SET_KEY, HScalar name) :: hd2) n hd1 d1 Hy Hall1).
      - intros kh Hi. apply Hget. apply in_or_app. now left.
      - apply Forall_forall. intros kv Hkv%list_elem_of_In.
        rewrite Forall_forall in Hok. apply Hok.
        + apply list_elem_of_In, in_or_app. now left.
        + intros E. apply Hns1. rewrite (Forall2_keys _ _ _ Hall1), <- E.
          now apply in_map. }
  cbn [forM_].
  rewrite (bindM_Ok _ _ s tt s1).
  2:{ rewrite (bindM_Ok _ _ s tt s); [exact Hev|].
      unfold traverse_children. cbn [mem existsb].
      replace (String.eqb NODE_SET_KEY OR_KEY) with false by reflexivity.
      replace (String.eqb NODE_SET_KEY AND_KEY) with false by reflexivity.
      cbn [orb].
      rewrite (bindM_Ok _ _ s (HScalar name) s); [reflexivity|].
      unfold getitem.
      rewrite (bindM_Ok _ _ s (hd1 ++ (NODE_SET_KEY, HScalar name) :: hd2) s)
        by (unfold get_dict; now rewrite Hy).
      now rewrite (dict_get_middle _ _ _ _ Hns1). }
  apply Forall2_app_inv_l in Hall' as (d1' & dr' & _ & Hr' & ->).
  apply Forall2_cons_inv_l in Hr' as (x' & d2' & _ & Hall2' & ->).
  apply (keys_noop _ Hnoop f Hlevel s1 y hd_top n hd2 d2' Hy1 Hall2').
  - intros kh Hi. apply Htop.
    + apply in_or_app. right. now right.
    + intros E. apply Hns2. rewrite <- E. apply list_elem_of_In. now apply in_map.
  - apply Forall_forall. intros kv Hkv%list_elem_of_In.
    rewrite Forall_forall in Hok'. apply Hok'.
    + apply list_elem_of_In, in_or_app. right. now right.
    + intros E. apply Hns2. rewrite (Forall2_keys _ _ _ Hall2'), <- E.
      apply list_elem_of_In. now apply in_map.
Qed.
End ResolveNodeSet.

Lemma placed_frame (s s1 : store) a o :
  placed s a o ->
  (forall i : nat, (i < length o)%nat -> s1 !! (a + i)%nat = s !! (a + i)%nat) ->
  placed s1 a o.
Proof.
  intros H Hf i x Hi. rewrite Hf; [now apply H | exact (lookup_lt_Some _ _ _ Hi)].
Qed.

Lemma placed_lt (s : store) a o (i : nat) :
  placed s a o -> (i < length o)%nat -> (a + i < length s)%nat.
Proof.
  intros H Hi. destruct (lookup_lt_is_Some_2 o i Hi) as [x Hx].
  exact (lookup_lt_Some _ _ _ (H i x Hx)).
Qed.

Lemma depth_leaf_appended l f :
  (depth (VList l) <= f)%nat -> forall ids,
  (depth (VList (l ++ [node_set_leaf ids])) <= S f)%nat.
Proof.
  intros H ids. cbn [depth] in *. rewrite length_app, map_app, fold_max_app.
  cbn [length map fold_right node_set_leaf depth snd]. lia.
Qed.

(** Where the copy of a dictionary puts the list of one of its entries. *)
Lemma layout_all_middle dA k l dB n :
  layout_all layout_entry (dA ++ (k, VList l) :: dB) n
  = (fst (layout_all layout_entry dA n)
       ++ (k, HRef (n + length (snd (layout_all layout_entry dA n))))
       :: fst (layout_all layout_entry dB
                 (n + length (snd (layout_all layout_entry dA n))
                  + S (length (snd (layout_all layout l
                         (S (n + length (snd (layout_all layout_entry dA n))))))))),
     snd (layout_all layout_entry dA n)
       ++ (OList (fst (layout_all layout l
                         (S (n + length (snd (layout_all layout_entry dA n))))))
           :: snd (layout_all layout l
                     (S (n + length (snd (layout_all layout_entry dA n))))))
       ++ snd (layout_all layout_entry dB
                 (n + length (snd (layout_all layout_entry dA n))
                  + S (length (snd (layout_all layout l
                         (S (n + length (snd (layout_all layout_entry dA n)))))))))).
Proof.
  rewrite layout_all_app, layout_all_cons, layout_entry_eq. cbn [fst snd].
  rewrite layout_list. cbn [fst snd length]. reflexivity.
Qed.

Lemma leaf_plain ids : plain_query (node_set_leaf ids) = true.
Proof.
  unfold node_set_leaf. rewrite plain_query_dict. apply andb_true_iff. split.
  - apply bool_decide_eq_true_2. apply NoDup_singleton.
  - reflexivity.
Qed.

(** ** Copying a tree of objects *)

Lemma memo_get_cons_ne (l l' y : nat) memo :
  l <> l' -> memo_get l ((l', y) :: memo) = memo_get l memo.
Proof.
  intros Hne. unfold memo_get. cbn [list_find fst].
  destruct (decide (Nat.eqb l' l)) as [H|H].
  - apply Is_true_true, Nat.eqb_eq in H. congruence.
  - cbn [fmap option_fmap option_map].
    destruct (list_find _ memo) as [[i [a b]]|]; reflexivity.
Qed.

Lemma copy_tree_leaf n v (src : store) h :
  (forall l, h <> HRef l) -> reify n src h = Ok v ->
  forall fuel memo (s : store),
    deepcopy fuel h memo s
    = (Ok (fst (layout v (length s)), memo), s ++ snd (layout v (length s))).
Proof.
  intros Hh Hr fuel memo s.
  destruct h as [a|t|bs|ids|l]; [| | | |now destruct (Hh l)];
    destruct n; cbn [reify] in Hr; injection Hr as <-;
    destruct fuel; cbn [deepcopy layout fst snd]; now rewrite app_nil_r.
Qed.

Lemma fill_list_tree n fuel (src : store) :
  copy_tree n ->
  forall hs l,
    Forall2 (fun h v => reify n src h = Ok v) hs l ->
    Forall (fun v => unique_keys v = true /\ (depth v <= fuel)%nat) l ->
    NoDup (flat_map (footprint n src) hs) ->
    forall memo (s : store) (y : nat) ys,
      src `prefix_of` s -> (length src <= y)%nat ->
      memo_free memo (flat_map (footprint n src) hs) ->
      s !! y = Some (OList ys) ->
      exists memo',
        fill_list (deepcopy fuel) y hs memo s
        = (Ok memo', <[y := OList (ys ++ fst (layout_all layout l (length s)))]>
                       (s ++ snd (layout_all layout l (length s)))) /\
        forall l0, memo_get l0 memo = None ->
                   ~ In l0 (flat_map (footprint n src) hs) -> memo_get l0 memo' = None.
Proof.
  intros Hcopy hs l Hall. induction Hall as [|h v hs l Hr Hall IH];
    intros Hv Hnd memo s y ys Hpre Hy Hfree Hys.
  - exists memo. cbn [fill_list layout_all fst snd flat_map].
    rewrite !app_nil_r, list_insert_id by exact Hys. split; [reflexivity | auto].
  - apply Forall_cons in Hv as [[Hu Hd] Hv]. cbn [flat_map] in Hnd, Hfree |- *.
    apply NoDup_app in Hnd as (Hnd1 & Hdis & Hnd2).
    assert (Hylt : (y < length s)%nat) by (now apply lookup_lt_Some in Hys).
    destruct (Hcopy v src h Hr Hu Hnd1 fuel memo s Hd Hpre) as (memo1 & Hc & Hg1).
    { intros l0 Hl0. apply Hfree, in_or_app. now left. }
    rewrite layout_all_cons.
    destruct (layout v (length s)) as [h' o1] eqn:Ev. cbn [fst snd] in Hc |- *.
    cbn [fill_list]. rewrite (bindM_Ok _ _ _ _ _ Hc). cbn beta iota.
    rewrite (bindM_Ok _ _ _ _ _ (list_append_run (s ++ o1) y ys h'
                                   (eq_trans (lookup_app_l _ _ _ Hylt) Hys))).
    set (s1' := <[y := OList (ys ++ [h'])]> (s ++ o1)).
    assert (Hlen1 : length s1' = (length s + length o1)%nat)
      by (unfold s1'; now rewrite length_insert, length_app).
    destruct (IH Hv Hnd2 memo1 s1' y (ys ++ [h'])) as (memo' & Hrun & Hg2).
    + apply prefix_insert; [|exact Hy]. now apply prefix_app_r.
    + exact Hy.
    + intros l0 Hl0. apply Hg1.
      * apply Hfree, in_or_app. now right.
      * intros Hin%list_elem_of_In. apply (Hdis _ Hin). now apply list_elem_of_In.
    + apply list_lookup_insert_eq. rewrite length_app. lia.
    + exists memo'. split.
      * rewrite Hrun, Hlen1. unfold s1'.
        rewrite insert_twice_app by (rewrite length_app; lia).
        now rewrite <- !app_assoc.
      * intros l0 Hm Hni. apply Hg2.
        -- apply Hg1; [exact Hm|]. intros Hin. apply Hni, in_or_app. now left.
        -- intros Hin. apply Hni, in_or_app. now right.
Qed.

Lemma fill_dict_tree n fuel (src : store) :
  copy_tree n ->
  forall hd d,
    Forall2 (fun kh kv => fst kh = fst kv /\ reify n src (snd kh) = Ok (snd kv)) hd d ->
    Forall (fun kv => unique_keys (snd kv) = true /\ (depth (snd kv) <= fuel)%nat) d ->
    NoDup (flat_map (fun kh => footprint n src (snd kh)) hd) ->
    forall memo (s : store) (y : nat) dy,
      src `prefix_of` s -> (length src <= y)%nat ->
      memo_free memo (flat_map (fun kh => footprint n src (snd kh)) hd) ->
      s !! y = Some (ODict dy) ->
      NoDup (map fst dy ++ map fst d) ->
      exists memo',
        fill_dict (deepcopy fuel) y hd memo s
        = (Ok memo', <[y := ODict (dy ++ fst (layout_all layout_entry d (length s)))]>
                       (s ++ snd (layout_all layout_entry d (length s)))) /\
        forall l0, memo_get l0 memo = None ->
                   ~ In l0 (flat_map (fun kh => footprint n src (snd kh)) hd) ->
                   memo_get l0 memo' = None.
Proof.
  intros Hcopy hd d Hall. induction Hall as [|[k h] [k' v] hd d [Hk Hr] Hall IH];
    intros Hv Hnd memo s y dy Hpre Hy Hfree Hys Hkeys.
  - exists memo. cbn [fill_dict layout_all fst snd flat_map].
    rewrite !app_nil_r, list_insert_id by exact Hys. split; [reflexivity | auto].
  - cbn [fst snd] in Hk, Hr. subst k'.
    apply Forall_cons in Hv as [[Hu Hd] Hv]. cbn [fst snd] in Hu, Hd.
    cbn [flat_map snd] in Hnd, Hfree |- *.
    apply NoDup_app in Hnd as (Hnd1 & Hdis & Hnd2).
    assert (Hylt : (y < length s)%nat) by (now apply lookup_lt_Some in Hys).
    destruct (Hcopy v src h Hr Hu Hnd1 fuel memo s Hd Hpre) as (memo1 & Hc & Hg1).
    { intros l0 Hl0. apply Hfree, in_or_app. now left. }
    rewrite layout_all_cons, layout_entry_eq. cbn [fst snd].
    destruct (layout v (length s)) as [h' o1] eqn:Ev. cbn [fst snd] in Hc |- *.
    cbn [fill_dict]. rewrite (bindM_Ok _ _ _ _ _ Hc). cbn beta iota.
    rewrite (bindM_Ok _ _ _ _ _ (setitem_run (s ++ o1) y dy k h'
                                   (eq_trans (lookup_app_l _ _ _ Hylt) Hys))).
    assert (Hkdy : ~ In k (map fst dy)).
    { cbn [map fst] in Hkeys. apply NoDup_app in Hkeys as (_ & Hdk & _).
      intros Hin. apply (Hdk k); [now apply list_elem_of_In | left]. }
    rewrite (dict_set_absent k h' dy Hkdy).
    set (s1' := <[y := ODict (dy ++ [(k, h')])]> (s ++ o1)).
    assert (Hlen1 : length s1' = (length s + length o1)%nat)
      by (unfold s1'; now rewrite length_insert, length_app).
    destruct (IH Hv Hnd2 memo1 s1' y (dy ++ [(k, h')])) as (memo' & Hrun & Hg2).
    + apply prefix_insert; [|exact Hy]. now apply prefix_app_r.
    + exact Hy.
    + intros l0 Hl0. apply Hg1.
      * apply Hfree, in_or_app. now right.
      * intros Hin%list_elem_of_In. apply (Hdis _ Hin). now apply list_elem_of_In.
    + apply list_lookup_insert_eq. rewrite length_app. lia.
    + rewrite map_app, <- app_assoc. exact Hkeys.
    + exists memo'. split.
      * rewrite Hrun, Hlen1. unfold s1'.
        rewrite insert_twice_app by (rewrite length_app; lia).
        now rewrite <- !app_assoc.
      * intros l0 Hm Hni. apply Hg2.
        -- apply Hg1; [exact Hm|]. intros Hin. apply Hni, in_or_app. now left.
        -- intros Hin. apply Hni, in_or_app. now right.
Qed.

(** [copy.deepcopy] of a tree of objects, wherever they are in the
    store. *)
Lemma deepcopy_tree n : copy_tree n.
Proof.
  induction n as [|n IH]; intros v src h Hr Hu Hnd fuel memo s Hd Hpre Hfree.
  - destruct h as [a|t|bs|ids|l]; try discriminate;
      (exists memo; split; [apply (copy_tree_leaf 0 _ src); [discriminate | exact Hr] | auto]).
  - destruct h as [a|t|bs|ids|l];
      try (exists memo; split;
           [apply (copy_tree_leaf (S n) _ src); [discriminate | exact Hr] | auto]).
    cbn [reify footprint] in Hr, Hnd, Hfree |- *.
    destruct (src !! l) as [[hd|xs]|] eqn:El; [| |discriminate].
    + apply bind_Ok_inv in Hr as (d & Hm & [= <-]).
      assert (Hall : Forall2 (fun kh kv => fst kh = fst kv /\
                                           reify n src (snd kh) = Ok (snd kv)) hd d).
      { clear -Hm. revert d Hm. induction hd as [|[k h] hd IHd]; intros d; cbn [mapM].
        - intros [= <-]. constructor.
        - intros H. apply bind_Ok_inv in H as (kv & Hkv & H).
          apply bind_Ok_inv in Hkv as (v & Hv & [= <-]).
          apply bind_Ok_inv in H as (d' & Hd' & [= <-]).
          constructor; [split; [reflexivity | exact Hv] | now apply IHd]. }
      apply NoDup_cons in Hnd as [Hl Hnd].
      cbn [unique_keys] in Hu. apply andb_true_iff in Hu as [Hkeys Hu].
      apply bool_decide_eq_true_1 in Hkeys. rewrite forallb_forall in Hu.
      destruct fuel as [|fuel]; [cbn [depth] in Hd; lia|].
      assert (Ll := lookup_lt_Some _ _ _ El). assert (Lp := prefix_length _ _ Hpre).
      cbn [deepcopy]. rewrite (Hfree l) by now left.
      rewrite (prefix_lookup _ _ _ Hpre Ll), El.
      rewrite (bindM_Ok _ _ s (length s) (s ++ [ODict []])) by reflexivity.
      destruct (fill_dict_tree n fuel src IH hd d Hall) with
        (memo := (l, length s) :: memo) (s := s ++ [ODict []]) (y := length s)
        (dy := @nil (string * hval)) as (memo' & Hrun & Hg).
      * apply Forall_forall. intros x Hx%list_elem_of_In. split; [now apply Hu|].
        now apply (depth_entry d).
      * exact Hnd.
      * now apply prefix_app_r.
      * lia.
      * intros l0 Hl0. rewrite memo_get_cons_ne.
        -- apply Hfree. now right.
        -- intros ->. apply Hl. now apply list_elem_of_In.
      * now apply list_lookup_middle.
      * exact Hkeys.
      * rewrite (bindM_Ok _ _ _ _ _ Hrun).
        replace (length (s ++ [ODict []])) with (S (length s))
          by (rewrite length_app; simpl; lia).
        rewrite layout_dict. cbn [fst snd app]. exists memo'. split.
        -- unfold mret, M_ret. f_equal.
           rewrite <- app_assoc.
           rewrite insert_app_r_alt, Nat.sub_diag by lia. reflexivity.
        -- intros l0 Hm0 Hni. apply Hg.
           ++ rewrite memo_get_cons_ne; [exact Hm0|]. intros ->. apply Hni. now left.
           ++ intros Hin. apply Hni. now right.
    + apply bind_Ok_inv in Hr as (l' & Hm & [= <-]).
      assert (Hall : Forall2 (fun h v => reify n src h = Ok v) xs l').
      { clear -Hm. revert l' Hm. induction xs as [|h xs IHx]; intros l'; cbn [mapM].
        - intros [= <-]. constructor.
        - intros H. apply bind_Ok_inv in H as (v & Hv & H).
          apply bind_Ok_inv in H as (d' & Hd' & [= <-]).
          constructor; [exact Hv | now apply IHx]. }
      apply NoDup_cons in Hnd as [Hl Hnd].
      cbn [unique_keys] in Hu. rewrite forallb_forall in Hu.
      destruct fuel as [|fuel]; [cbn [depth] in Hd; lia|].
      assert (Ll := lookup_lt_Some _ _ _ El). assert (Lp := prefix_length _ _ Hpre).
      cbn [deepcopy]. rewrite (Hfree l) by now left.
      rewrite (prefix_lookup _ _ _ Hpre Ll), El.
      rewrite (bindM_Ok _ _ s (length s) (s ++ [OList []])) by reflexivity.
      destruct (fill_list_tree n fuel src IH xs l' Hall) with
        (memo := (l, length s) :: memo) (s := s ++ [OList []]) (y := length s)
        (ys := @nil hval) as (memo' & Hrun & Hg).
      * apply Forall_forall. intros x Hx%list_elem_of_In. split; [now apply Hu|].
        destruct (depth_element l' x (S fuel)); [exact Hd | exact Hx | lia].
      * exact Hnd.
      * now apply prefix_app_r.
      * lia.
      * intros l0 Hl0. rewrite memo_get_cons_ne.
        -- apply Hfree. now right.
        -- intros ->. apply Hl. now apply list_elem_of_In.
      * now apply list_lookup_middle.
      * rewrite (bindM_Ok _ _ _ _ _ Hrun).
        replace (length (s ++ [OList []])) with (S (length s))
          by (rewrite length_app; simpl; lia).
        rewrite layout_list. cbn [fst snd app]. exists memo'. split.
        -- unfold mret, M_ret. f_equal.
           rewrite <- app_assoc.
           rewrite insert_app_r_alt, Nat.sub_diag by lia. reflexivity.
        -- intros l0 Hm0 Hni. apply Hg.
           ++ rewrite memo_get_cons_ne; [exact Hm0|]. intros ->. apply Hni. now left.
           ++ intros Hin. apply Hni. now right.
Qed.

(** [resolve_ids] on a tree of objects: the answer is a function of the
    query the tree reads as. *)
Lemma resolve_ids_tree data population_name n v (s : store) h fuel :
  reify n s h = Ok v -> NoDup (footprint n s h) ->
  unique_keys v = true -> plain_query v = true -> (depth v < fuel)%nat ->
  fst (resolve_ids fuel data population_name h s) = resolve_query data population_name v.
Proof.
  intros Hr Hnd Hu Hpl Hd.
  destruct (deepcopy_tree n v s h Hr Hu Hnd fuel [] s) as (memo' & Hcopy & _);
    [lia | reflexivity | intros l _; reflexivity |].
  unfold resolve_ids. rewrite (bindM_Ok _ _ _ _ _ Hcopy). cbn beta iota.
  destruct (traverse_resolves data population_name fuel fuel v ltac:(lia) ltac:(lia) Hpl
              s []) as (objs' & Hlen & Hrun & Hpost).
  rewrite !app_nil_r in Hrun. unfold mbind at 1, M_bind at 1. rewrite Hrun.
  unfold resolve_query.
  destruct (resolve_node data population_name v) as [entries|e]; cbn [void fst];
    [|reflexivity].
  rewrite bind_Ok. destruct (plain_query_is_dict v Hpl) as [d ->].
  rewrite layout_dict. cbn [fst].
  assert (Hl : (s ++ objs') !! length s = Some (ODict (masks_dict entries))).
  { rewrite lookup_app_r, Nat.sub_diag by lia. now apply Hpost. }
  unfold mbind, M_bind. rewrite (merge_resolved _ _ _ Hl).
  now destruct (merge_masks entries).
Qed.

(** The objects of a copy are those of its layout, in order. *)
Lemma footprint_elements l : forall N (s : store) pos,
  Forall (fun v => forall N (s : store) n,
            placed s n (snd (layout v n)) -> (depth v <= N)%nat ->
            footprint N s (fst (layout v n)) = seq n (length (snd (layout v n)))) l ->
  placed s pos (snd (layout_all layout l pos)) ->
  Forall (fun v => (depth v <= N)%nat) l ->
  flat_map (footprint N s) (fst (layout_all layout l pos))
  = seq pos (length (snd (layout_all layout l pos))).
Proof.
  induction l as [|x l IH]; intros N s pos HP Hp Hd; [reflexivity|].
  rewrite layout_all_cons in *. cbn [fst snd flat_map] in *.
  apply placed_app in Hp as [Hp1 Hp2]. apply Forall_cons in Hd as [Hdx Hd].
  apply Forall_cons in HP as [HPx HP].
  rewrite length_app, seq_app. f_equal; [now apply HPx | now apply IH].
Qed.

Lemma footprint_entries d : forall N (s : store) pos,
  Forall (fun kv => forall N (s : store) n,
            placed s n (snd (layout (snd kv) n)) -> (depth (snd kv) <= N)%nat ->
            footprint N s (fst (layout (snd kv) n))
            = seq n (length (snd (layout (snd kv) n)))) d ->
  placed s pos (snd (layout_all layout_entry d pos)) ->
  Forall (fun kv => (depth (snd kv) <= N)%nat) d ->
  flat_map (fun kh => footprint N s (snd kh)) (fst (layout_all layout_entry d pos))
  = seq pos (length (snd (layout_all layout_entry d pos))).
Proof.
  induction d as [|x d IH]; intros N s pos HP Hp Hd; [reflexivity|].
  rewrite layout_all_cons, layout_entry_eq in *. cbn [fst snd flat_map] in *.
  apply placed_app in Hp as [Hp1 Hp2]. apply Forall_cons in Hd as [Hdx Hd].
  apply Forall_cons in HP as [HPx HP].
  rewrite length_app, seq_app. f_equal; [now apply HPx | now apply IH].
Qed.

Lemma footprint_layout v : forall N (s : store) n,
  placed s n (snd (layout v n)) -> (depth v <= N)%nat ->
  footprint N s (fst (layout v n)) = seq n (length (snd (layout v n))).
Proof.
  induction v as [a|l|bs|ids|l IH|d IH] using value_nested_ind; intros N s n Hp Hd;
    try (destruct N; reflexivity).
  - rewrite layout_list in *. cbn [fst snd length seq] in *.
    apply placed_cons in Hp as [Hn Hp].
    destruct N as [|N]; [cbn [depth] in Hd; lia|]. cbn [footprint]. rewrite Hn.
    f_equal. apply footprint_elements; [exact IH | exact Hp|].
    apply Forall_forall. intros x Hx%list_elem_of_In.
    destruct (depth_element l x (S N) Hd Hx). lia.
  - rewrite layout_dict in *. cbn [fst snd length seq] in *.
    apply placed_cons in Hp as [Hn Hp].
    destruct N as [|N]; [cbn [depth] in Hd; lia|]. cbn [footprint]. rewrite Hn.
    f_equal. apply footprint_entries; [exact IH | exact Hp|].
    apply Forall_forall. intros x Hx%list_elem_of_In. now apply (depth_entry d).
Qed.

Lemma footprint_entries_layout d N (s : store) pos :
  placed s pos (snd (layout_all layout_entry d pos)) ->
  Forall (fun kv => (depth (snd kv) <= N)%nat) d ->
  flat_map (fun kh => footprint N s (snd kh)) (fst (layout_all layout_entry d pos))
  = seq pos (length (snd (layout_all layout_entry d pos))).
Proof.
  intros Hp Hd. apply footprint_entries; [|exact Hp|exact Hd].
  apply Forall_forall. intros kv _ N' s' n. apply footprint_layout.
Qed.

Lemma footprint_elements_layout l N (s : store) pos :
  placed s pos (snd (layout_all layout l pos)) ->
  Forall (fun v => (depth v <= N)%nat) l ->
  flat_map (footprint N s) (fst (layout_all layout l pos))
  = seq pos (length (snd (layout_all layout l pos))).
Proof.
  intros Hp Hd. apply footprint_elements; [|exact Hp|exact Hd].
  apply Forall_forall. intros v _ N' s' n. apply footprint_layout.
Qed.

(** Deleting an entry that holds no object leaves the objects of a
    dictionary as they are. *)
Lemma footprint_dict_del N (s : store) k (hd : list (string * hval)) :
  (forall h, In (k, h) hd -> footprint N s h = []) ->
  flat_map (fun kh => footprint N s (snd kh)) (dict_del k hd)
  = flat_map (fun kh => footprint N s (snd kh)) hd.
Proof.
  unfold dict_del. induction hd as [|[k' h] hd IH]; intros H; [reflexivity|].
  cbn [List.filter fst flat_map snd].
  destruct (String.eqb_spec k k') as [->|Hne]; cbn [negb flat_map snd].
  - rewrite (H h) by now left. cbn [app]. apply IH. intros h' Hin. apply H. now right.
  - f_equal. apply IH. intros h' Hin. apply H. now right.
Qed.

Lemma footprint_dict N (s : store) (l : nat) hd :
  s !! l = Some (ODict hd) ->
  footprint (S N) s (HRef l) = l :: flat_map (fun kh => footprint N s (snd kh)) hd.
Proof. intros H. cbn [footprint]. now rewrite H. Qed.

Lemma footprint_list N (s : store) (l : nat) hs :
  s !! l = Some (OList hs) ->
  footprint (S N) s (HRef l) = l :: flat_map (footprint N s) hs.
Proof. intros H. cbn [footprint]. now rewrite H. Qed.

Lemma footprint_ids N (s : store) ids : footprint N s (HIds ids) = [].
Proof. now destruct N. Qed.

Lemma footprint_scalar N (s : store) a : footprint N s (HScalar a) = [].
Proof. now destruct N. Qed.

Lemma NoDup_expanded (y a c b p leaf : nat) :
  p = (S y + a)%nat -> (p + S c + b <= leaf)%nat ->
  NoDup (y :: seq (S y) a ++ (p :: seq (S p) c ++ [leaf]) ++ seq (p + S c) b).
Proof.
  intros -> Hleaf.
  assert (E : forall x : nat,
            x ∈ seq (S y) a ++ ((S y + a)%nat :: seq (S (S y + a)) c ++ [leaf])
                 ++ seq (S y + a + S c) b ->
            (y < x)%nat).
  { intros x. rewrite !elem_of_app, elem_of_cons, elem_of_app, list_elem_of_singleton,
      !elem_of_seq. lia. }
  apply NoDup_cons. split; [intros H%E; lia|].
  apply NoDup_app. split; [apply NoDup_seq|]. split.
  - intros x. rewrite elem_of_seq, elem_of_app, elem_of_cons, elem_of_app,
      list_elem_of_singleton, !elem_of_seq. lia.
  - apply NoDup_app. split; [|split; [|apply NoDup_seq]].
    + apply NoDup_cons. split.
      * rewrite elem_of_app, list_elem_of_singleton, elem_of_seq. lia.
      * apply NoDup_app. split; [apply NoDup_seq|]. split; [|apply NoDup_singleton].
        intros x. rewrite elem_of_seq, list_elem_of_singleton. lia.
    + intros x. rewrite elem_of_cons, elem_of_app, list_elem_of_singleton, !elem_of_seq. lia.
Qed.

Lemma NoDup_created (y k p : nat) :
  p = (S y + k)%nat -> NoDup (y :: seq (S y) k ++ [p; S p]).
Proof.
  intros ->. apply NoDup_cons. split.
  - rewrite elem_of_app, elem_of_seq, !elem_of_cons, elem_of_nil. lia.
  - apply NoDup_app. split; [apply NoDup_seq|]. split.
    + intros x. rewrite elem_of_seq, !elem_of_cons, elem_of_nil. lia.
    + apply NoDup_cons. split; [|apply NoDup_singleton].
      rewrite list_elem_of_singleton. lia.
Qed.

(** The entry of a key that occurs once. *)
Lemma dict_entry_unique {V} k (v h : V) d :
  NoDup (map fst d) -> dict_get k d = Some v -> In (k, h) d -> h = v.
Proof.
  intros Hnd Hg Hin. rewrite (dict_get_entry _ _ _ Hnd Hin) in Hg. congruence.
Qed.

Section ExpandNodeSet.
Variable NodeSet : Type.
Variable node_sets : scalar -> result NodeSet.
Variable get_ids : NodeSet -> bool -> result (list Z).
Variable raise_missing_prop : bool.
Variable name : scalar.
Variable node_set : NodeSet.
Variable ids : list Z.
Hypothesis node_set_known : node_sets name = Ok node_set.
Hypothesis node_set_ids : get_ids node_set raise_missing_prop = Ok ids.

Variable d : list (string * value).
Variable f : nat.
Hypothesis keys_once : NoDup (map fst d).
Hypothesis entries_plain : forallb entry_plain d = true.
Hypothesis has_node_set : In (NODE_SET_KEY, VScalar name) d.
Hypothesis no_other_node_set : visits_node_set (VDict (dict_del NODE_SET_KEY d)) = false.
Hypothesis depth_d : (depth (VDict d) <= S f)%nat.

Lemma entries_conds :
  Forall (fun kv => fst kv <> NODE_SET_KEY ->
                    (depth (snd kv) <= S f)%nat /\ entry_plain kv = true /\
                    entry_visits_node_set kv = false) d.
Proof.
  apply Forall_forall. intros kv Hkv%list_elem_of_In Hne. split; [|split].
  - assert (H := depth_entry d kv f depth_d Hkv). lia.
  - rewrite forallb_forall in entries_plain. now apply entries_plain.
  - destruct (entry_visits_node_set kv) eqn:E; [|reflexivity].
    rewrite visits_node_set_dict in no_other_node_set.
    assert (Hex : existsb entry_visits_node_set (dict_del NODE_SET_KEY d) = true).
    { apply existsb_exists. exists kv. split; [|exact E].
      unfold dict_del. apply filter_In. split; [exact Hkv|].
      apply negb_true_iff, String.eqb_neq. congruence. }
    congruence.
Qed.

Lemma entries_depth n : (f <= n)%nat -> Forall (fun kv => (depth (snd kv) <= n)%nat) d.
Proof.
  intros Hn. apply Forall_forall. intros kv Hkv%list_elem_of_In.
  assert (H := depth_entry d kv f depth_d Hkv). lia.
Qed.

(** The traversal on the copy when the query has no [$and] entry. *)
Lemma expand_without_and (s0 : store) :
  dict_get AND_KEY d = None ->
  exists s1,
    traverse_queries_bottom_up (S (S f))
      (_resolve NodeSet node_sets get_ids raise_missing_prop) (HRef (length s0))
      (s0 ++ snd (layout (VDict d) (length s0))) = (Ok tt, s1) /\
    reify (S (S (S (S f)))) s1 (HRef (length s0)) = Ok (VDict (expand_node_set ids d)) /\
    NoDup (footprint (S (S (S (S f)))) s1 (HRef (length s0))).
Proof.
  intros Hand. rewrite layout_dict. cbn [snd].
  set (y := length s0).
  set (hd := fst (layout_all layout_entry d (S y))).
  set (objs := snd (layout_all layout_entry d (S y))).
  set (sc := s0 ++ ODict hd :: objs).
  assert (Hp0 : placed sc y (ODict hd :: objs)) by apply placed_end.
  apply placed_cons in Hp0 as [Hy Hp].
  assert (Hall : Forall2 (fun kh kv => fst kh = fst kv /\
                                       reify (S (S (S f))) sc (snd kh) = Ok (snd kv)) hd d).
  { apply reify_entries; [exact Hp | apply entries_depth; lia]. }
  assert (Hkeys : map fst hd = map fst d) by apply layout_all_keys.
  assert (Hndh : NoDup (map fst hd)) by now rewrite Hkeys.
  assert (Hns : dict_get NODE_SET_KEY hd = Some (HScalar name)).
  { assert (H := dict_get_Forall2 _ NODE_SET_KEY _ _ Hall). cbn beta in H.
    rewrite (dict_get_entry _ _ _ keys_once has_node_set) in H.
    destruct (dict_get NODE_SET_KEY hd) as [h|]; [|contradiction].
    cbn [snd] in H. now rewrite (reify_scalar_inv _ _ _ _ H). }
  assert (Handh : dict_get AND_KEY hd = None).
  { apply dict_get_None. rewrite Hkeys. now apply dict_get_None. }
  destruct (resolve_creates NodeSet node_sets get_ids raise_missing_prop name node_set ids
              node_set_known node_set_ids sc y hd Hy Hns Handh)
    as (s1 & Hev & Hy1 & Hl1 & Hleaf1 & Hframe).
  assert (Hp1 : placed s1 (S y) objs).
  { apply (placed_frame sc); [exact Hp|]. intros i Hi. apply Hframe; [|lia].
    exact (placed_lt _ _ _ _ Hp Hi). }
  assert (Hall1 : Forall2 (fun kh kv => fst kh = fst kv /\
                                        reify (S (S (S f))) s1 (snd kh) = Ok (snd kv)) hd d).
  { apply reify_entries; [exact Hp1 | apply entries_depth; lia]. }
  exists s1. split; [|split].
  - apply (traverse_node_set NodeSet node_sets get_ids raise_missing_prop name
             (S f) sc s1 y hd _ d d (S (S (S f))) Hy keys_once has_node_set Hall
             entries_conds Hev Hy1); [|exact Hall1|exact entries_conds].
    intros [k h] Hin Hne. cbn [fst snd] in *.
    rewrite dict_get_del_ne by exact Hne.
    apply dict_get_app_l. now apply dict_get_entry.
  - apply (reify_dict_intro _ _ _ _ _ Hy1).
    unfold expand_node_set, and_list. rewrite Hand. cbn [app].
    rewrite dict_set_absent by now apply dict_get_None.
    apply Forall2_dict_del. apply Forall2_app; [exact Hall1|].
    constructor; [|constructor]. split; [reflexivity|]. cbn [snd].
    apply (reify_list_intro _ _ _ _ _ Hl1). constructor; [|constructor].
    cbn [reify]. now rewrite Hleaf1.
  - rewrite (footprint_dict _ _ _ _ Hy1), footprint_dict_del.
    2:{ intros h [Hh|[[=]|[]]]%in_app_or.
        rewrite (dict_entry_unique _ _ _ _ Hndh Hns Hh). apply footprint_scalar. }
    rewrite flat_map_app. cbn [flat_map snd].
    rewrite (footprint_list _ _ _ _ Hl1). cbn [flat_map].
    rewrite (footprint_dict _ _ _ _ Hleaf1). cbn [flat_map snd].
    rewrite footprint_ids. cbn [app].
    assert (Hfp := footprint_entries_layout d (S (S (S f))) s1 (S y) Hp1
                     (entries_depth (S (S (S f))) ltac:(lia))).
    fold hd objs in Hfp. rewrite Hfp.
    apply NoDup_created. unfold sc. rewrite length_app. cbn [length]. fold y. lia.
Qed.

(** The traversal on the copy when the query has an [$and] entry,
    before or after [$node_set]. *)
Lemma expand_with_and (s0 : store) v :
  dict_get AND_KEY d = Some v ->
  exists s1,
    traverse_queries_bottom_up (S (S f))
      (_resolve NodeSet node_sets get_ids raise_missing_prop) (HRef (length s0))
      (s0 ++ snd (layout (VDict d) (length s0))) = (Ok tt, s1) /\
    reify (S (S (S (S f)))) s1 (HRef (length s0)) = Ok (VDict (expand_node_set ids d)) /\
    NoDup (footprint (S (S (S (S f)))) s1 (HRef (length s0))).
Proof.
  intros Hand. rewrite layout_dict. cbn [snd].
  assert (Hin := dict_get_In_pair _ _ _ Hand).
  assert (Hconds := entries_conds).
  assert (Hdepth := entries_depth (S (S (S f)))).
  assert (Hnd := keys_once).
  assert (Hpl : exists l, v = VList l).
  { rewrite forallb_forall in entries_plain. specialize (entries_plain _ Hin).
    unfold entry_plain in entries_plain. cbn [fst snd] in entries_plain.
    replace (mem AND_KEY [OR_KEY; AND_KEY]) with true in entries_plain by reflexivity.
    destruct v; try discriminate. eauto. }
  destruct Hpl as [l ->].
  destruct (in_split _ _ Hin) as (dA & dB & Ed).
  set (y := length s0).
  remember (fst (layout_all layout_entry d (S y))) as hd eqn:Ehd.
  remember (snd (layout_all layout_entry d (S y))) as objs eqn:Eobjs.
  set (sc := s0 ++ ODict hd :: objs).
  assert (Hp0 : placed sc y (ODict hd :: objs)) by apply placed_end.
  apply placed_cons in Hp0 as [Hy Hp].
  assert (Hall : Forall2 (fun kh kv => fst kh = fst kv /\
                                       reify (S (S (S f))) sc (snd kh) = Ok (snd kv)) hd d).
  { subst hd. apply reify_entries; [now subst objs | apply Hdepth; lia]. }
  assert (Hkeys : map fst hd = map fst d) by (subst hd; apply layout_all_keys).
  assert (Hndh : NoDup (map fst hd)) by now rewrite Hkeys.
  assert (Hns : dict_get NODE_SET_KEY hd = Some (HScalar name)).
  { assert (H := dict_get_Forall2 _ NODE_SET_KEY _ _ Hall). cbn beta in H.
    rewrite (dict_get_entry _ _ _ keys_once has_node_set) in H.
    destruct (dict_get NODE_SET_KEY hd) as [h|]; [|contradiction].
    cbn [snd] in H. now rewrite (reify_scalar_inv _ _ _ _ H). }
  rewrite Ed, layout_all_middle in Ehd, Eobjs. cbn [fst snd] in Ehd, Eobjs.
  remember (fst (layout_all layout_entry dA (S y))) as hA eqn:EhA.
  remember (snd (layout_all layout_entry dA (S y))) as oA eqn:EoA.
  remember (S y + length oA)%nat as p eqn:Ep.
  remember (fst (layout_all layout l (S p))) as hs eqn:Ehs.
  remember (snd (layout_all layout l (S p))) as och eqn:Eoch.
  remember (fst (layout_all layout_entry dB (p + S (length och)))) as hB eqn:EhB.
  remember (snd (layout_all layout_entry dB (p + S (length och)))) as oB eqn:EoB.
  rewrite Ed in Hnd, Hconds, Hdepth.
  rewrite map_app in Hnd. cbn [map fst] in Hnd.
  apply NoDup_app in Hnd as (_ & Hdisj & _).
  assert (HandA : ~ In AND_KEY (map fst dA)).
  { intros Hi%list_elem_of_In. apply (Hdisj _ Hi). left. }
  assert (HandhA : ~ In AND_KEY (map fst hA)).
  { subst hA. now rewrite layout_all_keys. }
  assert (Handh : dict_get AND_KEY hd = Some (HRef p)).
  { rewrite Ehd. now apply dict_get_middle. }
  rewrite Eobjs in Hp.
  apply placed_app in Hp as [HpA Hp]. apply placed_app in Hp as [HpL HpB].
  apply placed_cons in HpL as [Hl HpC].
  rewrite <- Ep in Hl, HpC, HpB. cbn [length] in HpB.
  destruct (resolve_appends NodeSet node_sets get_ids raise_missing_prop name node_set ids
              node_set_known node_set_ids sc y p hd hs Hy Hns Handh Hl)
    as (s1 & Hev & Hy1 & Hl1 & Hleaf1 & Hframe).
  assert (HpA1 : placed s1 (S y) oA).
  { apply (placed_frame sc); [exact HpA|]. intros i Hi.
    apply Hframe; [exact (placed_lt _ _ _ _ HpA Hi) | lia | lia]. }
  assert (HpC1 : placed s1 (S p) och).
  { apply (placed_frame sc); [exact HpC|]. intros i Hi.
    apply Hframe; [exact (placed_lt _ _ _ _ HpC Hi) | lia | lia]. }
  assert (HpB1 : placed s1 (p + S (length och)) oB).
  { apply (placed_frame sc); [exact HpB|]. intros i Hi.
    apply Hframe; [exact (placed_lt _ _ _ _ HpB Hi) | lia | lia]. }
  specialize (Hdepth ltac:(lia)).
  apply Forall_app in Hdepth as [HdA HdB]. apply Forall_cons in HdB as [Hdl HdB].
  apply Forall_app in Hconds as [HcA HcB]. apply Forall_cons in HcB as [Hcl HcB].
  cbn [fst snd] in Hdl, Hcl.
  destruct (Hcl ltac:(discriminate)) as (Hdl' & Hpll & Hvl).
  assert (Hlf : (depth (VList l) <= f)%nat).
  { apply (depth_entry d (AND_KEY, VList l) f depth_d Hin). }
  set (d' := dA ++ (AND_KEY, VList (l ++ [node_set_leaf ids])) :: dB).
  assert (Hall1 : Forall2 (fun kh kv => fst kh = fst kv /\
                                        reify (S (S (S f))) s1 (snd kh) = Ok (snd kv)) hd d').
  { rewrite Ehd. unfold d'. apply Forall2_app; [|constructor].
    - subst hA. apply reify_entries; [now subst oA | exact HdA].
    - split; [reflexivity|]. cbn [snd].
      apply (reify_list_intro _ _ _ _ _ Hl1). apply Forall2_app.
      + subst hs. apply reify_elements; [now subst och|].
        apply Forall_forall. intros x Hx%list_elem_of_In.
        destruct (depth_element l x f Hlf Hx). lia.
      + constructor; [|constructor]. cbn [reify]. now rewrite Hleaf1.
    - subst hB. apply reify_entries; [now subst oB | exact HdB]. }
  assert (Hconds1 : Forall (fun kv => fst kv <> NODE_SET_KEY ->
                              (depth (snd kv) <= S f)%nat /\ entry_plain kv = true /\
                              entry_visits_node_set kv = false) d').
  { unfold d'. apply Forall_app. split; [exact HcA|]. constructor; [|exact HcB].
    intros _. cbn [snd]. split; [|split].
    - now apply depth_leaf_appended.
    - unfold entry_plain in *. cbn [fst snd] in *.
      replace (mem AND_KEY [OR_KEY; AND_KEY]) with true in * by reflexivity.
      rewrite forallb_app, Hpll. cbn [forallb andb]. now rewrite leaf_plain.
    - unfold entry_visits_node_set in *. cbn [fst snd] in *.
      replace (mem AND_KEY [OR_KEY; AND_KEY]) with true in * by reflexivity.
      apply orb_false_iff in Hvl as [_ Hvl]. apply orb_false_iff. split; [reflexivity|].
      rewrite existsb_app, Hvl. reflexivity. }
  exists s1. split; [|split].
  - apply (traverse_node_set NodeSet node_sets get_ids raise_missing_prop name
             (S f) sc s1 y hd _ d d' (S (S (S f))) Hy keys_once has_node_set Hall
             entries_conds Hev Hy1); [|exact Hall1|exact Hconds1].
    intros [k h] Hi Hne. cbn [fst snd] in *.
    rewrite dict_get_del_ne by exact Hne. now apply dict_get_entry.
  - apply (reify_dict_intro _ _ _ _ _ Hy1).
    unfold expand_node_set, and_list. rewrite Hand.
    replace (dict_set AND_KEY (VList (l ++ [node_set_leaf ids])) d) with d'.
    + now apply Forall2_dict_del.
    + unfold d'. rewrite Ed. symmetry. now apply dict_set_middle.
  - rewrite (footprint_dict _ _ _ _ Hy1), footprint_dict_del.
    2:{ intros h Hh. rewrite (dict_entry_unique _ _ _ _ Hndh Hns Hh).
        apply footprint_scalar. }
    rewrite Ehd, flat_map_app. cbn [flat_map snd].
    rewrite (footprint_list _ _ _ _ Hl1), flat_map_app. cbn [flat_map].
    rewrite (footprint_dict _ _ _ _ Hleaf1). cbn [flat_map snd].
    rewrite footprint_ids. cbn [app].
    rewrite EhA, (footprint_entries_layout dA (S (S (S f))) s1 (S y)) by (subst oA; auto).
    rewrite Ehs, (footprint_elements_layout l (S (S f)) s1 (S p)).
    2:{ now subst och. }
    2:{ apply Forall_forall. intros x Hx%list_elem_of_In.
        destruct (depth_element l x f Hlf Hx). lia. }
    rewrite EhB, (footprint_entries_layout dB (S (S (S f))) s1 (p + S (length och)))
      by (subst oB; auto).
    rewrite <- EoA, <- Eoch, <- EoB.
    apply NoDup_expanded; [exact Ep|].
    unfold sc. rewrite length_app. cbn [length]. rewrite Eobjs, !length_app.
    cbn [length]. fold y. lia.
Qed.
End ExpandNodeSet.

(** X23: a query whose top dictionary holds [$node_set: name], with no
    other node set below, is resolved into a copy where the entry is
    gone and the IDs of the node set are a new last element of the list
    under [$and], that key being added at the end when it was absent. *)
Theorem resolve_nodesets_expands_node_set :
  forall (NodeSet : Type) (node_sets : scalar -> result NodeSet)
         (get_ids : NodeSet -> bool -> result (list Z))
         (d : list (string * value)) name node_set ids (s : store) fuel raise_missing_prop,
    unique_keys (VDict d) = true -> plain_query (VDict d) = true ->
    In (NODE_SET_KEY, VScalar name) d ->
    visits_node_set (VDict (dict_del NODE_SET_KEY d)) = false ->
    (depth (VDict d) < fuel)%nat ->
    node_sets name = Ok node_set ->
    get_ids node_set raise_missing_prop = Ok ids ->
    exists resolved s',
      resolve_nodesets NodeSet node_sets get_ids fuel (fst (alloc (VDict d) s))
        raise_missing_prop (snd (alloc (VDict d) s)) = (Ok resolved, s') /\
      reify (S (S fuel)) s' resolved = Ok (VDict (expand_node_set ids d)).
Proof.
  intros NodeSet node_sets get_ids d name node_set ids s fuel rmp Hu Hpl Hin Hns Hd Hk Hi.
  destruct (alloc (VDict d) s) as [h s0] eqn:Ea. cbn [fst snd].
  destruct (deepcopy_layout (VDict d) Hu s h s0 fuel [] s0 Ea) as (memo' & Hcopy & _);
    [lia | reflexivity | intros l y [] |].
  rewrite plain_query_dict in Hpl. apply andb_true_iff in Hpl as [Hnd Hpl].
  apply bool_decide_eq_true_1 in Hnd.
  destruct fuel as [|[|f]]; [lia | cbn [depth] in Hd; lia |].
  assert (Hrun : exists s1,
    traverse_queries_bottom_up (S (S f))
      (_resolve NodeSet node_sets get_ids rmp) (HRef (length s0))
      (s0 ++ snd (layout (VDict d) (length s0))) = (Ok tt, s1) /\
    reify (S (S (S (S f)))) s1 (HRef (length s0)) = Ok (VDict (expand_node_set ids d)) /\
    NoDup (footprint (S (S (S (S f)))) s1 (HRef (length s0)))).
  { destruct (dict_get AND_KEY d) as [v|] eqn:Eand.
    - apply (expand_with_and NodeSet node_sets get_ids rmp name node_set ids Hk Hi
               d f Hnd Hpl Hin Hns ltac:(lia) s0 v Eand).
    - apply (expand_without_and NodeSet node_sets get_ids rmp name node_set ids Hk Hi
               d f Hnd Hpl Hin Hns ltac:(lia) s0 Eand). }
  destruct Hrun as (s1 & Hrun & Hread & _).
  exists (HRef (length s0)), s1. split; [|exact Hread].
  unfold resolve_nodesets. rewrite (bindM_Ok _ _ _ _ _ Hcopy). cbn beta iota.
  rewrite layout_dict in *. cbn [fst snd] in *.
  now rewrite (bindM_Ok _ _ _ tt s1 Hrun).
Qed.

Lemma resolve_nodesets_expands_node_set_witness :
  let d := [("layer", VScalar (SInt 2));
            ("$node_set", VScalar (SStr "Layer23"));
            ("$and", VList [VDict [("mtype", VScalar (SStr "a"))]])] in
  exists resolved s',
    resolve_nodesets unit (fun _ => Ok tt) (fun _ _ => Ok [2; 5]) 8 (fst (alloc (VDict d) []))
      true (snd (alloc (VDict d) [])) = (Ok resolved, s') /\
    reify 10 s' resolved = Ok (VDict (expand_node_set [2; 5] d)).
Proof.
  intros d.
  apply (resolve_nodesets_expands_node_set unit (fun _ => Ok tt) (fun _ _ => Ok [2; 5])
           d (SStr "Layer23") tt [2; 5] [] 8 true);
    [vm_compute; reflexivity | vm_compute; reflexivity | simpl; tauto
    | vm_compute; reflexivity | vm_compute; lia | reflexivity | reflexivity].
Defined.

(** ** A node set that cannot be resolved *)

Lemma bindM_Err {A B} (m : M A) (k : A -> M B) (s s' : store) e :
  m s = (Err e, s') -> (m ≫= k) s = (Err e, s').
Proof. intros H. unfold mbind, M_bind. now rewrite H. Qed.

Section NodeSetError.
Variable NodeSet : Type.
Variable node_sets : scalar -> result NodeSet.
Variable get_ids : NodeSet -> bool -> result (list Z).
Variable raise_missing_prop : bool.
Variable name : scalar.
Variable e : error.
Hypothesis lookup_fails :
  node_sets name = Err e \/
  exists node_set, node_sets name = Ok node_set /\
                   get_ids node_set raise_missing_prop = Err e.

(** The steps of [_resolve] from the look-up of the node set on. *)
Lemma resolve_raises_from (s : store) (y p : nat) hd xs :
  s !! y = Some (ODict hd) ->
  dict_get NODE_SET_KEY hd = Some (HScalar name) ->
  dict_get AND_KEY hd = Some (HRef p) ->
  s !! p = Some (OList xs) ->
  fst ((name ← getitem (HRef y) NODE_SET_KEY;
        node_set ← lift (lookup_node_set NodeSet node_sets name);
        lst ← getitem (HRef y) AND_KEY;
        _ ← read (fun s => match is_list lst s with
                           | Some _ => Ok tt
                           | None => Err (PyError "AttributeError: object has no attribute 'append'")
                           end);
        ids ← lift (get_ids node_set raise_missing_prop);
        leaf ← new_obj (ODict [(NODE_ID_KEY, HIds ids)]);
        list_append lst (HRef leaf);;
        delitem (HRef y) NODE_SET_KEY) s) = Err e.
Proof.
  intros Hy Hns Hand Hp.
  rewrite (bindM_Ok _ _ s (HScalar name) s).
  2:{ unfold getitem. rewrite (bindM_Ok _ _ s hd s) by (unfold get_dict; now rewrite Hy).
      now rewrite Hns. }
  destruct lookup_fails as [Hk | (node_set & Hk & Hi)].
  - rewrite (bindM_Err _ _ s s e); [reflexivity|]. unfold lift. cbn. now rewrite Hk.
  - rewrite (bindM_Ok _ _ s node_set s) by (unfold lift; cbn; now rewrite Hk).
    rewrite (bindM_Ok _ _ s (HRef p) s).
    2:{ unfold getitem. rewrite (bindM_Ok _ _ s hd s) by (unfold get_dict; now rewrite Hy).
        now rewrite Hand. }
    rewrite (bindM_Ok _ _ s tt s) by (unfold read, is_list; now rewrite Hp).
    rewrite (bindM_Err _ _ s s e); [reflexivity|]. unfold lift. now rewrite Hi.
Qed.

Lemma resolve_raises (s : store) (y : nat) hd :
  s !! y = Some (ODict hd) ->
  dict_get NODE_SET_KEY hd = Some (HScalar name) ->
  (forall h, dict_get AND_KEY hd = Some h ->
             exists (p : nat) xs, h = HRef p /\ s !! p = Some (OList xs)) ->
  fst (_resolve NodeSet node_sets get_ids raise_missing_prop (HRef y) NODE_SET_KEY s)
  = Err e.
Proof.
  intros Hy Hns Hand. unfold _resolve. rewrite String.eqb_refl.
  rewrite (bindM_Ok _ _ s hd s) by (unfold get_dict; now rewrite Hy).
  assert (Ly := lookup_lt_Some _ _ _ Hy).
  destruct (dict_get AND_KEY hd) as [h|] eqn:Eand.
  - destruct (Hand h eq_refl) as (p & xs & -> & Hp).
    assert (Hm : mem AND_KEY (map fst hd) = true).
    { apply mem_In, dict_get_In. eauto. }
    rewrite Hm. rewrite (bindM_Ok _ _ s tt s) by reflexivity.
    now apply (resolve_raises_from s y p hd xs).
  - assert (Hm : mem AND_KEY (map fst hd) = false).
    { apply mem_false. now apply dict_get_None. }
    rewrite Hm.
    set (hdA := hd ++ [(AND_KEY, HRef (length s))]).
    set (sa := <[y := ODict hdA]> (s ++ [OList []])).
    rewrite (bindM_Ok _ _ s tt sa).
    2:{ rewrite (bindM_Ok _ _ s (length s) (s ++ [OList []])) by reflexivity.
        unfold setitem.
        rewrite (bindM_Ok _ _ _ hd (s ++ [OList []])).
        2:{ unfold get_dict. now rewrite (lookup_app_l_Some _ _ _ _ Hy). }
        unfold put_dict, sa, hdA. rewrite dict_set_absent; [reflexivity|].
        now apply dict_get_None. }
    apply (resolve_raises_from sa y (length s) hdA []).
    + apply list_lookup_insert_eq. rewrite length_app. lia.
    + now apply dict_get_app_l.
    + unfold hdA. rewrite dict_get_app_r by exact Eand. reflexivity.
    + unfold sa. rewrite list_lookup_insert_ne by lia.
      rewrite lookup_app_r by lia. now rewrite Nat.sub_diag.
Qed.

(** The traversal of a dictionary with a [$node_set] entry that cannot
    be resolved: the keys before it change nothing, then [_resolve]
    raises. *)
Lemma traverse_node_set_raises f (s : store) (y : nat) hd d n :
  s !! y = Some (ODict hd) ->
  NoDup (map fst d) ->
  In (NODE_SET_KEY, VScalar name) d ->
  Forall2 (fun kh kv => fst kh = fst kv /\ reify n s (snd kh) = Ok (snd kv)) hd d ->
  Forall (fun kv => fst kv <> NODE_SET_KEY ->
                    (depth (snd kv) <= f)%nat /\ entry_plain kv = true /\
                    entry_visits_node_set kv = false) d ->
  fst (traverse_queries_bottom_up (S f)
         (_resolve NodeSet node_sets get_ids raise_missing_prop) (HRef y) s) = Err e.
Proof.
  intros Hy Hnd Hin Hall Hok.
  assert (Hnoop := resolve_noop NodeSet node_sets get_ids raise_missing_prop).
  assert (Hlevel := traverse_noop _ Hnoop f).
  assert (Hev : fst (_resolve NodeSet node_sets get_ids raise_missing_prop (HRef y)
                       NODE_SET_KEY s) = Err e).
  { apply (resolve_raises s y hd Hy).
    - assert (H := dict_get_Forall2 _ NODE_SET_KEY _ _ Hall). cbn beta in H.
      rewrite (dict_get_entry _ _ _ Hnd Hin) in H.
      destruct (dict_get NODE_SET_KEY hd) as [h|]; [|contradiction].
      cbn [snd] in H. now rewrite (reify_scalar_inv _ _ _ _ H).
    - intros h Hh.
      assert (H := dict_get_Forall2 _ AND_KEY _ _ Hall). cbn beta in H.
      rewrite Hh in H. destruct (dict_get AND_KEY d) as [v|] eqn:Ev; [|contradiction].
      cbn [snd] in H. apply dict_get_In_pair in Ev.
      rewrite Forall_forall in Hok.
      destruct (Hok _ (proj2 (list_elem_of_In _ _) Ev) ltac:(discriminate)) as (_ & Hp & _).
      unfold entry_plain in Hp. cbn [fst snd] in Hp.
      replace (mem AND_KEY [OR_KEY; AND_KEY]) with true in Hp by reflexivity.
      destruct v; try discriminate.
      apply reify_list_inv in H as (n' & p & xs & _ & -> & Hp' & _). eauto. }
  destruct (in_split _ _ Hin) as (d1 & d2 & ->).
  assert (Hkeys := Forall2_keys _ _ _ Hall).
  apply Forall2_app_inv_r in Hall as (hd1 & hr & Hall1 & Hr & ->).
  apply Forall2_cons_inv_r in Hr as (x & hd2 & [Hx Hxr] & Hall2 & ->).
  destruct x as [kx hx]. cbn [fst snd] in Hx, Hxr. subst kx.
  apply reify_scalar_inv in Hxr. subst hx.
  assert (Hndh : NoDup (map fst (hd1 ++ (NODE_SET_KEY, HScalar name) :: hd2)))
    by now rewrite Hkeys.
  assert (Hndh' := Hndh). rewrite map_app in Hndh'. cbn [map fst] in Hndh'.
  apply NoDup_app in Hndh' as (_ & Hdisj & _).
  assert (Hns1 : ~ In NODE_SET_KEY (map fst hd1)).
  { intros Hi%list_elem_of_In. apply (Hdisj _ Hi). left. }
  cbn [traverse_queries_bottom_up].
  rewrite (bindM_Ok _ _ s (map fst (hd1 ++ (NODE_SET_KEY, HScalar name) :: hd2)) s).
  2:{ unfold dict_keys.
      rewrite (bindM_Ok _ _ s (hd1 ++ (NODE_SET_KEY, HScalar name) :: hd2) s);
        [reflexivity|].
      unfold get_dict. now rewrite Hy. }
  rewrite map_app. cbn [map fst].
  rewrite (forM__app _ _ _ s s).
  2:{ apply (keys_noop _ Hnoop f Hlevel s y
             (hd1 ++ (NODE_SET_KEY, HScalar name) :: hd2) n hd1 d1 Hy Hall1).
      - intros [k h] Hi. apply dict_get_entry; [exact Hndh|].
        apply in_or_app. now left.
      - apply Forall_forall. intros kv Hkv%list_elem_of_In.
        rewrite Forall_forall in Hok. apply Hok.
        + apply list_elem_of_In, in_or_app. now left.
        + intros E. apply Hns1. rewrite (Forall2_keys _ _ _ Hall1), <- E.
          now apply in_map. }
  cbn [forM_].
  destruct (_resolve NodeSet node_sets get_ids raise_missing_prop (HRef y) NODE_SET_KEY s)
    as [r s'] eqn:Er. cbn [fst] in Hev. subst r.
  rewrite (bindM_Err _ _ s s' e); [reflexivity|].
  rewrite (bindM_Ok _ _ s tt s); [exact Er|].
  unfold traverse_children. cbn [mem existsb].
  replace (String.eqb NODE_SET_KEY OR_KEY) with false by reflexivity.
  replace (String.eqb NODE_SET_KEY AND_KEY) with false by reflexivity.
  cbn [orb].
  rewrite (bindM_Ok _ _ s (HScalar name) s); [reflexivity|].
  unfold getitem.
  rewrite (bindM_Ok _ _ s (hd1 ++ (NODE_SET_KEY, HScalar name) :: hd2) s)
    by (unfold get_dict; now rewrite Hy).
  now rewrite (dict_get_middle _ _ _ _ Hns1).
Qed.
End NodeSetError.

(** X24: when the top dictionary of a query holds [$node_set: name]
    and the node set is not found, or its IDs cannot be computed,
    [resolve_nodesets] raises that same exception. *)
Theorem resolve_nodesets_node_set_error :
  forall (NodeSet : Type) (node_sets : scalar -> result NodeSet)
         (get_ids : NodeSet -> bool -> result (list Z))
         (d : list (string * value)) name e (s : store) fuel raise_missing_prop,
    unique_keys (VDict d) = true -> plain_query (VDict d) = true ->
    In (NODE_SET_KEY, VScalar name) d ->
    visits_node_set (VDict (dict_del NODE_SET_KEY d)) = false ->
    (depth (VDict d) < fuel)%nat ->
    (node_sets name = Err e \/
     exists node_set, node_sets name = Ok node_set /\
                      get_ids node_set raise_missing_prop = Err e) ->
    fst (resolve_nodesets NodeSet node_sets get_ids fuel (fst (alloc (VDict d) s))
           raise_missing_prop (snd (alloc (VDict d) s))) = Err e.
Proof.
  intros NodeSet node_sets get_ids d name e s fuel rmp Hu Hpl Hin Hns Hd Hfail.
  destruct (alloc (VDict d) s) as [h s0] eqn:Ea. cbn [fst snd].
  destruct (deepcopy_layout (VDict d) Hu s h s0 fuel [] s0 Ea) as (memo' & Hcopy & _);
    [lia | reflexivity | intros l y [] |].
  rewrite plain_query_dict in Hpl. apply andb_true_iff in Hpl as [Hnd Hpl].
  apply bool_decide_eq_true_1 in Hnd.
  destruct fuel as [|[|f]]; [lia | cbn [depth] in Hd; lia |].
  unfold resolve_nodesets. rewrite (bindM_Ok _ _ _ _ _ Hcopy). cbn beta iota.
  rewrite layout_dict in *. cbn [fst snd] in *.
  set (sc := s0 ++ _).
  assert (Hp0 : placed sc (length s0)
                  (ODict (fst (layout_all layout_entry d (S (length s0))))
                   :: snd (layout_all layout_entry d (S (length s0)))))
    by apply placed_end.
  apply placed_cons in Hp0 as [Hy Hp].
  assert (Hrun := traverse_node_set_raises NodeSet node_sets get_ids rmp name e Hfail
                    (S f) sc (length s0) _ d (S (S (S f))) Hy Hnd Hin
                    (reify_entries d _ sc _ Hp
                       (entries_depth d f ltac:(lia) (S (S (S f))) ltac:(lia)))
                    (entries_conds d f Hpl Hns ltac:(lia))).
  destruct (traverse_queries_bottom_up (S (S f)) (_resolve NodeSet node_sets get_ids rmp)
              (HRef (length s0)) sc) as [r s'] eqn:Et.
  cbn [fst] in Hrun. subst r. now rewrite (bindM_Err _ _ sc s' e Et).
Qed.

Lemma resolve_nodesets_node_set_error_witness :
  let d := [("layer", VScalar (SInt 2));
            ("$node_set", VScalar (SStr "Layer23"))] in
  fst (resolve_nodesets unit (fun _ => Err (PyError "KeyError")) (fun _ _ => Ok [2; 5]) 8
         (fst (alloc (VDict d) [])) true (snd (alloc (VDict d) [])))
  = Err (PyError "KeyError").
Proof.
  intros d.
  apply (resolve_nodesets_node_set_error unit (fun _ => Err (PyError "KeyError"))
           (fun _ _ => Ok [2; 5]) d (SStr "Layer23") (PyError "KeyError") [] 8 true);
    [vm_compute; reflexivity | vm_compute; reflexivity | simpl; tauto
    | vm_compute; reflexivity | vm_compute; lia | now left].
Defined.

(** ** Node sets, then IDs *)

Lemma dict_set_In {V} k (v : V) d kv :
  In kv (dict_set k v d) -> kv = (k, v) \/ In kv d.
Proof.
  induction d as [|[k' v'] d IH]; simpl.
  - intros [<-|[]]. now left.
  - destruct (String.eqb_spec k k') as [->|_]; simpl.
    + intros [<-|H]; auto.
    + intros [<-|H]; auto. destruct (IH H); auto.
Qed.

Lemma leaf_unique ids : unique_keys (node_set_leaf ids) = true.
Proof.
  unfold node_set_leaf. cbn [unique_keys]. apply andb_true_iff. split.
  - apply bool_decide_eq_true_2. apply NoDup_singleton.
  - reflexivity.
Qed.

(** The expanded query is a query as the original is. *)
Lemma expand_node_set_plain ids d :
  unique_keys (VDict d) = true -> plain_query (VDict d) = true ->
  unique_keys (VDict (expand_node_set ids d)) = true /\
  plain_query (VDict (expand_node_set ids d)) = true.
Proof.
  intros Hu Hpl. rewrite plain_query_dict in *. cbn [unique_keys] in *.
  apply andb_true_iff in Hu as [Hnd Hu]. apply andb_true_iff in Hpl as [_ Hpl].
  apply bool_decide_eq_true_1 in Hnd.
  rewrite forallb_forall in Hu, Hpl.
  assert (Hnd' : NoDup (map fst (expand_node_set ids d))).
  { unfold expand_node_set. now apply dict_del_NoDup, dict_set_NoDup. }
  assert (Hl : forallb unique_keys (and_list d) = true /\
               forallb plain_query (and_list d) = true).
  { unfold and_list. destruct (dict_get AND_KEY d) as [v|] eqn:E; [|now split].
    apply dict_get_In_pair in E. destruct v; try now split.
    split; [exact (Hu _ E) | exact (Hpl _ E)]. }
  destruct Hl as [Hlu Hlp].
  assert (Hin : forall kv, In kv (expand_node_set ids d) ->
                  kv = (AND_KEY, VList (and_list d ++ [node_set_leaf ids])) \/ In kv d).
  { intros kv H. unfold expand_node_set, dict_del in H.
    apply filter_In in H as [H _]. now apply dict_set_In in H. }
  split; apply andb_true_iff; (split; [now apply bool_decide_eq_true_2|]);
    apply forallb_forall; intros kv [->|H]%Hin; auto.
  - cbn [snd unique_keys]. rewrite forallb_app, Hlu. cbn [forallb].
    now rewrite leaf_unique.
  - unfold entry_plain. cbn [fst snd].
    replace (mem AND_KEY [OR_KEY; AND_KEY]) with true by reflexivity.
    rewrite forallb_app, Hlp. cbn [forallb]. now rewrite leaf_plain.
Qed.

(** X25: a query whose top dictionary holds [$node_set: name] goes
    through [resolve_nodesets], then [resolve_ids]; the rows selected
    are those of the query where that entry is replaced by the IDs of
    the node set, as one more element of the list under [$and]. *)
Theorem resolve_ids_after_resolve_nodesets :
  forall (NodeSet : Type) (node_sets : scalar -> result NodeSet)
         (get_ids : NodeSet -> bool -> result (list Z))
         data population_name
         (d : list (string * value)) name node_set ids (s : store)
         fuel fuel' raise_missing_prop,
    unique_keys (VDict d) = true -> plain_query (VDict d) = true ->
    In (NODE_SET_KEY, VScalar name) d ->
    visits_node_set (VDict (dict_del NODE_SET_KEY d)) = false ->
    (depth (VDict d) < fuel)%nat ->
    (depth (VDict (expand_node_set ids d)) < fuel')%nat ->
    node_sets name = Ok node_set ->
    get_ids node_set raise_missing_prop = Ok ids ->
    exists resolved s',
      resolve_nodesets NodeSet node_sets get_ids fuel (fst (alloc (VDict d) s))
        raise_missing_prop (snd (alloc (VDict d) s)) = (Ok resolved, s') /\
      fst (resolve_ids fuel' data population_name resolved s')
      = resolve_query data population_name (VDict (expand_node_set ids d)).
Proof.
  intros NodeSet node_sets get_ids data pop d name node_set ids s fuel fuel' rmp
         Hu Hpl Hin Hns Hd Hd' Hk Hi.
  destruct (expand_node_set_plain ids d Hu Hpl) as [Hu' Hpl'].
  destruct (alloc (VDict d) s) as [h s0] eqn:Ea. cbn [fst snd].
  destruct (deepcopy_layout (VDict d) Hu s h s0 fuel [] s0 Ea) as (memo' & Hcopy & _);
    [lia | reflexivity | intros l y [] |].
  rewrite plain_query_dict in Hpl. apply andb_true_iff in Hpl as [Hnd Hpl].
  apply bool_decide_eq_true_1 in Hnd.
  destruct fuel as [|[|f]]; [lia | cbn [depth] in Hd; lia |].
  assert (Hrun : exists s1,
    traverse_queries_bottom_up (S (S f))
      (_resolve NodeSet node_sets get_ids rmp) (HRef (length s0))
      (s0 ++ snd (layout (VDict d) (length s0))) = (Ok tt, s1) /\
    reify (S (S (S (S f)))) s1 (HRef (length s0)) = Ok (VDict (expand_node_set ids d)) /\
    NoDup (footprint (S (S (S (S f)))) s1 (HRef (length s0)))).
  { destruct (dict_get AND_KEY d) as [v|] eqn:Eand.
    - apply (expand_with_and NodeSet node_sets get_ids rmp name node_set ids Hk Hi
               d f Hnd Hpl Hin Hns ltac:(lia) s0 v Eand).
    - apply (expand_without_and NodeSet node_sets get_ids rmp name node_set ids Hk Hi
               d f Hnd Hpl Hin Hns ltac:(lia) s0 Eand). }
  destruct Hrun as (s1 & Hrun & Hread & Htree).
  exists (HRef (length s0)), s1. split.
  - unfold resolve_nodesets. rewrite (bindM_Ok _ _ _ _ _ Hcopy). cbn beta iota.
    rewrite layout_dict in *. cbn [fst snd] in *.
    now rewrite (bindM_Ok _ _ _ tt s1 Hrun).
  - now apply (resolve_ids_tree data pop _ _ s1 _ fuel' Hread Htree).
Qed.

Lemma resolve_ids_after_resolve_nodesets_witness :
  let d := [("layer", VScalar (SInt 2));
            ("$node_set", VScalar (SStr "Layer23"));
            ("$and", VList [VDict [("mtype", VScalar (SStr "a"))]])] in
  let data := {| df_index := [1; 2; 5];
                 df_columns := [("layer", ColInt [2; 2; 3]);
                                ("mtype", ColStr ["a"; "b"; "a"])] |} in
  exists resolved s',
    resolve_nodesets unit (fun _ => Ok tt) (fun _ _ => Ok [2; 5]) 8 (fst (alloc (VDict d) []))
      true (snd (alloc (VDict d) [])) = (Ok resolved, s') /\
    fst (resolve_ids 8 data "default" resolved s')
    = resolve_query data "default" (VDict (expand_node_set [2; 5] d)).
Proof.
  intros d data.
  apply (resolve_ids_after_resolve_nodesets unit (fun _ => Ok tt) (fun _ _ => Ok [2; 5])
           data "default" d (SStr "Layer23") tt [2; 5] [] 8 8 true);
    [vm_compute; reflexivity | vm_compute; reflexivity | simpl; tauto
    | vm_compute; reflexivity | vm_compute; lia | vm_compute; lia
    | reflexivity | reflexivity].
Defined.
